(** * Chat store of genai-toolbox: [internal/chats/store.go]

    A shallow embedding of the per-session append-only chat log store and
    of the library behaviour it relies on (UTF-8 decoding, [strings],
    [encoding/json] for the [Message] struct, [bufio.Scanner] line
    splitting, a small file-system model with injectable I/O faults),
    followed by the properties of [RecordMessage], [ArchiveSession],
    [loadChats] and [ExportAll].

    Go's [string] is modelled by [string] (a sequence of bytes, one [ascii]
    per byte) and [[]byte] by [list ascii]. *)

From Stdlib Require Import Ascii String List NArith Lia Bool Permutation Sorted.
From stdpp Require Import base option list gmap strings sorting.

Local Open Scope N_scope.

Abbreviation bytes := (list ascii).

(** The byte [c] as a number in [0, 255]. *)
Abbreviation byte_val := N_of_ascii.

(* ===================================================================== *)
(** ** [unicode/utf8] *)
(* ===================================================================== *)

Module utf8.

Definition RuneError : N := 0xFFFD.
Definition RuneSelf : N := 0x80.
Definition MaxRune : N := 0x10FFFF.
Definition surrogateMin : N := 0xD800.
Definition surrogateMax : N := 0xDFFF.

Definition maskx : N := 0x3F.
Definition mask2 : N := 0x1F.
Definition mask3 : N := 0x0F.
Definition mask4 : N := 0x07.
Definition locb : N := 0x80.
Definition hicb : N := 0xBF.

(** One entry of the table [first]: [ASCII] is [as], [Invalid] is [xx], and
    [Lead sz lo hi] carries the sequence length and the accept range of the
    second byte ([s1] .. [s7] with [acceptRanges]). *)
Inductive firstInfo :=
| ASCII
| Invalid
| Lead (sz : nat) (lo hi : N).

Definition first (p0 : N) : firstInfo :=
  if p0 <? 0x80 then ASCII
  else if p0 <? 0xC2 then Invalid
  else if p0 <? 0xE0 then Lead 2 locb hicb
  else if p0 =? 0xE0 then Lead 3 0xA0 hicb
  else if p0 <? 0xED then Lead 3 locb hicb
  else if p0 =? 0xED then Lead 3 locb 0x9F
  else if p0 <? 0xF0 then Lead 3 locb hicb
  else if p0 =? 0xF0 then Lead 4 0x90 hicb
  else if p0 <? 0xF4 then Lead 4 locb hicb
  else if p0 =? 0xF4 then Lead 4 locb 0x8F
  else Invalid.

Definition in_range (lo hi b : N) : bool := (lo <=? b) && (b <=? hi).

(** [DecodeRune p]: the first rune of [p] and its width in bytes;
    [(RuneError, 0)] on empty input and [(RuneError, 1)] on an invalid or
    truncated encoding. *)
Definition DecodeRune (p : bytes) : N * nat :=
  match p with
  | [] => (RuneError, 0%nat)
  | c0 :: p1 =>
    let p0 := byte_val c0 in
    match first p0 with
    | ASCII => (p0, 1%nat)
    | Invalid => (RuneError, 1%nat)
    | Lead sz lo hi =>
      match p1 with
      | [] => (RuneError, 1%nat)
      | c1 :: p2 =>
        let b1 := byte_val c1 in
        if (length p <? sz)%nat then (RuneError, 1%nat)
        else if negb (in_range lo hi b1) then (RuneError, 1%nat)
        else if (sz <=? 2)%nat then
          (N.lor (N.shiftl (N.land p0 mask2) 6) (N.land b1 maskx), 2%nat)
        else
          match p2 with
          | [] => (RuneError, 1%nat)
          | c2 :: p3 =>
            let b2 := byte_val c2 in
            if negb (in_range locb hicb b2) then (RuneError, 1%nat)
            else if (sz <=? 3)%nat then
              (N.lor (N.lor (N.shiftl (N.land p0 mask3) 12)
                            (N.shiftl (N.land b1 maskx) 6))
                     (N.land b2 maskx), 3%nat)
            else
              match p3 with
              | [] => (RuneError, 1%nat)
              | c3 :: _ =>
                let b3 := byte_val c3 in
                if negb (in_range locb hicb b3) then (RuneError, 1%nat)
                else
                  (N.lor (N.lor (N.lor (N.shiftl (N.land p0 mask4) 18)
                                       (N.shiftl (N.land b1 maskx) 12))
                                (N.shiftl (N.land b2 maskx) 6))
                         (N.land b3 maskx), 4%nat)
              end
          end
      end
    end
  end.

Definition byte_of (n : N) : ascii := ascii_of_N (N.land n 0xFF).

(** [AppendRune nil r]: the UTF-8 encoding of [r]; surrogates and values
    above [MaxRune] are encoded as [RuneError]. *)
Definition EncodeRune (r : N) : bytes :=
  if r <=? 0x7F then [byte_of r]
  else if r <=? 0x7FF then
    [byte_of (N.lor 0xC0 (N.shiftr r 6));
     byte_of (N.lor 0x80 (N.land r maskx))]
  else if (MaxRune <? r) || ((surrogateMin <=? r) && (r <=? surrogateMax)) then
    [byte_of 0xEF; byte_of 0xBF; byte_of 0xBD]
  else if r <=? 0xFFFF then
    [byte_of (N.lor 0xE0 (N.shiftr r 12));
     byte_of (N.lor 0x80 (N.land (N.shiftr r 6) maskx));
     byte_of (N.lor 0x80 (N.land r maskx))]
  else
    [byte_of (N.lor 0xF0 (N.shiftr r 18));
     byte_of (N.lor 0x80 (N.land (N.shiftr r 12) maskx));
     byte_of (N.lor 0x80 (N.land (N.shiftr r 6) maskx));
     byte_of (N.lor 0x80 (N.land r maskx))].

End utf8.

(** [for _, r := range s]: the runes of [s] with their widths, every invalid
    byte giving [(RuneError, 1)].  [skip] counts the bytes of the current
    rune that are still to be passed over. *)
Fixpoint runes_from (skip : nat) (s : bytes) : list (N * nat) :=
  match s with
  | [] => []
  | _ :: rest =>
    match skip with
    | S k => runes_from k rest
    | O => let rs := utf8.DecodeRune s in rs :: runes_from (Nat.pred (snd rs)) rest
    end
  end.

Definition runes (s : string) : list (N * nat) :=
  runes_from 0 (list_ascii_of_string s).

(** [utf8.ValidString]: no byte of [s] decodes to an encoding error. *)
Definition ValidString (s : string) : bool :=
  forallb (fun rs => negb ((fst rs =? utf8.RuneError) && (snd rs =? 1)%nat)) (runes s).

(** [s] coerced to valid UTF-8 as [encoding/json] does it: every byte
    that is not part of a valid encoding becomes U+FFFD. *)
Definition toValidUTF8 (s : string) : string :=
  string_of_list_ascii (concat (map (fun rs => utf8.EncodeRune (fst rs)) (runes s))).

(* ===================================================================== *)
(** ** [unicode] and [strings] *)
(* ===================================================================== *)

Module unicode.

(** [unicode.IsSpace]: the Latin-1 spaces and the [White_Space] table. *)
Definition IsSpace (r : N) : bool :=
  if r <=? 0xFF then
    (r =? 0x09) || (r =? 0x0A) || (r =? 0x0B) || (r =? 0x0C) || (r =? 0x0D)
    || (r =? 0x20) || (r =? 0x85) || (r =? 0xA0)
  else
    (r =? 0x1680) || ((0x2000 <=? r) && (r <=? 0x200A))
    || (r =? 0x2028) || (r =? 0x2029) || (r =? 0x202F) || (r =? 0x205F)
    || (r =? 0x3000).

End unicode.

Module strings.

(** Whether [strings.TrimSpace(s)] is the empty string: every rune of [s]
    is white space. *)
Definition TrimSpace_is_empty (s : string) : bool :=
  forallb (fun rs => unicode.IsSpace (fst rs)) (runes s).

(** [strings.Map(mapping, s)] for a [mapping] that never returns a
    negative rune and does not return [utf8.RuneError] for it. *)
Definition Map (mapping : N -> N) (s : string) : string :=
  string_of_list_ascii
    (concat (map (fun rs => utf8.EncodeRune (mapping (fst rs))) (runes s))).

Fixpoint HasSuffix_rev (s suffix : bytes) : bool :=
  match suffix, s with
  | [], _ => true
  | _ :: _, [] => false
  | a :: suffix', b :: s' => Ascii.eqb a b && HasSuffix_rev s' suffix'
  end.

Definition HasSuffix (s suffix : string) : bool :=
  HasSuffix_rev (rev (list_ascii_of_string s)) (rev (list_ascii_of_string suffix)).

Definition TrimSuffix (s suffix : string) : string :=
  if HasSuffix s suffix then
    string_of_list_ascii
      (take (String.length s - String.length suffix) (list_ascii_of_string s))
  else s.

End strings.

(* ===================================================================== *)
(** ** [encoding/json]: the scanner *)
(* ===================================================================== *)

Definition quote : ascii := "034".
Definition backslash : ascii := "\".

Module scanner.

(** The step functions of [scanner.go], one constructor per function. *)
Inductive stepFn :=
| stateBeginValueOrEmpty | stateBeginValue
| stateBeginStringOrEmpty | stateBeginString
| stateEndValue | stateEndTop
| stateInString | stateInStringEsc
| stateInStringEscU | stateInStringEscU1
| stateInStringEscU12 | stateInStringEscU123
| stateNeg | state1 | state0 | stateDot | stateDot0
| stateE | stateESign | stateE0
| stateT | stateTr | stateTru
| stateF | stateFa | stateFal | stateFals
| stateN | stateNu | stateNul
| stateError.

Inductive parseState := parseObjectKey | parseObjectValue | parseArrayValue.

(** The values a step returns. *)
Inductive opcode :=
| scanContinue | scanBeginLiteral | scanBeginObject | scanObjectKey
| scanObjectValue | scanEndObject | scanBeginArray | scanArrayValue
| scanEndArray | scanSkipSpace | scanEnd | scanError.

(** [v >= scanSkipSpace] *)
Definition ge_scanSkipSpace (v : opcode) : bool :=
  match v with
  | scanSkipSpace | scanEnd | scanError => true
  | _ => false
  end.

(** The scanner: its current step function, [endTop], the stack
    [parseState] (innermost first) and whether [err] is set. *)
Record t := mk {
  step : stepFn;
  endTop : bool;
  stack : list parseState;
  err : bool
}.

Definition maxNestingDepth : N := 10000.

Definition newScanner : t := mk stateBeginValue false [] false.

Definition isSpace (c : ascii) : bool :=
  match c with
  | " " | "009" | "013" | "010" => true
  | _ => false
  end%char.

Definition isDigit (c : ascii) : bool :=
  (byte_val "0" <=? byte_val c) && (byte_val c <=? byte_val "9").

Definition isDigit19 (c : ascii) : bool :=
  (byte_val "1" <=? byte_val c) && (byte_val c <=? byte_val "9").

Definition isHex (c : ascii) : bool :=
  isDigit c
  || ((byte_val "a" <=? byte_val c) && (byte_val c <=? byte_val "f"))
  || ((byte_val "A" <=? byte_val c) && (byte_val c <=? byte_val "F")).

Definition set_step (s : t) (f : stepFn) : t :=
  mk f (endTop s) (stack s) (err s).

(** [s.error(c, context)] *)
Definition error (s : t) : t * opcode :=
  (mk stateError (endTop s) (stack s) true, scanError).

(** [s.pushParseState(c, newParseState, successState)], called with the
    step function already set. *)
Definition pushParseState (s : t) (p : parseState) (ok : opcode) : t * opcode :=
  let s' := mk (step s) (endTop s) (p :: stack s) (err s) in
  if N.of_nat (length (stack s')) <=? maxNestingDepth then (s', ok)
  else error s'.

(** [s.popParseState()] *)
Definition popParseState (s : t) : t :=
  match stack s with
  | [] => s
  | _ :: rest =>
    match rest with
    | [] => mk stateEndTop true rest (err s)
    | _ => mk stateEndValue (endTop s) rest (err s)
    end
  end.

Definition do_stateEndTop (s : t) (c : ascii) : t * opcode :=
  if negb (isSpace c) then
    let (s', _) := error s in (s', scanEnd)
  else (s, scanEnd).

Definition do_stateEndValue (s : t) (c : ascii) : t * opcode :=
  match stack s with
  | [] => do_stateEndTop (mk stateEndTop true [] (err s)) c
  | ps :: rest =>
    if isSpace c then (set_step s stateEndValue, scanSkipSpace)
    else
      match ps with
      | parseObjectKey =>
        if Ascii.eqb c ":" then
          (mk stateBeginValue (endTop s) (parseObjectValue :: rest) (err s),
           scanObjectKey)
        else error s
      | parseObjectValue =>
        if Ascii.eqb c "," then
          (mk stateBeginString (endTop s) (parseObjectKey :: rest) (err s),
           scanObjectValue)
        else if Ascii.eqb c "}" then (popParseState s, scanEndObject)
        else error s
      | parseArrayValue =>
        if Ascii.eqb c "," then (set_step s stateBeginValue, scanArrayValue)
        else if Ascii.eqb c "]" then (popParseState s, scanEndArray)
        else error s
      end
  end.

Definition do_stateBeginValue (s : t) (c : ascii) : t * opcode :=
  if isSpace c then (s, scanSkipSpace)
  else if Ascii.eqb c "{" then
    pushParseState (set_step s stateBeginStringOrEmpty) parseObjectKey scanBeginObject
  else if Ascii.eqb c "[" then
    pushParseState (set_step s stateBeginValueOrEmpty) parseArrayValue scanBeginArray
  else if Ascii.eqb c quote then (set_step s stateInString, scanBeginLiteral)
  else if Ascii.eqb c "-" then (set_step s stateNeg, scanBeginLiteral)
  else if Ascii.eqb c "0" then (set_step s state0, scanBeginLiteral)
  else if Ascii.eqb c "t" then (set_step s stateT, scanBeginLiteral)
  else if Ascii.eqb c "f" then (set_step s stateF, scanBeginLiteral)
  else if Ascii.eqb c "n" then (set_step s stateN, scanBeginLiteral)
  else if isDigit19 c then (set_step s state1, scanBeginLiteral)
  else error s.

Definition do_stateBeginString (s : t) (c : ascii) : t * opcode :=
  if isSpace c then (s, scanSkipSpace)
  else if Ascii.eqb c quote then (set_step s stateInString, scanBeginLiteral)
  else error s.

Definition do_state0 (s : t) (c : ascii) : t * opcode :=
  if Ascii.eqb c "." then (set_step s stateDot, scanContinue)
  else if Ascii.eqb c "e" || Ascii.eqb c "E" then (set_step s stateE, scanContinue)
  else do_stateEndValue s c.

Definition do_stateESign (s : t) (c : ascii) : t * opcode :=
  if isDigit c then (set_step s stateE0, scanContinue) else error s.

(** One literal character [want] leading to step function [next]. *)
Definition expect (s : t) (c want : ascii) (next : stepFn) : t * opcode :=
  if Ascii.eqb c want then (set_step s next, scanContinue) else error s.

(** [s.step(s, c)] *)
Definition do_step (s : t) (c : ascii) : t * opcode :=
  match step s with
  | stateBeginValueOrEmpty =>
    if isSpace c then (s, scanSkipSpace)
    else if Ascii.eqb c "]" then do_stateEndValue s c
    else do_stateBeginValue s c
  | stateBeginValue => do_stateBeginValue s c
  | stateBeginStringOrEmpty =>
    if isSpace c then (s, scanSkipSpace)
    else if Ascii.eqb c "}" then
      match stack s with
      | _ :: rest =>
        do_stateEndValue (mk (step s) (endTop s) (parseObjectValue :: rest) (err s)) c
      | [] => do_stateEndValue s c
      end
    else do_stateBeginString s c
  | stateBeginString => do_stateBeginString s c
  | stateEndValue => do_stateEndValue s c
  | stateEndTop => do_stateEndTop s c
  | stateInString =>
    if Ascii.eqb c quote then (set_step s stateEndValue, scanContinue)
    else if Ascii.eqb c backslash then (set_step s stateInStringEsc, scanContinue)
    else if byte_val c <? 0x20 then error s
    else (s, scanContinue)
  | stateInStringEsc =>
    if Ascii.eqb c "b" || Ascii.eqb c "f" || Ascii.eqb c "n" || Ascii.eqb c "r"
       || Ascii.eqb c "t" || Ascii.eqb c backslash || Ascii.eqb c "/"
       || Ascii.eqb c quote
    then (set_step s stateInString, scanContinue)
    else if Ascii.eqb c "u" then (set_step s stateInStringEscU, scanContinue)
    else error s
  | stateInStringEscU =>
    if isHex c then (set_step s stateInStringEscU1, scanContinue) else error s
  | stateInStringEscU1 =>
    if isHex c then (set_step s stateInStringEscU12, scanContinue) else error s
  | stateInStringEscU12 =>
    if isHex c then (set_step s stateInStringEscU123, scanContinue) else error s
  | stateInStringEscU123 =>
    if isHex c then (set_step s stateInString, scanContinue) else error s
  | stateNeg =>
    if Ascii.eqb c "0" then (set_step s state0, scanContinue)
    else if isDigit19 c then (set_step s state1, scanContinue)
    else error s
  | state1 =>
    if isDigit c then (set_step s state1, scanContinue) else do_state0 s c
  | state0 => do_state0 s c
  | stateDot =>
    if isDigit c then (set_step s stateDot0, scanContinue) else error s
  | stateDot0 =>
    if isDigit c then (s, scanContinue)
    else if Ascii.eqb c "e" || Ascii.eqb c "E" then (set_step s stateE, scanContinue)
    else do_stateEndValue s c
  | stateE =>
    if Ascii.eqb c "+" || Ascii.eqb c "-" then (set_step s stateESign, scanContinue)
    else do_stateESign s c
  | stateESign => do_stateESign s c
  | stateE0 =>
    if isDigit c then (s, scanContinue) else do_stateEndValue s c
  | stateT => expect s c "r" stateTr
  | stateTr => expect s c "u" stateTru
  | stateTru => expect s c "e" stateEndValue
  | stateF => expect s c "a" stateFa
  | stateFa => expect s c "l" stateFal
  | stateFal => expect s c "s" stateFals
  | stateFals => expect s c "e" stateEndValue
  | stateN => expect s c "u" stateNu
  | stateNu => expect s c "l" stateNul
  | stateNul => expect s c "l" stateEndValue
  | stateError => (s, scanError)
  end.

(** [s.eof()]: [true] when it returns [scanEnd], [false] for
    [scanError]. *)
Definition eof (s : t) : bool :=
  if err s then false
  else if endTop s then true
  else
    let (s', _) := do_step s " " in
    endTop s'.

(** [checkValid(data, scan)] *)
Fixpoint checkValid_from (s : t) (data : bytes) : bool :=
  match data with
  | [] => eof s
  | c :: rest =>
    let (s', v) := do_step s c in
    match v with
    | scanError => false
    | _ => checkValid_from s' rest
    end
  end.

Definition checkValid (data : bytes) : bool := checkValid_from newScanner data.

End scanner.

(* ===================================================================== *)
(** ** [encoding/json]: encoding *)
(* ===================================================================== *)

Module json.

Import scanner.

(** [hex[n]] for the table [hex = "0123456789abcdef"]. *)
Definition hex (n : N) : ascii :=
  nth (N.to_nat n) (list_ascii_of_string "0123456789abcdef") "0"%char.

(** ["\u00XX"] for the byte [c]. *)
Definition escape_u00 (c : ascii) : bytes :=
  [backslash; "u"; "0"; "0"; hex (N.shiftr (byte_val c) 4);
   hex (N.land (byte_val c) 0xF)]%char.

(** ["\u202X"] *)
Definition escape_u202 (x : N) : bytes :=
  [backslash; "u"; "2"; "0"; "2"; hex (N.land x 0xF)]%char.

Definition escape_ufffd : bytes := [backslash; "u"; "f"; "f"; "f"; "d"]%char.

(** [htmlSafeSet[c]] for [c < utf8.RuneSelf]: the printable ASCII bytes
    other than the double quote, the backslash and [<], [>], [&]. *)
Definition htmlSafeSet (c : ascii) : bool :=
  (0x20 <=? byte_val c) && (byte_val c <? 0x80)
  && negb (Ascii.eqb c quote || Ascii.eqb c backslash
           || Ascii.eqb c "<" || Ascii.eqb c ">" || Ascii.eqb c "&").

(** The escape [appendString] writes for an ASCII byte outside
    [htmlSafeSet]. *)
Definition escape_ascii (c : ascii) : bytes :=
  (if Ascii.eqb c backslash || Ascii.eqb c quote then [backslash; c]
   else if Ascii.eqb c "008" then [backslash; "b"]
   else if Ascii.eqb c "012" then [backslash; "f"]
   else if Ascii.eqb c "010" then [backslash; "n"]
   else if Ascii.eqb c "013" then [backslash; "r"]
   else if Ascii.eqb c "009" then [backslash; "t"]
   else escape_u00 c)%char.

(** The body of [appendString(dst, src, escapeHTML = true)] between the two
    quotes.  [skip] counts the bytes of the current rune that were already
    handled together with its first byte. *)
Fixpoint appendString_from (skip : nat) (src : bytes) : bytes :=
  match src with
  | [] => []
  | b :: rest =>
    match skip with
    | S k => appendString_from k rest
    | O =>
      if byte_val b <? utf8.RuneSelf then
        (if htmlSafeSet b then [b] else escape_ascii b)
          ++ appendString_from 0 rest
      else
        let (c, size) := utf8.DecodeRune src in
        if (c =? utf8.RuneError) && (size =? 1)%nat then
          escape_ufffd ++ appendString_from 0 rest
        else if (c =? 0x2028) || (c =? 0x2029) then
          escape_u202 c ++ appendString_from (Nat.pred size) rest
        else
          take size src ++ appendString_from (Nat.pred size) rest
    end
  end.

Definition appendString (src : string) : bytes :=
  quote :: appendString_from 0 (list_ascii_of_string src) ++ [quote].

(** The loop of [appendCompact(dst, src, escape = true)]: the bytes added
    to [dst], or [None] when the scanner rejects [src].  [skip] is how far
    [start] lies ahead of the current index. *)
Fixpoint appendCompact_from (scan : scanner.t) (skip : nat) (src : bytes)
  : option bytes :=
  match src with
  | [] => if eof scan then Some [] else None
  | c :: rest =>
    let html := Ascii.eqb c "<" || Ascii.eqb c ">" || Ascii.eqb c "&" in
    let lsep :=
      match rest with
      | c1 :: c2 :: _ =>
        (byte_val c =? 0xE2) && (byte_val c1 =? 0x80)
        && (N.ldiff (byte_val c2) 1 =? 0xA8)
      | _ => false
      end in
    let (scan', v) := do_step scan c in
    match v with
    | scanError => None
    | _ =>
      let out :=
        if html then escape_u00 c
        else if lsep then escape_u202 (byte_val (nth 1 rest c))
        else if (0 <? skip)%nat || ge_scanSkipSpace v then []
        else [c] in
      let skip' := if lsep then 2%nat else Nat.pred skip in
      option_map (app out) (appendCompact_from scan' skip' rest)
    end
  end.

Definition appendCompact (src : bytes) : option bytes :=
  appendCompact_from newScanner 0 src.

(** The deepest nesting the scanner reaches on [data]: the greatest
    length of its stack. *)
Fixpoint maxDepth_from (s : scanner.t) (data : bytes) : nat :=
  match data with
  | [] => length (stack s)
  | c :: rest =>
    Nat.max (length (stack s)) (maxDepth_from (fst (do_step s c)) rest)
  end.

Definition nesting (data : bytes) : nat := maxDepth_from newScanner data.

(** Whether a valid [data] is still within [maxNestingDepth] when it is
    the value of a member or an element [n] levels down. *)
Definition fitsAtDepth (n : N) (data : bytes) : bool :=
  N.of_nat (nesting data) + n <=? maxNestingDepth.

(** [json.RawMessage]: a byte slice, [None] for the nil slice. *)
Definition RawMessage := option bytes.

(** [RawMessage.MarshalJSON] *)
Definition RawMessage_MarshalJSON (m : RawMessage) : bytes :=
  match m with
  | None => list_ascii_of_string "null"
  | Some b => b
  end.

(* --------------------------------------------------------------------- *)
(** *** Decoding of quoted strings *)

Definition hexval (c : ascii) : option N :=
  let n := byte_val c in
  if isDigit c then Some (n - byte_val "0")
  else if (byte_val "a" <=? n) && (n <=? byte_val "f") then Some (n - byte_val "a" + 10)
  else if (byte_val "A" <=? n) && (n <=? byte_val "F") then Some (n - byte_val "A" + 10)
  else None.

(** [getu4(s)]: the rune of a leading ["\uXXXX"], [None] for [-1]. *)
Definition getu4 (s : bytes) : option N :=
  match s with
  | b :: u :: h1 :: h2 :: h3 :: h4 :: _ =>
    if Ascii.eqb b backslash && Ascii.eqb u "u" then
      a ← hexval h1; b ← hexval h2; c ← hexval h3; d ← hexval h4;
      Some (((a * 16 + b) * 16 + c) * 16 + d)
    else None
  | _ => None
  end.

Definition surr1 : N := 0xd800.
Definition surr2 : N := 0xdc00.
Definition surr3 : N := 0xe000.

(** [utf16.IsSurrogate] *)
Definition IsSurrogate (r : N) : bool := (surr1 <=? r) && (r <? surr3).

(** [utf16.DecodeRune(r1, r2)], with [None] for a second argument [-1]. *)
Definition utf16_DecodeRune (r1 : N) (r2 : option N) : N :=
  match r2 with
  | Some r2 =>
    if (surr1 <=? r1) && (r1 <? surr2) && (surr2 <=? r2) && (r2 <? surr3) then
      N.lor (N.shiftl (r1 - surr1) 10) (r2 - surr2) + 0x10000
    else utf8.RuneError
  | None => utf8.RuneError
  end.

(** The decoding loop of [unquoteBytes] over the text between the quotes;
    [skip] counts the bytes of the current escape or rune still to be
    passed over. *)
Fixpoint unquote_from (skip : nat) (s : bytes) : option bytes :=
  match s with
  | [] => Some []
  | c :: rest =>
    match skip with
    | S k => unquote_from k rest
    | O =>
      if Ascii.eqb c backslash then
        match rest with
        | [] => None
        | e :: _ =>
          let single (x : ascii) := cons x <$> unquote_from 1 rest in
          if Ascii.eqb e quote || Ascii.eqb e backslash || Ascii.eqb e "/"
             || Ascii.eqb e "'" then single e
          else if Ascii.eqb e "b" then single "008"%char
          else if Ascii.eqb e "f" then single "012"%char
          else if Ascii.eqb e "n" then single "010"%char
          else if Ascii.eqb e "r" then single "013"%char
          else if Ascii.eqb e "t" then single "009"%char
          else if Ascii.eqb e "u" then
            match getu4 s with
            | None => None
            | Some rr =>
              if IsSurrogate rr then
                let dec := utf16_DecodeRune rr (getu4 (drop 6 s)) in
                if negb (dec =? utf8.RuneError) then
                  app (utf8.EncodeRune dec) <$> unquote_from 11 rest
                else
                  app (utf8.EncodeRune utf8.RuneError) <$> unquote_from 5 rest
              else app (utf8.EncodeRune rr) <$> unquote_from 5 rest
            end
          else None
        end
      else if Ascii.eqb c quote || (byte_val c <? 0x20) then None
      else if byte_val c <? utf8.RuneSelf then cons c <$> unquote_from 0 rest
      else
        let (rr, size) := utf8.DecodeRune s in
        app (utf8.EncodeRune rr) <$> unquote_from (Nat.pred size) rest
    end
  end.

(** [unquoteBytes(s)] *)
Definition unquoteBytes (s : bytes) : option bytes :=
  match s with
  | q :: rest =>
    match rest with
    | [] => None
    | _ :: _ =>
      if Ascii.eqb q quote && Ascii.eqb (List.last rest "000"%char) quote
      then unquote_from 0 (removelast rest)
      else None
    end
  | [] => None
  end.

(* --------------------------------------------------------------------- *)
(** *** Folded field names *)

(** [foldRune], as far as matching against ASCII names goes: the two runes
    outside ASCII whose fold set holds an ASCII letter are U+017F (with
    [S]) and U+212A (with [K]); any other rune folds to a rune outside
    ASCII and is left as it is. *)
Definition foldRune (r : N) : N :=
  if (byte_val "a" <=? r) && (r <=? byte_val "z") then r - 32
  else if r =? 0x17F then byte_val "S"
  else if r =? 0x212A then byte_val "K"
  else r.

(** [foldName(in)] *)
Fixpoint foldName_from (skip : nat) (s : bytes) : bytes :=
  match s with
  | [] => []
  | c :: rest =>
    match skip with
    | S k => foldName_from k rest
    | O =>
      if byte_val c <? utf8.RuneSelf then
        ascii_of_N (foldRune (byte_val c)) :: foldName_from 0 rest
      else
        let (r, n) := utf8.DecodeRune s in
        utf8.EncodeRune (foldRune r) ++ foldName_from (Nat.pred n) rest
    end
  end.

Definition foldName (s : bytes) : bytes := foldName_from 0 s.

End json.

(* ===================================================================== *)
(** ** [time.Time] in JSON *)
(* ===================================================================== *)

(** A [time.Time] is represented by the text [Format(RFC3339Nano)] prints
    for it: the date and the time of day in the zone of the value, the
    fraction of a second without its trailing zeros, then [Z] or the
    offset of the zone.  [Time.MarshalJSON] writes that text between
    quotes once its strict check has passed (a year of four digits, a
    zone hour below 24); [Time.UnmarshalJSON] parses with the layout
    [RFC3339], whose parser is more lenient than RFC 3339, and so yields
    the text of the value read, which may differ from the text read. *)
Module time.

Definition Time := string.

(** The zero [time.Time]. *)
Definition zero : Time := "0001-01-01T00:00:00Z".

Definition digit (c : ascii) : option N :=
  if scanner.isDigit c then Some (byte_val c - byte_val "0") else None.

Definition num2 (a b : ascii) : option N :=
  x ← digit a; y ← digit b; Some (x * 10 + y).

Definition isLeap (year : N) : bool :=
  (year mod 4 =? 0) && (negb (year mod 100 =? 0) || (year mod 400 =? 0)).

Definition daysIn (month year : N) : N :=
  if month =? 2 then (if isLeap year then 29 else 28)
  else if (month =? 4) || (month =? 6) || (month =? 9) || (month =? 11) then 30
  else 31.

(** The leading digits of [s] and what follows them. *)
Fixpoint digits (s : bytes) : bytes * bytes :=
  match s with
  | c :: rest =>
    if scanner.isDigit c then let (ds, z) := digits rest in (c :: ds, z)
    else ([], s)
  | [] => ([], [])
  end.

(** *** Formatting with [RFC3339Nano] *)

(** [appendInt(b, n, 2)] for [n] below 100. *)
Definition appendInt2 (n : N) : bytes :=
  [ascii_of_N (byte_val "0" + n / 10); ascii_of_N (byte_val "0" + n mod 10)].

(** The trailing zeros of the fraction are not printed. *)
Fixpoint trimZeros (ds : bytes) : bytes :=
  match ds with
  | [] => []
  | c :: rest =>
    match trimZeros rest with
    | [] => if Ascii.eqb c "0" then [] else [c]
    | t => c :: t
    end
  end.

(** [appendNano] for [.999999999], on the nine digits of the nanoseconds:
    nothing when they are zero. *)
Definition appendNano (nsec : bytes) : bytes :=
  match trimZeros nsec with
  | [] => []
  | t => "."%char :: t
  end.

(** The zone [Z07:00], of an offset of [minutes] minutes east ([neg]:
    west) of UTC: [Z] when the offset is zero. *)
Definition appendZone (neg : bool) (minutes : N) : bytes :=
  if minutes =? 0 then ["Z"%char]
  else (if neg then "-" else "+")%char
       :: appendInt2 (minutes / 60) ++ ":"%char :: appendInt2 (minutes mod 60).

(** *** The strict check of [MarshalJSON] *)

Definition zone (z : bytes) : bool :=
  match z with
  | [c] => Ascii.eqb c "Z"
  | [sg; h1; h2; colon; m1; m2] =>
    (Ascii.eqb sg "+" || Ascii.eqb sg "-") && Ascii.eqb colon ":"
    && match num2 h1 h2, num2 m1 m2 with
       | Some h, Some m => (h <? 24) && (m <? 60) && negb (h * 60 + m =? 0)
       | _, _ => false
       end
  | _ => false
  end.

(** One to nine digits, the last of them not zero, then the zone. *)
Definition fraction (z : bytes) : bool :=
  let (ds, z') := digits z in
  (length ds <=? 9)%nat && negb (Ascii.eqb (List.last ds "0"%char) "0")
  && zone z'.

Definition wellformed (t : bytes) : bool :=
  match t with
  | y1 :: y2 :: y3 :: y4 :: d1 :: mo1 :: mo2 :: d2 :: da1 :: da2 :: sep
    :: h1 :: h2 :: c1 :: mi1 :: mi2 :: c2 :: s1 :: s2 :: rest =>
    Ascii.eqb d1 "-" && Ascii.eqb d2 "-" && Ascii.eqb sep "T"
    && Ascii.eqb c1 ":" && Ascii.eqb c2 ":"
    && match num2 y1 y2, num2 y3 y4, num2 mo1 mo2, num2 da1 da2,
             num2 h1 h2, num2 mi1 mi2, num2 s1 s2 with
       | Some yh, Some yl, Some mo, Some da, Some h, Some mi, Some s =>
         (1 <=? mo) && (mo <=? 12) && (1 <=? da)
         && (da <=? daysIn mo (yh * 100 + yl))
         && (h <? 24) && (mi <? 60) && (s <? 60)
       | _, _, _, _, _, _, _ => false
       end
    && match rest with
       | c :: z => if Ascii.eqb c "." then fraction z else zone rest
       | [] => false
       end
  | _ => false
  end.

(** [Time.MarshalJSON] *)
Definition MarshalJSON (t : Time) : option bytes :=
  if wellformed (list_ascii_of_string t)
  then Some (quote :: list_ascii_of_string t ++ [quote])
  else None.

(** *** Parsing with the layout [RFC3339] *)

Definition check (b : bool) : option unit := if b then Some () else None.

(** [skip(value, prefix)] for a prefix of one byte. *)
Definition skip (c : ascii) (value : bytes) : option bytes :=
  match value with
  | a :: rest => if Ascii.eqb a c then Some rest else None
  | [] => None
  end.

(** [getnum(s, fixed)]: one or two digits, two when [fixed]. *)
Definition getnum (s : bytes) (fixed : bool) : option (N * bytes) :=
  match s with
  | a :: rest =>
    x ← digit a;
    match rest with
    | b :: rest' =>
      match digit b with
      | Some y => Some (x * 10 + y, rest')
      | None => if fixed then None else Some (x, rest)
      end
    | [] => if fixed then None else Some (x, rest)
    end
  | [] => None
  end.

Definition commaOrPeriod (c : ascii) : bool :=
  Ascii.eqb c "." || Ascii.eqb c ",".

(** [parseNanoseconds]: the nine digits of the nanoseconds, from the
    digits of a fraction, of which those after the ninth are dropped. *)
Definition parseNanoseconds (ds : bytes) : bytes :=
  take 9 (ds ++ replicate 9 "0"%char).

(** The fraction of a second, which the layout does not name but the
    parser reads after the seconds: a comma or a period and a digit, then
    every digit that follows. *)
Definition parseFraction (value : bytes) : bytes * bytes :=
  match value with
  | c :: (d :: _) as rest =>
    if commaOrPeriod c && scanner.isDigit d
    then let (ds, value') := digits rest in (parseNanoseconds ds, value')
    else (parseNanoseconds [], value)
  | _ => (parseNanoseconds [], value)
  end.

(** The zone [Z07:00], to the end of the text: the sign and the minutes
    of the offset.  The hours may be 24 and the minutes 60. *)
Definition parseZone (value : bytes) : option (bool * N) :=
  match value with
  | c :: rest =>
    if Ascii.eqb c "Z" then
      match rest with [] => Some (false, 0) | _ :: _ => None end
    else
      match value with
      | [sg; h1; h2; colon; m1; m2] =>
        _ ← check (Ascii.eqb colon ":");
        hr ← num2 h1 h2;
        mm ← num2 m1 m2;
        _ ← check ((hr <=? 24) && (mm <=? 60));
        if Ascii.eqb sg "+" then Some (false, hr * 60 + mm)
        else if Ascii.eqb sg "-" then Some (true, hr * 60 + mm)
        else None
      | _ => None
      end
  | [] => None
  end.

(** [Parse(RFC3339, value)], then the text of the result. *)
Definition Parse (value : bytes) : option Time :=
  match value with
  | y1 :: y2 :: y3 :: y4 :: value =>
    yh ← num2 y1 y2;
    yl ← num2 y3 y4;
    value ← skip "-" value;
    '(month, value) ← getnum value true;
    _ ← check ((1 <=? month) && (month <=? 12));
    value ← skip "-" value;
    '(day, value) ← getnum value true;
    value ← skip "T" value;
    '(hour, value) ← getnum value false;
    _ ← check (hour <? 24);
    value ← skip ":" value;
    '(min, value) ← getnum value true;
    _ ← check (min <? 60);
    value ← skip ":" value;
    '(sec, value) ← getnum value true;
    _ ← check (sec <? 60);
    let (nsec, value) := parseFraction value in
    '(neg, offset) ← parseZone value;
    _ ← check ((1 <=? day) && (day <=? daysIn month (yh * 100 + yl)));
    Some (string_of_list_ascii
            (appendInt2 yh ++ appendInt2 yl ++ "-"%char :: appendInt2 month
             ++ "-"%char :: appendInt2 day ++ "T"%char :: appendInt2 hour
             ++ ":"%char :: appendInt2 min ++ ":"%char :: appendInt2 sec
             ++ appendNano nsec ++ appendZone neg offset))
  | _ => None
  end.

(** [Time.UnmarshalJSON(data)] on a receiver holding [old]. *)
Definition UnmarshalJSON (old : Time) (data : bytes) : option Time :=
  if decide (data = list_ascii_of_string "null") then Some old
  else
    match data with
    | q :: rest =>
      match rest with
      | [] => None
      | _ :: _ =>
        if Ascii.eqb q quote && Ascii.eqb (List.last rest "000"%char) quote
        then Parse (removelast rest)
        else None
      end
    | [] => None
    end.

End time.

(* ===================================================================== *)
(** ** The data model of [store.go] *)
(* ===================================================================== *)

Definition DirectionRequest : string := "request".
Definition DirectionNotification : string := "notification".
Definition DirectionResponse : string := "response".

Record Message := mkMessage {
  SessionID : string;
  Toolset : string;
  Direction : string;
  Timestamp : time.Time;
  Payload : json.RawMessage
}.

Record Chat := mkChat {
  chatSessionID : string;
  Archived : bool;
  Messages : list Message
}.

Record Export := mkExport {
  ExportedAt : time.Time;
  ActiveChats : nat;
  ArchivedChats : nat;
  Chats : list Chat
}.

(** The zero value of [Message], as [var msg Message] declares it. *)
Definition zeroMessage : Message :=
  mkMessage EmptyString EmptyString EmptyString time.zero None.

(* ===================================================================== *)
(** ** [json.Marshal] and [json.Unmarshal] at type [Message] *)
(* ===================================================================== *)

(** A field name followed by the colon, as the struct encoder writes it. *)
Definition fieldKey (name : string) : bytes :=
  quote :: list_ascii_of_string name ++ [quote; ":"%char].

(** [json.Marshal(message)]: the fields in declaration order, [toolset]
    left out when empty; the outputs of the two [MarshalJSON] methods
    ([time.Time], [json.RawMessage]) go through [appendCompact].  [None]
    is a marshalling error. *)
Definition json_Marshal (m : Message) : option bytes :=
  ts ← time.MarshalJSON (Timestamp m) ≫= json.appendCompact;
  pl ← json.appendCompact (json.RawMessage_MarshalJSON (Payload m));
  Some ("{"%char :: fieldKey "sessionId" ++ json.appendString (SessionID m)
        ++ (if decide (Toolset m = EmptyString) then []
            else ","%char :: fieldKey "toolset" ++ json.appendString (Toolset m))
        ++ ","%char :: fieldKey "direction" ++ json.appendString (Direction m)
        ++ ","%char :: fieldKey "timestamp" ++ ts
        ++ ","%char :: fieldKey "payload" ++ pl
        ++ ["}"%char]).

Module decode.

Import scanner.

(** What the top-level value of the input is. *)
Inductive topKind := TopNone | TopObject | TopArray | TopLiteral.

(** The decoder walks the input with the scanner and cuts out, for a
    top-level object, the raw text of every key and of every value (for a
    top-level literal, its raw text). *)
Record t := mk {
  scan : scanner.t;
  kind : topKind;
  literal : bytes;
  members : list (bytes * bytes);
  key : bytes;
  val : bytes
}.

Definition init : t := mk newScanner TopNone [] [] [] [].

Definition isLiteralByte (v : opcode) : bool :=
  match v with
  | scanBeginLiteral | scanContinue => true
  | _ => false
  end.

(** One byte of input; [None] when the scanner reports [scanError]. *)
Definition step (d : t) (c : ascii) : option t :=
  let s := scan d in
  let (s', v) := do_step s c in
  match v with
  | scanError => None
  | _ =>
    Some
      match length (stack s), length (stack s') with
      | O, O =>
        mk s' (match v with scanBeginLiteral => TopLiteral | _ => kind d end)
           (if isLiteralByte v then literal d ++ [c] else literal d)
           (members d) (key d) (val d)
      | O, S _ =>
        mk s' (match v with scanBeginObject => TopObject | _ => TopArray end)
           (literal d) (members d) (key d) (val d)
      | S O, (O | S O) =>
        match stack s with
        | parseObjectKey :: _ =>
          mk s' (kind d) (literal d) (members d)
             (if isLiteralByte v then key d ++ [c] else key d) (val d)
        | parseObjectValue :: _ =>
          if isLiteralByte v then
            mk s' (kind d) (literal d) (members d) (key d) (val d ++ [c])
          else
            match v with
            | scanObjectValue | scanEndObject =>
              mk s' (kind d) (literal d) (members d ++ [(key d, val d)]) [] []
            | _ => mk s' (kind d) (literal d) (members d) (key d) (val d)
            end
        | _ => mk s' (kind d) (literal d) (members d) (key d) (val d)
        end
      | _, _ =>
        mk s' (kind d) (literal d) (members d) (key d) (val d ++ [c])
      end
  end.

Fixpoint run (d : t) (data : bytes) : option t :=
  match data with
  | [] => if eof (scan d) then Some d else None
  | c :: rest => d' ← step d c; run d' rest
  end.

(** The struct fields a key can name. *)
Inductive field := FSessionID | FToolset | FDirection | FTimestamp | FPayload.

Definition fieldNames : list (string * field) :=
  [("sessionId", FSessionID); ("toolset", FToolset);
   ("direction", FDirection); ("timestamp", FTimestamp);
   ("payload", FPayload)].

(** The field for a key: the exact name first, the folded name second. *)
Definition lookupField (k : bytes) : option field :=
  match List.find (fun nf => bool_decide (list_ascii_of_string (fst nf) = k))
                  fieldNames with
  | Some nf => Some (snd nf)
  | None =>
    snd <$> List.find
      (fun nf => bool_decide
                   (json.foldName (list_ascii_of_string (fst nf)) = json.foldName k))
      fieldNames
  end.

(** A JSON value stored into a [string] field: a string is unquoted,
    [null] leaves the field, anything else is a type error. *)
Definition storeString (old : string) (raw : bytes) : option string :=
  match raw with
  | c :: _ =>
    if Ascii.eqb c quote then string_of_list_ascii <$> json.unquoteBytes raw
    else if decide (raw = list_ascii_of_string "null") then Some old
    else None
  | [] => None
  end.

(** One member of the object stored into the struct. *)
Definition storeMember (m : Message) (kv : bytes * bytes) : option Message :=
  let (rawkey, raw) := kv in
  k ← json.unquoteBytes rawkey;
  match lookupField k with
  | None => Some m
  | Some FSessionID =>
    s ← storeString (SessionID m) raw;
    Some (mkMessage s (Toolset m) (Direction m) (Timestamp m) (Payload m))
  | Some FToolset =>
    s ← storeString (Toolset m) raw;
    Some (mkMessage (SessionID m) s (Direction m) (Timestamp m) (Payload m))
  | Some FDirection =>
    s ← storeString (Direction m) raw;
    Some (mkMessage (SessionID m) (Toolset m) s (Timestamp m) (Payload m))
  | Some FTimestamp =>
    ts ← time.UnmarshalJSON (Timestamp m) raw;
    Some (mkMessage (SessionID m) (Toolset m) (Direction m) ts (Payload m))
  | Some FPayload =>
    Some (mkMessage (SessionID m) (Toolset m) (Direction m) (Timestamp m) (Some raw))
  end.

Fixpoint storeMembers (m : Message) (kvs : list (bytes * bytes)) : option Message :=
  match kvs with
  | [] => Some m
  | kv :: rest => m' ← storeMember m kv; storeMembers m' rest
  end.

End decode.

(** [json.Unmarshal(data, &msg)] for [msg] holding [m]; [None] is any
    error (a syntax error, or a value of the wrong type for its field). *)
Definition json_Unmarshal (data : bytes) (m : Message) : option Message :=
  d ← decode.run decode.init data;
  match decode.kind d with
  | decode.TopObject => decode.storeMembers m (decode.members d)
  | decode.TopLiteral =>
    if decide (decode.literal d = list_ascii_of_string "null") then Some m else None
  | _ => None
  end.

(* ===================================================================== *)
(** ** The file system below the store's root *)
(* ===================================================================== *)

(** What a name in a status directory is bound to. *)
Inductive node :=
| File (data : bytes)
| Dir.

(** The two status directories [rootDir/active] and [rootDir/archived];
    [None] is a directory that does not exist. *)
Record FS := mkFS {
  activeDir : option (gmap string node);
  archivedDir : option (gmap string node)
}.

(** A path below the root: the status directory and the file name. *)
Definition path : Type := bool * string.

Definition statusDir (fs : FS) (archived : bool) : option (gmap string node) :=
  if archived then archivedDir fs else activeDir fs.

Definition setStatusDir (fs : FS) (archived : bool) (d : option (gmap string node)) : FS :=
  if archived then mkFS (activeDir fs) d else mkFS d (archivedDir fs).

Definition lookupPath (fs : FS) (p : path) : option node :=
  d ← statusDir fs (fst p); d !! snd p.

(** The system calls a store operation makes; the environment decides
    which of them fail for a reason outside the model (permissions, a full
    disk, ...). *)
Inductive op :=
| OpMkdirAll (archived : bool)
| OpStat (p : path)
| OpReadFile (p : path)
| OpOpenAppend (p : path)
| OpWrite (p : path)
| OpRemove (p : path)
| OpRename (src dst : path)
| OpReadDir (archived : bool)
| OpOpen (p : path)
| OpRead (p : path)
| OpMkdirOutput
| OpWriteOutput.

(** The environment of one call: the clock reading [s.now()] returns, the
    failing system calls, the number of bytes a failing write still
    appends, and the entries of a directory listing at which [ctx.Err()]
    is found non-nil. *)
Record Env := mkEnv {
  now : time.Time;
  fails : op -> bool;
  shortWrite : nat;
  ctxErr : bool -> nat -> bool
}.

Inductive error :=
| ErrCreateStorageDir | ErrCreateArchiveDir
| ErrSessionIDRequired | ErrMarshalMessage
| ErrOpenSessionFile | ErrWriteMessage | ErrFlushMessage
| ErrStatSessionFile | ErrStatArchiveFile
| ErrReadSessionFile | ErrOpenArchiveFile | ErrAppendArchiveFile
| ErrRemoveSessionFile | ErrArchiveSessionFile
| ErrNotConfigured | ErrOutputPathRequired
| ErrReadChatDir | ErrContext
| ErrDecodeMessage | ErrScanSessionFile
| ErrMarshalExport | ErrCreateExportDir | ErrWriteExportFile.

Inductive result (A : Type) :=
| Ok (a : A)
| Err (e : error).
Arguments Ok {A} a.
Arguments Err {A} e.

Inductive statResult := StatOk | StatNotExist | StatError.

(** [os.Stat] *)
Definition os_Stat (env : Env) (fs : FS) (p : path) : statResult :=
  if fails env (OpStat p) then StatError
  else match lookupPath fs p with
       | Some _ => StatOk
       | None => StatNotExist
       end.

(** [os.MkdirAll] of a status directory. *)
Definition os_MkdirAll (env : Env) (fs : FS) (archived : bool) : FS * bool :=
  if fails env (OpMkdirAll archived) then (fs, false)
  else match statusDir fs archived with
       | Some _ => (fs, true)
       | None => (setStatusDir fs archived (Some ∅), true)
       end.

(** [os.ReadFile] *)
Definition os_ReadFile (env : Env) (fs : FS) (p : path) : option bytes :=
  if fails env (OpReadFile p) then None
  else match lookupPath fs p with
       | Some (File data) => Some data
       | _ => None
       end.

(** [os.OpenFile(p, O_CREATE|O_APPEND|O_WRONLY, 0o600)]: creates an empty
    file when [p] names nothing; fails on a directory and when the status
    directory is missing. *)
Definition os_OpenAppend (env : Env) (fs : FS) (p : path) : FS * bool :=
  if fails env (OpOpenAppend p) then (fs, false)
  else match statusDir fs (fst p) with
       | None => (fs, false)
       | Some d =>
         match d !! snd p with
         | Some (File _) => (fs, true)
         | Some Dir => (fs, false)
         | None => (setStatusDir fs (fst p) (Some (<[snd p := File []]> d)), true)
         end
       end.

(** [file.Write(data)] on a file opened for appending: a failing write may
    still have appended the first [shortWrite env] bytes. *)
Definition file_Write (env : Env) (fs : FS) (p : path) (data : bytes) : FS * bool :=
  match statusDir fs (fst p) with
  | Some d =>
    match d !! snd p with
    | Some (File old) =>
      if fails env (OpWrite p) then
        (setStatusDir fs (fst p)
           (Some (<[snd p := File (old ++ take (shortWrite env) data)]> d)), false)
      else
        (setStatusDir fs (fst p) (Some (<[snd p := File (old ++ data)]> d)), true)
    | _ => (fs, false)
    end
  | None => (fs, false)
  end.

(** [os.Remove] *)
Definition os_Remove (env : Env) (fs : FS) (p : path) : FS * bool :=
  if fails env (OpRemove p) then (fs, false)
  else match statusDir fs (fst p) with
       | Some d =>
         match d !! snd p with
         | Some _ => (setStatusDir fs (fst p) (Some (delete (snd p) d)), true)
         | None => (fs, false)
         end
       | None => (fs, false)
       end.

(** [os.Rename(src, dst)] *)
Definition os_Rename (env : Env) (fs : FS) (src dst : path) : FS * bool :=
  if fails env (OpRename src dst) then (fs, false)
  else match lookupPath fs src, statusDir fs (fst dst) with
       | Some n, Some _ =>
         let fs1 :=
           match statusDir fs (fst src) with
           | Some d => setStatusDir fs (fst src) (Some (delete (snd src) d))
           | None => fs
           end in
         match statusDir fs1 (fst dst) with
         | Some d' => (setStatusDir fs1 (fst dst) (Some (<[snd dst := n]> d')), true)
         | None => (fs, false)
         end
       | _, _ => (fs, false)
       end.

(** [os.ReadDir]: the entries sorted by file name; [Some None] stands for
    an error that is [os.ErrNotExist] and [None] for any other error. *)
Definition os_ReadDir (env : Env) (fs : FS) (archived : bool)
  : option (option (list (string * node))) :=
  if fails env (OpReadDir archived) then None
  else match statusDir fs archived with
       | None => Some None
       | Some d =>
         Some (Some (merge_sort (fun a b => String.le (fst a) (fst b)) (map_to_list d)))
       end.

(* ===================================================================== *)
(** ** [bufio] *)
(* ===================================================================== *)

Module bufio.

(** [defaultBufSize] of [bufio.NewWriter] *)
Definition defaultBufSize : N := 4096.

(** What [Scanner.Scan] yields: a line, or the end of the scan with
    [ErrTooLong]. *)
Inductive token :=
| Line (b : bytes)
| TooLong.

(** [dropCR] *)
Definition dropCR (data : bytes) : bytes :=
  match data with
  | [] => []
  | _ :: _ =>
    if Ascii.eqb (List.last data "000"%char) "013" then removelast data else data
  end.

(** The token for the raw line [l], for a scanner whose buffer may grow up
    to [maxTokenSize] bytes. *)
Definition lineToken (maxTokenSize : N) (l : bytes) : token :=
  if maxTokenSize <=? N.of_nat (length l) then TooLong else Line (dropCR l).

(** [ScanLines] over the whole content of a file: [cur] is the line read
    so far. *)
Fixpoint scanLines (maxTokenSize : N) (cur data : bytes) : list token :=
  match data with
  | [] =>
    match cur with
    | [] => []
    | _ :: _ => [lineToken maxTokenSize cur]
    end
  | c :: rest =>
    if Ascii.eqb c "010" then
      match lineToken maxTokenSize cur with
      | TooLong => [TooLong]
      | tok => tok :: scanLines maxTokenSize [] rest
      end
    else scanLines maxTokenSize (cur ++ [c]) rest
  end.

End bufio.

(* ===================================================================== *)
(** ** [sort.Slice] *)
(* ===================================================================== *)

(** The sort of package [sort] behind [sort.Slice]: a pattern-defeating
    quicksort over [data.Less(i, j)] and [data.Swap(i, j)], with an
    insertion sort for at most twelve elements and a heap sort when too
    many partitions were unbalanced.  Indices are natural numbers; a loop
    whose number of rounds is not fixed takes a bound on them. *)
Module sort.

Local Open Scope nat_scope.

Inductive sortedHint := unknownHint | increasingHint | decreasingHint.

Definition maxInsertion : nat := 12.

(** [bits.Len(uint(n))] *)
Definition bits_Len (n : nat) : nat :=
  match n with O => O | S _ => S (Nat.log2 n) end.

Definition nextPowerOfTwo (length : nat) : N :=
  N.shiftl 1 (N.of_nat (bits_Len length)).

Section Slice.

(** [less] is the comparison of the caller.  [random_Next] stands for
    [xorshift.Next], the generator of the pseudo-random numbers of
    [breakPatterns_func], which takes a state to the next one, the number
    drawn: the model leaves it open, and what is said of the sort below
    is said for every generator. *)
Context {A : Type} (random_Next : N -> N) (less : A -> A -> bool).

(** [data.Less(i, j)] *)
Definition Less (data : list A) (i j : nat) : bool :=
  match data !! i, data !! j with
  | Some x, Some y => less x y
  | _, _ => false
  end.

(** [data.Swap(i, j)] *)
Definition Swap (data : list A) (i j : nat) : list A :=
  match data !! i, data !! j with
  | Some x, Some y => <[j := x]> (<[i := y]> data)
  | _, _ => data
  end.

(** [for j := i; j > a && data.Less(j, j-1); j-- { data.Swap(j, j-1) }] *)
Fixpoint insertionSort_inner (data : list A) (a j : nat) : list A :=
  match j with
  | S j' =>
    if (a <? j)%nat && Less data j j'
    then insertionSort_inner (Swap data j j') a j'
    else data
  | O => data
  end.

Definition insertionSort_func (data : list A) (a b : nat) : list A :=
  foldl (fun data i => insertionSort_inner data a i) data
        (seq (a + 1) (b - (a + 1))).

(** The loop of [siftDown_func], from the root [root]. *)
Fixpoint siftDown_loop (n : nat) (data : list A) (root hi first : nat) : list A :=
  match n with
  | O => data
  | S n =>
    let child := 2 * root + 1 in
    if (hi <=? child)%nat then data
    else
      let child :=
        if (child + 1 <? hi)%nat && Less data (first + child) (first + child + 1)
        then child + 1 else child in
      if negb (Less data (first + root) (first + child)) then data
      else siftDown_loop n (Swap data (first + root) (first + child)) child hi first
  end.

Definition siftDown_func (data : list A) (lo hi first : nat) : list A :=
  siftDown_loop hi data lo hi first.

Definition heapSort_func (data : list A) (a b : nat) : list A :=
  let first := a in
  let lo := 0 in
  let hi := b - a in
  let data :=
    foldl (fun data i => siftDown_func data i hi first) data
          (reverse (seq 0 ((hi - 1) / 2 + 1))) in
  foldl (fun data i => siftDown_func (Swap data first (first + i)) lo i first)
        data (reverse (seq 0 hi)).

(** [for i <= j && data.Less(i, a) { i++ }] when [up], and
    [for i <= j && !data.Less(a, i) { i++ }] otherwise. *)
Fixpoint skipLeft (up : bool) (n : nat) (data : list A) (a i j : nat) : nat :=
  match n with
  | O => i
  | S n =>
    if (i <=? j)%nat && (if up then Less data i a else negb (Less data a i))
    then skipLeft up n data a (i + 1) j else i
  end.

(** [for i <= j && !data.Less(j, a) { j-- }] when [up], and
    [for i <= j && data.Less(a, j) { j-- }] otherwise. *)
Fixpoint skipRight (up : bool) (n : nat) (data : list A) (a i j : nat) : nat :=
  match n with
  | O => j
  | S n =>
    if (i <=? j)%nat && (if up then negb (Less data j a) else Less data a j)
    then skipRight up n data a i (j - 1) else j
  end.

(** The last loop of [partition_func]. *)
Fixpoint partition_loop (n : nat) (data : list A) (a i j : nat) : list A * nat :=
  match n with
  | O => (data, j)
  | S n =>
    let i := skipLeft true (length data) data a i j in
    let j := skipRight true (length data) data a i j in
    if (j <? i)%nat then (data, j)
    else partition_loop n (Swap data i j) a (i + 1) (j - 1)
  end.

Definition partition_func (data : list A) (a b pivot : nat)
  : list A * nat * bool :=
  let data := Swap data a pivot in
  let i := a + 1 in
  let j := b - 1 in
  let i := skipLeft true (length data) data a i j in
  let j := skipRight true (length data) data a i j in
  if (j <? i)%nat then (Swap data j a, j, true)
  else
    let data := Swap data i j in
    let (data, j) := partition_loop (length data) data a (i + 1) (j - 1) in
    (Swap data j a, j, false).

(** The loop of [partitionEqual_func]. *)
Fixpoint partitionEqual_loop (n : nat) (data : list A) (a i j : nat)
  : list A * nat :=
  match n with
  | O => (data, i)
  | S n =>
    let i := skipLeft false (length data) data a i j in
    let j := skipRight false (length data) data a i j in
    if (j <? i)%nat then (data, i)
    else partitionEqual_loop n (Swap data i j) a (i + 1) (j - 1)
  end.

Definition partitionEqual_func (data : list A) (a b pivot : nat) : list A * nat :=
  let data := Swap data a pivot in
  partitionEqual_loop (length data) data a (a + 1) (b - 1).

(** [for i < b && !data.Less(i, i-1) { i++ }] *)
Fixpoint skipOrdered (n : nat) (data : list A) (i b : nat) : nat :=
  match n with
  | O => i
  | S n =>
    if (i <? b)%nat && negb (Less data i (i - 1))
    then skipOrdered n data (i + 1) b else i
  end.

(** [for j := i - 1; j >= 1; j--], swapping [j] and [j-1] until they are
    in order. *)
Fixpoint shiftLeft (data : list A) (j : nat) : list A :=
  match j with
  | O => data
  | S j' =>
    if negb (Less data j j') then data else shiftLeft (Swap data j j') j'
  end.

(** [for j := i + 1; j < b; j++], swapping [j] and [j-1] until they are
    in order. *)
Fixpoint shiftRight (n : nat) (data : list A) (j b : nat) : list A :=
  match n with
  | O => data
  | S n =>
    if (j <? b)%nat then
      if negb (Less data j (j - 1)) then data
      else shiftRight n (Swap data j (j - 1)) (j + 1) b
    else data
  end.

Definition maxSteps : nat := 5.
Definition shortestShifting : nat := 50.

(** The rounds of [partialInsertionSort_func] that are left, from [i]. *)
Fixpoint partialInsertionSort_loop (steps : nat) (data : list A) (a b i : nat)
  : list A * bool :=
  match steps with
  | O => (data, false)
  | S steps =>
    let i := skipOrdered (length data) data i b in
    if (i =? b)%nat then (data, true)
    else if (b - a <? shortestShifting)%nat then (data, false)
    else
      let data := Swap data i (i - 1) in
      let data := if (2 <=? i - a)%nat then shiftLeft data (i - 1) else data in
      let data :=
        if (2 <=? b - i)%nat then shiftRight (length data) data (i + 1) b
        else data in
      partialInsertionSort_loop steps data a b i
  end.

Definition partialInsertionSort_func (data : list A) (a b : nat) : list A * bool :=
  partialInsertionSort_loop maxSteps data a b (a + 1).

(** The three swaps of [breakPatterns_func]. *)
Fixpoint breakPatterns_loop (n i : nat) (random modulus : N) (data : list A)
    (a length idx : nat) : list A :=
  match n with
  | O => data
  | S n =>
    let random := random_Next random in
    let other := N.to_nat (N.land random (modulus - 1)) in
    let other := if (length <=? other)%nat then other - length else other in
    breakPatterns_loop n (i + 1) random modulus
                       (Swap data (idx - 1 + i) (a + other)) a length idx
  end.

Definition breakPatterns_func (data : list A) (a b : nat) : list A :=
  let length := b - a in
  if (8 <=? length)%nat then
    breakPatterns_loop 3 0 (N.of_nat length) (nextPowerOfTwo length) data
                       a length (a + length / 4 * 2 - 1)
  else data.

(** [order2_func]: the two indices in order, and the number of swaps. *)
Definition order2_func (data : list A) (a b swaps : nat) : nat * nat * nat :=
  if Less data b a then (b, a, swaps + 1) else (a, b, swaps).

Definition median_func (data : list A) (a b c swaps : nat) : nat * nat :=
  let '(a, b, swaps) := order2_func data a b swaps in
  let '(b, c, swaps) := order2_func data b c swaps in
  let '(a, b, swaps) := order2_func data a b swaps in
  (b, swaps).

Definition medianAdjacent_func (data : list A) (a swaps : nat) : nat * nat :=
  median_func data (a - 1) a (a + 1) swaps.

Definition shortestNinther : nat := 50.
Definition maxSwaps : nat := 4 * 3.

Definition choosePivot_func (data : list A) (a b : nat) : nat * sortedHint :=
  let l := b - a in
  let swaps := 0 in
  let i := a + l / 4 * 1 in
  let j := a + l / 4 * 2 in
  let k := a + l / 4 * 3 in
  let '(j, swaps) :=
    if (8 <=? l)%nat then
      let '(i, j, k, swaps) :=
        if (shortestNinther <=? l)%nat then
          let '(i, swaps) := medianAdjacent_func data i swaps in
          let '(j, swaps) := medianAdjacent_func data j swaps in
          let '(k, swaps) := medianAdjacent_func data k swaps in
          (i, j, k, swaps)
        else (i, j, k, swaps) in
      median_func data i j k swaps
    else (j, swaps) in
  if (swaps =? 0)%nat then (j, increasingHint)
  else if (swaps =? maxSwaps)%nat then (j, decreasingHint)
  else (j, unknownHint).

(** The loop of [reverseRange_func]. *)
Fixpoint reverseRange_loop (n : nat) (data : list A) (i j : nat) : list A :=
  match n with
  | O => data
  | S n =>
    if (i <? j)%nat then reverseRange_loop n (Swap data i j) (i + 1) (j - 1)
    else data
  end.

Definition reverseRange_func (data : list A) (a b : nat) : list A :=
  reverseRange_loop (length data) data a (b - 1).

Definition isIncreasing (hint : sortedHint) : bool :=
  match hint with increasingHint => true | _ => false end.

Definition isDecreasing (hint : sortedHint) : bool :=
  match hint with decreasingHint => true | _ => false end.

(** [pdqsort_func(data, a, b, limit)] from a round of its loop on, in
    which [wasBalanced] and [wasPartitioned] are as the rounds before left
    them; [n] bounds the rounds and the depth of the calls, each of which
    is on a shorter range. *)
Fixpoint pdqsort_loop (n : nat) (data : list A) (a b limit : nat)
    (wasBalanced wasPartitioned : bool) : list A :=
  match n with
  | O => data
  | S n =>
    let length := b - a in
    if (length <=? maxInsertion)%nat then insertionSort_func data a b
    else if (limit =? 0)%nat then heapSort_func data a b
    else
      let '(data, limit) :=
        if negb wasBalanced then (breakPatterns_func data a b, limit - 1)
        else (data, limit) in
      let '(pivot, hint) := choosePivot_func data a b in
      let '(data, pivot, hint) :=
        if isDecreasing hint
        then (reverseRange_func data a b, (b - 1) - (pivot - a), increasingHint)
        else (data, pivot, hint) in
      let '(data, sorted) :=
        if wasBalanced && wasPartitioned && isIncreasing hint
        then partialInsertionSort_func data a b
        else (data, false) in
      if sorted then data
      else if (0 <? a)%nat && negb (Less data (a - 1) pivot) then
        let '(data, mid) := partitionEqual_func data a b pivot in
        pdqsort_loop n data mid b limit wasBalanced wasPartitioned
      else
        let '(data, mid, alreadyPartitioned) := partition_func data a b pivot in
        let leftLen := mid - a in
        let rightLen := b - mid in
        let balanceThreshold := length / 8 in
        if (leftLen <? rightLen)%nat then
          let data := pdqsort_loop n data a mid limit true true in
          pdqsort_loop n data (mid + 1) b limit
                       (balanceThreshold <=? leftLen)%nat alreadyPartitioned
        else
          let data := pdqsort_loop n data (mid + 1) b limit true true in
          pdqsort_loop n data a mid limit
                       (balanceThreshold <=? rightLen)%nat alreadyPartitioned
  end.

Definition pdqsort_func (data : list A) (a b limit : nat) : list A :=
  pdqsort_loop (S (b - a)) data a b limit true true.

(** [sort.Slice(x, less)], where [less(i, j)] compares the elements at
    [i] and [j] of [x]. *)
Definition Slice (x : list A) : list A :=
  pdqsort_func x 0 (length x) (bits_Len (length x)).

End Slice.

End sort.

(* ===================================================================== *)
(** ** The store: [store.go] *)
(* ===================================================================== *)

(** A [*Store] is an [option Store], [None] being the nil pointer.  The
    mutex is not modelled (calls are sequential) and the clock [now] is
    read from the environment of the call. *)
Record Store := mkStore {
  rootDir : string
}.

Definition sanitizeRune (r : N) : N :=
  if (byte_val "a" <=? r) && (r <=? byte_val "z") then r
  else if (byte_val "A" <=? r) && (r <=? byte_val "Z") then r
  else if (byte_val "0" <=? r) && (r <=? byte_val "9") then r
  else if (r =? byte_val "-") || (r =? byte_val "_") || (r =? byte_val ".") then r
  else byte_val "_".

Definition sanitizeSessionID (sessionID : string) : string :=
  strings.Map sanitizeRune sessionID.

Definition sessionPath (s : Store) (sessionID : string) (archived : bool) : path :=
  let cleanID := sanitizeSessionID sessionID in
  (archived, cleanID +:+ ".jsonl").

Definition NewStore (env : Env) (fs : FS) (rootDir : string)
  : FS * option Store * option error :=
  if strings.TrimSpace_is_empty rootDir then (fs, None, None)
  else
    match os_MkdirAll env fs false with
    | (fs1, false) => (fs1, None, Some ErrCreateStorageDir)
    | (fs1, true) =>
      match os_MkdirAll env fs1 true with
      | (fs2, false) => (fs2, None, Some ErrCreateArchiveDir)
      | (fs2, true) => (fs2, Some (mkStore rootDir), None)
      end
    end.

Definition RecordMessage (s : option Store) (env : Env) (fs : FS)
    (sessionID toolset direction : string) (payload : option bytes)
  : FS * option error :=
  match s with
  | None => (fs, None)
  | Some st =>
    if decide (sessionID = EmptyString) then (fs, Some ErrSessionIDRequired)
    else
      let message := mkMessage sessionID toolset direction (now env) payload in
      match json_Marshal message with
      | None => (fs, Some ErrMarshalMessage)
      | Some data =>
        let path := sessionPath st sessionID false in
        match os_OpenAppend env fs path with
        | (fs1, false) => (fs1, Some ErrOpenSessionFile)
        | (fs1, true) =>
          let line := data ++ ["010"%char] in
          if bufio.defaultBufSize <? N.of_nat (length line) then
            (* larger than the buffer: [writer.Write] writes through *)
            match file_Write env fs1 path line with
            | (fs2, false) => (fs2, Some ErrWriteMessage)
            | (fs2, true) => (fs2, None)
            end
          else
            (* buffered by [writer.Write], written by [writer.Flush] *)
            match file_Write env fs1 path line with
            | (fs2, false) => (fs2, Some ErrFlushMessage)
            | (fs2, true) => (fs2, None)
            end
        end
      end
  end.

Definition appendFile (env : Env) (fs : FS) (dest source : path)
  : FS * option error :=
  match os_ReadFile env fs source with
  | None => (fs, Some ErrReadSessionFile)
  | Some data =>
    match os_OpenAppend env fs dest with
    | (fs1, false) => (fs1, Some ErrOpenArchiveFile)
    | (fs1, true) =>
      match file_Write env fs1 dest data with
      | (fs2, false) => (fs2, Some ErrAppendArchiveFile)
      | (fs2, true) => (fs2, None)
      end
    end
  end.

Definition ArchiveSession (s : option Store) (env : Env) (fs : FS)
    (sessionID : string) : FS * option error :=
  match s with
  | None => (fs, None)
  | Some st =>
    if decide (sessionID = EmptyString) then (fs, None)
    else
      let source := sessionPath st sessionID false in
      let dest := sessionPath st sessionID true in
      match os_Stat env fs source with
      | StatNotExist => (fs, None)
      | StatError => (fs, Some ErrStatSessionFile)
      | StatOk =>
        match os_Stat env fs dest with
        | StatOk =>
          match appendFile env fs dest source with
          | (fs1, Some e) => (fs1, Some e)
          | (fs1, None) =>
            match os_Remove env fs1 source with
            | (fs2, false) => (fs2, Some ErrRemoveSessionFile)
            | (fs2, true) => (fs2, None)
            end
          end
        | StatError => (fs, Some ErrStatArchiveFile)
        | StatNotExist =>
          match os_Rename env fs source dest with
          | (fs1, false) => (fs1, Some ErrArchiveSessionFile)
          | (fs1, true) => (fs1, None)
          end
        end
      end
  end.

(** The buffer limit [readMessages] gives its scanner. *)
Definition maxTokenSize : N := 10 * 1024 * 1024.

(** The loop of [readMessages] over the lines of the file. *)
Fixpoint decodeLines (toks : list bufio.token) : result (list Message) :=
  match toks with
  | [] => Ok []
  | bufio.TooLong :: _ => Err ErrScanSessionFile
  | bufio.Line l :: rest =>
    match json_Unmarshal l zeroMessage with
    | None => Err ErrDecodeMessage
    | Some msg =>
      match decodeLines rest with
      | Ok messages => Ok (msg :: messages)
      | Err e => Err e
      end
    end
  end.

Definition readMessages (env : Env) (fs : FS) (p : path) : result (list Message) :=
  if fails env (OpOpen p) then Err ErrOpenSessionFile
  else
    match lookupPath fs p with
    | None => Err ErrOpenSessionFile
    | Some Dir => Err ErrScanSessionFile
    | Some (File data) =>
      if fails env (OpRead p) then Err ErrScanSessionFile
      else decodeLines (bufio.scanLines maxTokenSize [] data)
    end.

(** The loop of [loadChats] over the directory entries; [i] is the index
    of the first entry of [entries] in the listing. *)
Fixpoint loadEntries (env : Env) (fs : FS) (archived : bool) (i : nat)
    (entries : list (string * node)) : result (list Chat) :=
  match entries with
  | [] => Ok []
  | (name, n) :: rest =>
    if ctxErr env archived i then Err ErrContext
    else if match n with Dir => true | File _ => false end
            || negb (strings.HasSuffix name ".jsonl")
    then loadEntries env fs archived (S i) rest
    else
      let sessionID := strings.TrimSuffix name ".jsonl" in
      match readMessages env fs (archived, name) with
      | Err e => Err e
      | Ok messages =>
        match loadEntries env fs archived (S i) rest with
        | Ok chats => Ok (mkChat sessionID archived messages :: chats)
        | Err e => Err e
        end
      end
  end.

Definition loadChats (s : Store) (env : Env) (fs : FS) (archived : bool)
  : result (list Chat) :=
  match os_ReadDir env fs archived with
  | None => Err ErrReadChatDir
  | Some None => Ok []
  | Some (Some entries) => loadEntries env fs archived 0 entries
  end.

Section ExportAll.

(** The sort [ExportAll] calls.  The code runs [sort.Slice]; what holds
    of every sort that returns a sorted permutation, as the documentation
    of [sort.Slice] promises, is stated over [sort_Slice]. *)
Variable sort_Slice : (Chat -> Chat -> bool) -> list Chat -> list Chat.

(** [export.Chats[i].SessionID < export.Chats[j].SessionID] *)
Definition lessSessionID (a b : Chat) : bool :=
  String.ltb (chatSessionID a) (chatSessionID b).

(** Whether [json.MarshalIndent] of the export succeeds: the two
    [MarshalJSON] methods must, and the indenting pass scans the whole
    output, in which a payload lies inside five enclosing values (the
    export, [chats], the chat, [messages], the message). *)
Definition messageMarshals (m : Message) : bool :=
  bool_decide (is_Some (json_Marshal m))
  && json.fitsAtDepth 5 (json.RawMessage_MarshalJSON (Payload m)).

Definition exportMarshals (e : Export) : bool :=
  bool_decide (is_Some (time.MarshalJSON (ExportedAt e)))
  && forallb (fun c => forallb messageMarshals (Messages c)) (Chats e).

(** [ExportAll] up to the snapshot it serialises: [Ok export] when the
    call returns nil after writing [export] to [outputPath], which lies
    outside the two status directories. *)
Definition ExportAll (s : option Store) (env : Env) (fs : FS)
    (outputPath : string) : result Export :=
  match s with
  | None => Err ErrNotConfigured
  | Some st =>
    if strings.TrimSpace_is_empty outputPath then Err ErrOutputPathRequired
    else
      match loadChats st env fs false with
      | Err e => Err e
      | Ok activeChats =>
        match loadChats st env fs true with
        | Err e => Err e
        | Ok archivedChats =>
          let export :=
            mkExport (now env) (length activeChats) (length archivedChats)
                     (sort_Slice lessSessionID (activeChats ++ archivedChats)) in
          if negb (exportMarshals export) then Err ErrMarshalExport
          else if fails env OpMkdirOutput then Err ErrCreateExportDir
          else if fails env OpWriteOutput then Err ErrWriteExportFile
          else Ok export
        end
      end
  end.

End ExportAll.

(* ===================================================================== *)
(** ** The callers of the store: [internal/server/chat.go] *)
(* ===================================================================== *)

(** The part of [Server] that [chat.go] reads: the chat store, nil when
    chats are not kept.  The logger is not modelled: each function
    returns, beside the file system, the error it hands to
    [s.logger.DebugContext], if any. *)
Record Server := mkServer {
  chatStore : option Store
}.

Section Chat.

(** Whether [json.Unmarshal(payload, &base)] returns nil and leaves
    [base.Id] nil.  The type [jsonrpc.BaseMessage] belongs to another
    package, so the test is a parameter. *)
Variable decodesWithoutId : option bytes -> bool.

Definition recordChatMessage (s : option Server) (env : Env) (fs : FS)
    (sessionID toolsetName : string) (payload : option bytes) : FS * option error :=
  match s with
  | None => (fs, None)
  | Some srv =>
    match chatStore srv with
    | None => (fs, None)
    | Some st =>
      let direction :=
        if decodesWithoutId payload then DirectionNotification else DirectionRequest in
      RecordMessage (Some st) env fs sessionID toolsetName direction payload
    end
  end.

Definition recordChatResponse (s : option Server) (env : Env) (fs : FS)
    (sessionID toolsetName : string) (payload : option bytes) : FS * option error :=
  match s with
  | None => (fs, None)
  | Some srv =>
    match chatStore srv with
    | None => (fs, None)
    | Some st =>
      RecordMessage (Some st) env fs sessionID toolsetName DirectionResponse payload
    end
  end.

End Chat.

(* ===================================================================== *)
(** * The vocabulary of the properties *)
(* ===================================================================== *)

(** The log that holds [records], each followed by the record separator
    as [RecordMessage] writes it. *)
Definition logOf (records : list bytes) : bytes :=
  concat (map (fun r => r ++ ["010"%char]) records).

(** The system calls [ArchiveSession] makes, in order, when none of them
    fails: the no-op, the merge path and the rename path. *)
Definition archiveSteps (fs : FS) (src dst : path) : list op :=
  match lookupPath fs src with
  | None => [OpStat src]
  | Some _ =>
    match lookupPath fs dst with
    | Some _ =>
      [OpStat src; OpStat dst; OpReadFile src; OpOpenAppend dst; OpWrite dst;
       OpRemove src]
    | None => [OpStat src; OpStat dst; OpRename src dst]
    end
  end.

(** The lines of a log: the text before each record separator, and what
    follows the last separator when that is not empty. *)
Fixpoint rawLines (cur data : bytes) : list bytes :=
  match data with
  | [] => match cur with [] => [] | _ :: _ => [cur] end
  | c :: rest =>
    if Ascii.eqb c "010" then cur :: rawLines [] rest
    else rawLines (cur ++ [c]) rest
  end.

(** What the documentation of [sort.Slice] promises for the comparison
    [ExportAll] passes: the result is a permutation of the input in which
    no element is less than the one before it. *)
Definition sortsBySessionID
    (sort_Slice : (Chat -> Chat -> bool) -> list Chat -> list Chat) : Prop :=
  forall l,
    sort_Slice lessSessionID l ≡ₚ l
    /\ Sorted (fun a b => lessSessionID b a = false) (sort_Slice lessSessionID l).

(** The stable sort the specification speaks of: insertion sort, an
    element going before the first one that is not less than it. *)
Fixpoint insertStable (less : Chat -> Chat -> bool) (x : Chat) (l : list Chat)
  : list Chat :=
  match l with
  | [] => [x]
  | y :: l' => if less y x then y :: insertStable less x l' else x :: l
  end.

(** Insertion of the elements from the last to the first, so that of two
    equal elements the earlier one stays in front. *)
Definition stableSort (less : Chat -> Chat -> bool) (l : list Chat) : list Chat :=
  foldr (insertStable less) [] l.

(** Two sorts that keep the promise of [sort.Slice]: a merge sort, and a
    merge sort of the descending order read backwards, which reverses
    the entries that compare equal. *)
Definition mergeSortBy (less : Chat -> Chat -> bool) (l : list Chat) : list Chat :=
  @merge_sort Chat (fun a b => less b a = false)
              (fun a b => decide (less b a = false)) l.

(** The sorted list in which equal elements come in the reverse of their
    input order. *)
Definition tieReversingSort (less : Chat -> Chat -> bool) (l : list Chat)
  : list Chat :=
  reverse (@merge_sort Chat (fun a b => less a b = false)
                       (fun a b => decide (less a b = false)) l).

(** What the proof that [sort.Slice] sorts speaks of. *)
Section SortVocabulary.

Context {A : Type} (less : A -> A -> bool).

(** [less] is a strict weak order: what [sort.Slice] asks of the
    comparison it is given. *)
Record strictWeakOrder : Prop := mkStrictWeakOrder {
  less_irrefl : forall x, less x x = false;
  less_trans : forall x y z, less x y = true -> less y z = true -> less x z = true;
  less_ntrans : forall x y z, less x y = false -> less y z = false -> less x z = false
}.

(** The elements of [data] from [a] up to [b], [b] excluded, are in
    order: none is less than one before it. *)
Definition sortedOn (data : list A) (a b : nat) : Prop :=
  forall i j x y,
    (a <= i)%nat -> (i < j)%nat -> (j < b)%nat ->
    data !! i = Some x -> data !! j = Some y -> less y x = false.

(** [data'] comes from [data] by swaps of elements from [a] up to [b],
    [b] excluded. *)
Inductive swaps (a b : nat) : list A -> list A -> Prop :=
| swaps_refl data : swaps a b data data
| swaps_step data i j data' :
    (a <= i < b)%nat -> (a <= j < b)%nat -> (b <= length data)%nat ->
    swaps a b (sort.Swap data i j) data' -> swaps a b data data'.

(** Every element from [a] up to [b] satisfies [P]. *)
Definition allOn (P : A -> Prop) (data : list A) (a b : nat) : Prop :=
  forall k x, (a <= k < b)%nat -> data !! k = Some x -> P x.

(** No element from [a] up to [b] is less than the element before [a],
    when there is one: what [pdqsort_func] relies on when it is called on
    the right of a pivot. *)
Definition lowerBound (data : list A) (a b : nat) : Prop :=
  forall y, (0 < a)%nat -> data !! (a - 1)%nat = Some y ->
            allOn (fun x => less x y = false) data a b.

(** The heap of [siftDown_func] from the parent [lo] on, below [hi] and
    apart from the parent [r]: no child is greater than its parent. *)
Definition heapExcept (data : list A) (first lo hi : nat) (r : option nat) : Prop :=
  forall q c x y,
    (lo <= q)%nat -> (c < hi)%nat -> (c = 2 * q + 1 \/ c = 2 * q + 2)%nat ->
    r <> Some q ->
    data !! (first + q)%nat = Some x -> data !! (first + c)%nat = Some y ->
    less x y = false.

(** Where the loops of [partition_func] ([up]) and [partitionEqual_func]
    stand: the pivot [p] is at [a], the elements after it and before [i]
    are on its left side, those after [j] and before [b] on its right
    side. *)
Definition partitionInv (up : bool) (data : list A) (a b i j : nat) (p : A) : Prop :=
  (a + 1 <= i)%nat /\ (i <= j + 1)%nat /\ (j < b)%nat /\ (b <= length data)%nat
  /\ data !! a = Some p
  /\ allOn (fun x => (if up then less x p else negb (less p x)) = true)
           data (a + 1) i
  /\ allOn (fun x => (if up then negb (less x p) else less p x) = true)
           data (j + 1) b.

End SortVocabulary.

(** C1, as the specification words it, for the sort the code runs with
    the generator [random_Next]: the [chats] of the snapshot are the
    stable sort of the active-loaded list followed by the archived-loaded
    one. *)
Definition ExportAll_stable_sort_claim (random_Next : N -> N) : Prop :=
  forall st env fs out export,
    ExportAll (sort.Slice random_Next) (Some st) env fs out = Ok export ->
    exists active archived,
      loadChats st env fs false = Ok active
      /\ loadChats st env fs true = Ok archived
      /\ ActiveChats export = length active
      /\ ArchivedChats export = length archived
      /\ Chats export = stableSort lessSessionID (active ++ archived).

(** The record separator. *)
Definition newline : ascii := "010".

(** The name of the log of a session. *)
Definition logName (S : string) : string := sanitizeSessionID S +:+ ".jsonl".

(** The bytes of the log [name] in the directory [dir]; none when there
    is no such file. *)
Definition contentOf (dir : gmap string node) (name : string) : bytes :=
  match dir !! name with
  | Some (File old) => old
  | _ => []
  end.

(** An entry of a directory listing that [loadChats] gets past. *)
Definition loadsOk (env : Env) (fs : FS) (archived : bool) (e : string * node) : Prop :=
  match snd e with
  | Dir => True
  | File _ =>
    strings.HasSuffix (fst e) ".jsonl" = true ->
    exists ms, readMessages env fs (archived, fst e) = Ok ms
  end.

(** Whether the line of [m] fits the buffer of the scanner of
    [readMessages]. *)
Definition lineFits (m : Message) : bool :=
  match json_Marshal m with
  | Some data => N.of_nat (length data) <? maxTokenSize
  | None => true
  end.

(** The message [RecordMessage] builds. *)
Definition recorded (env : Env) (S toolset direction : string) (payload : option bytes)
  : Message :=
  mkMessage S toolset direction (now env) payload.

(** The message a load returns for a recorded one whose payload compacts
    to [pl]. *)
Definition loaded (env : Env) (S toolset direction : string) (pl : bytes) : Message :=
  mkMessage (toValidUTF8 S) (toValidUTF8 toolset) (toValidUTF8 direction)
            (now env) (Some pl).

(** In [env] reading the active log of [S] meets no I/O error. *)
Definition readsLog (env : Env) (st : Store) (S : string) : Prop :=
  fails env (OpOpen (sessionPath st S false)) = false
  /\ fails env (OpRead (sessionPath st S false)) = false.

(** In [env] listing the active directory meets no I/O error and the
    context is not cancelled. *)
Definition listsActive (env : Env) : Prop :=
  fails env (OpReadDir false) = false /\ forall i, ctxErr env false i = false.

(** C3, as the specification words it: the chat holds exactly the
    appended message, payload bytes included. *)
Definition RecordMessage_round_trip_claim : Prop :=
  forall st env env' fs fs' S toolset direction payload chats0,
    RecordMessage (Some st) env fs S toolset direction payload = (fs', None) ->
    lookupPath fs (sessionPath st S false) = None ->
    json.fitsAtDepth 1 (json.RawMessage_MarshalJSON payload) = true ->
    lineFits (recorded env S toolset direction payload) = true ->
    readsLog env' st S ->
    listsActive env' ->
    loadChats st env' fs false = Ok chats0 ->
    exists chats,
      loadChats st env' fs' false = Ok chats
      /\ filter (fun c => chatSessionID c = sanitizeSessionID S) chats
         = [mkChat (sanitizeSessionID S) false [recorded env S toolset direction payload]].

(** An environment without I/O errors at the given clock reading. *)
Definition quietEnv (t : time.Time) : Env :=
  mkEnv t (fun _ => false) 0 (fun _ _ => false).

(** A store and two clock readings for the worked examples. *)
Definition exStore : Store := mkStore "/var/lib/toolbox/chats".
Definition exEnv : Env := quietEnv "2025-01-02T03:04:05Z".
Definition exEnv2 : Env := quietEnv "2025-01-02T03:04:06.5Z".

(** The freshly created store: two empty status directories. *)
Definition emptyFS : FS := mkFS (Some ∅) (Some ∅).

(** A payload with a space that JSON does not need. *)
Definition spacedPayload : option bytes := Some (list_ascii_of_string "[1, 2]").

(** A payload that is not JSON. *)
Definition plainPayload : option bytes := Some (list_ascii_of_string "hello").

(** C4, as the specification words it: whatever the payload bytes, a
    [RecordMessage] that meets no I/O error succeeds, and the record read
    back holds the bytes the caller gave. *)
Definition RecordMessage_verbatim_claim : Prop :=
  forall st t fs S toolset direction payload,
    S <> EmptyString ->
    statusDir fs false <> None ->
    lookupPath fs (sessionPath st S false) = None ->
    exists fs' m,
      RecordMessage (Some st) (quietEnv t) fs S toolset direction (Some payload)
      = (fs', None)
      /\ readMessages (quietEnv t) fs' (sessionPath st S false) = Ok [m]
      /\ Payload m = Some payload.

(** A session identifier that is not UTF-8: the single byte 0xFF. *)
Definition byteFF : string := String "255" EmptyString.

(** C10, as the specification words it: the chat loaded after a
    [RecordMessage] for [S] is named by the sanitized token and its
    message holds the raw [S]. *)
Definition raw_session_id_claim : Prop :=
  forall st env env' fs fs' S toolset direction payload chats0,
    RecordMessage (Some st) env fs S toolset direction payload = (fs', None) ->
    lookupPath fs (sessionPath st S false) = None ->
    json.fitsAtDepth 1 (json.RawMessage_MarshalJSON payload) = true ->
    lineFits (recorded env S toolset direction payload) = true ->
    readsLog env' st S ->
    listsActive env' ->
    loadChats st env' fs false = Ok chats0 ->
    exists chats m,
      loadChats st env' fs' false = Ok chats
      /\ filter (fun c => chatSessionID c = sanitizeSessionID S) chats
         = [mkChat (sanitizeSessionID S) false [m]]
      /\ SessionID m = S.

(** The file system after the session "xyz" has got one message and has
    been archived, and the session "abc" has got two messages. *)
Definition exampleFS : FS :=
  let fs1 := fst (RecordMessage (Some exStore) exEnv emptyFS "xyz" EmptyString
                                "request" spacedPayload) in
  let fs2 := fst (ArchiveSession (Some exStore) exEnv fs1 "xyz") in
  let fs3 := fst (RecordMessage (Some exStore) exEnv fs2 "abc" "tools"
                                "request" spacedPayload) in
  fst (RecordMessage (Some exStore) exEnv2 fs3 "abc" "tools" "response" None).

(** A session with one empty log in each status. *)
Definition twiceFS : FS :=
  mkFS (Some {[ "abc.jsonl"%string := File [] ]})
       (Some {[ "abc.jsonl"%string := File [] ]}).

(** Seven sessions, each recorded, archived and recorded again: every
    one has a log in both statuses. *)
Definition sevenSessions : list string :=
  ["a01"; "a02"; "a03"; "a04"; "a05"; "a06"; "a07"]%string.

Definition sevenTwiceFS : FS :=
  foldl (fun fs S =>
           let fs := fst (RecordMessage (Some exStore) exEnv fs S EmptyString
                                        "request" spacedPayload) in
           let fs := fst (ArchiveSession (Some exStore) exEnv fs S) in
           fst (RecordMessage (Some exStore) exEnv2 fs S EmptyString
                              "response" None))
        emptyFS sevenSessions.

(** A session with two records in each status. *)
Definition mergeFS : FS :=
  mkFS (Some {[ "s.jsonl"%string
                := File (logOf [list_ascii_of_string "a1"; list_ascii_of_string "a2"]) ]})
       (Some {[ "s.jsonl"%string
                := File (logOf [list_ascii_of_string "b1"; list_ascii_of_string "b2"]) ]}).

(** An environment in which writing to an archived log fails. *)
Definition archiveWriteFails : Env :=
  mkEnv (now exEnv)
        (fun o => match o with OpWrite (true, _) => true | _ => false end)
        0 (fun _ _ => false).

(** An active log whose second line is cut short. *)
Definition tornFS : FS :=
  mkFS (Some {[ "s.jsonl"%string
                := File (logOf [list_ascii_of_string "{}"; list_ascii_of_string "{"]) ]})
       None.

(** ** The scanner inside the decoder

    What relates a scanner that reads a payload on its own to the
    scanner of the decoder reading the compacted payload as the value of
    a member, and the states the decoder of a message goes through. *)

Section ScannerVocabulary.

Import scanner.

(** The stack below a payload inside the message object. *)
Definition payloadBase : list parseState := [parseObjectValue].

(** The states in which a number may end. *)
Definition numEnd (f : stepFn) : bool :=
  match f with
  | state0 | state1 | stateDot0 | stateE0 => true
  | _ => false
  end.

(** A value has ended, or is a number that may end here. *)
Definition valueEnded (f : stepFn) : bool :=
  match f with
  | stateEndValue => true
  | _ => numEnd f
  end.

(** How the step function [a] of a scanner reading a text on its own and
    the step function [b] of a scanner reading the compacted text inside
    an object correspond: they agree, except that the first is told of
    the end of the top-level value, and has read the spaces after a
    number that the second never sees. *)
Definition stepRel (a b : stepFn) : Prop :=
  (a = b /\ a <> stateEndTop /\ a <> stateError)
  \/ (a = stateEndTop /\ b = stateEndValue)
  \/ ((a = stateEndValue \/ a = stateEndTop) /\ numEnd b = true).

(** The scanner [s] that reads a payload on its own and the scanner [s']
    that reads its compacted form inside the message object, after the
    same significant bytes. *)
Definition Sim (s s' : scanner.t) : Prop :=
  err s = false /\ err s' = false /\ endTop s' = false
  /\ stack s' = stack s ++ payloadBase
  /\ stepRel (step s) (step s')
  /\ (endTop s = true -> step s = stateEndTop)
  /\ (step s = stateEndTop -> stack s = [] /\ endTop s = true).

(** A run of steps that all answer [scanContinue]. *)
Fixpoint litRun (s : scanner.t) (chunk : bytes) : option scanner.t :=
  match chunk with
  | [] => Some s
  | c :: rest =>
    match do_step s c with
    | (s1, scanContinue) => litRun s1 rest
    | _ => None
    end
  end.

(** What [appendString] writes for one ASCII byte. *)
Definition asciiChunk (b : ascii) : bytes :=
  if json.htmlSafeSet b then [b] else json.escape_ascii b.

(** A top-level scanner inside a string literal. *)
Definition inString : scanner.t := scanner.mk stateInString false [] false.

(** The decoder inside the top-level object: before a key, before the
    value of a member, and after it. *)
Definition atKey (first : bool) ms : decode.t :=
  decode.mk (scanner.mk (if first then stateBeginStringOrEmpty else stateBeginString)
                        false [parseObjectKey] false)
            decode.TopObject [] ms [] [].

(** Before the value of the member [ky]. *)
Definition atValue ms ky vl : decode.t :=
  decode.mk (scanner.mk stateBeginValue false [parseObjectValue] false)
            decode.TopObject [] ms ky vl.

(** After the value [vl] of the member [ky]. *)
Definition afterValue ms ky vl : decode.t :=
  decode.mk (scanner.mk stateEndValue false [parseObjectValue] false)
            decode.TopObject [] ms ky vl.

(** The key [name] as it stands in the text, between its quotes. *)
Definition rawKey (name : string) : bytes :=
  quote :: list_ascii_of_string name ++ [quote].

End ScannerVocabulary.

(** ** Tokens, terminated logs and further examples *)

(** The bytes a sanitized session identifier is made of: ASCII letters,
    digits, hyphen, underscore and period. *)
Definition isTokenByte (c : ascii) : bool :=
  let r := byte_val c in
  ((byte_val "a" <=? r) && (r <=? byte_val "z"))
  || ((byte_val "A" <=? r) && (r <=? byte_val "Z"))
  || ((byte_val "0" <=? r) && (r <=? byte_val "9"))
  || (r =? byte_val "-") || (r =? byte_val "_") || (r =? byte_val ".").

(** A log is terminated when it is empty or ends with the record
    separator. *)
Definition terminated (data : bytes) : Prop :=
  data = [] \/ exists l, data = l ++ [newline].

(** Every log of the store is terminated. *)
Definition terminatedFS (fs : FS) : Prop :=
  forall p data, lookupPath fs p = Some (File data) -> terminated data.

(** The log at [p] holds the messages [ms] for a reader in [env]: there
    is no log and there are no messages, or the log is terminated and
    reading it gives [ms]. *)
Definition logHolds (env : Env) (fs : FS) (p : path) (ms : list Message) : Prop :=
  (lookupPath fs p = None /\ ms = [])
  \/ ((exists data, lookupPath fs p = Some (File data) /\ terminated data)
      /\ readMessages env fs p = Ok ms).

(** The bytes of the log at [p]; none when there is no such file. *)
Definition contentAt (fs : FS) (p : path) : bytes :=
  match lookupPath fs p with
  | Some (File old) => old
  | _ => []
  end.

(** A session with an active log of one line and no archived log. *)
Definition activeOnlyFS : FS :=
  mkFS (Some {[ "s.jsonl"%string := File (logOf [list_ascii_of_string "{}"]) ]})
       (Some ∅).

(** A server that keeps chats in the example store. *)
Definition exServer : Server := mkServer (Some exStore).

(** The notification test that never answers yes: it stands for the
    decoding of [jsonrpc.BaseMessage] in the worked examples, whose
    payloads (an array, a bare word) are no base messages. *)
Definition neverNotification (payload : option bytes) : bool := false.

(* ===================================================================== *)
(** * Properties *)
(* ===================================================================== *)

(** ** The file-system model *)

Lemma statusDir_setStatusDir fs a b d :
  statusDir (setStatusDir fs a d) b = if decide (a = b) then d else statusDir fs b.
Proof. by destruct a, b, fs. Qed.

Lemma lookupPath_setStatusDir_other fs a d (p : path) :
  a ≠ fst p -> lookupPath (setStatusDir fs a d) p = lookupPath fs p.
Proof.
  intros Hne. unfold lookupPath. rewrite statusDir_setStatusDir.
  by destruct (decide (a = fst p)).
Qed.

Lemma lookupPath_setStatusDir_same fs a d (p : path) :
  a = fst p -> lookupPath (setStatusDir fs a (Some d)) p = d !! snd p.
Proof.
  intros ->. unfold lookupPath. rewrite statusDir_setStatusDir.
  by destruct (decide (fst p = fst p)).
Qed.

(** What [os.OpenFile] for appending leaves behind: nothing changes but
    the opened path, which names a file afterwards. *)
Lemma os_OpenAppend_spec env fs p fs1 ok :
  os_OpenAppend env fs p = (fs1, ok) ->
  (forall q, q ≠ p -> lookupPath fs1 q = lookupPath fs q)
  /\ (ok = false -> fs1 = fs)
  /\ (ok = true ->
      lookupPath fs1 p =
        Some (match lookupPath fs p with Some (File data) => File data | _ => File [] end)).
Proof.
  unfold os_OpenAppend. destruct p as [a name]; simpl.
  destruct (fails env _); [by intros [= <- <-]|].
  destruct (statusDir fs a) as [d|] eqn:Hd; [|by intros [= <- <-]].
  assert (Hl : lookupPath fs (a, name) = d !! name).
  { unfold lookupPath; simpl. by rewrite Hd. }
  rewrite Hl.
  destruct (d !! name) as [[data|]|] eqn:Hn; intros [= <- <-].
  - by repeat split.
  - by repeat split.
  - split; [|split; [done|]].
    + intros [b name'] Hq. unfold lookupPath; simpl.
      rewrite statusDir_setStatusDir. destruct (decide (a = b)) as [<-|]; [|done].
      rewrite Hd; simpl. rewrite lookup_insert_ne; [done|congruence].
    + intros _. rewrite lookupPath_setStatusDir_same; [|done]. simpl.
      by rewrite lookup_insert_eq.
Qed.

(** What an append leaves behind. *)
Lemma file_Write_spec env fs p data fs1 ok :
  file_Write env fs p data = (fs1, ok) ->
  (forall q, q ≠ p -> lookupPath fs1 q = lookupPath fs q)
  /\ (ok = true ->
      exists old, lookupPath fs p = Some (File old)
                  /\ lookupPath fs1 p = Some (File (old ++ data))).
Proof.
  unfold file_Write. destruct p as [a name]; simpl.
  destruct (statusDir fs a) as [d|] eqn:Hd; [|by intros [= <- <-]].
  destruct (d !! name) as [[old|]|] eqn:Hn; try by intros [= <- <-].
  assert (Hother : forall x q, q ≠ (a, name) ->
    lookupPath (setStatusDir fs a (Some (<[name := x]> d))) q = lookupPath fs q).
  { intros x [b name'] Hq. unfold lookupPath; simpl.
    rewrite statusDir_setStatusDir. destruct (decide (a = b)) as [<-|]; [|done].
    rewrite Hd; simpl. rewrite lookup_insert_ne; [done|congruence]. }
  destruct (fails env _); intros [= <- <-]; (split; [by apply Hother|]); [done|].
  intros _. exists old. split.
  - unfold lookupPath; simpl. by rewrite Hd; simpl.
  - rewrite lookupPath_setStatusDir_same; [|done]. simpl. by rewrite lookup_insert_eq.
Qed.

Lemma os_Remove_spec env fs p fs1 ok :
  os_Remove env fs p = (fs1, ok) ->
  (forall q, q ≠ p -> lookupPath fs1 q = lookupPath fs q)
  /\ (ok = false -> fs1 = fs)
  /\ (ok = true -> lookupPath fs1 p = None).
Proof.
  unfold os_Remove. destruct p as [a name]; simpl.
  destruct (fails env _); [by intros [= <- <-]|].
  destruct (statusDir fs a) as [d|] eqn:Hd; [|by intros [= <- <-]].
  destruct (d !! name) as [n|] eqn:Hn; intros [= <- <-]; [|done].
  split; [|split; [done|]].
  - intros [b name'] Hq. unfold lookupPath; simpl.
    rewrite statusDir_setStatusDir. destruct (decide (a = b)) as [<-|]; [|done].
    rewrite Hd; simpl. rewrite lookup_delete_ne; [done|congruence].
  - intros _. rewrite lookupPath_setStatusDir_same; [|done]. simpl.
    by rewrite lookup_delete_eq.
Qed.

Lemma os_Rename_spec env fs src dst fs1 ok :
  fst src ≠ fst dst ->
  os_Rename env fs src dst = (fs1, ok) ->
  (forall q, q ≠ src -> q ≠ dst -> lookupPath fs1 q = lookupPath fs q)
  /\ (ok = false -> fs1 = fs)
  /\ (ok = true -> lookupPath fs1 src = None
                   /\ lookupPath fs1 dst = lookupPath fs src).
Proof.
  unfold os_Rename. destruct src as [a name], dst as [b name']; simpl. intros Hab.
  destruct (fails env _); [by intros [= <- <-]|].
  destruct (lookupPath fs (a, name)) as [n|] eqn:Hsrc; [|by intros [= <- <-]].
  destruct (statusDir fs b) as [db|] eqn:Hb; [|by intros [= <- <-]].
  unfold lookupPath in Hsrc; simpl in Hsrc.
  destruct (statusDir fs a) as [da|] eqn:Ha; [|done]. simpl in Hsrc.
  rewrite statusDir_setStatusDir. destruct (decide (a = b)); [done|].
  rewrite Hb. intros [= <- <-]. split; [|split; [done|]].
  - intros [c nm] Hq1 Hq2. unfold lookupPath; simpl.
    rewrite !statusDir_setStatusDir.
    destruct (decide (b = c)) as [<-|].
    + rewrite Hb; simpl. rewrite lookup_insert_ne; [done|congruence].
    + destruct (decide (a = c)) as [<-|]; [|done].
      rewrite Ha; simpl. rewrite lookup_delete_ne; [done|congruence].
  - intros _. split.
    + unfold lookupPath; simpl. rewrite !statusDir_setStatusDir.
      destruct (decide (b = a)); [congruence|].
      destruct (decide (a = a)); [|done]. simpl. by rewrite lookup_delete_eq.
    + rewrite lookupPath_setStatusDir_same; [|done]. simpl.
      by rewrite lookup_insert_eq.
Qed.

(** ** [ArchiveSession] *)

Lemma logOf_app r1 r2 : logOf (r1 ++ r2) = logOf r1 ++ logOf r2.
Proof. unfold logOf. by rewrite map_app, concat_app. Qed.

Lemma sessionPath_fst st S a : fst (sessionPath st S a) = a.
Proof. done. Qed.

Lemma sessionPath_ne st S : sessionPath st S false ≠ sessionPath st S true.
Proof. unfold sessionPath. congruence. Qed.

Lemma os_Stat_StatOk env fs p :
  os_Stat env fs p = StatOk -> fails env (OpStat p) = false /\ is_Some (lookupPath fs p).
Proof.
  unfold os_Stat. destruct (fails env _); [done|].
  destruct (lookupPath fs p); [eauto|done].
Qed.

Lemma os_Stat_StatNotExist env fs p :
  os_Stat env fs p = StatNotExist -> lookupPath fs p = None.
Proof.
  unfold os_Stat. destruct (fails env _); [done|].
  by destruct (lookupPath fs p).
Qed.

(** The merge path: after a successful [appendFile] the destination holds
    its old bytes followed by the bytes of the source, and nothing else
    has changed. *)
Lemma appendFile_ok env fs dest source fs1 old :
  source ≠ dest ->
  lookupPath fs dest = Some (File old) ->
  appendFile env fs dest source = (fs1, None) ->
  exists data, lookupPath fs source = Some (File data)
    /\ lookupPath fs1 dest = Some (File (old ++ data))
    /\ forall q, q ≠ dest -> lookupPath fs1 q = lookupPath fs q.
Proof.
  intros Hne Hold. unfold appendFile, os_ReadFile.
  destruct (fails env (OpReadFile source)); [done|].
  destruct (lookupPath fs source) as [[data|]|] eqn:Hsrc; try done.
  destruct (os_OpenAppend env fs dest) as [fsa [|]] eqn:Hopen; [|done].
  apply os_OpenAppend_spec in Hopen as (Ho1 & _ & Ho2).
  specialize (Ho2 eq_refl). rewrite Hold in Ho2.
  destruct (file_Write env fsa dest data) as [fsb [|]] eqn:Hw; [|done].
  apply file_Write_spec in Hw as (Hw1 & Hw2).
  destruct (Hw2 eq_refl) as (old' & Hold' & Hnew).
  intros [= <-]. exists data. split; [done|]. split.
  - rewrite Hnew. congruence.
  - intros q Hq. rewrite Hw1, Ho1; done.
Qed.

(** An [appendFile] that returns an error has left every path other than
    the destination as it was. *)
Lemma appendFile_other env fs dest source fs1 e :
  appendFile env fs dest source = (fs1, e) ->
  forall q, q ≠ dest -> lookupPath fs1 q = lookupPath fs q.
Proof.
  unfold appendFile. destruct (os_ReadFile env fs source); [|by intros [= <- <-]].
  destruct (os_OpenAppend env fs dest) as [fsa ok] eqn:Hopen.
  apply os_OpenAppend_spec in Hopen as (Ho1 & _ & _).
  destruct ok; [|by intros [= <- <-]; auto].
  destruct (file_Write env fsa dest l) as [fsb ok] eqn:Hw.
  apply file_Write_spec in Hw as (Hw1 & _).
  destruct ok; intros [= <- <-] q Hq; rewrite Hw1, Ho1; done.
Qed.

(** Archiving into an existing archive, for arbitrary contents. *)
Lemma ArchiveSession_merge st env fs S old new fs' :
  S ≠ EmptyString ->
  lookupPath fs (sessionPath st S false) = Some (File new) ->
  lookupPath fs (sessionPath st S true) = Some (File old) ->
  ArchiveSession (Some st) env fs S = (fs', None) ->
  lookupPath fs' (sessionPath st S true) = Some (File (old ++ new))
  /\ lookupPath fs' (sessionPath st S false) = None
  /\ forall q, q ≠ sessionPath st S false -> q ≠ sessionPath st S true ->
               lookupPath fs' q = lookupPath fs q.
Proof.
  intros HS Hsrc Hdst. unfold ArchiveSession.
  destruct (decide (S = EmptyString)); [done|].
  pose proof (sessionPath_ne st S) as Hne.
  set (src := sessionPath st S false) in *. set (dst := sessionPath st S true) in *.
  unfold os_Stat. rewrite Hsrc, Hdst.
  destruct (fails env (OpStat src)); [done|].
  destruct (fails env (OpStat dst)); [done|].
  destruct (appendFile env fs dst src) as [fs1 [e|]] eqn:Happ; [done|].
  apply appendFile_ok with (old := old) in Happ as (data & Hd & Hnew & Hoth); [|done..].
  destruct (os_Remove env fs1 src) as [fs2 [|]] eqn:Hrm; [|done].
  apply os_Remove_spec in Hrm as (Hr1 & _ & Hr2).
  intros [= <-]. split; [|split].
  - rewrite Hr1; [|done]. rewrite Hnew. congruence.
  - by apply Hr2.
  - intros q Hq1 Hq2. rewrite Hr1, Hoth; done.
Qed.

(** C2. For a session whose active log holds the records [a1, a2] and
    whose archived log already holds [b1, b2], a successful
    [ArchiveSession] leaves the archived log equal to [b1, b2, a1, a2]
    and no active log for the session. *)
Theorem ArchiveSession_appends_after_archived
    st env fs S (a1 a2 b1 b2 : bytes) fs' :
  S ≠ EmptyString ->
  lookupPath fs (sessionPath st S false) = Some (File (logOf [a1; a2])) ->
  lookupPath fs (sessionPath st S true) = Some (File (logOf [b1; b2])) ->
  ArchiveSession (Some st) env fs S = (fs', None) ->
  lookupPath fs' (sessionPath st S true) = Some (File (logOf [b1; b2; a1; a2]))
  /\ lookupPath fs' (sessionPath st S false) = None.
Proof.
  intros HS Hsrc Hdst Harch.
  destruct (ArchiveSession_merge _ _ _ _ _ _ _ HS Hsrc Hdst Harch) as (H1 & H2 & _).
  split; [|done]. rewrite H1. by rewrite <- logOf_app.
Qed.

Lemma file_Write_fails env fs p data :
  fails env (OpWrite p) = true -> is_Some (lookupPath fs p) ->
  snd (file_Write env fs p data) = false.
Proof.
  intros Hf. unfold file_Write, lookupPath.
  destruct (statusDir fs (fst p)) as [d|]; [|done]. simpl.
  destruct (d !! snd p) as [[old|]|]; [|done..]. by rewrite Hf.
Qed.

(** An [ArchiveSession] that returns an error has not touched the active
    log. *)
Lemma ArchiveSession_error_keeps_source st env fs S fs' e :
  ArchiveSession (Some st) env fs S = (fs', Some e) ->
  lookupPath fs' (sessionPath st S false) = lookupPath fs (sessionPath st S false).
Proof.
  unfold ArchiveSession. destruct (decide (S = EmptyString)); [done|].
  pose proof (sessionPath_ne st S) as Hne.
  set (src := sessionPath st S false) in *. set (dst := sessionPath st S true) in *.
  destruct (os_Stat env fs src); [|done|by intros [= <- _]].
  destruct (os_Stat env fs dst); [| |by intros [= <- _]].
  - destruct (appendFile env fs dst src) as [fs1 [e1|]] eqn:Happ.
    + intros [= <- _]. by eapply appendFile_other.
    + destruct (os_Remove env fs1 src) as [fs2 [|]] eqn:Hrm; [done|].
      apply os_Remove_spec in Hrm as (_ & Hr & _). rewrite (Hr eq_refl).
      intros [= <- _]. by eapply appendFile_other.
  - destruct (os_Rename env fs src dst) as [fs1 [|]] eqn:Hrn; [done|].
    apply os_Rename_spec in Hrn as (_ & Hr & _); [|done].
    rewrite (Hr eq_refl). by intros [= <- _].
Qed.

(** A failing step makes [ArchiveSession] return an error. *)
Lemma ArchiveSession_step_fails st env fs S o :
  S ≠ EmptyString ->
  o ∈ archiveSteps fs (sessionPath st S false) (sessionPath st S true) ->
  fails env o = true ->
  snd (ArchiveSession (Some st) env fs S) ≠ None.
Proof.
  intros HS Ho Hf. unfold ArchiveSession. destruct (decide (S = EmptyString)); [done|].
  pose proof (sessionPath_ne st S) as Hne.
  set (src := sessionPath st S false) in *. set (dst := sessionPath st S true) in *.
  unfold archiveSteps in Ho. unfold os_Stat.
  destruct (fails env (OpStat src)) eqn:Hs1; [done|].
  destruct (lookupPath fs src) as [nsrc|] eqn:Hsrc.
  2:{ apply list_elem_of_singleton in Ho. congruence. }
  destruct (fails env (OpStat dst)) eqn:Hs2; [done|].
  destruct (lookupPath fs dst) as [ndst|] eqn:Hdst.
  - (* merge path *)
    unfold appendFile, os_ReadFile. rewrite Hsrc.
    destruct (fails env (OpReadFile src)) eqn:Hrd; [done|].
    destruct nsrc as [data|]; [|done].
    destruct (os_OpenAppend env fs dst) as [fsa [|]] eqn:Hopen; [|done].
    pose proof Hopen as Hopen'.
    apply os_OpenAppend_spec in Hopen' as (Ho1 & _ & Ho2). specialize (Ho2 eq_refl).
    destruct (fails env (OpOpenAppend dst)) eqn:Hop.
    { unfold os_OpenAppend in Hopen. by rewrite Hop in Hopen. }
    destruct (fails env (OpWrite dst)) eqn:Hwr.
    { pose proof (file_Write_fails env fsa dst data Hwr) as Hw.
      destruct (file_Write env fsa dst data) as [fsb [|]]; [|done].
      rewrite Ho2 in Hw. by specialize (Hw (mk_is_Some _ _ eq_refl)). }
    destruct (file_Write env fsa dst data) as [fsb [|]]; [|done].
    destruct (fails env (OpRemove src)) eqn:Hrm.
    { unfold os_Remove. by rewrite Hrm. }
    clear -Ho Hf Hs1 Hs2 Hrd Hop Hwr Hrm.
    repeat (apply elem_of_cons in Ho as [->|Ho]; [congruence|]).
    by apply elem_of_nil in Ho.
  - (* rename path *)
    destruct (fails env (OpRename src dst)) eqn:Hrn.
    { unfold os_Rename. by rewrite Hrn. }
    clear -Ho Hf Hs1 Hs2 Hrn.
    repeat (apply elem_of_cons in Ho as [->|Ho]; [congruence|]).
    by apply elem_of_nil in Ho.
Qed.

(** C5. If a step of [ArchiveSession] fails the call returns an error; a
    call that returns an error leaves the active log as it was; and the
    active log is gone only once the archived log holds its bytes after
    its own. *)
Theorem ArchiveSession_failure_keeps_active_log st env fs S fs' e :
  S ≠ EmptyString ->
  ArchiveSession (Some st) env fs S = (fs', e) ->
  ((exists o, o ∈ archiveSteps fs (sessionPath st S false) (sessionPath st S true)
              /\ fails env o = true) -> e ≠ None)
  /\ (e ≠ None ->
      lookupPath fs' (sessionPath st S false) = lookupPath fs (sessionPath st S false))
  /\ (forall a b,
        lookupPath fs (sessionPath st S false) = Some (File a) ->
        lookupPath fs (sessionPath st S true) = Some (File b) ->
        lookupPath fs' (sessionPath st S false) = None ->
        lookupPath fs' (sessionPath st S true) = Some (File (b ++ a))).
Proof.
  intros HS Harch. split; [|split].
  - intros (o & Ho & Hf).
    pose proof (ArchiveSession_step_fails st env fs S o HS Ho Hf) as H.
    by rewrite Harch in H.
  - destruct e as [e|]; [|done]. intros _.
    by eapply ArchiveSession_error_keeps_source.
  - intros a b Ha Hb Hgone. destruct e as [e|].
    + apply ArchiveSession_error_keeps_source in Harch. congruence.
    + by destruct (ArchiveSession_merge _ _ _ _ _ _ _ HS Ha Hb Harch) as (H1 & _).
Qed.

(** After a successful [ArchiveSession] there is no active log for the
    session. *)
Lemma ArchiveSession_ok_no_source st env fs S fs' :
  S ≠ EmptyString ->
  ArchiveSession (Some st) env fs S = (fs', None) ->
  lookupPath fs' (sessionPath st S false) = None.
Proof.
  intros HS. unfold ArchiveSession. destruct (decide (S = EmptyString)); [done|].
  pose proof (sessionPath_ne st S) as Hne.
  set (src := sessionPath st S false) in *. set (dst := sessionPath st S true) in *.
  destruct (os_Stat env fs src) eqn:Hs1; [| |done].
  2:{ intros [= <-]. by apply os_Stat_StatNotExist in Hs1. }
  destruct (os_Stat env fs dst) eqn:Hs2; [| |done].
  - destruct (appendFile env fs dst src) as [fs1 [e1|]] eqn:Happ; [done|].
    destruct (os_Remove env fs1 src) as [fs2 [|]] eqn:Hrm; [|done].
    apply os_Remove_spec in Hrm as (_ & _ & Hr). intros [= <-]. by apply Hr.
  - destruct (os_Rename env fs src dst) as [fs1 [|]] eqn:Hrn; [|done].
    apply os_Rename_spec in Hrn as (_ & _ & Hr); [|done].
    intros [= <-]. by apply Hr.
Qed.

(** C9. [ArchiveSession] is idempotent: without an active log for the
    session it succeeds and changes nothing, so a second call right after
    a successful one leaves the archived log, and everything else, as the
    first call left it. *)
Theorem ArchiveSession_idempotent st env env' fs S :
  fails env' (OpStat (sessionPath st S false)) = false ->
  (lookupPath fs (sessionPath st S false) = None ->
   ArchiveSession (Some st) env' fs S = (fs, None))
  /\ (forall fs1,
        ArchiveSession (Some st) env fs S = (fs1, None) ->
        ArchiveSession (Some st) env' fs1 S = (fs1, None)).
Proof.
  intros Hstat.
  assert (Hnoop : forall fs0, lookupPath fs0 (sessionPath st S false) = None ->
                              ArchiveSession (Some st) env' fs0 S = (fs0, None)).
  { intros fs0 Hnone. unfold ArchiveSession. destruct (decide (S = EmptyString)); [done|].
    unfold os_Stat. by rewrite Hstat, Hnone. }
  split; [by apply Hnoop|].
  intros fs1 Hfirst. destruct (decide (S = EmptyString)) as [->|HS].
  - unfold ArchiveSession in *. by destruct (decide (EmptyString = EmptyString)).
  - apply Hnoop. by eapply ArchiveSession_ok_no_source.
Qed.

(** ** [RecordMessage] and the disabled store *)

(** C7. On a store, [RecordMessage] with an empty session identifier
    returns the "session id is required" error and leaves the file system
    as it was. *)
Theorem RecordMessage_empty_session_id st env fs toolset direction payload :
  RecordMessage (Some st) env fs EmptyString toolset direction payload
  = (fs, Some ErrSessionIDRequired).
Proof. unfold RecordMessage. by destruct (decide (EmptyString = EmptyString)). Qed.

(** C8. [NewStore] with a blank root returns the nil store without an
    error and without touching the file system; on it [RecordMessage] and
    [ArchiveSession] return nil and change nothing, and [ExportAll] returns
    an error. *)
Theorem disabled_store_noop sort_Slice env fs root :
  strings.TrimSpace_is_empty root = true ->
  exists s,
    NewStore env fs root = (fs, s, None)
    /\ (forall env' fs' S toolset direction payload,
          RecordMessage s env' fs' S toolset direction payload = (fs', None))
    /\ (forall env' fs' S, ArchiveSession s env' fs' S = (fs', None))
    /\ (forall env' fs' out, exists e, ExportAll sort_Slice s env' fs' out = Err e).
Proof.
  intros Hblank. exists None. unfold NewStore. rewrite Hblank.
  repeat split. intros. by exists ErrNotConfigured.
Qed.

(** ** [loadChats] *)

Lemma decodeLines_malformed max cur data l :
  l ∈ rawLines cur data ->
  json_Unmarshal (bufio.dropCR l) zeroMessage = None ->
  exists e, decodeLines (bufio.scanLines max cur data) = Err e.
Proof.
  intros Hin Hbad. revert cur Hin.
  induction data as [|c rest IH]; intros cur Hin;
    cbn [rawLines bufio.scanLines] in *.
  - destruct cur as [|c0 cur]; [by apply elem_of_nil in Hin|].
    apply list_elem_of_singleton in Hin as ->.
    unfold bufio.lineToken. destruct (max <=? _); cbn [decodeLines]; [eauto|].
    rewrite Hbad. eauto.
  - destruct (Ascii.eqb c "010"); [|by apply IH].
    unfold bufio.lineToken. destruct (max <=? _); cbn [decodeLines]; [eauto|].
    destruct (json_Unmarshal (bufio.dropCR cur) zeroMessage) as [m|] eqn:Hcur; [|eauto].
    apply elem_of_cons in Hin as [->|Hin]; [congruence|].
    destruct (IH _ Hin) as [e ->]. eauto.
Qed.

Lemma loadEntries_malformed env fs archived i entries name data l :
  (name, File data) ∈ entries ->
  lookupPath fs (archived, name) = Some (File data) ->
  strings.HasSuffix name ".jsonl" = true ->
  l ∈ rawLines [] data ->
  json_Unmarshal (bufio.dropCR l) zeroMessage = None ->
  exists e, loadEntries env fs archived i entries = Err e.
Proof.
  intros Hin Hlook Hsuf Hl Hbad. revert i.
  induction entries as [|[name' n'] rest IH]; intros i; [by apply elem_of_nil in Hin|].
  cbn [loadEntries]. destruct (ctxErr env archived i); [eauto|].
  apply elem_of_cons in Hin as [[= <- <-]|Hin].
  - rewrite Hsuf. cbn [negb orb]. unfold readMessages. rewrite Hlook.
    destruct (fails env (OpOpen _)); [eauto|].
    destruct (fails env (OpRead _)); [eauto|].
    destruct (decodeLines_malformed maxTokenSize [] data l Hl Hbad) as [e ->]. eauto.
  - destruct (IH Hin (S i)) as [e He].
    destruct (_ || _); [eauto|].
    destruct (readMessages env fs (archived, name')); [|eauto].
    rewrite He. eauto.
Qed.

(** C6. [loadChats] returns the empty result without an error when the
    status directory is missing, and an error, hence no chats at all,
    whenever a line of a log file it enumerates fails to deserialize. *)
Theorem loadChats_missing_dir_and_malformed st env fs archived :
  (statusDir fs archived = None ->
   fails env (OpReadDir archived) = false ->
   loadChats st env fs archived = Ok [])
  /\ (forall d name data l,
        statusDir fs archived = Some d ->
        d !! name = Some (File data) ->
        strings.HasSuffix name ".jsonl" = true ->
        l ∈ rawLines [] data ->
        json_Unmarshal (bufio.dropCR l) zeroMessage = None ->
        exists e, loadChats st env fs archived = Err e).
Proof.
  unfold loadChats, os_ReadDir. split.
  - by intros -> ->.
  - intros d name data l Hd Hname Hsuf Hl Hbad. rewrite Hd.
    destruct (fails env _); [eauto|].
    eapply loadEntries_malformed; eauto.
    + rewrite merge_sort_Permutation. by apply elem_of_map_to_list.
    + unfold lookupPath. simpl. by rewrite Hd.
Qed.

(** ** [sort.Slice] sorts *)

Section SortProperties.

Context {A : Type} (random_Next : N -> N) (less : A -> A -> bool).
Hypothesis Hless : strictWeakOrder less.

Local Open Scope nat_scope.

(** Quotients by a constant, for [lia]. *)
Ltac quotient n k :=
  pose proof (Nat.div_mod_eq n k);
  pose proof (Nat.mod_upper_bound n k ltac:(lia)).

Local Abbreviation Swap := (@sort.Swap A).
Local Abbreviation Less := (sort.Less less).

Lemma less_asym x y : less x y = true -> less y x = false.
Proof.
  intros Hxy. destruct (less y x) eqn:Hyx; [|done].
  by rewrite <- (less_irrefl _ Hless x), (less_trans _ Hless x y x).
Qed.

Lemma Swap_length (d : list A) i j : length (Swap d i j) = length d.
Proof.
  unfold sort.Swap. destruct (d !! i), (d !! j); try done.
  by rewrite !length_insert.
Qed.

Lemma Swap_lookup (d : list A) i j k :
  i < length d -> j < length d ->
  Swap d i j !! k
  = if decide (k = j) then d !! i else if decide (k = i) then d !! j else d !! k.
Proof.
  intros Hi Hj. unfold sort.Swap.
  destruct (lookup_lt_is_Some_2 d i Hi) as [x Hx].
  destruct (lookup_lt_is_Some_2 d j Hj) as [y Hy]. rewrite Hx, Hy.
  destruct (decide (k = j)) as [->|Hkj].
  - by rewrite list_lookup_insert_eq by (by rewrite length_insert).
  - rewrite list_lookup_insert_ne by done.
    destruct (decide (k = i)) as [->|Hki].
    + by rewrite list_lookup_insert_eq.
    + by rewrite list_lookup_insert_ne.
Qed.

Lemma Less_lookup (d : list A) i j x y :
  d !! i = Some x -> d !! j = Some y -> Less d i j = less x y.
Proof. intros Hi Hj. unfold sort.Less. by rewrite Hi, Hj. Qed.

(** *** Swaps *)

Lemma swaps_trans a b (d1 d2 d3 : list A) :
  swaps a b d1 d2 -> swaps a b d2 d3 -> swaps a b d1 d3.
Proof.
  induction 1 as [|d i j d' Hi Hj Hlen Hsw IH]; [done|].
  intros H3. eapply swaps_step; [exact Hi|exact Hj|exact Hlen|by apply IH].
Qed.

Lemma swaps_one a b (d : list A) i j :
  a <= i < b -> a <= j < b -> b <= length d -> swaps a b d (Swap d i j).
Proof. intros Hi Hj Hlen. eapply swaps_step; [exact Hi|exact Hj|exact Hlen|]. apply swaps_refl. Qed.

Lemma swaps_length a b (d d' : list A) : swaps a b d d' -> length d' = length d.
Proof. induction 1; [done|]. by rewrite IHswaps, Swap_length. Qed.

Lemma swaps_mono a b a' b' (d d' : list A) :
  a <= a' -> b' <= b -> b <= length d -> swaps a' b' d d' -> swaps a b d d'.
Proof.
  intros Ha Hb Hlen H. revert Hlen.
  induction H as [|d i j d' Hi Hj Hlen' Hsw IH]; intros Hlen; [apply swaps_refl|].
  eapply swaps_step with (i := i) (j := j); [lia|lia|lia|]. apply IH. by rewrite Swap_length.
Qed.

Lemma swaps_frame a b (d d' : list A) k :
  swaps a b d d' -> k < a \/ b <= k -> d' !! k = d !! k.
Proof.
  induction 1; [done|]. intros Hk. rewrite IHswaps by done.
  rewrite Swap_lookup by lia. repeat destruct (decide _); try lia. done.
Qed.

Lemma swaps_allOn a b (d d' : list A) P :
  swaps a b d d' -> allOn P d a b -> allOn P d' a b.
Proof.
  induction 1; [done|]. intros Hall. apply IHswaps.
  intros k x Hk. rewrite Swap_lookup by lia.
  repeat destruct (decide _); intros Hx; eapply Hall; try exact Hx; lia.
Qed.

Lemma swaps_lowerBound a b a' b' (d d' : list A) :
  swaps a' b' d d' -> a <= a' -> b' <= b -> lowerBound less d a b ->
  lowerBound less d' a b.
Proof.
  intros Hsw Ha Hb Hlow y Hpos Hy.
  rewrite (swaps_frame _ _ _ _ _ Hsw) in Hy by lia.
  intros k x Hk Hx.
  destruct (decide (a' <= k < b')) as [Hin|Hout].
  - assert (allOn (fun x => less x y = false) d a' b') as Hall.
    { intros k0 x0 Hk0 Hx0. eapply (Hlow y Hpos Hy k0); [lia|done]. }
    by eapply (swaps_allOn _ _ _ _ _ Hsw Hall k x).
  - rewrite (swaps_frame _ _ _ _ _ Hsw) in Hx by lia.
    by eapply (Hlow y Hpos Hy k).
Qed.

Lemma insert_Permutation (d : list A) j y z :
  d !! j = Some y -> y :: <[j := z]> d ≡ₚ z :: d.
Proof.
  revert j. induction d as [|w d IH]; intros [|j]; try done; simpl.
  - intros [= ->]. apply perm_swap.
  - intros Hj. rewrite (perm_swap w y), (IH _ Hj). apply perm_swap.
Qed.

Lemma Swap_Permutation (d : list A) i j : Swap d i j ≡ₚ d.
Proof.
  unfold sort.Swap.
  destruct (d !! i) as [x|] eqn:Hx; [|done].
  destruct (d !! j) as [y|] eqn:Hy; [|done].
  revert i j Hx Hy. induction d as [|w d IH]; intros [|i] [|j]; try done; simpl.
  - by intros [= ->] [= ->].
  - intros [= ->] Hj. by apply insert_Permutation.
  - intros Hi [= ->]. by apply insert_Permutation.
  - intros Hi Hj. by rewrite IH.
Qed.

Lemma swaps_Permutation a b (d d' : list A) : swaps a b d d' -> d' ≡ₚ d.
Proof. induction 1; [done|]. by rewrite IHswaps, Swap_Permutation. Qed.

(** *** Order *)

Lemma sortedOn_short (d : list A) a b : b <= a + 1 -> sortedOn less d a b.
Proof. intros Hb i j x y ???. lia. Qed.

Lemma sortedOn_frame a b a' b' (d d' : list A) :
  swaps a' b' d d' -> (b <= a' \/ b' <= a) ->
  sortedOn less d a b -> sortedOn less d' a b.
Proof.
  intros Hsw Hdis Hs i j x y Hi Hij Hj Hx Hy.
  rewrite (swaps_frame _ _ _ _ _ Hsw) in Hx by lia.
  rewrite (swaps_frame _ _ _ _ _ Hsw) in Hy by lia. by eapply (Hs i j).
Qed.

(** The whole list in order, as [Sorted] has it. *)
Lemma sortedOn_Sorted (d : list A) :
  sortedOn less d 0 (length d) -> Sorted (fun x y => less y x = false) d.
Proof.
  induction d as [|x d IH]; [constructor|]. intros Hs. constructor.
  - apply IH. intros i j u v Hi Hij Hj Hu Hv.
    apply (Hs (S i) (S j) u v); simpl in *; try done; lia.
  - destruct d as [|y d]; constructor.
    apply (Hs 0 1 x y); simpl; try done; lia.
Qed.

(** *** [insertionSort_func] *)

Lemma insertionSort_inner_spec (d : list A) a k j0 :
  a <= k <= j0 -> j0 < length d ->
  (forall i j x y, a <= i -> i < j -> j <= j0 -> i <> k -> j <> k ->
                   d !! i = Some x -> d !! j = Some y -> less y x = false) ->
  (forall j x y, k < j <= j0 -> d !! k = Some x -> d !! j = Some y ->
                 less x y = true) ->
  swaps a (S j0) d (sort.insertionSort_inner less d a k)
  /\ sortedOn less (sort.insertionSort_inner less d a k) a (S j0).
Proof.
  revert d. induction k as [|k IH]; intros d Hk Hj0 Hrest Hat.
  - simpl. split; [apply swaps_refl|].
    intros i j x y Hi Hij Hj Hx Hy.
    destruct (decide (i = 0)) as [->|Hi0].
    + apply less_asym. eapply (Hat j); eauto; lia.
    + eapply (Hrest i j); eauto; lia.
  - cbn [sort.insertionSort_inner].
    destruct (lookup_lt_is_Some_2 d (S k) ltac:(lia)) as [x Hx].
    destruct (lookup_lt_is_Some_2 d k ltac:(lia)) as [z Hz].
    rewrite (Less_lookup _ _ _ _ _ Hx Hz).
    destruct (Nat.ltb_spec a (S k)) as [Ha|Ha]; simpl.
    + destruct (less x z) eqn:Hxz.
      * destruct (IH (Swap d (S k) k)) as [Hsw Hsorted].
        { lia. }
        { by rewrite Swap_length. }
        { intros i j u v Hi Hij Hj Hik Hjk.
          rewrite !Swap_lookup by lia.
          repeat destruct (decide _); try lia; intros Hu Hv;
            first [ solve [eapply (Hrest i k); eauto; lia]
                  | solve [eapply (Hrest k j); eauto; lia]
                  | solve [eapply (Hrest i j); eauto; lia] ]. }
        { intros j u v Hj. rewrite !Swap_lookup by lia.
          repeat destruct (decide _); try lia; intros Hu Hv;
            first [ congruence | solve [eapply (Hat j); eauto; lia] ]. }
        split; [|done]. eapply swaps_step; [| | |exact Hsw]; lia.
      * split; [apply swaps_refl|].
        intros i j u v Hi Hij Hj Hu Hv.
        destruct (decide (i = S k)) as [->|Hik].
        { apply less_asym. eapply (Hat j); eauto; lia. }
        destruct (decide (j = S k)) as [->|Hjk]; [|by eapply (Hrest i j); eauto; lia].
        assert (v = x) as -> by congruence.
        destruct (decide (i = k)) as [->|Hik'].
        { congruence. }
        apply (less_ntrans _ Hless x z u Hxz).
        eapply (Hrest i k); eauto; lia.
    + split; [apply swaps_refl|].
      intros i j u v Hi Hij Hj Hu Hv.
      destruct (decide (i = S k)) as [->|Hik].
      * apply less_asym. eapply (Hat j); eauto; lia.
      * eapply (Hrest i j); eauto; lia.
Qed.

Lemma insertionSort_outer (d : list A) a m n :
  a <= m -> m + n <= length d -> sortedOn less d a m ->
  let d' := foldl (fun d i => sort.insertionSort_inner less d a i) d (seq m n) in
  swaps a (m + n) d d' /\ sortedOn less d' a (m + n).
Proof.
  revert d m. induction n as [|n IH]; intros d m Ham Hlen Hs; simpl.
  - rewrite Nat.add_0_r. split; [apply swaps_refl|done].
  - destruct (insertionSort_inner_spec d a m m) as [Hsw1 Hs1]; [lia|lia| |lia|].
    { intros i j x y Hi Hij Hj Him Hjm. apply (Hs i j); lia. }
    destruct (IH (sort.insertionSort_inner less d a m) (S m)) as [Hsw2 Hs2].
    { lia. }
    { rewrite (swaps_length _ _ _ _ Hsw1). lia. }
    { done. }
    replace (m + S n) with (S m + n) by lia. split; [|done].
    eapply swaps_trans; [|exact Hsw2].
    eapply swaps_mono; [| | |exact Hsw1]; lia.
Qed.

Lemma insertionSort_func_spec (d : list A) a b :
  b <= length d ->
  swaps a b d (sort.insertionSort_func less d a b)
  /\ sortedOn less (sort.insertionSort_func less d a b) a b.
Proof.
  intros Hb. unfold sort.insertionSort_func.
  destruct (decide (b <= a + 1)) as [Hshort|Hlong].
  - replace (b - (a + 1)) with 0 by lia. simpl.
    split; [apply swaps_refl|by apply sortedOn_short].
  - destruct (insertionSort_outer d a (a + 1) (b - (a + 1))) as [Hsw Hs];
      [lia|lia|apply sortedOn_short; lia|].
    by replace (a + 1 + (b - (a + 1))) with b in * by lia.
Qed.

(** *** [partition_func] and [partitionEqual_func] *)

Lemma skipLeft_spec up n (d : list A) a i j :
  i <= j + 1 -> j + 1 - i <= n ->
  let i' := sort.skipLeft less up n d a i j in
  i <= i' <= j + 1
  /\ (forall k, i <= k < i' ->
                (if up then Less d k a else negb (Less d a k)) = true)
  /\ (i' <= j -> (if up then Less d i' a else negb (Less d a i')) = false).
Proof.
  revert i. induction n as [|n IH]; intros i Hi Hn; simpl.
  - repeat split; try lia; try (intros; lia).
  - destruct (Nat.leb_spec i j) as [Hij|Hij]; simpl.
    + destruct (if up then Less d i a else negb (Less d a i)) eqn:Htest.
      * destruct (IH (i + 1)) as (Hr & Hall & Hstop); [lia|lia|].
        split; [lia|]. split; [|done].
        intros k Hk. destruct (decide (k = i)) as [->|]; [done|]. apply Hall. lia.
      * repeat split; try lia; first [done | intros; lia].
    + repeat split; try lia; try (intros; lia).
Qed.

Lemma skipRight_spec up n (d : list A) a i j :
  1 <= i -> i <= j + 1 -> j + 1 - i <= n ->
  let j' := sort.skipRight less up n d a i j in
  i <= j' + 1 /\ j' <= j
  /\ (forall k, j' < k <= j ->
                (if up then negb (Less d k a) else Less d a k) = true)
  /\ (i <= j' -> (if up then negb (Less d j' a) else Less d a j') = false).
Proof.
  revert j. induction n as [|n IH]; intros j Hi1 Hi Hn; simpl.
  - repeat split; try lia; try (intros; lia).
  - destruct (Nat.leb_spec i j) as [Hij|Hij]; simpl.
    + destruct (if up then negb (Less d j a) else Less d a j) eqn:Htest.
      * destruct (IH (j - 1)) as (Hr1 & Hr2 & Hall & Hstop); [lia|lia|lia|].
        split; [lia|]. split; [lia|]. split; [|done].
        intros k Hk. destruct (decide (k = j)) as [->|]; [done|]. apply Hall. lia.
      * repeat split; try lia; first [done | intros; lia].
    + repeat split; try lia; try (intros; lia).
Qed.

(** One round of the two inner loops, and the swap that follows when
    they have not met. *)
Lemma skip_round up (d : list A) a b i j p :
  partitionInv less up d a b i j p ->
  let i1 := sort.skipLeft less up (length d) d a i j in
  let j1 := sort.skipRight less up (length d) d a i1 j in
  partitionInv less up d a b i1 j1 p
  /\ i <= i1 /\ j1 <= j
  /\ (i1 <= j1 ->
      i1 < j1 /\ partitionInv less up (Swap d i1 j1) a b (i1 + 1) (j1 - 1) p).
Proof.
  intros (Hai & Hij & Hjb & Hlen & Hp & HL & HR). intros i1 j1.
  destruct (skipLeft_spec up (length d) d a i j) as (Hi1 & HallL & HstopL); [lia|lia|].
  fold i1 in Hi1, HallL, HstopL.
  destruct (skipRight_spec up (length d) d a i1 j) as (Hj1 & Hj1' & HallR & HstopR);
    [lia|lia|lia|].
  fold j1 in Hj1, Hj1', HallR, HstopR.
  assert (HL1 : allOn (fun x => (if up then less x p else negb (less p x)) = true)
                      d (a + 1) i1).
  { intros k x Hk Hx. destruct (decide (k < i)) as [|Hge]; [by eapply (HL k); [lia|]|].
    specialize (HallL k ltac:(lia)).
    by rewrite (Less_lookup _ _ _ _ _ Hx Hp), (Less_lookup _ _ _ _ _ Hp Hx) in HallL. }
  assert (HR1 : allOn (fun x => (if up then negb (less x p) else less p x) = true)
                      d (j1 + 1) b).
  { intros k x Hk Hx. destruct (decide (j < k)) as [|Hge]; [by eapply (HR k); [lia|]|].
    specialize (HallR k ltac:(lia)).
    by rewrite (Less_lookup _ _ _ _ _ Hx Hp), (Less_lookup _ _ _ _ _ Hp Hx) in HallR. }
  split; [by repeat split; try lia|]. split; [lia|]. split; [lia|].
  intros Hmeet.
  destruct (lookup_lt_is_Some_2 d i1 ltac:(lia)) as [x Hx].
  destruct (lookup_lt_is_Some_2 d j1 ltac:(lia)) as [y Hy].
  specialize (HstopL ltac:(lia)). specialize (HstopR ltac:(lia)).
  rewrite (Less_lookup _ _ _ _ _ Hx Hp), (Less_lookup _ _ _ _ _ Hp Hx) in HstopL.
  rewrite (Less_lookup _ _ _ _ _ Hy Hp), (Less_lookup _ _ _ _ _ Hp Hy) in HstopR.
  assert (i1 <> j1) as Hne.
  { intros Heq. rewrite Heq, Hy in Hx. injection Hx as ->.
    destruct up; destruct (less x p), (less p x); simpl in *; congruence. }
  split; [lia|].
  repeat split; try lia.
  - rewrite Swap_length. lia.
  - rewrite Swap_lookup by lia. repeat destruct (decide _); try lia. done.
  - intros k z Hk. rewrite Swap_lookup by lia.
    repeat destruct (decide _); try lia; intros Hz.
    + assert (z = y) as -> by congruence.
      destruct up; destruct (less y p), (less p y); simpl in *; congruence.
    + by eapply (HL1 k); [lia|].
  - intros k z Hk. rewrite Swap_lookup by lia.
    repeat destruct (decide _); try lia; intros Hz.
    + assert (z = x) as -> by congruence.
      destruct up; destruct (less x p), (less p x); simpl in *; congruence.
    + by eapply (HR1 k); [lia|].
Qed.

Lemma partition_loop_spec n (d : list A) a b i j p d' j' :
  partitionInv less true d a b i j p -> j + 1 - i < n ->
  sort.partition_loop less n d a i j = (d', j') ->
  swaps a b d d' /\ partitionInv less true d' a b (j' + 1) j' p.
Proof.
  revert d i j. induction n as [|n IH]; intros d i j Hinv Hn; [lia|].
  cbn [sort.partition_loop].
  destruct (skip_round true d a b i j p Hinv) as (Hinv1 & Hi1 & Hj1 & Hswap).
  set (i1 := sort.skipLeft less true (length d) d a i j) in *.
  set (j1 := sort.skipRight less true (length d) d a i1 j) in *.
  destruct (Nat.ltb_spec j1 i1) as [Hlt|Hge].
  - intros [= <- <-]. split; [apply swaps_refl|].
    destruct Hinv1 as (? & ? & ? & ? & ? & HL & HR).
    repeat split; try lia; try done.
    intros k x Hk. apply HL. lia.
  - destruct (Hswap Hge) as [Hlt Hinv2]. intros Hloop.
    destruct (IH _ _ _ Hinv2 ltac:(lia) Hloop) as [Hsw Hinv3].
    split; [|done].
    destruct Hinv1 as (? & ? & ? & ? & _).
    eapply swaps_step with (i := i1) (j := j1); [lia|lia|lia|done].
Qed.

Lemma partitionEqual_loop_spec n (d : list A) a b i j p d' i' :
  partitionInv less false d a b i j p -> j + 1 - i < n ->
  sort.partitionEqual_loop less n d a i j = (d', i') ->
  swaps a b d d' /\ partitionInv less false d' a b i' (i' - 1) p.
Proof.
  revert d i j. induction n as [|n IH]; intros d i j Hinv Hn; [lia|].
  cbn [sort.partitionEqual_loop].
  destruct (skip_round false d a b i j p Hinv) as (Hinv1 & Hi1 & Hj1 & Hswap).
  set (i1 := sort.skipLeft less false (length d) d a i j) in *.
  set (j1 := sort.skipRight less false (length d) d a i1 j) in *.
  destruct (Nat.ltb_spec j1 i1) as [Hlt|Hge].
  - intros [= <- <-]. split; [apply swaps_refl|].
    destruct Hinv1 as (? & ? & ? & ? & ? & HL & HR).
    repeat split; try lia; try done.
    intros k x Hk. apply HR. lia.
  - destruct (Hswap Hge) as [Hlt Hinv2]. intros Hloop.
    destruct (IH _ _ _ Hinv2 ltac:(lia) Hloop) as [Hsw Hinv3].
    split; [|done].
    destruct Hinv1 as (? & ? & ? & ? & _).
    eapply swaps_step with (i := i1) (j := j1); [lia|lia|lia|done].
Qed.

Lemma Swap_pivot (d : list A) a b pivot p :
  a <= pivot < b -> b <= length d -> d !! pivot = Some p ->
  swaps a b d (Swap d a pivot) /\ Swap d a pivot !! a = Some p.
Proof.
  intros Hp Hlen Hpiv. split; [apply swaps_one; lia|].
  rewrite Swap_lookup by lia. repeat destruct (decide _); try lia; congruence.
Qed.

(** [partition_func]: the pivot ends at [mid], after the elements less
    than it and before the others. *)
Lemma partition_func_spec (d : list A) a b pivot p d' mid ap :
  a <= pivot < b -> b <= length d -> d !! pivot = Some p ->
  sort.partition_func less d a b pivot = (d', mid, ap) ->
  swaps a b d d' /\ a <= mid < b /\ d' !! mid = Some p
  /\ allOn (fun x => less x p = true) d' a mid
  /\ allOn (fun x => less x p = false) d' (mid + 1) b.
Proof.
  intros Hpiv Hlen Hp. unfold sort.partition_func.
  destruct (Swap_pivot d a b pivot p Hpiv Hlen Hp) as [Hsw0 Hp0].
  set (d0 := Swap d a pivot) in *.
  assert (Hlen0 : length d0 = length d) by apply Swap_length.
  assert (Hinv0 : partitionInv less true d0 a b (a + 1) (b - 1) p).
  { repeat split; try lia; try done; intros k x Hk; lia. }
  assert (Hfinish : forall (d1 : list A) j,
    swaps a b d d1 -> partitionInv less true d1 a b (j + 1) j p ->
    swaps a b d (Swap d1 j a) /\ a <= j < b /\ Swap d1 j a !! j = Some p
    /\ allOn (fun x => less x p = true) (Swap d1 j a) a j
    /\ allOn (fun x => less x p = false) (Swap d1 j a) (j + 1) b).
  { intros d1 j Hsw (Haj & _ & Hjb & Hlen1 & Hp1 & HL & HR).
    split; [eapply swaps_trans; [exact Hsw|apply swaps_one; lia]|].
    split; [lia|]. split.
    { rewrite Swap_lookup by lia. repeat destruct (decide _); try lia; congruence. }
    split.
    - intros k x Hk. rewrite Swap_lookup by lia.
      repeat destruct (decide _); try lia; intros Hx.
      + by apply (HL j x); [lia|].
      + by apply (HL k x); [lia|].
    - intros k x Hk. rewrite Swap_lookup by lia.
      repeat destruct (decide _); try lia; intros Hx.
      apply negb_true_iff. by apply (HR k x); [lia|]. }
  destruct (skip_round true d0 a b (a + 1) (b - 1) p Hinv0) as (Hinv1 & Hi1 & Hj1 & Hswap).
  set (i1 := sort.skipLeft less true (length d0) d0 a (a + 1) (b - 1)) in *.
  set (j1 := sort.skipRight less true (length d0) d0 a i1 (b - 1)) in *.
  destruct (Nat.ltb_spec j1 i1) as [Hlt|Hge].
  - intros [= <- <- <-]. apply Hfinish; [done|].
    destruct Hinv1 as (? & ? & ? & ? & ? & HL & HR).
    repeat split; try lia; try done.
    intros k x Hk. apply HL. lia.
  - destruct (Hswap Hge) as [Hlt Hinv2].
    destruct (sort.partition_loop _ _ _ _ _ _) as [d2 j2] eqn:Hloop.
    intros [= <- <- <-].
    assert (j1 - 1 + 1 - (i1 + 1) < length (Swap d0 i1 j1)) as Hfuel
      by (rewrite Swap_length; lia).
    destruct (partition_loop_spec _ _ _ _ _ _ _ _ _ Hinv2 Hfuel Hloop)
      as [Hsw2 Hinv3].
    apply Hfinish; [|done].
    eapply swaps_trans; [exact Hsw0|].
    destruct Hinv1 as (? & ? & ? & ? & _).
    eapply swaps_step with (i := i1) (j := j1); [lia|lia|lia|done].
Qed.

(** [partitionEqual_func]: the elements not greater than the pivot come
    first, up to [mid], then those greater than it. *)
Lemma partitionEqual_func_spec (d : list A) a b pivot p d' mid :
  a <= pivot < b -> b <= length d -> d !! pivot = Some p ->
  sort.partitionEqual_func less d a b pivot = (d', mid) ->
  swaps a b d d' /\ a < mid <= b
  /\ allOn (fun x => less p x = false) d' a mid
  /\ allOn (fun x => less p x = true) d' mid b.
Proof.
  intros Hpiv Hlen Hp. unfold sort.partitionEqual_func.
  destruct (Swap_pivot d a b pivot p Hpiv Hlen Hp) as [Hsw0 Hp0].
  set (d0 := Swap d a pivot) in *.
  assert (Hlen0 : length d0 = length d) by apply Swap_length.
  assert (Hinv0 : partitionInv less false d0 a b (a + 1) (b - 1) p).
  { repeat split; try lia; try done; intros k x Hk; lia. }
  intros Hloop.
  assert (b - 1 + 1 - (a + 1) < length d0) as Hfuel by lia.
  destruct (partitionEqual_loop_spec _ _ _ _ _ _ _ _ _ Hinv0 Hfuel Hloop)
    as [Hsw (Hmid & _ & Hmid' & Hlen' & Hp' & HL & HR)].
  split; [by eapply swaps_trans|]. split; [lia|]. split.
  - intros k x Hk Hx. destruct (decide (k = a)) as [->|Hka].
    + assert (x = p) as -> by congruence. apply (less_irrefl _ Hless).
    + apply negb_true_iff. by apply (HL k x); [lia|].
  - intros k x Hk Hx. by apply (HR k x); [lia|].
Qed.

(** *** The patterns: [reverseRange_func], [breakPatterns_func],
    [choosePivot_func] *)

Lemma reverseRange_loop_swaps n (d : list A) a b i j :
  a <= i -> j < b -> b <= length d ->
  swaps a b d (sort.reverseRange_loop n d i j).
Proof.
  revert d i j. induction n as [|n IH]; intros d i j Hi Hj Hlen; simpl;
    [apply swaps_refl|].
  destruct (Nat.ltb_spec i j); [|apply swaps_refl].
  eapply swaps_step with (i := i) (j := j); [lia|lia|lia|].
  apply IH; [lia|lia|by rewrite Swap_length].
Qed.

Lemma reverseRange_func_swaps (d : list A) a b :
  a < b -> b <= length d -> swaps a b d (sort.reverseRange_func d a b).
Proof. intros. apply reverseRange_loop_swaps; lia. Qed.

Lemma land_modulus r k : (N.land r (N.shiftl 1 k - 1) < N.shiftl 1 k)%N.
Proof.
  rewrite N.sub_1_r. change (N.pred (N.shiftl 1 k)) with (N.ones k).
  rewrite N.land_ones, N.shiftl_1_l. apply N.mod_lt. by apply N.pow_nonzero.
Qed.

Lemma nextPowerOfTwo_le n : 0 < n -> (sort.nextPowerOfTwo n <= 2 * N.of_nat n)%N.
Proof.
  intros Hn. unfold sort.nextPowerOfTwo, sort.bits_Len.
  destruct n as [|n]; [lia|]. rewrite N.shiftl_1_l.
  pose proof (Nat.log2_spec (S n) ltac:(lia)) as [Hlog _].
  rewrite Nat2N.inj_succ, N.pow_succ_r'.
  apply N.mul_le_mono_l. change 2%N with (N.of_nat 2).
  rewrite <- Nat2N.inj_pow. lia.
Qed.

Lemma breakPatterns_loop_swaps n i random (d : list A) a len idx :
  i + n <= 3 -> a + 2 <= idx -> idx + 1 < a + len -> a + len <= length d ->
  swaps a (a + len) d
        (sort.breakPatterns_loop random_Next n i random (sort.nextPowerOfTwo len)
                                 d a len idx).
Proof.
  revert i random d. induction n as [|n IH]; intros i random d Hi Hidx Hidx' Hlen;
    simpl; [apply swaps_refl|].
  set (other := N.to_nat (N.land (random_Next random)
                                 (sort.nextPowerOfTwo len - 1))).
  assert (other < 2 * len) as Hother.
  { pose proof (land_modulus (random_Next random)
                             (N.of_nat (sort.bits_Len len))) as Hlt.
    fold (sort.nextPowerOfTwo len) in Hlt.
    pose proof (nextPowerOfTwo_le len ltac:(lia)). unfold other. lia. }
  eapply swaps_step; [| | |apply IH; [lia|lia|lia|by rewrite Swap_length]]; [|destruct (Nat.leb_spec len other)|]; lia.
Qed.

Lemma breakPatterns_func_swaps (d : list A) a b :
  a <= b -> b <= length d ->
  swaps a b d (sort.breakPatterns_func random_Next d a b).
Proof.
  intros Hab Hb. unfold sort.breakPatterns_func.
  destruct (Nat.leb_spec 8 (b - a)); [|apply swaps_refl].
  replace b with (a + (b - a)) at 1 by lia.
  quotient (b - a) 4. apply breakPatterns_loop_swaps; lia.
Qed.

Lemma median_func_range (d : list A) x y z s m s' :
  sort.median_func less d x y z s = (m, s') -> m = x \/ m = y \/ m = z.
Proof.
  unfold sort.median_func, sort.order2_func.
  repeat match goal with
         | |- context [sort.Less less ?d ?i ?j] => destruct (sort.Less less d i j)
         end; intros [= <- <-]; auto.
Qed.

Lemma choosePivot_func_range (d : list A) a b pivot hint :
  12 < b - a -> sort.choosePivot_func less d a b = (pivot, hint) -> a <= pivot < b.
Proof.
  intros Hl. unfold sort.choosePivot_func. quotient (b - a) 4.
  destruct (Nat.leb_spec 8 (b - a)) as [_|]; [|lia].
  assert (forall j sw h,
             (if (sw =? 0) then (j, sort.increasingHint)
              else if (sw =? sort.maxSwaps) then (j, sort.decreasingHint)
                   else (j, sort.unknownHint)) = (pivot, h) -> j = pivot) as Hend.
  { intros j sw h. repeat destruct (_ =? _); by intros [= <- <-]. }
  destruct (Nat.leb_spec sort.shortestNinther (b - a)) as [Hn|Hn].
  - unfold sort.medianAdjacent_func.
    destruct (sort.median_func less d (a + (b - a) / 4 * 1 - 1) _ _ 0) as [i s1] eqn:E1.
    destruct (sort.median_func less d (a + (b - a) / 4 * 2 - 1) _ _ s1) as [j s2] eqn:E2.
    destruct (sort.median_func less d (a + (b - a) / 4 * 3 - 1) _ _ s2) as [k s3] eqn:E3.
    destruct (sort.median_func less d i j k s3) as [m s4] eqn:E4.
    intros <-%Hend.
    apply median_func_range in E1, E2, E3, E4. unfold sort.shortestNinther in Hn. lia.
  - destruct (sort.median_func less d _ _ _ 0) as [m s4] eqn:E4.
    intros <-%Hend. apply median_func_range in E4. lia.
Qed.

(** *** [partialInsertionSort_func] *)

Lemma skipOrdered_spec n (d : list A) i b :
  i <= b -> b - i <= n ->
  let i' := sort.skipOrdered less n d i b in
  i <= i' <= b
  /\ (forall k, i <= k < i' -> Less d k (k - 1) = false)
  /\ (i' < b -> Less d i' (i' - 1) = true).
Proof.
  revert i. induction n as [|n IH]; intros i Hi Hn; simpl.
  - repeat split; try lia; try (intros; lia).
  - destruct (Nat.ltb_spec i b) as [Hib|Hib]; simpl.
    + destruct (Less d i (i - 1)) eqn:Htest; simpl.
      * repeat split; try lia; first [done | intros; lia].
      * destruct (IH (i + 1)) as (Hr & Hall & Hstop); [lia|lia|].
        split; [lia|]. split; [|done].
        intros k Hk. destruct (decide (k = i)) as [->|]; [done|]. apply Hall. lia.
    + repeat split; try lia; try (intros; lia).
Qed.

Lemma sortedOn_snoc (d : list A) a m :
  a < m -> m < length d -> sortedOn less d a m -> Less d m (m - 1) = false ->
  sortedOn less d a (m + 1).
Proof.
  intros Ham Hm Hs Hlast i j x y Hi Hij Hj Hx Hy.
  destruct (decide (j = m)) as [->|]; [|apply (Hs i j); try done; lia].
  destruct (lookup_lt_is_Some_2 d (m - 1) ltac:(lia)) as [z Hz].
  rewrite (Less_lookup _ _ _ _ _ Hy Hz) in Hlast.
  destruct (decide (i = m - 1)) as [->|]; [congruence|].
  apply (less_ntrans _ Hless y z x Hlast). apply (Hs i (m - 1)); try done; lia.
Qed.

Lemma sortedOn_extend (d : list A) a i i' :
  a < i -> i <= i' -> i' <= length d -> sortedOn less d a i ->
  (forall k, i <= k < i' -> Less d k (k - 1) = false) ->
  sortedOn less d a i'.
Proof.
  intros Hai Hii Hlen Hs Hall.
  replace i' with (i + (i' - i)) in * by lia.
  induction (i' - i) as [|n IH]; [by rewrite Nat.add_0_r|].
  replace (i + S n) with (i + n + 1) in * by lia.
  apply sortedOn_snoc; [lia|lia| |apply Hall; lia].
  apply IH; [lia|lia|]. intros k Hk. apply Hall. lia.
Qed.

Lemma shiftLeft_inner (d : list A) a b j :
  lowerBound less d a b -> a <= j < b -> b <= length d ->
  sort.shiftLeft less d j = sort.insertionSort_inner less d a j.
Proof.
  revert d. induction j as [|j IH]; intros d Hlow Hj Hlen; [done|].
  cbn [sort.shiftLeft sort.insertionSort_inner].
  destruct (Nat.ltb_spec a (S j)) as [Ha|Ha]; simpl.
  - destruct (Less d (S j) j); simpl; [|done].
    apply IH; [|lia|by rewrite Swap_length].
    eapply swaps_lowerBound; [apply (swaps_one a b d (S j) j); lia|lia|lia|done].
  - assert (a = S j) as -> by lia.
    destruct (lookup_lt_is_Some_2 d (S j) ltac:(lia)) as [x Hx].
    destruct (lookup_lt_is_Some_2 d j ltac:(lia)) as [y Hy].
    rewrite (Less_lookup _ _ _ _ _ Hx Hy).
    assert (less x y = false) as ->; [|done].
    eapply (Hlow y); [lia|by replace (S j - 1) with j by lia| |exact Hx]. lia.
Qed.

Lemma shiftRight_swaps n (d : list A) lo j b :
  lo < j -> b <= length d -> swaps lo b d (sort.shiftRight less n d j b).
Proof.
  revert d j. induction n as [|n IH]; intros d j Hj Hlen; simpl; [apply swaps_refl|].
  destruct (Nat.ltb_spec j b); [|apply swaps_refl].
  destruct (Less d j (j - 1)); simpl; [|apply swaps_refl].
  eapply swaps_step with (i := j) (j := j - 1); [lia|lia|lia|].
  apply IH; [lia|by rewrite Swap_length].
Qed.

Lemma partialInsertionSort_loop_spec steps (d : list A) a b i d' r :
  a < i <= b -> b <= length d -> lowerBound less d a b -> sortedOn less d a i ->
  sort.partialInsertionSort_loop less steps d a b i = (d', r) ->
  swaps a b d d' /\ (r = true -> sortedOn less d' a b).
Proof.
  revert d i. induction steps as [|steps IH]; intros d i Hi Hlen Hlow Hs; simpl.
  { intros [= <- <-]. split; [apply swaps_refl|done]. }
  destruct (skipOrdered_spec (length d) d i b) as (Hi1 & Hord & Hstop); [lia|lia|].
  set (i1 := sort.skipOrdered less (length d) d i b) in *.
  assert (Hs1 : sortedOn less d a i1) by (apply (sortedOn_extend d a i i1); try done; lia).
  destruct (Nat.eqb_spec i1 b) as [Hib|Hib].
  { intros [= <- <-]. split; [apply swaps_refl|]. intros _. by rewrite <- Hib. }
  destruct (Nat.ltb_spec (b - a) sort.shortestShifting) as [|_].
  { intros [= <- <-]. split; [apply swaps_refl|done]. }
  set (d1 := Swap d i1 (i1 - 1)).
  assert (Hsw1 : swaps a b d d1) by (apply swaps_one; lia).
  assert (Hlen1 : length d1 = length d) by apply Swap_length.
  assert (Hlow1 : lowerBound less d1 a b) by (by eapply swaps_lowerBound; [exact Hsw1|..]).
  set (d2 := if 2 <=? i1 - a then sort.shiftLeft less d1 (i1 - 1) else d1).
  assert (swaps a b d1 d2 /\ sortedOn less d2 a i1) as [Hsw2 Hs2].
  { unfold d2. destruct (Nat.leb_spec 2 (i1 - a)) as [Hfar|Hnear].
    - rewrite (shiftLeft_inner d1 a b) by (done || lia).
      destruct (insertionSort_inner_spec d1 a (i1 - 1) (i1 - 1)) as [Hsw Hsorted];
        [lia|lia| |lia|].
      { intros i0 j0 x y Hi0 Hij0 Hj0 Hne1 Hne2. unfold d1.
        rewrite !Swap_lookup by lia. repeat destruct (decide _); try lia.
        apply (Hs1 i0 j0); lia. }
      replace (S (i1 - 1)) with i1 in * by lia.
      split; [|done]. eapply swaps_mono; [| | |exact Hsw]; lia.
    - split; [apply swaps_refl|]. apply sortedOn_short. lia. }
  assert (Hlen2 : length d2 = length d) by (by rewrite (swaps_length _ _ _ _ Hsw2)).
  set (d3 := if 2 <=? b - i1 then sort.shiftRight less (length d2) d2 (i1 + 1) b else d2).
  assert (Hsw3 : swaps i1 b d2 d3).
  { unfold d3. destruct (2 <=? b - i1); [|apply swaps_refl].
    apply shiftRight_swaps; lia. }
  intros Hloop.
  destruct (IH d3 i1) as [Hsw4 Hres]; [lia| | | |exact Hloop|].
  - rewrite (swaps_length _ _ _ _ Hsw3). lia.
  - eapply swaps_lowerBound; [exact Hsw3|lia|lia|].
    by eapply swaps_lowerBound; [exact Hsw2|..].
  - eapply sortedOn_frame; [exact Hsw3|lia|done].
  - split; [|done].
    eapply swaps_trans; [exact Hsw1|]. eapply swaps_trans; [exact Hsw2|].
    eapply swaps_trans; [|exact Hsw4].
    eapply swaps_mono; [| | |exact Hsw3]; lia.
Qed.

Lemma partialInsertionSort_func_spec (d : list A) a b d' r :
  a < b -> b <= length d -> lowerBound less d a b ->
  sort.partialInsertionSort_func less d a b = (d', r) ->
  swaps a b d d' /\ (r = true -> sortedOn less d' a b).
Proof.
  intros Hab Hlen Hlow. apply partialInsertionSort_loop_spec; try done; [lia|].
  apply sortedOn_short. lia.
Qed.

(** *** [heapSort_func] *)

Lemma siftDown_loop_spec n (d : list A) r hi first lo :
  lo <= r -> hi - r <= n -> first + hi <= length d ->
  heapExcept less d first lo hi (Some r) ->
  (forall q c x y, lo <= q -> (r = 2 * q + 1 \/ r = 2 * q + 2) -> c < hi ->
                   (c = 2 * r + 1 \/ c = 2 * r + 2) ->
                   d !! (first + q) = Some x -> d !! (first + c) = Some y ->
                   less x y = false) ->
  swaps first (first + hi) d (sort.siftDown_loop less n d r hi first)
  /\ heapExcept less (sort.siftDown_loop less n d r hi first) first lo hi None.
Proof.
  revert d r. induction n as [|n IH]; intros d r Hlo Hn Hlen Hheap Hgrand.
  { split; [apply swaps_refl|]. intros q c x y Hq Hc Hqc _.
    apply Hheap; try done. intros [= ->]. lia. }
  cbn [sort.siftDown_loop].
  destruct (Nat.leb_spec hi (2 * r + 1)) as [Hleaf|Hchild].
  { split; [apply swaps_refl|]. intros q c x y Hq Hc Hqc _.
    apply Hheap; try done. intros [= ->]. lia. }
  set (c1 := if (2 * r + 1 + 1 <? hi)
                && Less d (first + (2 * r + 1)) (first + (2 * r + 1) + 1)
             then 2 * r + 1 + 1 else 2 * r + 1).
  assert (Hc1 : (c1 = 2 * r + 1 \/ c1 = 2 * r + 2) /\ c1 < hi).
  { unfold c1. destruct (Nat.ltb_spec (2 * r + 1 + 1) hi); cbn [andb]; [|lia].
    destruct (Less d _ _); lia. }
  destruct (lookup_lt_is_Some_2 d (first + r) ltac:(lia)) as [xr Hxr].
  destruct (lookup_lt_is_Some_2 d (first + c1) ltac:(lia)) as [xc Hxc].
  assert (Hother : forall c y, c < hi -> (c = 2 * r + 1 \/ c = 2 * r + 2) ->
                               d !! (first + c) = Some y -> less xc y = false).
  { intros c y Hc Hrc Hy. destruct (decide (c = c1)) as [->|Hne].
    { assert (y = xc) as -> by congruence. apply (less_irrefl _ Hless). }
    revert Hxc Hne. unfold c1.
    destruct (Nat.ltb_spec (2 * r + 1 + 1) hi) as [Hin|Hout]; cbn [andb]; [|lia].
    destruct (lookup_lt_is_Some_2 d (first + (2 * r + 1)) ltac:(lia)) as [y1 Hy1].
    destruct (lookup_lt_is_Some_2 d (first + (2 * r + 1) + 1) ltac:(lia)) as [y2 Hy2].
    rewrite (Less_lookup _ _ _ _ _ Hy1 Hy2).
    destruct (less y1 y2) eqn:Hcmp; intros Hxc Hne.
    - assert (c = 2 * r + 1) as -> by lia.
      replace (first + (2 * r + 1 + 1)) with (first + (2 * r + 1) + 1) in Hxc by lia.
      assert (xc = y2) as -> by congruence. assert (y = y1) as -> by congruence.
      by apply less_asym.
    - assert (c = 2 * r + 1 + 1) as -> by lia.
      replace (first + (2 * r + 1 + 1)) with (first + (2 * r + 1) + 1) in Hy by lia.
      assert (xc = y1) as -> by congruence. assert (y = y2) as -> by congruence.
      done. }
  rewrite (Less_lookup _ _ _ _ _ Hxr Hxc).
  destruct (less xr xc) eqn:Hcmp; cbn [negb].
  - destruct (IH (Swap d (first + r) (first + c1)) c1) as [Hsw Hpost].
    + lia.
    + lia.
    + by rewrite Swap_length.
    + intros q c x y Hq Hc Hqc Hne. rewrite !Swap_lookup by lia.
      assert (q <> c1) by congruence.
      repeat destruct (decide _); try lia; intros Hx Hy.
      * assert (y = xr) as -> by congruence. assert (x = xc) as -> by congruence.
        by apply less_asym.
      * assert (x = xc) as -> by congruence. apply (Hother c); [lia|lia|done].
      * assert (y = xc) as -> by congruence.
        apply (Hgrand q c1 x xc); try done; lia.
      * apply (Hheap q c); try done. intros [= ->]. lia.
    + intros q c x y Hq Hqc Hc Hcc. rewrite !Swap_lookup by lia.
      repeat destruct (decide _); try lia; intros Hx Hy.
      assert (x = xc) as -> by congruence.
      apply (Hheap c1 c); try done; [lia|]. intros [= Heq]. lia.
    + split; [|done].
      eapply swaps_step with (i := first + r) (j := first + c1); [lia|lia|lia|done].
  - split; [apply swaps_refl|]. intros q c x y Hq Hc Hqc _ Hx Hy.
    destruct (decide (q = r)) as [->|Hne].
    + assert (x = xr) as -> by congruence.
      apply (less_ntrans _ Hless xr xc y Hcmp). by apply (Hother c).
    + apply (Hheap q c); try done. congruence.
Qed.

Lemma heap_build (d : list A) first hi m :
  first + hi <= length d -> heapExcept less d first m hi None ->
  let d' := foldl (fun d i => sort.siftDown_func less d i hi first) d
                  (reverse (seq 0 m)) in
  swaps first (first + hi) d d' /\ heapExcept less d' first 0 hi None.
Proof.
  revert d. induction m as [|m IH]; intros d Hlen Hheap.
  { split; [apply swaps_refl|done]. }
  rewrite seq_S, reverse_snoc. cbn [foldl plus].
  destruct (siftDown_loop_spec hi d m hi first m) as [Hsw1 Hheap1]; [lia|lia|lia| | |].
  { intros q c x y Hq Hc Hqc Hne. apply Hheap; try done.
    assert (q <> m) by congruence. lia. }
  { intros q c x y Hq Hqm. lia. }
  destruct (IH (sort.siftDown_func less d m hi first)) as [Hsw2 Hheap2].
  { unfold sort.siftDown_func. by rewrite (swaps_length _ _ _ _ Hsw1). }
  { done. }
  split; [|done]. by eapply swaps_trans.
Qed.

Lemma heap_root_max (d : list A) first hi k x y :
  heapExcept less d first 0 hi None -> first + hi <= length d -> k < hi ->
  d !! first = Some x -> d !! (first + k) = Some y -> less x y = false.
Proof.
  intros Hheap Hlen. revert y. induction (lt_wf k) as [k _ IH]. intros y Hk Hx Hy.
  destruct (decide (k = 0)) as [->|Hpos].
  { rewrite Nat.add_0_r in Hy. assert (y = x) as -> by congruence.
    apply (less_irrefl _ Hless). }
  quotient (k - 1) 2.
  destruct (lookup_lt_is_Some_2 d (first + (k - 1) / 2) ltac:(lia)) as [z Hz].
  apply (less_ntrans _ Hless x z y).
  - apply (IH ((k - 1) / 2)); [lia|lia|done|done].
  - apply (Hheap ((k - 1) / 2) k); try done; lia.
Qed.

Lemma heap_pop (d : list A) first hi m :
  m <= hi -> first + hi <= length d ->
  heapExcept less d first 0 m None ->
  sortedOn less d (first + m) (first + hi) ->
  (forall k1 k2 x y, k1 < m -> m <= k2 < hi ->
                     d !! (first + k1) = Some x -> d !! (first + k2) = Some y ->
                     less y x = false) ->
  let d' := foldl (fun d i => sort.siftDown_func less (Swap d first (first + i)) 0 i first)
                  d (reverse (seq 0 m)) in
  swaps first (first + hi) d d' /\ sortedOn less d' first (first + hi).
Proof.
  revert d. induction m as [|i IH]; intros d Hm Hlen Hheap Hsorted Hcross.
  { split; [apply swaps_refl|]. by rewrite Nat.add_0_r in Hsorted. }
  rewrite seq_S, reverse_snoc. cbn [foldl plus].
  set (d1 := Swap d first (first + i)).
  assert (Hsw1 : swaps first (first + hi) d d1) by (apply swaps_one; lia).
  assert (Hlen1 : length d1 = length d) by apply Swap_length.
  destruct (lookup_lt_is_Some_2 d first ltac:(lia)) as [top Htop].
  assert (Hmax : forall k y, k <= i -> d !! (first + k) = Some y -> less top y = false).
  { intros k y Hk Hy. apply (heap_root_max d first (S i) k top y); try done; lia. }
  destruct (siftDown_loop_spec i d1 0 i first 0) as [Hsw2 Hheap2]; [lia|lia|lia| | |].
  { intros q c x y Hq Hc Hqc Hne. unfold d1. rewrite !Swap_lookup by lia.
    assert (q <> 0) by congruence.
    repeat destruct (decide _); try lia. apply (Hheap q c); try done; lia. }
  { intros q c x y Hq Hqm. lia. }
  fold (sort.siftDown_func less d1 0 i first) in Hsw2, Hheap2.
  set (d2 := sort.siftDown_func less d1 0 i first) in *.
  assert (Hlen2 : length d2 = length d) by (by rewrite (swaps_length _ _ _ _ Hsw2)).
  assert (Htail : forall k, i <= k -> d2 !! (first + k) = d1 !! (first + k)).
  { intros k Hk. apply (swaps_frame _ _ _ _ _ Hsw2). lia. }
  assert (Hd1i : d1 !! (first + i) = Some top).
  { unfold d1. rewrite Swap_lookup by lia. repeat destruct (decide _); try lia; done. }
  assert (Hd1t : forall k, i < k -> d1 !! (first + k) = d !! (first + k)).
  { intros k Hk. unfold d1. rewrite Swap_lookup by lia.
    repeat destruct (decide _); try lia; done. }
  assert (Hd1h : forall (P : A -> Prop),
             (forall k x, k <= i -> d !! (first + k) = Some x -> P x) ->
             allOn P d2 first (first + i)).
  { intros P HP. apply (swaps_allOn _ _ _ _ _ Hsw2).
    intros k x Hk. unfold d1. rewrite Swap_lookup by lia.
    repeat destruct (decide _); try lia; intros Hx.
    - apply (HP i x); [lia|done].
    - replace k with (first + (k - first)) in Hx by lia. apply (HP (k - first) x); [lia|done]. }
  destruct (IH d2) as [Hsw3 Hsorted3]; [lia|lia|done| | |].
  - intros k1 k2 x y Hk1 Hk12 Hk2.
    replace k1 with (first + (k1 - first)) by lia.
    replace k2 with (first + (k2 - first)) by lia.
    rewrite !Htail by lia. intros Hx Hy.
    destruct (decide (k1 = first + i)) as [->|Hne].
    + replace (first + (first + i - first)) with (first + i) in Hx by lia.
      assert (x = top) as -> by congruence.
      rewrite Hd1t in Hy by lia.
      apply (Hcross 0 (k2 - first)); try done; try lia. by rewrite Nat.add_0_r.
    + rewrite Hd1t in Hx, Hy by lia.
      apply (Hsorted (first + (k1 - first)) (first + (k2 - first))); try done; lia.
  - intros k1 k2 x y Hk1 Hk2 Hx. rewrite Htail by lia. intros Hy.
    destruct (decide (k2 = i)) as [->|Hne].
    + assert (y = top) as -> by congruence.
      refine (Hd1h (fun x => less top x = false) _ (first + k1) x _ Hx); [|lia].
      intros k z Hk Hz. by apply (Hmax k).
    + rewrite Hd1t in Hy by lia.
      refine (Hd1h (fun x => less y x = false) _ (first + k1) x _ Hx); [|lia].
      intros k z Hk Hz. apply (Hcross k k2); try done; lia.
  - split; [|done]. eapply swaps_trans; [exact Hsw1|].
    eapply swaps_trans; [|exact Hsw3].
    eapply swaps_mono; [| | |exact Hsw2]; lia.
Qed.

Lemma heapSort_func_spec (d : list A) a b :
  a <= b -> b <= length d ->
  swaps a b d (sort.heapSort_func less d a b)
  /\ sortedOn less (sort.heapSort_func less d a b) a b.
Proof.
  intros Hab Hlen. unfold sort.heapSort_func.
  quotient (b - a - 1) 2.
  destruct (heap_build d a (b - a) ((b - a - 1) / 2 + 1)) as [Hsw1 Hheap1]; [lia| |].
  { intros q c x y Hq Hc Hqc. lia. }
  set (d1 := foldl _ d (reverse (seq 0 ((b - a - 1) / 2 + 1)))) in *.
  destruct (heap_pop d1 a (b - a) (b - a)) as [Hsw2 Hsorted]; [lia| |done| | |].
  { rewrite (swaps_length _ _ _ _ Hsw1). lia. }
  { apply sortedOn_short. lia. }
  { intros k1 k2 x y Hk1 Hk2. lia. }
  replace (a + (b - a)) with b in * by lia.
  split; [by eapply swaps_trans|done].
Qed.

(** *** [pdqsort_func] *)

Lemma allOn_frame a b a' b' (d d' : list A) P :
  swaps a' b' d d' -> b' <= a \/ b <= a' -> allOn P d a b -> allOn P d' a b.
Proof.
  intros Hsw Hdis Hall k x Hk Hx.
  rewrite (swaps_frame _ _ _ _ _ Hsw) in Hx by lia. by apply (Hall k).
Qed.

Lemma lowerBound_frame a b a' b' (d d' : list A) :
  swaps a' b' d d' -> b' < a \/ (a <= a' /\ b <= a') ->
  lowerBound less d a b -> lowerBound less d' a b.
Proof.
  intros Hsw Hdis Hlow y Hpos Hy.
  rewrite (swaps_frame _ _ _ _ _ Hsw) in Hy by lia.
  eapply allOn_frame; [exact Hsw|lia|]. by apply Hlow.
Qed.

Lemma lowerBound_shrink a b b' (d : list A) :
  b' <= b -> lowerBound less d a b -> lowerBound less d a b'.
Proof. intros Hb Hlow y Hpos Hy k x Hk. apply (Hlow y Hpos Hy k). lia. Qed.

(** Both sides of a pivot in order make the whole in order. *)
Lemma sortedOn_join (d : list A) a mid b p :
  d !! mid = Some p ->
  allOn (fun x => less x p = true) d a mid ->
  allOn (fun x => less x p = false) d (mid + 1) b ->
  sortedOn less d a mid -> sortedOn less d (mid + 1) b ->
  sortedOn less d a b.
Proof.
  intros Hp HL HR HsL HsR i j x y Hi Hij Hj Hx Hy.
  destruct (decide (j < mid)) as [|Hjm]; [by apply (HsL i j)|].
  destruct (decide (mid < i)) as [|Him]; [apply (HsR i j); try done; lia|].
  destruct (decide (i = mid)) as [->|].
  { assert (x = p) as -> by congruence. apply (HR j); [lia|done]. }
  assert (less x p = true) as Hxp by (apply (HL i); [lia|done]).
  destruct (decide (j = mid)) as [->|].
  { assert (y = p) as -> by congruence. by apply less_asym. }
  assert (less y p = false) as Hyp by (apply (HR j); [lia|done]).
  destruct (less y x) eqn:Hyx; [|done].
  by rewrite (less_trans _ Hless y x p Hyx Hxp) in Hyp.
Qed.

(** The elements that are not greater than the pivot and not less than
    it, followed by greater ones in order, are in order. *)
Lemma sortedOn_equal (d : list A) a mid b p :
  allOn (fun x => less p x = false) d a mid ->
  allOn (fun x => less x p = false) d a mid ->
  allOn (fun x => less p x = true) d mid b ->
  sortedOn less d mid b ->
  sortedOn less d a b.
Proof.
  intros HE1 HE2 HG Hs i j x y Hi Hij Hj Hx Hy.
  destruct (decide (mid <= i)) as [|Him]; [apply (Hs i j); try done; lia|].
  assert (less p x = false) as Hpx by (apply (HE1 i); [lia|done]).
  apply (less_ntrans _ Hless y p x); [|done].
  destruct (decide (j < mid)) as [|Hjm]; [apply (HE2 j); [lia|done]|].
  apply less_asym. apply (HG j); [lia|done].
Qed.

Lemma pdqsort_loop_spec n (d : list A) a b limit wasBalanced wasPartitioned :
  b - a < n -> a <= b -> b <= length d -> lowerBound less d a b ->
  swaps a b d
        (sort.pdqsort_loop random_Next less n d a b limit wasBalanced wasPartitioned)
  /\ sortedOn less
       (sort.pdqsort_loop random_Next less n d a b limit wasBalanced wasPartitioned)
       a b.
Proof.
  revert d a b limit wasBalanced wasPartitioned.
  induction n as [|n IH]; intros d a b limit wb wp Hn Hab Hlen Hlow; [lia|].
  cbn [sort.pdqsort_loop].
  destruct (Nat.leb_spec (b - a) sort.maxInsertion) as [Hshort|Hlong].
  { by apply insertionSort_func_spec. }
  unfold sort.maxInsertion in Hlong.
  destruct (Nat.eqb_spec limit 0) as [_|_].
  { by apply heapSort_func_spec. }
  (* the patterns *)
  set (s1 := if negb wb then (sort.breakPatterns_func random_Next d a b, limit - 1)
             else (d, limit)).
  assert (Hs1 : swaps a b d s1.1).
  { unfold s1. destruct wb; simpl; [apply swaps_refl|].
    by apply breakPatterns_func_swaps. }
  destruct s1 as [d1 limit1]. cbn [fst] in Hs1.
  assert (Hlen1 : length d1 = length d) by (by rewrite (swaps_length _ _ _ _ Hs1)).
  destruct (sort.choosePivot_func less d1 a b) as [pivot hint] eqn:Hchoose.
  apply choosePivot_func_range in Hchoose; [|lia].
  set (s2 := if sort.isDecreasing hint
             then (sort.reverseRange_func d1 a b, b - 1 - (pivot - a),
                   sort.increasingHint)
             else (d1, pivot, hint)).
  assert (Hs2 : swaps a b d1 s2.1.1 /\ a <= s2.1.2 < b).
  { unfold s2. destruct (sort.isDecreasing hint); simpl.
    - split; [apply reverseRange_func_swaps; lia|lia].
    - split; [apply swaps_refl|lia]. }
  destruct s2 as [[d2 pivot2] hint2]. cbn [fst snd] in Hs2. destruct Hs2 as [Hs2 Hpivot2].
  assert (Hlen2 : length d2 = length d) by (by rewrite (swaps_length _ _ _ _ Hs2)).
  assert (Hlow2 : lowerBound less d2 a b).
  { eapply swaps_lowerBound; [exact Hs2|lia|lia|].
    by eapply swaps_lowerBound; [exact Hs1|..]. }
  set (s3 := if wb && wp && sort.isIncreasing hint2
             then sort.partialInsertionSort_func less d2 a b else (d2, false)).
  assert (Hs3 : swaps a b d2 s3.1 /\ (s3.2 = true -> sortedOn less s3.1 a b)).
  { unfold s3. destruct (wb && wp && sort.isIncreasing hint2).
    - destruct (sort.partialInsertionSort_func less d2 a b) as [d3 r] eqn:Hpartial.
      apply partialInsertionSort_func_spec in Hpartial; [done|lia|lia|done].
    - split; [apply swaps_refl|done]. }
  destruct s3 as [d3 sorted]. cbn [fst snd] in Hs3. destruct Hs3 as [Hs3 Hsorted3].
  assert (Hlen3 : length d3 = length d) by (by rewrite (swaps_length _ _ _ _ Hs3)).
  assert (Hlow3 : lowerBound less d3 a b) by (by eapply swaps_lowerBound; [exact Hs3|..]).
  assert (Hs03 : swaps a b d d3).
  { eapply swaps_trans; [exact Hs1|]. by eapply swaps_trans. }
  destruct sorted.
  { split; [done|by apply Hsorted3]. }
  destruct (lookup_lt_is_Some_2 d3 pivot2 ltac:(lia)) as [p Hp].
  destruct ((0 <? a) && negb (Less d3 (a - 1) pivot2)) eqn:Hequal.
  - (* the elements equal to the pivot *)
    apply andb_true_iff in Hequal as [Hpos%Nat.ltb_lt Hnl%negb_true_iff].
    destruct (lookup_lt_is_Some_2 d3 (a - 1) ltac:(lia)) as [y Hy].
    rewrite (Less_lookup _ _ _ _ _ Hy Hp) in Hnl.
    destruct (sort.partitionEqual_func less d3 a b pivot2) as [d4 mid] eqn:Hpart.
    destruct (partitionEqual_func_spec d3 a b pivot2 p d4 mid) as (Hs4 & Hmid & HE & HG);
      [lia|lia|done|done|].
    assert (Hlen4 : length d4 = length d) by (by rewrite (swaps_length _ _ _ _ Hs4)).
    assert (Hge : allOn (fun x => less x p = false) d4 a b).
    { apply (swaps_allOn _ _ _ _ _ Hs4). intros k x Hk Hx.
      apply (less_ntrans _ Hless x y p); [|done]. by apply (Hlow3 y Hpos Hy k). }
    destruct (IH d4 mid b limit1 wb wp) as [Hs5 Hsorted5]; [lia|lia|lia| |].
    { intros z _ Hz k x Hk Hx.
      assert (less p z = false) as Hpz by (apply (HE (mid - 1)); [lia|done]).
      assert (less p x = true) as Hpx by (apply (HG k); [lia|done]).
      destruct (less x z) eqn:Hxz; [|done].
      by rewrite (less_trans _ Hless p x z Hpx Hxz) in Hpz. }
    split.
    + eapply swaps_trans; [exact Hs03|]. eapply swaps_trans; [exact Hs4|].
      eapply swaps_mono; [| | |exact Hs5]; lia.
    + apply (sortedOn_equal _ a mid b p); try done.
      * eapply allOn_frame; [exact Hs5|lia|done].
      * eapply allOn_frame; [exact Hs5|lia|].
        intros k x Hk. apply (Hge k). lia.
      * by apply (swaps_allOn _ _ _ _ _ Hs5).
  - (* the partition around the pivot *)
    clear Hequal.
    destruct (sort.partition_func less d3 a b pivot2) as [[d4 mid] ap] eqn:Hpart.
    destruct (partition_func_spec d3 a b pivot2 p d4 mid ap) as (Hs4 & Hmid & Hp4 & HL & HR);
      [lia|lia|done|done|].
    assert (Hlen4 : length d4 = length d) by (by rewrite (swaps_length _ _ _ _ Hs4)).
    assert (Hlow4 : lowerBound less d4 a mid).
    { apply (lowerBound_shrink a b); [lia|]. by eapply swaps_lowerBound; [exact Hs4|..]. }
    assert (Hlow4' : lowerBound less d4 (mid + 1) b).
    { intros z _ Hz k x Hk Hx. replace (mid + 1 - 1) with mid in Hz by lia.
      assert (z = p) as -> by congruence. by apply (HR k). }
    assert (Hs04 : swaps a b d d4) by (by eapply swaps_trans).
    destruct (Nat.ltb_spec (mid - a) (b - mid)) as [_|_].
    + destruct (IH d4 a mid limit1 true true) as [Hs5 Hsorted5]; [lia|lia|lia|done|].
      set (d5 := sort.pdqsort_loop random_Next less n d4 a mid limit1 true true) in *.
      assert (Hlen5 : length d5 = length d) by (by rewrite (swaps_length _ _ _ _ Hs5)).
      destruct (IH d5 (mid + 1) b limit1 ((b - a) / 8 <=? mid - a) ap)
        as [Hs7 Hsorted7]; [lia|lia|lia| |].
      { eapply lowerBound_frame; [exact Hs5|lia|done]. }
      split.
      * eapply swaps_trans; [exact Hs04|].
        eapply swaps_trans; [eapply swaps_mono; [| | |exact Hs5]; lia|].
        eapply swaps_mono; [| | |exact Hs7]; lia.
      * apply (sortedOn_join _ a mid b p).
        -- rewrite (swaps_frame _ _ _ _ _ Hs7) by lia.
           by rewrite (swaps_frame _ _ _ _ _ Hs5) by lia.
        -- eapply allOn_frame; [exact Hs7|lia|]. by apply (swaps_allOn _ _ _ _ _ Hs5).
        -- apply (swaps_allOn _ _ _ _ _ Hs7). eapply allOn_frame; [exact Hs5|lia|done].
        -- eapply sortedOn_frame; [exact Hs7|lia|done].
        -- done.
    + destruct (IH d4 (mid + 1) b limit1 true true) as [Hs5 Hsorted5]; [lia|lia|lia|done|].
      set (d5 := sort.pdqsort_loop random_Next less n d4 (mid + 1) b limit1 true true)
        in *.
      assert (Hlen5 : length d5 = length d) by (by rewrite (swaps_length _ _ _ _ Hs5)).
      destruct (IH d5 a mid limit1 ((b - a) / 8 <=? b - mid) ap)
        as [Hs7 Hsorted7]; [lia|lia|lia| |].
      { eapply lowerBound_frame; [exact Hs5|lia|done]. }
      split.
      * eapply swaps_trans; [exact Hs04|].
        eapply swaps_trans; [eapply swaps_mono; [| | |exact Hs5]; lia|].
        eapply swaps_mono; [| | |exact Hs7]; lia.
      * apply (sortedOn_join _ a mid b p).
        -- rewrite (swaps_frame _ _ _ _ _ Hs7) by lia.
           by rewrite (swaps_frame _ _ _ _ _ Hs5) by lia.
        -- apply (swaps_allOn _ _ _ _ _ Hs7). eapply allOn_frame; [exact Hs5|lia|done].
        -- eapply allOn_frame; [exact Hs7|lia|]. by apply (swaps_allOn _ _ _ _ _ Hs5).
        -- done.
        -- eapply sortedOn_frame; [exact Hs7|lia|done].
Qed.

(** [sort.Slice] returns its input reordered so that no element is less
    than the one before it. *)
Lemma Slice_sorts (x : list A) :
  sort.Slice random_Next less x ≡ₚ x
  /\ Sorted (fun u v => less v u = false) (sort.Slice random_Next less x).
Proof.
  unfold sort.Slice, sort.pdqsort_func.
  destruct (pdqsort_loop_spec (S (length x - 0)) x 0 (length x)
              (sort.bits_Len (length x)) true true) as [Hsw Hsorted];
    [lia|lia|lia| |].
  { intros y Hpos. lia. }
  split; [by eapply swaps_Permutation|].
  apply sortedOn_Sorted. by rewrite (swaps_length _ _ _ _ Hsw).
Qed.

End SortProperties.

(** ** [ExportAll] *)

Lemma lessSessionID_asym a b : lessSessionID a b = true -> lessSessionID b a = false.
Proof.
  unfold lessSessionID, String.ltb. rewrite (String.compare_antisym (chatSessionID a)).
  by destruct (chatSessionID b ?= chatSessionID a)%string.
Qed.

Lemma lessSessionID_total a b : lessSessionID b a = false \/ lessSessionID a b = false.
Proof.
  destruct (lessSessionID a b) eqn:H; [left; by apply lessSessionID_asym|by right].
Qed.

Lemma mergeSortBy_sorts : sortsBySessionID mergeSortBy.
Proof.
  intros l. unfold mergeSortBy. split; [apply merge_sort_Permutation|].
  apply Sorted_merge_sort. intros a b. apply lessSessionID_total.
Qed.

Lemma tieReversingSort_sorts : sortsBySessionID tieReversingSort.
Proof.
  intros l. unfold tieReversingSort. split.
  - by rewrite reverse_Permutation, merge_sort_Permutation.
  - apply (Sorted_reverse (fun a b => lessSessionID a b = false)).
    apply Sorted_merge_sort. intros a b.
    destruct (lessSessionID_total b a); auto.
Qed.

Lemma String_compare_refl s : String.compare s s = Eq.
Proof.
  induction s as [|c s IH]; [done|]. simpl. unfold Ascii.compare.
  by rewrite N.compare_refl.
Qed.

Lemma String_compare_lt_trans x y z :
  String.compare x y = Lt -> String.compare y z = Lt -> String.compare x z = Lt.
Proof.
  revert y z. induction x as [|a x IH]; intros [|b y] [|c z]; try done. simpl.
  unfold Ascii.compare.
  destruct (N.compare_spec (byte_val a) (byte_val b)) as [Hab|Hab|Hab]; [| |done].
  - apply (f_equal ascii_of_N) in Hab. rewrite !ascii_N_embedding in Hab. subst b.
    destruct (N.compare (byte_val a) (byte_val c)); [apply IH|done|done].
  - intros _.
    destruct (N.compare_spec (byte_val b) (byte_val c)) as [Hbc|Hbc|Hbc]; [| |done].
    + rewrite <- Hbc. intros _. by apply N.compare_lt_iff in Hab as ->.
    + intros _. assert (byte_val a < byte_val c) as ->%N.compare_lt_iff by lia. done.
Qed.

(** The comparison of [ExportAll] is a strict weak order. *)
Lemma lessSessionID_strictWeakOrder : strictWeakOrder lessSessionID.
Proof.
  unfold lessSessionID, String.ltb. split.
  - intros x. by rewrite String_compare_refl.
  - intros x y z.
    destruct (String.compare (chatSessionID x) (chatSessionID y)) eqn:Hxy; try done.
    destruct (String.compare (chatSessionID y) (chatSessionID z)) eqn:Hyz; try done.
    by rewrite (String_compare_lt_trans _ _ _ Hxy Hyz).
  - intros x y z.
    destruct (String.compare (chatSessionID x) (chatSessionID y)) eqn:Hxy; try done;
      destruct (String.compare (chatSessionID y) (chatSessionID z)) eqn:Hyz; try done;
      intros _ _.
    + apply String.compare_eq_iff in Hxy. rewrite Hxy, Hyz. done.
    + apply String.compare_eq_iff in Hxy. rewrite Hxy, Hyz. done.
    + apply String.compare_eq_iff in Hyz. rewrite <- Hyz, Hxy. done.
    + rewrite String.compare_antisym in Hxy, Hyz.
      apply (f_equal CompOpp) in Hxy, Hyz. rewrite CompOpp_involutive in Hxy, Hyz.
      simpl in Hxy, Hyz.
      rewrite String.compare_antisym, (String_compare_lt_trans _ _ _ Hyz Hxy). done.
Qed.

(** [sort.Slice] keeps its promise for the comparison of [ExportAll]. *)
Lemma sort_Slice_sorts random_Next : sortsBySessionID (sort.Slice random_Next).
Proof. intros l. apply Slice_sorts, lessSessionID_strictWeakOrder. Qed.

(** The snapshot of a successful [ExportAll]. *)
Lemma ExportAll_Ok sort_Slice st env fs out export :
  ExportAll sort_Slice (Some st) env fs out = Ok export ->
  exists active archived,
    loadChats st env fs false = Ok active
    /\ loadChats st env fs true = Ok archived
    /\ export = mkExport (now env) (length active) (length archived)
                         (sort_Slice lessSessionID (active ++ archived)).
Proof.
  unfold ExportAll. destruct (strings.TrimSpace_is_empty out); [done|].
  destruct (loadChats st env fs false) as [active|]; [|done].
  destruct (loadChats st env fs true) as [archived|]; [|done].
  destruct (negb _); [done|].
  destruct (fails env OpMkdirOutput); [done|].
  destruct (fails env OpWriteOutput); [done|].
  intros [= <-]. by exists active, archived.
Qed.

(** C1, as amended. The snapshot of a successful [ExportAll] counts the
    chats loaded from the active status and those loaded from the
    archived status, and its [chats] are the active-loaded list followed
    by the archived-loaded list, reordered by [sort.Slice] so that the
    session identifiers ascend; [sort.Slice] is no stable sort, and
    nothing says in which order chats with the same identifier come. *)
Theorem ExportAll_counts_and_sorts random_Next st env fs out export :
  ExportAll (sort.Slice random_Next) (Some st) env fs out = Ok export ->
  exists active archived,
    loadChats st env fs false = Ok active
    /\ loadChats st env fs true = Ok archived
    /\ ActiveChats export = length active
    /\ ArchivedChats export = length archived
    /\ Chats export ≡ₚ active ++ archived
    /\ Sorted (fun a b => lessSessionID b a = false) (Chats export).
Proof.
  intros Hexp.
  destruct (ExportAll_Ok _ _ _ _ _ _ Hexp) as (active & archived & Ha & Hb & ->).
  exists active, archived. simpl.
  destruct (sort_Slice_sorts random_Next (active ++ archived)) as [Hperm Hsorted].
  by repeat split.
Qed.

(** ** UTF-8: decoding a rune and encoding it again *)

Ltac Zify.zify_post_hook ::= Z.to_euclidean_division_equations.

Lemma land_disjoint a b k : a mod 2 ^ k = 0 -> b < 2 ^ k -> N.land a b = 0.
Proof.
  intros Ha Hb. apply N.bits_inj; intros n. rewrite N.land_spec, N.bits_0.
  destruct (N.lt_ge_cases n k) as [Hlt|Hge].
  - by rewrite <- (N.mod_pow2_bits_low a k n Hlt), Ha, N.bits_0.
  - destruct (N.eq_dec b 0) as [->|Hnz]; [by rewrite N.bits_0, andb_false_r|].
    rewrite (N.bits_above_log2 b), andb_false_r; [done|].
    apply N.log2_lt_pow2; [lia|].
    eapply N.lt_le_trans; [apply Hb|]. apply N.pow_le_mono_r; lia.
Qed.

Lemma lor_add a b k : a mod 2 ^ k = 0 -> b < 2 ^ k -> N.lor a b = a + b.
Proof.
  intros Ha Hb.
  rewrite <- N.lxor_lor, <- N.add_nocarry_lxor; eauto using land_disjoint.
Qed.

Lemma land_mask a k m : m = N.ones k -> N.land a m = a mod 2 ^ k.
Proof. intros ->. apply N.land_ones. Qed.

(** Shifts and masks as multiplications, divisions and remainders. *)
Ltac arith_bits :=
  repeat first
    [ rewrite N.shiftr_div_pow2
    | rewrite N.shiftl_mul_pow2
    | rewrite (land_mask _ 3 7) by reflexivity
    | rewrite (land_mask _ 4 15) by reflexivity
    | rewrite (land_mask _ 5 31) by reflexivity
    | rewrite (land_mask _ 6 63) by reflexivity
    | rewrite (land_mask _ 8 255) by reflexivity ];
  change (2 ^ 3) with 8; change (2 ^ 4) with 16; change (2 ^ 5) with 32;
  change (2 ^ 6) with 64; change (2 ^ 8) with 256;
  change (2 ^ 12) with 4096; change (2 ^ 18) with 262144.

Ltac lor_to_add k :=
  match goal with
  | |- context [N.lor ?a ?b] =>
    rewrite (lor_add a b k) by (arith_bits; first [reflexivity | lia])
  end.

Lemma EncodeRune_decoded2 p0 b1 :
  0xC2 <= p0 -> p0 < 0xE0 -> 0x80 <= b1 -> b1 <= 0xBF ->
  utf8.EncodeRune (N.lor (N.shiftl (N.land p0 utf8.mask2) 6) (N.land b1 utf8.maskx))
  = [ascii_of_N p0; ascii_of_N b1].
Proof.
  intros. unfold utf8.mask2, utf8.maskx. arith_bits. lor_to_add 6.
  unfold utf8.EncodeRune, utf8.byte_of, utf8.maskx. arith_bits.
  set (r := p0 mod 32 * 64 + b1 mod 64).
  assert (0x80 <= r <= 0x7FF) as [Hr1 Hr2] by (subst r; lia).
  destruct (N.leb_spec r 0x7F); [lia|].
  destruct (N.leb_spec r 0x7FF); [|lia].
  do 2 lor_to_add 6.
  f_equal; [|f_equal]; f_equal; subst r; lia.
Qed.

Lemma EncodeRune_decoded3 p0 b1 b2 :
  0xE0 <= p0 -> p0 < 0xF0 -> 0x80 <= b1 -> b1 <= 0xBF ->
  (p0 = 0xE0 -> 0xA0 <= b1) -> (p0 = 0xED -> b1 <= 0x9F) ->
  0x80 <= b2 -> b2 <= 0xBF ->
  utf8.EncodeRune
    (N.lor (N.lor (N.shiftl (N.land p0 utf8.mask3) 12)
                  (N.shiftl (N.land b1 utf8.maskx) 6))
           (N.land b2 utf8.maskx))
  = [ascii_of_N p0; ascii_of_N b1; ascii_of_N b2].
Proof.
  intros. unfold utf8.mask3, utf8.maskx. arith_bits.
  lor_to_add 12. lor_to_add 6.
  unfold utf8.EncodeRune, utf8.byte_of, utf8.maskx, utf8.MaxRune,
    utf8.surrogateMin, utf8.surrogateMax. arith_bits.
  set (r := p0 mod 16 * 4096 + b1 mod 64 * 64 + b2 mod 64).
  assert (0x800 <= r <= 0xFFFF) as [Hr1 Hr2] by (subst r; lia).
  assert (r < 0xD800 \/ 0xDFFF < r) as Hs by (subst r; lia).
  destruct (N.leb_spec r 0x7F); [lia|].
  destruct (N.leb_spec r 0x7FF); [lia|].
  destruct (N.ltb_spec 0x10FFFF r); [lia|].
  destruct (N.leb_spec 0xD800 r), (N.leb_spec r 0xDFFF); try lia; simpl;
    (destruct (N.leb_spec r 0xFFFF); [|lia]);
    lor_to_add 6; lor_to_add 6; lor_to_add 4;
    (f_equal; [|f_equal; [|f_equal]]); f_equal; subst r; lia.
Qed.

Lemma EncodeRune_decoded4 p0 b1 b2 b3 :
  0xF0 <= p0 -> p0 <= 0xF4 -> 0x80 <= b1 -> b1 <= 0xBF ->
  (p0 = 0xF0 -> 0x90 <= b1) -> (p0 = 0xF4 -> b1 <= 0x8F) ->
  0x80 <= b2 -> b2 <= 0xBF -> 0x80 <= b3 -> b3 <= 0xBF ->
  utf8.EncodeRune
    (N.lor (N.lor (N.lor (N.shiftl (N.land p0 utf8.mask4) 18)
                         (N.shiftl (N.land b1 utf8.maskx) 12))
                  (N.shiftl (N.land b2 utf8.maskx) 6))
           (N.land b3 utf8.maskx))
  = [ascii_of_N p0; ascii_of_N b1; ascii_of_N b2; ascii_of_N b3].
Proof.
  intros. unfold utf8.mask4, utf8.maskx. arith_bits.
  lor_to_add 18. lor_to_add 12. lor_to_add 6.
  unfold utf8.EncodeRune, utf8.byte_of, utf8.maskx, utf8.MaxRune,
    utf8.surrogateMin, utf8.surrogateMax. arith_bits.
  set (r := p0 mod 8 * 262144 + b1 mod 64 * 4096 + b2 mod 64 * 64 + b3 mod 64).
  assert (0x10000 <= r <= 0x10FFFF) as [Hr1 Hr2] by (subst r; lia).
  destruct (N.leb_spec r 0x7F); [lia|].
  destruct (N.leb_spec r 0x7FF); [lia|].
  destruct (N.ltb_spec 0x10FFFF r); [lia|].
  destruct (N.leb_spec 0xD800 r), (N.leb_spec r 0xDFFF); try lia; simpl;
    (destruct (N.leb_spec r 0xFFFF); [lia|]);
    lor_to_add 6; lor_to_add 6; lor_to_add 6; lor_to_add 3;
    (f_equal; [|f_equal; [|f_equal; [|f_equal]]]); f_equal; subst r; lia.
Qed.

Lemma first_ASCII p0 : utf8.first p0 = utf8.ASCII -> p0 < 0x80.
Proof.
  unfold utf8.first.
  repeat match goal with
         | |- context [N.ltb ?a ?b] => destruct (N.ltb_spec a b)
         | |- context [N.eqb ?a ?b] => destruct (N.eqb_spec a b)
         end; try done.
Qed.

Lemma first_Lead p0 sz lo hi :
  utf8.first p0 = utf8.Lead sz lo hi ->
  0x80 <= lo /\ hi <= 0xBF /\
  ((sz = 2%nat /\ 0xC2 <= p0 /\ p0 < 0xE0 /\ lo = 0x80 /\ hi = 0xBF)
   \/ (sz = 3%nat /\ 0xE0 <= p0 /\ p0 < 0xF0
       /\ (p0 = 0xE0 -> lo = 0xA0) /\ (p0 = 0xED -> hi = 0x9F))
   \/ (sz = 4%nat /\ 0xF0 <= p0 /\ p0 <= 0xF4
       /\ (p0 = 0xF0 -> lo = 0x90) /\ (p0 = 0xF4 -> hi = 0x8F))).
Proof.
  unfold utf8.first, utf8.locb, utf8.hicb.
  repeat match goal with
         | |- context [N.ltb ?a ?b] => destruct (N.ltb_spec a b)
         | |- context [N.eqb ?a ?b] => destruct (N.eqb_spec a b)
         end; intros [= <- <- <-]; (split; [lia|split; [lia|]]).
  all: first [ left; repeat split; lia
             | right; left; repeat split; lia
             | right; right; repeat split; lia ].
Qed.

Lemma in_range_spec lo hi b :
  utf8.in_range lo hi b = true <-> lo <= b <= hi.
Proof. unfold utf8.in_range. rewrite andb_true_iff, !N.leb_le. done. Qed.

Lemma DecodeRune_valid c s r size :
  utf8.DecodeRune (c :: s) = (r, size) ->
  (r, size) ≠ (utf8.RuneError, 1%nat) ->
  utf8.EncodeRune r = take size (c :: s)
  /\ (1 <= size)%nat
  /\ length (take size (c :: s)) = size
  /\ (0x80 <= byte_val c -> Forall (fun x => 0x80 <= byte_val x) (take size (c :: s))).
Proof.
  unfold utf8.DecodeRune.
  destruct (utf8.first (byte_val c)) as [| |sz lo hi] eqn:Hfirst.
  - intros [= <- <-] _. apply first_ASCII in Hfirst.
    split; [|split; [done|split; [done|lia]]].
    unfold utf8.EncodeRune, utf8.byte_of. destruct (N.leb_spec (byte_val c) 0x7F); [|lia].
    simpl. f_equal. rewrite <- (ascii_N_embedding c) at 2. f_equal.
    change 0xFF with (N.ones 8). rewrite N.land_ones. apply N.mod_small.
    change (2^8) with 256. lia.
  - by intros [= <- <-] [].
  - apply first_Lead in Hfirst as (Hlo & Hhi & Hcase).
    destruct s as [|c1 s]; [by intros [= <- <-] []|].
    destruct (_ <? sz)%nat eqn:Hlen; [by intros [= <- <-] []|].
    apply Nat.ltb_ge in Hlen.
    destruct (utf8.in_range lo hi (byte_val c1)) eqn:Hb1; [|by intros [= <- <-] []].
    apply in_range_spec in Hb1. cbn [negb].
    destruct Hcase as [(-> & ? & ? & -> & ->)|[(-> & ? & ? & ? & ?)|(-> & ? & ? & ? & ?)]].
    + cbn [Nat.leb]. intros [= <- <-] _.
      rewrite EncodeRune_decoded2 by lia. rewrite !ascii_N_embedding.
      split; [done|]. split; [lia|]. split; [done|].
      intros _. cbn [take]. repeat constructor; lia.
    + cbn [Nat.leb]. destruct s as [|c2 s]; [by intros [= <- <-] []|].
      destruct (utf8.in_range _ _ (byte_val c2)) eqn:Hb2; [|by intros [= <- <-] []].
      apply in_range_spec in Hb2. unfold utf8.locb, utf8.hicb in Hb2. cbn [negb].
      intros [= <- <-] _.
      rewrite EncodeRune_decoded3 by lia. rewrite !ascii_N_embedding.
      split; [done|]. split; [lia|]. split; [done|].
      intros _. cbn [take]. repeat constructor; lia.
    + cbn [Nat.leb]. destruct s as [|c2 s]; [by intros [= <- <-] []|].
      destruct (utf8.in_range _ _ (byte_val c2)) eqn:Hb2; [|by intros [= <- <-] []].
      apply in_range_spec in Hb2. unfold utf8.locb, utf8.hicb in Hb2. cbn [negb].
      destruct s as [|c3 s]; [by intros [= <- <-] []|].
      destruct (utf8.in_range _ _ (byte_val c3)) eqn:Hb3; [|by intros [= <- <-] []].
      apply in_range_spec in Hb3. unfold utf8.locb, utf8.hicb in Hb3. cbn [negb].
      intros [= <- <-] _.
      rewrite EncodeRune_decoded4 by lia. rewrite !ascii_N_embedding.
      split; [done|]. split; [lia|]. split; [done|].
      intros _. cbn [take]. repeat constructor; lia.
Qed.

(** ** The scanner on compacted text *)

Import scanner.

Ltac unfold_scanner :=
  unfold do_step, do_state0, do_stateESign, do_stateBeginString,
    do_stateBeginValue, do_stateEndValue, do_stateEndTop, expect,
    pushParseState, popParseState, error, set_step in *.

(** Case analysis on every test a step makes. *)
Ltac split_tests :=
  repeat match goal with
         | |- context [if ?b then _ else _] => destruct b eqn:?
         | |- context [match ?x with _ => _ end] =>
           is_var x; destruct x
         end.

Lemma do_step_err_mono s c : err s = true -> err (fst (do_step s c)) = true.
Proof.
  intros He. destruct s as [f e stk er]. simpl in He. subst er.
  unfold_scanner. simpl.
  destruct f; split_tests; simpl; try reflexivity.
Qed.

Ltac unfold_steps :=
  unfold do_step, do_state0, do_stateESign, do_stateBeginString,
    do_stateBeginValue, do_stateEndValue, do_stateEndTop, expect,
    popParseState, error, set_step.

(** One test of a step; a test that pins the byte down substitutes it. *)
Ltac split_test :=
  match goal with
  | |- context [if ?b then _ else _] =>
    let E := fresh "E" in
    destruct b eqn:E;
    [ try (apply Ascii.eqb_eq in E; subst; cbn) | ]
  end.

Lemma push_sim f e e' stk p ok s1 v :
  pushParseState (mk f e stk false) p ok = (s1, v) ->
  ge_scanSkipSpace ok = false ->
  err s1 = false ->
  N.of_nat (length (stack s1)) < maxNestingDepth ->
  s1 = mk f e (p :: stk) false /\ v = ok
  /\ pushParseState (mk f e' (stk ++ payloadBase) false) p ok
     = (mk f e' ((p :: stk) ++ payloadBase) false, ok).
Proof.
  unfold pushParseState, error. simpl.
  destruct (N.leb_spec (N.of_nat (S (length stk))) maxNestingDepth).
  - intros [= <- <-] _ _. simpl. intros Hd. split; [done|split; [done|]].
    rewrite length_app. simpl.
    destruct (N.leb_spec (N.of_nat (S (length stk + 1))) maxNestingDepth); [done|lia].
  - by intros [= <- <-].
Qed.

Ltac sim_finish :=
  simpl in *; try discriminate; try congruence;
  try (eexists; split; [reflexivity|]);
  unfold Sim, stepRel; simpl;
  repeat split; try (intros; discriminate); try (intros; congruence); auto;
  try (left; repeat split; congruence).

Lemma sim_step_kept s s' c s1 v :
  Sim s s' ->
  do_step s c = (s1, v) ->
  ge_scanSkipSpace v = false ->
  err s1 = false ->
  N.of_nat (length (stack s1)) < maxNestingDepth ->
  exists s1', do_step s' c = (s1', v) /\ Sim s1 s1'
    /\ (stack s = [] -> stack s1 = [] -> decode.isLiteralByte v = true).
Proof.
  destruct s as [f e stk er], s' as [f' e' stk' er'].
  intros (He & He' & Het & Hstk & Hrel & Hi1 & Hi2). simpl in *. subst.
  destruct Hrel as [(<- & Hne1 & Hne2)|[(-> & ->)|(Hf & Hnum)]].
  - assert (e = false) as -> by (destruct e; [by specialize (Hi1 eq_refl)|done]).
    clear Hi1 Hi2.
    destruct stk as [|[] [|[] stk]]; unfold payloadBase; cbn [app];
    destruct f; try congruence;
    unfold_steps; cbn; repeat split_test.
    all: try (intros [= <- <-]; simpl; intros; sim_finish; fail).
    all: try (intros Hp Hv Herr Hd;
              destruct (push_sim _ _ false _ _ _ _ _ Hp eq_refl Herr Hd) as (-> & -> & Hp');
              eexists; split; [exact Hp'|]; sim_finish; fail).
  - unfold_steps. cbn. destruct (isSpace c); cbn; by intros [= <- <-].
  - destruct f'; try discriminate Hnum; clear Hnum;
      (destruct Hf as [-> | ->];
       [|unfold_steps; cbn; destruct (isSpace c); cbn; by intros [= <- <-]]).
    all: assert (e = false) as -> by (destruct e; [by specialize (Hi1 eq_refl)|done]).
    all: clear Hi1 Hi2.
    all: destruct stk as [|[] [|[] stk]]; unfold payloadBase; cbn [app];
      unfold_steps; cbn; repeat split_test.
    all: try (intros [= <- <-]; simpl; intros; sim_finish; fail).
Qed.

Lemma sim_step_dropped s s' c s1 v :
  Sim s s' ->
  do_step s c = (s1, v) ->
  ge_scanSkipSpace v = true ->
  err s1 = false ->
  Sim s1 s'.
Proof.
  destruct s as [f e stk er], s' as [f' e' stk' er'].
  intros (He & He' & Het & Hstk & Hrel & Hi1 & Hi2). simpl in *. subst.
  destruct Hrel as [(<- & Hne1 & Hne2)|[(-> & ->)|(Hf & Hnum)]].
  - assert (e = false) as -> by (destruct e; [by specialize (Hi1 eq_refl)|done]).
    clear Hi1 Hi2.
    destruct stk as [|[] [|[] stk]]; unfold payloadBase; cbn [app];
    destruct f; try congruence;
    unfold_steps; unfold pushParseState, error; cbn; repeat split_test.
    all: try (intros [= <- <-]; simpl; intros; sim_finish; fail).
  - destruct (Hi2 eq_refl) as [-> ->].
    unfold_steps. cbn. destruct (isSpace c); cbn; intros [= <- <-]; sim_finish.
  - destruct f'; try discriminate Hnum; clear Hnum;
      (destruct Hf as [-> | ->];
       [|destruct (Hi2 eq_refl) as [-> ->]; unfold_steps; cbn;
         destruct (isSpace c); cbn; intros [= <- <-]; sim_finish]).
    all: assert (e = false) as -> by (destruct e; [by specialize (Hi1 eq_refl)|done]).
    all: clear Hi1 Hi2.
    all: destruct stk as [|[] [|[] stk]]; unfold payloadBase; cbn [app];
      unfold_steps; cbn; repeat split_test.
    all: try (intros [= <- <-]; simpl; intros; sim_finish; fail).
Qed.

Lemma ascii_of_byte_val c n : byte_val c = n -> c = ascii_of_N n.
Proof. intros <-. by rewrite ascii_N_embedding. Qed.

(** Inside a string a byte outside ASCII is passed over. *)
Lemma do_step_InString_high s c :
  step s = stateInString -> 0x80 <= byte_val c ->
  do_step s c = (s, scanContinue).
Proof.
  intros Hs Hc. unfold do_step. rewrite Hs.
  destruct (Ascii.eqb_spec c quote) as [->|_]; [simpl in Hc; lia|].
  destruct (Ascii.eqb_spec c backslash) as [->|_]; [simpl in Hc; lia|].
  destruct (N.ltb_spec (byte_val c) 0x20); [lia|done].
Qed.

(** A byte outside ASCII is an error anywhere else. *)
Lemma do_step_high_InString s c s1 v :
  0x80 <= byte_val c ->
  do_step s c = (s1, v) -> err s = false -> err s1 = false ->
  v <> scanError ->
  step s = stateInString.
Proof.
  intros Hc. destruct s as [f e stk er]. simpl. intros Hstep ->. revert Hstep.
  assert (Hq : forall x, byte_val x < 0x80 -> Ascii.eqb c x = false).
  { intros x Hx. destruct (Ascii.eqb_spec c x) as [->|]; [lia|done]. }
  assert (isSpace c = false) as Hsp.
  { destruct (isSpace c) eqn:E; [|done]. exfalso. revert Hc.
    destruct c as [[] [] [] [] [] [] [] []]; try discriminate E; cbn; lia. }
  assert (isDigit c = false) as Hd.
  { unfold isDigit. apply andb_false_iff. right. apply N.leb_gt. simpl. lia. }
  assert (isDigit19 c = false) as Hd19.
  { unfold isDigit19. apply andb_false_iff. right. apply N.leb_gt. simpl. lia. }
  assert (isHex c = false) as Hh.
  { unfold isHex. rewrite Hd. simpl. apply orb_false_iff; split;
      apply andb_false_iff; right; apply N.leb_gt; simpl; lia. }
  destruct f; try done; unfold_steps; unfold pushParseState, error; cbn;
    rewrite ?Hsp, ?Hd, ?Hd19, ?Hh, ?Hq by (by compute); cbn;
    destruct stk as [|[] ?]; cbn; rewrite ?Hsp, ?Hq by (by compute); cbn;
    by intros [= <- <-].
Qed.

(** The two bytes after 0xE2 in the encodings of U+2028 and U+2029. *)
Lemma lsep_tail c1 c2 :
  (byte_val c1 =? 0x80) && (N.ldiff (byte_val c2) 1 =? 0xA8) = true ->
  0x80 <= byte_val c1 /\ 0x80 <= byte_val c2
  /\ byte_val c1 <> 0xE2 /\ byte_val c2 <> 0xE2
  /\ json.escape_u202 (byte_val c2) = json.escape_u202 (if byte_val c2 =? 0xA8 then 0x2028 else 0x2029)
  /\ (byte_val c2 = 0xA8 \/ byte_val c2 = 0xA9).
Proof.
  intros [H1 H2]%andb_true_iff. apply N.eqb_eq in H1. rewrite H1.
  destruct c2 as [[] [] [] [] [] [] [] []]; try discriminate H2; cbn; repeat split; try lia; auto.
Qed.

(** A step that answers [scanContinue] leaves the stack alone. *)
Lemma do_step_Continue s c s1 :
  do_step s c = (s1, scanContinue) ->
  stack s1 = stack s /\ endTop s1 = endTop s /\ err s1 = err s.
Proof.
  destruct s as [f e stk er].
  destruct f; unfold_steps; unfold pushParseState, error; cbn;
    repeat split_test; try (destruct stk as [|[] [|? ?]]; cbn; repeat split_test);
    try (by intros [= <-]); intros [=].
Qed.

(** The decoder on a byte of the value of a member, when the byte does
    not end the value. *)
Lemma decode_step_val d c s1 v stk stk1 :
  do_step (decode.scan d) c = (s1, v) ->
  v <> scanError ->
  stack (decode.scan d) = stk ++ payloadBase ->
  stack s1 = stk1 ++ payloadBase ->
  (stk = [] -> stk1 = [] -> decode.isLiteralByte v = true) ->
  decode.step d c =
    Some (decode.mk s1 (decode.kind d) (decode.literal d) (decode.members d)
                    (decode.key d) (decode.val d ++ [c])).
Proof.
  intros Hstep Hv Hstk Hstk1 Hlit. unfold decode.step. rewrite Hstep, Hstk, Hstk1.
  rewrite !length_app. unfold payloadBase. cbn [length].
  destruct stk as [|p stk]; cbn [length app Nat.add].
  - destruct stk1 as [|p1 stk1]; cbn [length app Nat.add].
    + rewrite (Hlit eq_refl eq_refl). by destruct v.
    + replace (length stk1 + 1)%nat with (S (length stk1)) by lia. by destruct v.
  - replace (length stk + 1)%nat with (S (length stk)) by lia. by destruct v.
Qed.

Lemma litRun_app s a b :
  litRun s (a ++ b) = match litRun s a with Some s1 => litRun s1 b | None => None end.
Proof.
  revert s. induction a as [|c a IH]; intros s; [done|]. simpl.
  destruct (do_step s c) as [s1 []]; auto.
Qed.

Lemma litRun_stack s chunk s1 :
  litRun s chunk = Some s1 ->
  stack s1 = stack s /\ endTop s1 = endTop s /\ err s1 = err s.
Proof.
  revert s. induction chunk as [|c chunk IH]; intros s; simpl.
  - by intros [= <-].
  - destruct (do_step s c) as [s2 v] eqn:Hstep. destruct v; try done.
    intros H. apply IH in H as (-> & -> & ->). by apply do_step_Continue in Hstep.
Qed.

Lemma decode_run_lit d chunk s1 stk rest :
  litRun (decode.scan d) chunk = Some s1 ->
  stack (decode.scan d) = stk ++ payloadBase ->
  decode.run d (chunk ++ rest) =
    decode.run (decode.mk s1 (decode.kind d) (decode.literal d) (decode.members d)
                          (decode.key d) (decode.val d ++ chunk)) rest.
Proof.
  revert d. induction chunk as [|c chunk IH]; intros d; simpl.
  - intros [= <-] _. rewrite app_nil_r. by destruct d.
  - destruct (do_step (decode.scan d) c) as [s2 v] eqn:Hstep.
    destruct v; try done. intros Hrun Hstk.
    pose proof (do_step_Continue _ _ _ Hstep) as (Hs2 & _).
    rewrite (decode_step_val d c s2 scanContinue stk stk Hstep);
      [|done|done|congruence|done]. simpl.
    rewrite IH with (d := decode.mk s2 _ _ _ _ _); simpl; [|done|congruence].
    by rewrite <- app_assoc.
Qed.

Lemma appendCompact_from_err s skip P :
  err s = true -> json.appendCompact_from s skip P = None.
Proof.
  revert s skip. induction P as [|c P IH]; intros s skip He; simpl.
  - unfold eof. by rewrite He.
  - pose proof (do_step_err_mono s c He) as He1.
    destruct (do_step s c) as [s1 v]. simpl in He1.
    destruct v; try done; by rewrite (IH _ _ He1).
Qed.

Lemma maxDepth_from_ge s P : (length (stack s) <= json.maxDepth_from s P)%nat.
Proof. destruct P; simpl; lia. Qed.

Lemma maxDepth_from_cons s c P :
  (json.maxDepth_from (fst (do_step s c)) P <= json.maxDepth_from s (c :: P))%nat.
Proof. simpl. lia. Qed.

(** At the end of a text the scanner accepts, the scanner reading the
    compacted text inside the object is at the end of the value. *)
Lemma eof_sim s s' :
  Sim s s' -> eof s = true ->
  stack s' = payloadBase /\ valueEnded (step s') = true.
Proof.
  destruct s as [f e stk er], s' as [f' e' stk' er'].
  intros (He & He' & Het & Hstk & Hrel & Hi1 & Hi2). simpl in *. subst.
  unfold eof. simpl. destruct e.
  - rewrite (Hi1 eq_refl) in *. destruct (Hi2 eq_refl) as [-> _]. intros _.
    split; [done|].
    destruct Hrel as [(_ & ? & _)|[(_ & ->)|(_ & Hnum)]]; [done|done|].
    by destruct f'.
  - destruct Hrel as [(<- & Hne1 & Hne2)|[(-> & ->)|(Hf & Hnum)]].
    + destruct stk as [|[] [|[] stk]]; destruct f; try congruence;
        unfold_steps; unfold pushParseState, error; cbn; done.
    + by destruct (Hi2 eq_refl).
    + destruct Hf as [-> | ->]; [|by destruct (Hi2 eq_refl)].
      destruct stk as [|[] [|[] stk]]; destruct f'; try discriminate Hnum;
        unfold_steps; cbn; done.
Qed.

(** Inside a string, bytes that are neither the quote, the backslash nor
    control characters are passed over. *)
Lemma do_step_InString_plain s c :
  step s = stateInString ->
  Ascii.eqb c quote = false -> Ascii.eqb c backslash = false ->
  (byte_val c <? 0x20) = false ->
  do_step s c = (s, scanContinue).
Proof. intros Hs H1 H2 H3. unfold do_step. by rewrite Hs, H1, H2, H3. Qed.

(** The bytes [<], [>] and [&] are an error anywhere else. *)
Lemma do_step_html_InString s c s1 v :
  Ascii.eqb c "<" || Ascii.eqb c ">" || Ascii.eqb c "&" = true ->
  do_step s c = (s1, v) -> err s = false -> err s1 = false ->
  v <> scanError ->
  step s = stateInString.
Proof.
  intros Hc. destruct s as [f e stk er]. simpl. intros Hstep ->. revert Hstep.
  apply orb_true_iff in Hc as [Hc|Hc]; [apply orb_true_iff in Hc as [Hc|Hc]|];
    apply Ascii.eqb_eq in Hc; subst c;
    destruct f; try done; unfold_steps; unfold pushParseState, error; cbn;
    destruct stk as [|[] ?]; cbn; by intros [= <- <-].
Qed.

Lemma litRun_escape_html s c :
  step s = stateInString ->
  Ascii.eqb c "<" || Ascii.eqb c ">" || Ascii.eqb c "&" = true ->
  litRun s (json.escape_u00 c) = Some s.
Proof.
  destruct s as [f e stk er]. simpl. intros -> Hc.
  apply orb_true_iff in Hc as [Hc|Hc]; [apply orb_true_iff in Hc as [Hc|Hc]|];
    apply Ascii.eqb_eq in Hc; subst c; reflexivity.
Qed.

Lemma litRun_escape_u202 s x :
  step s = stateInString -> x = 0xA8 \/ x = 0xA9 \/ x = 0x2028 \/ x = 0x2029 ->
  litRun s (json.escape_u202 x) = Some s.
Proof.
  destruct s as [f e stk er]. simpl. intros -> [->|[->|[->| ->]]]; reflexivity.
Qed.

Lemma Sim_InString s s' : Sim s s' -> step s = stateInString -> step s' = stateInString.
Proof.
  intros (_ & _ & _ & _ & Hrel & _) Hs. rewrite Hs in Hrel.
  destruct Hrel as [(<- & _)|[(? & _)|([?|?] & _)]]; done.
Qed.

Lemma do_step_InString_html s c :
  step s = stateInString ->
  Ascii.eqb c "<" || Ascii.eqb c ">" || Ascii.eqb c "&" = true ->
  do_step s c = (s, scanContinue).
Proof.
  intros Hs Hc. apply do_step_InString_plain; [done|..];
    (apply orb_true_iff in Hc as [Hc|Hc]; [apply orb_true_iff in Hc as [Hc|Hc]|]);
    apply Ascii.eqb_eq in Hc; by subst c.
Qed.

(** The decoder on the compacted form of a text: inside the value of a
    member it takes every byte into the raw value and ends where the
    value ends. *)
Lemma compact_run P :
  forall s skip Q d,
    json.appendCompact_from s skip P = Some Q ->
    Sim s (decode.scan d) ->
    ((0 < skip)%nat -> step s = stateInString) ->
    Forall (fun c => 0x80 <= byte_val c /\ byte_val c <> 0xE2) (take skip P) ->
    N.of_nat (json.maxDepth_from s P) < maxNestingDepth ->
    exists s',
      stack s' = payloadBase /\ valueEnded (step s') = true
      /\ err s' = false /\ endTop s' = false
      /\ forall rest,
           decode.run d (Q ++ rest) =
           decode.run (decode.mk s' (decode.kind d) (decode.literal d)
                                 (decode.members d) (decode.key d)
                                 (decode.val d ++ Q)) rest.
Proof.
  induction P as [|c P IH]; intros s skip Q d Hc Hsim Hskip Hhigh Hdepth.
  - simpl in Hc. destruct (eof s) eqn:Heof; [|done]. injection Hc as <-.
    destruct (eof_sim _ _ Hsim Heof) as [Hstk Hend].
    exists (decode.scan d). destruct Hsim as (_ & He' & Het & _).
    repeat split; try done. intros rest. rewrite app_nil_r. by destruct d.
  - cbn [json.appendCompact_from] in Hc.
    destruct (do_step s c) as [s1 v] eqn:Hstep.
    assert (Hd1 : N.of_nat (json.maxDepth_from s1 P) < maxNestingDepth).
    { pose proof (maxDepth_from_cons s c P) as H. rewrite Hstep in H.
      cbn [fst] in H. lia. }
    assert (Hv : v <> scanError) by (intros ->; done).
    set (html := (Ascii.eqb c "<" || Ascii.eqb c ">" || Ascii.eqb c "&")%char) in *.
    set (lsep := match P with
                 | c1 :: c2 :: _ =>
                   (byte_val c =? 0xE2) && (byte_val c1 =? 0x80)
                   && (N.ldiff (byte_val c2) 1 =? 0xA8)
                 | _ => false
                 end) in *.
    set (out := if html then json.escape_u00 c
                else if lsep then json.escape_u202 (byte_val (nth 1 P c))
                else if (0 <? skip)%nat || ge_scanSkipSpace v then []
                else [c]) in *.
    assert (Hrec : exists Q', json.appendCompact_from s1 (if lsep then 2%nat else Nat.pred skip) P = Some Q'
                              /\ Q = out ++ Q').
    { destruct v; try done;
        (destruct (json.appendCompact_from s1 _ P) as [Q'|]; [|done]);
        injection Hc as <-; by exists Q'. }
    clear Hc. destruct Hrec as (Q' & Hrec & ->).
    assert (He1 : err s1 = false).
    { destruct (err s1) eqn:E; [|done]. by rewrite appendCompact_from_err in Hrec. }
    pose proof Hsim as (He & _).
    destruct skip as [|k].
    + (* no byte to pass over *)
      destruct html eqn:Hhtml.
      * (* <, > and & *)
        pose proof (do_step_html_InString _ _ _ _ Hhtml Hstep He He1 Hv) as Hs.
        assert (byte_val c < 0x80) as Hascii.
        { subst html. apply orb_true_iff in Hhtml as [H|H];
            [apply orb_true_iff in H as [H|H]|]; apply Ascii.eqb_eq in H; subst c; simpl; lia. }
        assert (lsep = false) as Hl.
        { subst lsep. destruct P as [|? [|? ?]]; try done.
          destruct (N.eqb_spec (byte_val c) 0xE2); [lia|done]. }
        rewrite Hl in Hrec. simpl in Hrec.
        rewrite (do_step_InString_html _ _ Hs Hhtml) in Hstep.
        injection Hstep as <- <-.
        pose proof (Sim_InString _ _ Hsim Hs) as Hs'.
        pose proof (litRun_escape_html _ _ Hs' Hhtml) as Hrun.
        pose proof Hsim as (_ & _ & _ & Hstk & _).
        destruct (IH s 0%nat Q'
                    (decode.mk (decode.scan d) (decode.kind d) (decode.literal d)
                               (decode.members d) (decode.key d)
                               (decode.val d ++ out)) Hrec Hsim
                    ltac:(intros; lia) ltac:(constructor) Hd1)
          as (s' & K1 & K2 & K3 & K4 & K5).
        exists s'. repeat split; try done. intros rest.
        rewrite <- app_assoc. subst out.
        rewrite (decode_run_lit d _ _ _ _ Hrun Hstk). rewrite K5. simpl.
        by rewrite <- app_assoc.
      * destruct lsep eqn:Hlsep.
        -- (* U+2028 and U+2029 *)
           subst lsep. destruct P as [|c1 [|c2 P']]; try done.
           apply andb_true_iff in Hlsep as [Hl1 Hl2].
           apply andb_true_iff in Hl1 as [Hl0 Hl1].
           apply N.eqb_eq in Hl0.
           assert (Hl12 : (byte_val c1 =? 0x80) && (N.ldiff (byte_val c2) 1 =? 0xA8) = true)
             by (by rewrite Hl1, Hl2).
           destruct (lsep_tail _ _ Hl12) as (Hh1 & Hh2 & Hn1 & Hn2 & _ & Hc2).
           assert (0x80 <= byte_val c) as Hhi by lia.
           pose proof (do_step_high_InString _ _ _ _ Hhi Hstep He He1 Hv) as Hs.
           rewrite (do_step_InString_high _ _ Hs Hhi) in Hstep.
           injection Hstep as <- <-.
           pose proof (Sim_InString _ _ Hsim Hs) as Hs'.
           assert (Hrun : litRun (decode.scan d) out = Some (decode.scan d)).
           { subst out. simpl. apply litRun_escape_u202; [done|]. tauto. }
           pose proof Hsim as (_ & _ & _ & Hstk & _).
           destruct (IH s 2%nat Q'
                       (decode.mk (decode.scan d) (decode.kind d) (decode.literal d)
                                  (decode.members d) (decode.key d)
                                  (decode.val d ++ out)) Hrec Hsim
                       ltac:(done) ltac:(repeat constructor; done) Hd1)
             as (s' & K1 & K2 & K3 & K4 & K5).
           exists s'. repeat split; try done. intros rest.
           rewrite <- app_assoc.
           rewrite (decode_run_lit d _ _ _ _ Hrun Hstk). rewrite K5. simpl.
           by rewrite <- app_assoc.
        -- simpl in Hrec. destruct (ge_scanSkipSpace v) eqn:Hge.
           ++ (* a space outside strings *)
              pose proof (sim_step_dropped _ _ _ _ _ Hsim Hstep Hge He1) as Hsim1.
              destruct (IH s1 0%nat Q' d Hrec Hsim1 ltac:(intros; lia)
                          ltac:(constructor) Hd1)
                as (s' & K1 & K2 & K3 & K4 & K5).
              exists s'. subst out. simpl. by repeat split.
           ++ (* a byte that stays *)
              assert (Hdk : N.of_nat (length (stack s1)) < maxNestingDepth).
              { pose proof (maxDepth_from_ge s1 P). lia. }
              destruct (sim_step_kept _ _ _ _ _ Hsim Hstep Hge He1 Hdk)
                as (s1' & Hstep' & Hsim1 & Hlit).
              pose proof Hsim as (_ & _ & _ & Hstk & _).
              pose proof Hsim1 as (_ & _ & _ & Hstk1 & _).
              assert (Hdec : decode.step d c =
                Some (decode.mk s1' (decode.kind d) (decode.literal d)
                                (decode.members d) (decode.key d) (decode.val d ++ [c]))).
              { eapply decode_step_val; eauto. }
              destruct (IH s1 0%nat Q'
                          (decode.mk s1' (decode.kind d) (decode.literal d)
                                     (decode.members d) (decode.key d)
                                     (decode.val d ++ [c])) Hrec Hsim1
                          ltac:(intros; lia) ltac:(constructor) Hd1)
                as (s' & K1 & K2 & K3 & K4 & K5).
              exists s'. repeat split; try done. intros rest.
              subst out. simpl. rewrite Hdec. simpl. rewrite K5. simpl.
              by rewrite <- app_assoc.
    + (* a byte of U+2028 or U+2029 already written *)
      simpl in Hhigh. apply Forall_cons in Hhigh as [[Hhi Hne] Hhigh].
      pose proof (Hskip ltac:(lia)) as Hs.
      rewrite (do_step_InString_high _ _ Hs Hhi) in Hstep. injection Hstep as <- <-.
      assert (html = false) as Hh.
      { subst html. repeat (apply orb_false_iff; split);
          (destruct (Ascii.eqb_spec c "<"%char) as [->|]; [simpl in Hhi; lia|]);
          (destruct (Ascii.eqb_spec c ">"%char) as [->|]; [simpl in Hhi; lia|]);
          (destruct (Ascii.eqb_spec c "&"%char) as [->|]; [simpl in Hhi; lia|]); done. }
      assert (lsep = false) as Hl.
      { subst lsep. destruct P as [|? [|? ?]]; try done.
        destruct (N.eqb_spec (byte_val c) 0xE2); [done|done]. }
      subst out. rewrite Hh, Hl in *. simpl in Hrec.
      destruct (IH s k Q' d Hrec Hsim ltac:(intros; done) Hhigh Hd1)
        as (s' & K1 & K2 & K3 & K4 & K5).
      exists s'. simpl. by repeat split.
Qed.

(** ** Quoted strings: what [appendString] writes, the scanner and
    [unquoteBytes] read back *)

(** A valid encoding is decoded from its own bytes, whatever follows. *)
Lemma DecodeRune_prefix c s r size X :
  utf8.DecodeRune (c :: s) = (r, size) ->
  (r, size) ≠ (utf8.RuneError, 1%nat) ->
  utf8.DecodeRune (take size (c :: s) ++ X) = (r, size).
Proof.
  unfold utf8.DecodeRune.
  destruct (utf8.first (byte_val c)) as [| |sz lo hi] eqn:Hfirst.
  - intros [= <- <-] _. cbn [take app]. by rewrite Hfirst.
  - by intros [= <- <-] [].
  - pose proof Hfirst as Hfirst'.
    apply first_Lead in Hfirst' as (Hlo & Hhi & Hcase).
    destruct s as [|c1 s]; [by intros [= <- <-] []|].
    destruct (_ <? sz)%nat eqn:Hlen; [by intros [= <- <-] []|].
    apply Nat.ltb_ge in Hlen.
    destruct (utf8.in_range lo hi (byte_val c1)) eqn:Hb1; [|by intros [= <- <-] []].
    cbn [negb].
    destruct Hcase as [(-> & _)|[(-> & _)|(-> & _)]]; cbn [Nat.leb].
    + intros [= <- <-] _. cbn [take app]. by rewrite Hfirst, Hb1.
    + destruct s as [|c2 s]; [by intros [= <- <-] []|].
      destruct (utf8.in_range _ _ (byte_val c2)) eqn:Hb2; [|by intros [= <- <-] []].
      cbn [negb]. intros [= <- <-] _. cbn [take app]. by rewrite Hfirst, Hb1, Hb2.
    + destruct s as [|c2 s]; [by intros [= <- <-] []|].
      destruct (utf8.in_range _ _ (byte_val c2)) eqn:Hb2; [|by intros [= <- <-] []].
      cbn [negb]. destruct s as [|c3 s]; [by intros [= <- <-] []|].
      destruct (utf8.in_range _ _ (byte_val c3)) eqn:Hb3; [|by intros [= <- <-] []].
      cbn [negb]. intros [= <- <-] _. cbn [take app]. by rewrite Hfirst, Hb1, Hb2, Hb3.
Qed.

Lemma litRun_high s chunk :
  step s = stateInString ->
  Forall (fun x => 0x80 <= byte_val x) chunk ->
  litRun s chunk = Some s.
Proof.
  intros Hs. induction 1 as [|c chunk Hc _ IH]; [done|]. simpl.
  by rewrite (do_step_InString_high _ _ Hs Hc).
Qed.

Lemma litRun_asciiChunk s b :
  step s = stateInString -> byte_val b < 0x80 ->
  litRun s (asciiChunk b) = Some s.
Proof.
  destruct s as [f e stk er]. simpl. intros -> Hb.
  destruct b as [[] [] [] [] [] [] [] []]; try (simpl in Hb; lia); reflexivity.
Qed.

Lemma unquote_asciiChunk b X :
  byte_val b < 0x80 ->
  json.unquote_from 0 (asciiChunk b ++ X) = cons b <$> json.unquote_from 0 X.
Proof.
  intros Hb.
  destruct b as [[] [] [] [] [] [] [] []]; try (simpl in Hb; lia); reflexivity.
Qed.

Lemma unquote_from_skip k l X :
  length l = k -> json.unquote_from k (l ++ X) = json.unquote_from 0 X.
Proof.
  revert k. induction l as [|c l IH]; intros k Hk; simpl in *; subst k; [done|].
  by apply IH.
Qed.

(** The rune of a decoding other than the error, as [appendString] tells
    them apart. *)
Lemma rune_error_test r size :
  (r =? utf8.RuneError) && (size =? 1)%nat = false ->
  (r, size) ≠ (utf8.RuneError, 1%nat).
Proof.
  intros H [= -> ->]. by rewrite N.eqb_refl in H.
Qed.

(** The scanner passes over what [appendString] writes between the
    quotes. *)
Lemma litRun_appendString s src :
  step s = stateInString ->
  forall skip, litRun s (json.appendString_from skip src) = Some s.
Proof.
  intros Hs. induction src as [|b rest IH]; intros skip; [done|].
  cbn [json.appendString_from]. destruct skip as [|k]; [|apply IH].
  destruct (N.ltb_spec (byte_val b) utf8.RuneSelf) as [Hb|Hb].
  - rewrite litRun_app. fold (asciiChunk b).
    rewrite litRun_asciiChunk; [apply IH|done|done].
  - destruct (utf8.DecodeRune (b :: rest)) as [r size] eqn:Hdec. cbv beta iota.
    destruct ((r =? utf8.RuneError) && (size =? 1)%nat) eqn:Herr.
    + rewrite litRun_app.
      assert (litRun s json.escape_ufffd = Some s) as ->; [|apply IH].
      destruct s as [f e stk er]. simpl in Hs. by subst f.
    + apply rune_error_test in Herr.
      destruct (DecodeRune_valid _ _ _ _ Hdec Herr) as (_ & _ & _ & Hhigh).
      destruct ((r =? 0x2028) || (r =? 0x2029)) eqn:Hls; rewrite litRun_app.
      * rewrite litRun_escape_u202; [apply IH|done|].
        apply orb_true_iff in Hls as [H|H]; apply N.eqb_eq in H; tauto.
      * rewrite litRun_high; [apply IH|done|]. apply Hhigh. unfold utf8.RuneSelf in Hb. lia.
Qed.

Lemma EncodeRune_ascii b : byte_val b < 0x80 -> utf8.EncodeRune (byte_val b) = [b].
Proof.
  intros Hb. unfold utf8.EncodeRune, utf8.byte_of.
  destruct (N.leb_spec (byte_val b) 0x7F); [|lia].
  change 0xFF with (N.ones 8). rewrite N.land_ones, N.mod_small by (simpl; lia).
  by rewrite ascii_N_embedding.
Qed.

(** [unquoteBytes] gives back the string coerced to valid UTF-8. *)
Lemma unquote_appendString src :
  forall skip,
    json.unquote_from 0 (json.appendString_from skip src)
    = Some (concat (map (fun rs => utf8.EncodeRune (fst rs)) (runes_from skip src))).
Proof.
  induction src as [|b rest IH]; intros skip; [done|].
  cbn [json.appendString_from runes_from]. destruct skip as [|k]; [|apply IH].
  cbn [map concat fst snd].
  destruct (N.ltb_spec (byte_val b) utf8.RuneSelf) as [Hb|Hb].
  - fold (asciiChunk b). rewrite unquote_asciiChunk by done. rewrite IH.
    assert (utf8.DecodeRune (b :: rest) = (byte_val b, 1%nat)) as ->.
    { unfold utf8.DecodeRune, utf8.first. unfold utf8.RuneSelf in Hb.
      by destruct (N.ltb_spec (byte_val b) 0x80); [|lia]. }
    cbn [fst snd Nat.pred]. by rewrite EncodeRune_ascii.
  - destruct (utf8.DecodeRune (b :: rest)) as [r size] eqn:Hdec.
    cbn [fst snd]. cbv beta iota.
    destruct ((r =? utf8.RuneError) && (size =? 1)%nat) eqn:Herr.
    + apply andb_true_iff in Herr as [Hr Hsz].
      apply N.eqb_eq in Hr. apply Nat.eqb_eq in Hsz. subst r size.
      cbn [Nat.pred]. change (json.escape_ufffd ++ json.appendString_from 0 rest)
        with (backslash :: "u" :: "f" :: "f" :: "f" :: "d" :: json.appendString_from 0 rest)%char.
      cbn. rewrite IH. reflexivity.
    + apply rune_error_test in Herr.
      destruct (DecodeRune_valid _ _ _ _ Hdec Herr) as (Henc & Hpos & Hlen & _).
      destruct ((r =? 0x2028) || (r =? 0x2029)) eqn:Hls.
      * apply orb_true_iff in Hls as [H|H]; apply N.eqb_eq in H; subst r;
          cbn; rewrite IH; reflexivity.
      * destruct size as [|size']; [lia|]. cbn [take app Nat.pred] in *.
        cbn [json.unquote_from].
        assert (Ascii.eqb b backslash = false) as ->.
        { destruct (Ascii.eqb_spec b backslash) as [->|]; [|done].
          unfold utf8.RuneSelf in Hb. simpl in Hb. lia. }
        assert (Ascii.eqb b quote = false) as ->.
        { destruct (Ascii.eqb_spec b quote) as [->|]; [|done].
          unfold utf8.RuneSelf in Hb. simpl in Hb. lia. }
        assert ((byte_val b <? 0x20) = false) as ->.
        { apply N.ltb_ge. unfold utf8.RuneSelf in Hb. lia. }
        assert ((byte_val b <? utf8.RuneSelf) = false) as -> by (by apply N.ltb_ge).
        cbn [orb].
        pose proof (DecodeRune_prefix _ _ _ _ (json.appendString_from size' rest) Hdec Herr) as Hp.
        cbn [take app] in Hp. rewrite Hp. cbn [Nat.pred].
        rewrite unquote_from_skip by (simpl in Hlen; lia).
        rewrite IH. reflexivity.
Qed.

(** ** Timestamps *)

Lemma isDigit_htmlSafe c : isDigit c = true -> json.htmlSafeSet c = true.
Proof. by destruct c as [[] [] [] [] [] [] [] []]. Qed.

Lemma digit_inv c x :
  time.digit c = Some x ->
  x < 10 /\ c = ascii_of_N (byte_val "0" + x) /\ isDigit c = true.
Proof.
  unfold time.digit.
  destruct c as [[] [] [] [] [] [] [] []]; cbn; intros [= <-]; by repeat split.
Qed.

Lemma num2_inv a b n :
  time.num2 a b = Some n ->
  n < 100 /\ time.appendInt2 n = [a; b]
  /\ time.getnum [a; b] true = Some (n, [])
  /\ isDigit a = true /\ isDigit b = true.
Proof.
  unfold time.num2, time.getnum.
  destruct (time.digit a) as [x|] eqn:Ha; [|done].
  destruct (time.digit b) as [y|] eqn:Hb; [|done].
  cbn. intros [= <-].
  apply digit_inv in Ha as (Hx & -> & Hda). apply digit_inv in Hb as (Hy & -> & Hdb).
  unfold time.appendInt2.
  replace ((x * 10 + y) / 10) with x by lia.
  replace ((x * 10 + y) mod 10) with y by lia.
  repeat split; [lia|done|done].
Qed.

Lemma getnum_two a b rest n fixed :
  time.num2 a b = Some n -> time.getnum (a :: b :: rest) fixed = Some (n, rest).
Proof.
  unfold time.num2, time.getnum.
  destruct (time.digit a) as [x|]; [|done].
  destruct (time.digit b) as [y|]; [|done]. cbn. by intros [= <-].
Qed.

Lemma digits_spec s ds z :
  time.digits s = (ds, z) ->
  s = ds ++ z /\ forallb isDigit ds = true.
Proof.
  revert ds z. induction s as [|c s IH]; intros ds z; cbn.
  - by intros [= <- <-].
  - destruct (isDigit c) eqn:Hc; [|by intros [= <- <-]].
    destruct (time.digits s) as [ds' z'].
    intros [= <- <-]. destruct (IH _ _ eq_refl) as [-> Hds].
    cbn. by rewrite Hc, Hds.
Qed.

Lemma trimZeros_zeros k : time.trimZeros (replicate k "0"%char) = [].
Proof. induction k as [|k IH]; [done|]. cbn. by rewrite IH. Qed.

Lemma trimZeros_app_zeros ds k :
  time.trimZeros ds <> [] ->
  time.trimZeros (ds ++ replicate k "0"%char) = time.trimZeros ds.
Proof.
  induction ds as [|c ds IH]; [done|]. cbn.
  destruct (time.trimZeros ds) as [|t ts] eqn:Ht.
  - destruct ds as [|d ds].
    + cbn. rewrite trimZeros_zeros. done.
    + intros Hc. assert (time.trimZeros ((d :: ds) ++ replicate k "0"%char) = []) as ->.
      { clear IH Hc. revert d Ht. induction ds as [|e ds IH]; intros d.
        - cbn. destruct (Ascii.eqb d "0"); [|done]. by rewrite trimZeros_zeros.
        - cbn [time.trimZeros app]. cbn [time.trimZeros app] in IH.
          destruct (time.trimZeros ds) eqn:E.
          + destruct (Ascii.eqb e "0") eqn:He; [|by destruct (Ascii.eqb d "0")].
            specialize (IH e). rewrite He in IH. rewrite (IH eq_refl).
            by destruct (Ascii.eqb d "0").
          + done. }
      done.
  - intros _. rewrite IH by done. done.
Qed.

Lemma trimZeros_last ds :
  Ascii.eqb (List.last ds "0"%char) "0" = false -> time.trimZeros ds = ds.
Proof.
  induction ds as [|c ds IH]; [done|].
  destruct ds as [|d ds].
  - cbn. by intros ->.
  - intros H. specialize (IH H).
    change (time.trimZeros (c :: d :: ds))
      with (match time.trimZeros (d :: ds) with
            | [] => if Ascii.eqb c "0" then [] else [c]
            | t => c :: t
            end).
    by rewrite IH.
Qed.

Lemma parseNanoseconds_canonical ds :
  (length ds <= 9)%nat ->
  Ascii.eqb (List.last ds "0"%char) "0" = false ->
  time.appendNano (time.parseNanoseconds ds) = "."%char :: ds.
Proof.
  intros Hlen Hlast. unfold time.parseNanoseconds, time.appendNano.
  assert (take 9 (ds ++ replicate 9 "0"%char)
          = ds ++ replicate (9 - length ds) "0"%char) as ->.
  { rewrite take_app. rewrite (take_ge ds) by lia. by rewrite take_replicate, Nat.min_l by lia. }
  pose proof (trimZeros_last _ Hlast) as Ht.
  assert (ds <> []) by (by intros ->).
  rewrite trimZeros_app_zeros by congruence. rewrite Ht. by destruct ds.
Qed.

Lemma parseNanoseconds_nil : time.appendNano (time.parseNanoseconds []) = [].
Proof. reflexivity. Qed.

Lemma zone_inv z :
  time.zone z = true ->
  forallb json.htmlSafeSet z = true
  /\ (exists c, head z = Some c /\ isDigit c = false /\ Ascii.eqb c "." = false
                /\ time.commaOrPeriod c = false)
  /\ exists neg minutes,
      time.parseZone z = Some (neg, minutes)
      /\ time.appendZone neg minutes = z.
Proof.
  unfold time.zone.
  destruct z as [|c [|h1 [|h2 [|colon [|m1 [|m2 [|? ?]]]]]]]; try done.
  - intros ->%Ascii.eqb_eq. split; [done|]. split; [by exists "Z"%char|].
    by exists false, 0.
  - intros H. apply andb_true_iff in H as [H H3]. apply andb_true_iff in H as [H1 H2].
    apply Ascii.eqb_eq in H2 as ->.
    destruct (time.num2 h1 h2) as [h|] eqn:Hh; [|done].
    destruct (time.num2 m1 m2) as [m|] eqn:Hm; [|done].
    apply andb_true_iff in H3 as [H3 Hnz]. apply andb_true_iff in H3 as [Hh24 Hm60].
    apply N.ltb_lt in Hh24, Hm60. apply negb_true_iff, N.eqb_neq in Hnz.
    destruct (num2_inv _ _ _ Hh) as (_ & Hph & _ & Hh1 & Hh2).
    destruct (num2_inv _ _ _ Hm) as (_ & Hpm & _ & Hm1 & Hm2).
    split.
    { cbn [forallb]. rewrite (isDigit_htmlSafe _ Hh1), (isDigit_htmlSafe _ Hh2),
        (isDigit_htmlSafe _ Hm1), (isDigit_htmlSafe _ Hm2).
      apply orb_true_iff in H1 as [->%Ascii.eqb_eq| ->%Ascii.eqb_eq]; done. }
    split.
    { exists c. apply orb_true_iff in H1 as [->%Ascii.eqb_eq| ->%Ascii.eqb_eq]; done. }
    assert (time.appendZone false (h * 60 + m) = "+"%char :: [h1; h2] ++ ":"%char :: [m1; m2]
            /\ time.appendZone true (h * 60 + m) = "-"%char :: [h1; h2] ++ ":"%char :: [m1; m2])
      as [Hplus Hminus].
    { unfold time.appendZone. destruct (N.eqb_spec (h * 60 + m) 0) as [|_]; [done|].
      replace ((h * 60 + m) / 60) with h by lia.
      replace ((h * 60 + m) mod 60) with m by lia.
      by rewrite Hph, Hpm. }
    unfold time.parseZone.
    apply orb_true_iff in H1 as [->%Ascii.eqb_eq| ->%Ascii.eqb_eq]; cbn;
      rewrite Hh, Hm; cbn;
      (destruct (N.leb_spec h 24); [|lia]); (destruct (N.leb_spec m 60); [|lia]); cbn.
    + by exists false, (h * 60 + m).
    + by exists true, (h * 60 + m).
Qed.

Lemma fraction_inv z :
  time.fraction z = true ->
  forallb json.htmlSafeSet z = true
  /\ exists nsec z' neg minutes,
      time.parseFraction ("."%char :: z) = (nsec, z')
      /\ time.parseZone z' = Some (neg, minutes)
      /\ time.appendNano nsec ++ time.appendZone neg minutes = "."%char :: z.
Proof.
  unfold time.fraction. destruct (time.digits z) as [ds z'] eqn:Hd.
  intros H. apply andb_true_iff in H as [H Hz]. apply andb_true_iff in H as [Hlen Hlast].
  apply Nat.leb_le in Hlen. apply negb_true_iff in Hlast.
  destruct (digits_spec _ _ _ Hd) as [-> Hds].
  destruct (zone_inv _ Hz) as (Hsafe & _ & neg & minutes & Hpz & Haz).
  split.
  { rewrite forallb_app, Hsafe, andb_true_r.
    clear -Hds. induction ds as [|c ds IH]; [done|]. cbn in *.
    apply andb_true_iff in Hds as [Hc Hds]. by rewrite isDigit_htmlSafe, IH. }
  exists (time.parseNanoseconds ds), z', neg, minutes.
  split; [|split; [done|]].
  - unfold time.parseFraction. destruct ds as [|d ds]; [done|].
    cbn [app]. cbn in Hds. apply andb_true_iff in Hds as [Hdd _].
    change ((d :: ds) ++ z') with (d :: ds ++ z') in Hd.
    cbn [time.commaOrPeriod Ascii.eqb]. rewrite Hdd.
    change (time.commaOrPeriod "." && true) with true. cbn match.
    by rewrite Hd.
  - rewrite parseNanoseconds_canonical by done. by rewrite Haz.
Qed.

Lemma zone_parseFraction z :
  time.zone z = true ->
  time.parseFraction z = (time.parseNanoseconds [], z).
Proof.
  intros Hz. destruct (zone_inv _ Hz) as (_ & (c & Hc & _ & _ & Hcp) & _).
  unfold time.parseFraction. destruct z as [|c' [|d z]]; try done.
  cbn in Hc. injection Hc as ->. by rewrite Hcp.
Qed.

Lemma Parse_wellformed t :
  time.wellformed t = true ->
  time.Parse t = Some (string_of_list_ascii t)
  /\ forallb json.htmlSafeSet t = true.
Proof.
  unfold time.wellformed.
  do 19 (destruct t as [|? t]; [done|]).
  intros H. repeat (apply andb_true_iff in H as [H ?]).
  repeat match goal with
         | H : Ascii.eqb _ _ = true |- _ => apply Ascii.eqb_eq in H; subst
         end.
  repeat match goal with
         | H : context [time.num2 ?a ?b] |- _ =>
           let E := fresh "E" in
           destruct (time.num2 a b) eqn:E; [|done]; revert E
         end.
  intros.
  match goal with
  | H : match t with [] => false | _ => _ end = true |- _ => rename H into Ht
  end.
  repeat match goal with
         | H : _ && _ = true |- _ => apply andb_true_iff in H as [H ?]
         end.
  assert (exists nsec z' neg minutes,
      time.parseFraction t = (nsec, z')
      /\ time.parseZone z' = Some (neg, minutes)
      /\ time.appendNano nsec ++ time.appendZone neg minutes = t
      /\ forallb json.htmlSafeSet t = true)
    as (nsec & z' & neg & minutes & Hpf & Hpz & Hprint & Hsafe).
  { destruct t as [|c z]; [done|].
    destruct (Ascii.eqb_spec c ".") as [->|Hc].
    - destruct (fraction_inv _ Ht) as (Hs & nsec & z' & neg & minutes & ? & ? & ?).
      exists nsec, z', neg, minutes. repeat split; try done.
    - destruct (zone_inv _ Ht) as (Hs & _ & neg & minutes & ? & ?).
      exists (time.parseNanoseconds []), (c :: z), neg, minutes.
      repeat split; try done. by apply zone_parseFraction. }
  split.
  - unfold time.Parse.
    repeat match goal with
           | E : time.num2 _ _ = Some _ |- _ =>
             destruct (num2_inv _ _ _ E) as (_ & ? & _); revert E
           end.
    intros.
    repeat (cbn -[time.getnum time.parseFraction time.parseZone
                  time.appendInt2 time.appendNano time.appendZone
                  time.daysIn N.leb N.ltb];
            match goal with
            | E : time.num2 ?a ?b = Some _ |- context [time.num2 ?a ?b] =>
              rewrite E
            | E : time.num2 ?a ?b = Some _
              |- context [time.getnum (?a :: ?b :: _) _] =>
              rewrite (getnum_two _ _ _ _ _ E)
            | H : ?c = true |- context [?c] => rewrite H
            | |- context [time.parseFraction t] => rewrite Hpf
            | |- context [time.parseZone z'] => rewrite Hpz
            end).
    repeat match goal with
           | H : time.appendInt2 _ = _ |- _ => rewrite H; clear H
           end.
    cbn [mbind option_bind]. rewrite Hprint. reflexivity.
  - repeat match goal with
           | E : time.num2 _ _ = Some _ |- _ =>
             destruct (num2_inv _ _ _ E) as (_ & _ & _ & ? & ?); clear E
           end.
    cbn [forallb].
    repeat match goal with
           | H : isDigit _ = true |- _ => rewrite (isDigit_htmlSafe _ H); clear H
           end.
    by rewrite Hsafe.
Qed.

Lemma appendCompact_from_safe c rest :
  json.htmlSafeSet c = true ->
  json.appendCompact_from inString 0 (c :: rest)
  = option_map (cons c) (json.appendCompact_from inString 0 rest).
Proof.
  intros Hc. destruct rest as [|c1 [|c2 rest]];
    destruct c as [[] [] [] [] [] [] [] []]; try discriminate Hc; reflexivity.
Qed.

Lemma appendCompact_from_safe_text t :
  forallb json.htmlSafeSet t = true ->
  json.appendCompact_from inString 0 (t ++ [quote]) = Some (t ++ [quote]).
Proof.
  induction t as [|c t IH]; [done|]. cbn [forallb app].
  intros [Hc Ht]%andb_true_iff. rewrite appendCompact_from_safe by done.
  by rewrite IH.
Qed.

(** Compacting a quoted text of plain bytes leaves it as it is. *)
Lemma appendCompact_quoted t :
  forallb json.htmlSafeSet t = true ->
  json.appendCompact (quote :: t ++ [quote]) = Some (quote :: t ++ [quote]).
Proof.
  intros Ht. unfold json.appendCompact.
  assert (json.appendCompact_from newScanner 0 (quote :: t ++ [quote])
          = option_map (cons quote) (json.appendCompact_from inString 0 (t ++ [quote]))) as ->.
  { destruct t as [|c1 [|c2 t]]; reflexivity. }
  by rewrite appendCompact_from_safe_text.
Qed.

Lemma litRun_safe s t :
  step s = stateInString -> forallb json.htmlSafeSet t = true -> litRun s t = Some s.
Proof.
  intros Hs. induction t as [|c t IH]; [done|]. cbn [forallb].
  intros [Hc Ht]%andb_true_iff. simpl.
  rewrite do_step_InString_plain; [by apply IH|done|..];
    by destruct c as [[] [] [] [] [] [] [] []].
Qed.

Lemma last_snoc (l : bytes) x d : List.last (l ++ [x]) d = x.
Proof. induction l as [|a [|b l] IH]; try done. Qed.

Lemma removelast_snoc (l : bytes) x : removelast (l ++ [x]) = l.
Proof. apply removelast_last. Qed.

(** The parser of the layout accepts what RFC 3339 does not, a comma
    before the fraction, an hour of one digit, an offset of 24 hours, and
    the value read is printed in the one way [Format] has; a line with
    such a timestamp is read as the message of that value. *)
Lemma Parse_lenient :
  time.Parse (list_ascii_of_string "2025-01-02T03:04:05,50Z")
  = Some "2025-01-02T03:04:05.5Z"%string
  /\ time.Parse (list_ascii_of_string "2025-01-02T3:04:05-00:00")
     = Some "2025-01-02T03:04:05Z"%string
  /\ time.Parse (list_ascii_of_string "2025-01-02T03:04:05+24:00")
     = Some "2025-01-02T03:04:05+24:00"%string
  /\ time.Parse (list_ascii_of_string "2025-02-29T03:04:05Z") = None
  /\ json_Unmarshal
       (list_ascii_of_string "{" ++ quote :: list_ascii_of_string "timestamp"
        ++ quote :: list_ascii_of_string ":"
        ++ quote :: list_ascii_of_string "2025-01-02T03:04:05,50Z"
        ++ quote :: list_ascii_of_string "}")
       zeroMessage
     = Some (mkMessage EmptyString EmptyString EmptyString
                       "2025-01-02T03:04:05.5Z" None).
Proof. repeat split; vm_compute; reflexivity. Qed.

(** [Time.UnmarshalJSON] reads back what [Time.MarshalJSON] wrote. *)
Lemma time_UnmarshalJSON_MarshalJSON old t data :
  time.MarshalJSON t = Some data ->
  time.UnmarshalJSON old data = Some t
  /\ json.appendCompact data = Some data
  /\ exists body, data = quote :: body ++ [quote]
                  /\ forallb json.htmlSafeSet body = true.
Proof.
  unfold time.MarshalJSON.
  destruct (time.wellformed (list_ascii_of_string t)) eqn:Hwf; [|done].
  intros [= <-]. destruct (Parse_wellformed _ Hwf) as [Hparse Hsafe].
  split; [|split; [by apply appendCompact_quoted|eauto]].
  unfold time.UnmarshalJSON.
  destruct (decide _) as [Heq|_]; [done|].
  destruct (list_ascii_of_string t ++ [quote]) as [|c l] eqn:Hl.
  { by destruct (list_ascii_of_string t). }
  rewrite <- Hl. rewrite last_snoc, removelast_snoc, Hparse.
  rewrite Ascii.eqb_refl. simpl. by rewrite string_of_list_ascii_of_string.
Qed.

(** ** [json.Unmarshal] on what [json.Marshal] wrote *)

Lemma run_open rest :
  decode.run decode.init ("{"%char :: rest) = decode.run (atKey true []) rest.
Proof. reflexivity. Qed.

Lemma run_fieldKey_sessionId ms rest :
  decode.run (atKey true ms) (fieldKey "sessionId" ++ rest)
  = decode.run (atValue ms (rawKey "sessionId") []) rest.
Proof. reflexivity. Qed.

Lemma run_fieldKey_toolset ms rest :
  decode.run (atKey false ms) (fieldKey "toolset" ++ rest)
  = decode.run (atValue ms (rawKey "toolset") []) rest.
Proof. reflexivity. Qed.

Lemma run_fieldKey_direction ms rest :
  decode.run (atKey false ms) (fieldKey "direction" ++ rest)
  = decode.run (atValue ms (rawKey "direction") []) rest.
Proof. reflexivity. Qed.

Lemma run_fieldKey_timestamp ms rest :
  decode.run (atKey false ms) (fieldKey "timestamp" ++ rest)
  = decode.run (atValue ms (rawKey "timestamp") []) rest.
Proof. reflexivity. Qed.

Lemma run_fieldKey_payload ms rest :
  decode.run (atKey false ms) (fieldKey "payload" ++ rest)
  = decode.run (atValue ms (rawKey "payload") []) rest.
Proof. reflexivity. Qed.

Lemma run_comma ms ky vl rest :
  decode.run (afterValue ms ky vl) (","%char :: rest)
  = decode.run (atKey false (ms ++ [(ky, vl)])) rest.
Proof. reflexivity. Qed.

(** A quoted text the scanner passes over, as the value of a member. *)
Lemma run_quoted ms ky body rest :
  litRun (scanner.mk stateInString false [parseObjectValue] false) body
  = Some (scanner.mk stateInString false [parseObjectValue] false) ->
  decode.run (atValue ms ky []) (quote :: (body ++ [quote]) ++ rest)
  = decode.run (afterValue ms ky (quote :: body ++ [quote])) rest.
Proof.
  intros Hrun.
  change (decode.run (atValue ms ky []) (quote :: (body ++ [quote]) ++ rest))
    with (decode.run (decode.mk (scanner.mk stateInString false [parseObjectValue] false)
                                decode.TopObject [] ms ky [quote])
                     ((body ++ [quote]) ++ rest)).
  rewrite <- app_assoc.
  rewrite (decode_run_lit
             (decode.mk (scanner.mk stateInString false [parseObjectValue] false)
                        decode.TopObject [] ms ky [quote])
             body _ [] _ Hrun eq_refl). reflexivity.
Qed.

Lemma run_string ms ky s rest :
  decode.run (atValue ms ky []) (json.appendString s ++ rest)
  = decode.run (afterValue ms ky (json.appendString s)) rest.
Proof.
  unfold json.appendString. cbn [app]. apply run_quoted.
  by apply litRun_appendString.
Qed.

(** The end of the object after the value of its last member. *)
Lemma run_close s' ms ky vl :
  stack s' = payloadBase -> valueEnded (step s') = true ->
  err s' = false -> endTop s' = false ->
  decode.run (decode.mk s' decode.TopObject [] ms ky vl) ["}"%char]
  = Some (decode.mk (scanner.mk stateEndTop true [] false)
                    decode.TopObject [] (ms ++ [(ky, vl)]) [] []).
Proof.
  destruct s' as [f e stk er]. simpl. intros -> Hf -> ->.
  destruct f; try discriminate Hf; reflexivity.
Qed.

Lemma Sim_start ms ky :
  Sim newScanner (decode.scan (atValue ms ky [])).
Proof.
  unfold Sim, stepRel. simpl. repeat split; try done. left. by repeat split.
Qed.

(** The payload, compacted, as the value of the last member. *)
Lemma run_payload ms ky P pl :
  json.appendCompact P = Some pl ->
  N.of_nat (json.nesting P) < maxNestingDepth ->
  decode.run (atValue ms ky []) (pl ++ ["}"%char])
  = Some (decode.mk (scanner.mk stateEndTop true [] false)
                    decode.TopObject [] (ms ++ [(ky, pl)]) [] []).
Proof.
  intros Hc Hd.
  destruct (compact_run P newScanner 0%nat pl (atValue ms ky []) Hc (Sim_start ms ky)
              ltac:(intros; lia) ltac:(constructor) Hd)
    as (s' & Hstk & Hend & Herr & Het & Hrun).
  rewrite Hrun. simpl. by apply run_close.
Qed.

Lemma unquoteBytes_quoted body :
  json.unquoteBytes (quote :: body ++ [quote]) = json.unquote_from 0 body.
Proof.
  unfold json.unquoteBytes.
  destruct (body ++ [quote]) as [|c l] eqn:Hl; [by destruct body|].
  rewrite <- Hl. by rewrite last_snoc, removelast_snoc, Ascii.eqb_refl.
Qed.

Lemma storeString_appendString old s :
  decode.storeString old (json.appendString s) = Some (toValidUTF8 s).
Proof.
  unfold decode.storeString, json.appendString. rewrite Ascii.eqb_refl.
  rewrite unquoteBytes_quoted, unquote_appendString. reflexivity.
Qed.

Lemma storeMember_sessionId m s :
  decode.storeMember m (rawKey "sessionId", json.appendString s)
  = Some (mkMessage (toValidUTF8 s) (Toolset m) (Direction m) (Timestamp m) (Payload m)).
Proof.
  unfold decode.storeMember.
  change (json.unquoteBytes (rawKey "sessionId"))
    with (Some (list_ascii_of_string "sessionId")).
  cbn [mbind option_bind].
  change (decode.lookupField (list_ascii_of_string "sessionId"))
    with (Some decode.FSessionID).
  cbv beta iota.
  rewrite storeString_appendString. reflexivity.
Qed.

Lemma storeMember_toolset m s :
  decode.storeMember m (rawKey "toolset", json.appendString s)
  = Some (mkMessage (SessionID m) (toValidUTF8 s) (Direction m) (Timestamp m) (Payload m)).
Proof.
  unfold decode.storeMember.
  change (json.unquoteBytes (rawKey "toolset"))
    with (Some (list_ascii_of_string "toolset")).
  cbn [mbind option_bind].
  change (decode.lookupField (list_ascii_of_string "toolset"))
    with (Some decode.FToolset).
  cbv beta iota.
  rewrite storeString_appendString. reflexivity.
Qed.

Lemma storeMember_direction m s :
  decode.storeMember m (rawKey "direction", json.appendString s)
  = Some (mkMessage (SessionID m) (Toolset m) (toValidUTF8 s) (Timestamp m) (Payload m)).
Proof.
  unfold decode.storeMember.
  change (json.unquoteBytes (rawKey "direction"))
    with (Some (list_ascii_of_string "direction")).
  cbn [mbind option_bind].
  change (decode.lookupField (list_ascii_of_string "direction"))
    with (Some decode.FDirection).
  cbv beta iota.
  rewrite storeString_appendString. reflexivity.
Qed.

Lemma storeMember_timestamp m raw :
  decode.storeMember m (rawKey "timestamp", raw)
  = ts ← time.UnmarshalJSON (Timestamp m) raw;
    Some (mkMessage (SessionID m) (Toolset m) (Direction m) ts (Payload m)).
Proof.
  unfold decode.storeMember.
  change (json.unquoteBytes (rawKey "timestamp"))
    with (Some (list_ascii_of_string "timestamp")).
  cbn [mbind option_bind].
  by change (decode.lookupField (list_ascii_of_string "timestamp"))
    with (Some decode.FTimestamp).
Qed.

Lemma storeMember_payload m raw :
  decode.storeMember m (rawKey "payload", raw)
  = Some (mkMessage (SessionID m) (Toolset m) (Direction m) (Timestamp m) (Some raw)).
Proof.
  unfold decode.storeMember.
  change (json.unquoteBytes (rawKey "payload"))
    with (Some (list_ascii_of_string "payload")).
  cbn [mbind option_bind].
  by change (decode.lookupField (list_ascii_of_string "payload"))
    with (Some decode.FPayload).
Qed.

Lemma comma_block (a b r : bytes) :
  (","%char :: a ++ b) ++ r = ","%char :: a ++ b ++ r.
Proof. simpl. by rewrite <- app_assoc. Qed.

Lemma toValidUTF8_empty : toValidUTF8 EmptyString = EmptyString.
Proof. reflexivity. Qed.

Local Opaque fieldKey json.appendString.

(** C3, C4, C10 rest on this: a line [json.Marshal] wrote for a message
    whose payload nests less deep than the limit is decoded, and the
    decoded message has the strings coerced to valid UTF-8, the same
    timestamp, and the compacted payload. *)
Lemma json_Unmarshal_Marshal m data :
  json_Marshal m = Some data ->
  json.fitsAtDepth 1 (json.RawMessage_MarshalJSON (Payload m)) = true ->
  exists pl,
    json.appendCompact (json.RawMessage_MarshalJSON (Payload m)) = Some pl
    /\ json_Unmarshal data zeroMessage
       = Some (mkMessage (toValidUTF8 (SessionID m)) (toValidUTF8 (Toolset m))
                         (toValidUTF8 (Direction m)) (Timestamp m) (Some pl)).
Proof.
  unfold json_Marshal, json.fitsAtDepth. intros Hm Hfit.
  apply N.leb_le in Hfit.
  destruct (time.MarshalJSON (Timestamp m)) as [ts|] eqn:Hts; [|done].
  destruct (time_UnmarshalJSON_MarshalJSON time.zero _ _ Hts)
    as (Hparse & Hcts & body & -> & Hsafe).
  cbn [mbind option_bind] in Hm. rewrite Hcts in Hm. cbn [mbind option_bind] in Hm.
  destruct (json.appendCompact (json.RawMessage_MarshalJSON (Payload m)))
    as [pl|] eqn:Hpl; [|done].
  cbn [mbind option_bind] in Hm. injection Hm as <-.
  exists pl. split; [done|].
  assert (Hd : N.of_nat (json.nesting (json.RawMessage_MarshalJSON (Payload m)))
               < maxNestingDepth) by lia.
  unfold json_Unmarshal.
  rewrite run_open, run_fieldKey_sessionId, run_string.
  destruct (decide (Toolset m = EmptyString)) as [Ht|Ht].
  - rewrite app_nil_l. rewrite run_comma, run_fieldKey_direction, run_string.
    rewrite run_comma, run_fieldKey_timestamp.
    rewrite run_quoted by (by apply litRun_safe).
    rewrite run_comma, run_fieldKey_payload.
    rewrite (run_payload _ _ _ _ Hpl Hd).
    cbn [mbind option_bind decode.kind decode.members app decode.storeMembers].
    rewrite storeMember_sessionId. cbn [mbind option_bind].
    rewrite storeMember_direction. cbn [mbind option_bind].
    rewrite storeMember_timestamp. cbn [Timestamp zeroMessage].
    rewrite Hparse. cbn [mbind option_bind].
    rewrite storeMember_payload. cbn. by rewrite Ht.
  - rewrite comma_block.
    rewrite run_comma, run_fieldKey_toolset, run_string.
    rewrite run_comma, run_fieldKey_direction, run_string.
    rewrite run_comma, run_fieldKey_timestamp.
    rewrite run_quoted by (by apply litRun_safe).
    rewrite run_comma, run_fieldKey_payload.
    rewrite (run_payload _ _ _ _ Hpl Hd).
    cbn [mbind option_bind decode.kind decode.members app decode.storeMembers].
    rewrite storeMember_sessionId. cbn [mbind option_bind].
    rewrite storeMember_toolset. cbn [mbind option_bind].
    rewrite storeMember_direction. cbn [mbind option_bind].
    rewrite storeMember_timestamp. cbn [Timestamp zeroMessage].
    rewrite Hparse. cbn [mbind option_bind].
    rewrite storeMember_payload. reflexivity.
Qed.

Local Transparent fieldKey json.appendString.

(** ** The line [RecordMessage] writes *)

(** The scanner never takes a line feed as part of a value. *)
Lemma do_step_newline s : ge_scanSkipSpace (snd (do_step s newline)) = true.
Proof.
  destruct s as [f e stk er].
  destruct f; unfold_steps; unfold pushParseState, error; cbn;
    destruct stk as [|[] [|? ?]]; reflexivity.
Qed.

Lemma litRun_no_newline s chunk s' : litRun s chunk = Some s' -> newline ∉ chunk.
Proof.
  revert s. induction chunk as [|c chunk IH]; intros s; [by intros _ ?%elem_of_nil|].
  simpl. destruct (do_step s c) as [s1 v] eqn:Hstep. destruct v; try done.
  intros H%IH. apply not_elem_of_cons. split; [|done].
  intros <-. pose proof (do_step_newline s) as Hn. by rewrite Hstep in Hn.
Qed.

Lemma hex_no_newline n : json.hex n <> newline.
Proof.
  unfold json.hex.
  destruct (nth_in_or_default (N.to_nat n) (list_ascii_of_string "0123456789abcdef") "0"%char)
    as [Hin| ->]; [|done].
  intros Heq. rewrite Heq in Hin. simpl in Hin.
  repeat (destruct Hin as [Hin|Hin]; [discriminate Hin|]). done.
Qed.

Lemma escape_u00_no_newline c : newline ∉ json.escape_u00 c.
Proof.
  unfold json.escape_u00. intros H.
  repeat (apply elem_of_cons in H as [H|H]; [try discriminate H; by eapply hex_no_newline|]).
  by apply elem_of_nil in H.
Qed.

Lemma escape_u202_no_newline x : newline ∉ json.escape_u202 x.
Proof.
  unfold json.escape_u202. intros H.
  repeat (apply elem_of_cons in H as [H|H]; [try discriminate H; by eapply hex_no_newline|]).
  by apply elem_of_nil in H.
Qed.

(** No line feed is left in a compacted text. *)
Lemma appendCompact_from_no_newline P :
  forall s skip Q, json.appendCompact_from s skip P = Some Q -> newline ∉ Q.
Proof.
  induction P as [|c P IH]; intros s skip Q; simpl.
  - destruct (eof s); [|done]. intros [= <-]. apply not_elem_of_nil.
  - destruct (do_step s c) as [s1 v] eqn:Hstep.
    assert (Hc : ge_scanSkipSpace v = false -> newline <> c).
    { intros Hv <-. pose proof (do_step_newline s) as Hn. rewrite Hstep in Hn.
      simpl in Hn. congruence. }
    intros HQ.
    set (lsep := match P with
                 | c1 :: c2 :: _ =>
                   (byte_val c =? 0xE2) && (byte_val c1 =? 0x80)
                   && (N.ldiff (byte_val c2) 1 =? 0xA8)
                 | _ => false
                 end) in *.
    set (out := if (Ascii.eqb c "<" || Ascii.eqb c ">" || Ascii.eqb c "&")%char
                then json.escape_u00 c
                else if lsep then json.escape_u202 (byte_val (nth 1 P c))
                else if (0 <? skip)%nat || ge_scanSkipSpace v then []
                else [c]) in *.
    assert (Hout : newline ∉ out).
    { subst out. destruct (_ || _ || _); [apply escape_u00_no_newline|].
      destruct lsep; [apply escape_u202_no_newline|].
      destruct ((0 <? skip)%nat || ge_scanSkipSpace v) eqn:Hb; [apply not_elem_of_nil|].
      apply orb_false_iff in Hb as [_ Hb].
      apply not_elem_of_cons. split; [by apply Hc|apply not_elem_of_nil]. }
    assert (exists Q', json.appendCompact_from s1 (if lsep then 2%nat else Nat.pred skip) P
                       = Some Q' /\ Q = out ++ Q') as (Q' & Hrec & ->).
    { destruct v; try done;
        (destruct (json.appendCompact_from s1 _ P) as [Q'|]; [|done]);
        injection HQ as <-; by exists Q'. }
    apply not_elem_of_app. split; [done|]. by eapply IH.
Qed.

Lemma last_app_nonempty (a b : bytes) d : b <> [] -> List.last (a ++ b) d = List.last b d.
Proof.
  intros Hb. induction a as [|x a IH]; [done|].
  simpl. destruct (a ++ b) eqn:Hab; [|done].
  apply app_eq_nil in Hab as [_ ?]. done.
Qed.

Lemma last_cons_nonempty (x : ascii) (l : bytes) d : l <> [] -> List.last (x :: l) d = List.last l d.
Proof. by destruct l. Qed.

Ltac no_newline_concrete :=
  let H := fresh in
  intros H; vm_compute in H;
  repeat (apply elem_of_cons in H as [H|H]; [discriminate H|]);
  by apply elem_of_nil in H.

Lemma appendString_no_newline s : newline ∉ json.appendString s.
Proof.
  unfold json.appendString. apply not_elem_of_cons. split; [done|].
  apply not_elem_of_app. split; [|by no_newline_concrete].
  eapply (litRun_no_newline inString). by apply litRun_appendString.
Qed.

Lemma fieldKey_no_newline :
  Forall (fun name => newline ∉ fieldKey name)
         ["sessionId"; "toolset"; "direction"; "timestamp"; "payload"]%string.
Proof. repeat constructor; no_newline_concrete. Qed.

Lemma quoted_safe_no_newline body :
  forallb json.htmlSafeSet body = true -> newline ∉ quote :: body ++ [quote].
Proof.
  intros Hsafe. apply not_elem_of_cons. split; [done|].
  apply not_elem_of_app. split; [|by no_newline_concrete].
  eapply (litRun_no_newline inString). by apply litRun_safe.
Qed.

Lemma fieldKey_nonempty name rest : fieldKey name ++ rest <> [].
Proof. done. Qed.

Lemma dropCR_snoc (l : bytes) c :
  Ascii.eqb c "013" = false -> bufio.dropCR (l ++ [c]) = l ++ [c].
Proof.
  intros Hc. unfold bufio.dropCR.
  destruct (l ++ [c]) as [|x l'] eqn:Hl; [done|].
  rewrite <- Hl. by rewrite last_snoc, Hc.
Qed.

Lemma not_elem_of_concat (x : ascii) (ls : list bytes) :
  Forall (fun l => x ∉ l) ls -> x ∉ concat ls.
Proof.
  induction 1 as [|l ls Hl _ IH]; simpl; [apply not_elem_of_nil|].
  by apply not_elem_of_app.
Qed.

(** The pieces of the line [json.Marshal] writes for a message. *)
Lemma json_Marshal_pieces m data :
  json_Marshal m = Some data ->
  exists body pl,
    forallb json.htmlSafeSet body = true
    /\ json.appendCompact (json.RawMessage_MarshalJSON (Payload m)) = Some pl
    /\ data = concat
        [ ["{"%char]; fieldKey "sessionId"; json.appendString (SessionID m);
          (if decide (Toolset m = EmptyString) then []
           else ","%char :: fieldKey "toolset" ++ json.appendString (Toolset m));
          [","%char]; fieldKey "direction"; json.appendString (Direction m);
          [","%char]; fieldKey "timestamp"; quote :: body ++ [quote];
          [","%char]; fieldKey "payload"; pl; ["}"%char] ].
Proof.
  unfold json_Marshal. intros Hm.
  destruct (time.MarshalJSON (Timestamp m)) as [ts|] eqn:Hts; [|done].
  destruct (time_UnmarshalJSON_MarshalJSON time.zero _ _ Hts)
    as (_ & Hcts & body & -> & Hsafe).
  cbn [mbind option_bind] in Hm. rewrite Hcts in Hm. cbn [mbind option_bind] in Hm.
  destruct (json.appendCompact (json.RawMessage_MarshalJSON (Payload m)))
    as [pl|] eqn:Hpl; [|done].
  cbn [mbind option_bind] in Hm.
  exists body, pl. split; [done|]. split; [done|].
  apply (inj Some) in Hm. rewrite <- Hm. cbn [concat].
  rewrite app_nil_r. cbn [app]. reflexivity.
Qed.

(** The line for a message: no line feed inside, no carriage return at
    its end. *)
Lemma json_Marshal_line m data :
  json_Marshal m = Some data ->
  (newline ∉ data) /\ bufio.dropCR data = data.
Proof.
  intros Hm. destruct (json_Marshal_pieces _ _ Hm) as (body & pl & Hsafe & Hpl & ->).
  split.
  - apply not_elem_of_concat.
    pose proof fieldKey_no_newline as Hk.
    apply Forall_cons in Hk as [Hk1 Hk]. apply Forall_cons in Hk as [Hk2 Hk].
    apply Forall_cons in Hk as [Hk3 Hk]. apply Forall_cons in Hk as [Hk4 Hk].
    apply Forall_cons in Hk as [Hk5 _].
    repeat (apply Forall_cons_2); try (apply Forall_nil_2); try assumption;
      try (apply appendString_no_newline); try (by no_newline_concrete).
    + destruct (decide _); [apply not_elem_of_nil|].
      apply not_elem_of_cons. split; [done|].
      apply not_elem_of_app. split; [done|apply appendString_no_newline].
    + by apply quoted_safe_no_newline.
    + by eapply appendCompact_from_no_newline.
  - match goal with
    | |- bufio.dropCR (concat ?ls) = _ =>
      change ls with (removelast ls ++ [["}"%char]])
    end.
    rewrite concat_app. cbn [concat]. rewrite app_nil_r.
    by apply dropCR_snoc.
Qed.

(** ** Reading a log back *)

Lemma scanLines_line max l :
  newline ∉ l ->
  forall cur rest,
    bufio.scanLines max cur (l ++ newline :: rest)
    = match bufio.lineToken max (cur ++ l) with
      | bufio.TooLong => [bufio.TooLong]
      | tok => tok :: bufio.scanLines max [] rest
      end.
Proof.
  induction l as [|c l IH]; intros Hl cur rest.
  - simpl. by rewrite app_nil_r.
  - apply not_elem_of_cons in Hl as [Hc Hl]. cbn [app bufio.scanLines].
    destruct (Ascii.eqb_spec c "010") as [->|_]; [done|].
    rewrite IH by done. by rewrite <- app_assoc.
Qed.

(** A log that ends with a record separator, followed by one more line. *)
Lemma decodeLines_snoc max l :
  newline ∉ l ->
  forall old cur,
    decodeLines (bufio.scanLines max cur (old ++ newline :: l ++ [newline]))
    = match decodeLines (bufio.scanLines max cur (old ++ [newline])) with
      | Ok ms =>
        match decodeLines (bufio.scanLines max [] (l ++ [newline])) with
        | Ok ms' => Ok (ms ++ ms')
        | Err e => Err e
        end
      | Err e => Err e
      end.
Proof.
  intros Hl. induction old as [|c old IH]; intros cur.
  - cbn [app bufio.scanLines]. rewrite Ascii.eqb_refl.
    destruct (bufio.lineToken max cur) as [t|]; [|done].
    cbn [decodeLines]. destruct (json_Unmarshal t zeroMessage); [|done].
    by destruct (decodeLines _).
  - cbn [app bufio.scanLines]. destruct (Ascii.eqb c "010"); [|apply IH].
    destruct (bufio.lineToken max cur) as [t|]; [|done].
    cbn [decodeLines]. destruct (json_Unmarshal t zeroMessage); [|done].
    rewrite IH. destruct (decodeLines (bufio.scanLines max [] (old ++ [newline]))); [|done].
    by destruct (decodeLines _).
Qed.

(** The one line of a marshalled message, read back. *)
Lemma decodeLines_marshalled m data :
  json_Marshal m = Some data ->
  json.fitsAtDepth 1 (json.RawMessage_MarshalJSON (Payload m)) = true ->
  N.of_nat (length data) < maxTokenSize ->
  exists pl,
    json.appendCompact (json.RawMessage_MarshalJSON (Payload m)) = Some pl
    /\ decodeLines (bufio.scanLines maxTokenSize [] (data ++ [newline]))
       = Ok [mkMessage (toValidUTF8 (SessionID m)) (toValidUTF8 (Toolset m))
                       (toValidUTF8 (Direction m)) (Timestamp m) (Some pl)].
Proof.
  intros Hm Hfit Hlen.
  destruct (json_Marshal_line _ _ Hm) as [Hnl Hcr].
  destruct (json_Unmarshal_Marshal _ _ Hm Hfit) as (pl & Hpl & Hun).
  exists pl. split; [done|].
  rewrite (scanLines_line _ _ Hnl [] []). cbn [app bufio.scanLines].
  unfold bufio.lineToken. destruct (N.leb_spec maxTokenSize (N.of_nat (length data))); [lia|].
  rewrite Hcr. cbn [decodeLines]. by rewrite Hun.
Qed.

(** ** Suffixes of file names *)

Lemma list_ascii_of_string_app a b :
  list_ascii_of_string (a +:+ b) = list_ascii_of_string a ++ list_ascii_of_string b.
Proof. induction a as [|c a IH]; [done|]. simpl. by rewrite <- IH. Qed.

Lemma string_length_list s : String.length s = length (list_ascii_of_string s).
Proof. induction s; simpl; auto. Qed.

Lemma HasSuffix_rev_spec s suffix :
  strings.HasSuffix_rev s suffix = true <-> exists p, s = suffix ++ p.
Proof.
  revert s. induction suffix as [|a suffix IH]; intros s.
  - destruct s; split; simpl; eauto.
  - destruct s as [|b s]; simpl; [split; [done|by intros [? ?]]|].
    rewrite andb_true_iff, IH. split.
    + intros [->%Ascii.eqb_eq [p ->]]. eauto.
    + intros [p [= -> ->]]. split; [apply Ascii.eqb_refl|eauto].
Qed.

Lemma HasSuffix_spec s suffix :
  strings.HasSuffix s suffix = true <-> exists p, s = p +:+ suffix.
Proof.
  unfold strings.HasSuffix. rewrite HasSuffix_rev_spec. split.
  - intros [p Hp]. exists (string_of_list_ascii (rev p)).
    apply (f_equal (@rev ascii)) in Hp. rewrite rev_involutive, rev_app_distr, rev_involutive in Hp.
    rewrite <- (string_of_list_ascii_of_string s), Hp.
    rewrite <- (string_of_list_ascii_of_string (_ +:+ suffix)).
    by rewrite list_ascii_of_string_app, list_ascii_of_string_of_list_ascii.
  - intros [p ->]. exists (rev (list_ascii_of_string p)).
    by rewrite list_ascii_of_string_app, rev_app_distr.
Qed.

Lemma TrimSuffix_app p suffix : strings.TrimSuffix (p +:+ suffix) suffix = p.
Proof.
  unfold strings.TrimSuffix.
  assert (strings.HasSuffix (p +:+ suffix) suffix = true) as -> by (apply HasSuffix_spec; eauto).
  rewrite !string_length_list, list_ascii_of_string_app, length_app.
  replace (_ + _ - _)%nat with (length (list_ascii_of_string p)) by lia.
  by rewrite take_app_length, string_of_list_ascii_of_string.
Qed.

Lemma TrimSuffix_inj a b suffix :
  strings.HasSuffix a suffix = true -> strings.HasSuffix b suffix = true ->
  strings.TrimSuffix a suffix = strings.TrimSuffix b suffix -> a = b.
Proof.
  intros [p ->]%HasSuffix_spec [q ->]%HasSuffix_spec.
  rewrite !TrimSuffix_app. by intros ->.
Qed.

(** ** [RecordMessage] followed by a load *)

(** What a successful [RecordMessage] has done: the line of the message
    is appended to the active log of the session, and nothing else
    changes. *)
Lemma RecordMessage_ok st env fs S toolset direction payload fs' :
  RecordMessage (Some st) env fs S toolset direction payload = (fs', None) ->
  S <> EmptyString
  /\ exists data dir,
      json_Marshal (mkMessage S toolset direction (now env) payload) = Some data
      /\ statusDir fs false = Some dir
      /\ dir !! logName S <> Some Dir
      /\ statusDir fs' false
         = Some (<[logName S := File (contentOf dir (logName S) ++ data ++ [newline])]> dir)
      /\ statusDir fs' true = statusDir fs true.
Proof.
  unfold RecordMessage. destruct (decide (S = EmptyString)) as [|HS]; [done|].
  destruct (json_Marshal _) as [data|] eqn:Hm; [|done].
  unfold sessionPath. fold (logName S).
  unfold os_OpenAppend, file_Write. cbn [fst snd].
  destruct (fails env (OpOpenAppend _)); [done|].
  destruct (statusDir fs false) as [dir|] eqn:Hdir; [|done].
  intros H. split; [done|]. exists data, dir. split; [done|]. split; [done|].
  unfold contentOf. revert H.
  destruct (dir !! logName S) as [[old|]|] eqn:Hn; [| done |].
  - rewrite Hdir, Hn.
    destruct (fails env (OpWrite _)).
    + by destruct (_ <? _).
    + destruct (_ <? _); intros [= <-]; done.
  - rewrite !statusDir_setStatusDir. simpl. rewrite lookup_insert_eq.
    destruct (fails env (OpWrite _)).
    + by destruct (_ <? _).
    + destruct (_ <? _); intros [= <-]; simpl; rewrite insert_insert_eq; done.
Qed.

Lemma readMessages_ext env fs fs' p :
  lookupPath fs p = lookupPath fs' p -> readMessages env fs p = readMessages env fs' p.
Proof. unfold readMessages. by intros ->. Qed.

Lemma loadEntries_Ok env fs archived entries :
  (forall i, ctxErr env archived i = false) ->
  Forall (loadsOk env fs archived) entries ->
  forall i, exists chats, loadEntries env fs archived i entries = Ok chats.
Proof.
  intros Hctx. induction 1 as [|[name n] entries He _ IH]; intros i; [by exists []|].
  cbn [loadEntries]. rewrite Hctx. destruct (IH (S i)) as [chats Hc].
  unfold loadsOk in He. cbn [fst snd] in He. destruct n as [data|]; cbn [orb].
  - destruct (strings.HasSuffix name ".jsonl"); cbn [negb]; [|eauto].
    destruct (He eq_refl) as [ms ->]. rewrite Hc. eauto.
  - eauto.
Qed.

Lemma loadEntries_Ok_inv env fs archived entries i chats :
  loadEntries env fs archived i entries = Ok chats ->
  Forall (loadsOk env fs archived) entries.
Proof.
  revert i chats. induction entries as [|[name n] entries IH]; intros i chats; [done|].
  cbn [loadEntries]. destruct (ctxErr env archived i); [done|].
  destruct n as [data|]; cbn [orb].
  - destruct (strings.HasSuffix name ".jsonl") eqn:Hs; cbn [negb].
    + destruct (readMessages env fs (archived, name)) as [ms|] eqn:Hr; [|done].
      destruct (loadEntries env fs archived (S i) entries) as [cs|] eqn:Hl; [|done].
      intros _. constructor; [|by eapply IH]. unfold loadsOk. simpl. eauto.
    + intros H. constructor; [|by eapply IH]. unfold loadsOk. simpl. congruence.
  - intros H. constructor; [done|by eapply IH].
Qed.

Lemma loadEntries_ids env fs archived entries i chats c :
  loadEntries env fs archived i entries = Ok chats ->
  c ∈ chats ->
  exists name n, (name, n) ∈ entries
    /\ strings.HasSuffix name ".jsonl" = true
    /\ chatSessionID c = strings.TrimSuffix name ".jsonl".
Proof.
  revert i chats. induction entries as [|[name n] entries IH]; intros i chats.
  { intros [= <-] H. by apply elem_of_nil in H. }
  cbn [loadEntries]. destruct (ctxErr env archived i); [done|].
  assert (Hrest : forall cs, loadEntries env fs archived (S i) entries = Ok cs -> c ∈ cs ->
            exists name0 n0, (name0, n0) ∈ (name, n) :: entries
              /\ strings.HasSuffix name0 ".jsonl" = true
              /\ chatSessionID c = strings.TrimSuffix name0 ".jsonl").
  { intros cs Hl Hin. destruct (IH _ _ Hl Hin) as (n1 & n2 & ? & ? & ?).
    exists n1, n2. split; [by apply elem_of_cons; right|done]. }
  destruct n as [data|]; cbn [orb]; [|by apply Hrest].
  destruct (strings.HasSuffix name ".jsonl") eqn:Hs; cbn [negb]; [|by apply Hrest].
  destruct (readMessages env fs (archived, name)) as [ms|]; [|done].
  destruct (loadEntries env fs archived (S i) entries) as [cs|] eqn:Hl; [|done].
  intros [= <-] [->|Hin]%elem_of_cons; [|by eapply Hrest].
  exists name, (File data). split; [apply elem_of_cons; by left|done].
Qed.

Lemma filter_none {A} (P : A -> Prop) `{forall x, Decision (P x)} (l : list A) :
  (forall x, x ∈ l -> ~ P x) -> filter P l = [].
Proof.
  induction l as [|x l IH]; intros Hl; [done|].
  rewrite filter_cons_False by (apply Hl; by left).
  apply IH. intros y Hy. apply Hl. by right.
Qed.

(** Among the chats loaded from a listing without repeated names, the
    chats of one session are the one chat of its log. *)
Lemma loadEntries_filter env fs archived entries name data ms :
  NoDup (fst <$> entries) ->
  (name, File data) ∈ entries ->
  strings.HasSuffix name ".jsonl" = true ->
  readMessages env fs (archived, name) = Ok ms ->
  forall i chats,
    loadEntries env fs archived i entries = Ok chats ->
    filter (fun c => chatSessionID c = strings.TrimSuffix name ".jsonl") chats
    = [mkChat (strings.TrimSuffix name ".jsonl") archived ms].
Proof.
  intros Hnd Hin Hsuf Hread.
  induction entries as [|[name' n'] entries IH]; intros i chats;
    [by apply elem_of_nil in Hin|].
  rewrite fmap_cons in Hnd. apply NoDup_cons in Hnd as [Hfresh Hnd]. cbn [fst] in Hfresh.
  cbn [loadEntries]. destruct (ctxErr env archived i); [done|].
  apply elem_of_cons in Hin as [[= <- <-]|Hin].
  - (* the log of the session *)
    cbn [orb]. rewrite Hsuf, Hread. cbn [negb].
    destruct (loadEntries env fs archived (S i) entries) as [cs|] eqn:Hl; [|done].
    intros [= <-]. rewrite filter_cons_True by done. f_equal.
    apply filter_none. intros c Hc Hid.
    destruct (loadEntries_ids _ _ _ _ _ _ _ Hl Hc) as (n0 & nd0 & Hn0 & Hs0 & Hc0).
    rewrite Hc0 in Hid. apply TrimSuffix_inj in Hid; [|done..]. subst n0.
    apply Hfresh. apply list_elem_of_fmap. by exists (name, nd0).
  - (* another entry *)
    assert (name' <> name) as Hne.
    { intros ->. apply Hfresh. apply list_elem_of_fmap. by exists (name, File data). }
    destruct n' as [data'|]; cbn [orb]; [|by apply IH].
    destruct (strings.HasSuffix name' ".jsonl") eqn:Hs'; cbn [negb]; [|by apply IH].
    destruct (readMessages env fs (archived, name')) as [ms'|]; [|done].
    destruct (loadEntries env fs archived (S i) entries) as [cs|] eqn:Hl; [|done].
    intros [= <-]. rewrite filter_cons_False.
    + by eapply IH.
    + simpl. intros Hid. by apply TrimSuffix_inj in Hid.
Qed.

Lemma loadChats_after_write st env fs fs' dir name new ms chats0 :
  statusDir fs false = Some dir ->
  statusDir fs' false = Some (<[name := File new]> dir) ->
  (forall i, ctxErr env false i = false) ->
  fails env (OpReadDir false) = false ->
  loadChats st env fs false = Ok chats0 ->
  strings.HasSuffix name ".jsonl" = true ->
  readMessages env fs' (false, name) = Ok ms ->
  exists chats,
    loadChats st env fs' false = Ok chats
    /\ filter (fun c => chatSessionID c = strings.TrimSuffix name ".jsonl") chats
       = [mkChat (strings.TrimSuffix name ".jsonl") false ms].
Proof.
  intros Hdir Hdir' Hctx Hrd Hload Hsuf Hread.
  unfold loadChats, os_ReadDir in *. rewrite Hrd in *. rewrite Hdir in Hload. rewrite Hdir'.
  set (R := fun a b : string * node => String.le (fst a) (fst b)) in *.
  set (entries := merge_sort R (map_to_list dir)) in *.
  set (entries' := merge_sort R (map_to_list (<[name := File new]> dir))).
  assert (Hperm : entries' ≡ₚ map_to_list (<[name := File new]> dir))
    by apply merge_sort_Permutation.
  assert (Hin : (name, File new) ∈ entries').
  { rewrite Hperm. apply elem_of_map_to_list. by rewrite lookup_insert_eq. }
  assert (Hok : Forall (loadsOk env fs' false) entries').
  { apply Forall_forall. intros [n nd] He. rewrite Hperm in He.
    apply elem_of_map_to_list in He.
    destruct (decide (n = name)) as [->|Hne].
    - rewrite lookup_insert_eq in He. injection He as <-.
      unfold loadsOk. simpl. eauto.
    - rewrite lookup_insert_ne in He by done.
      pose proof (loadEntries_Ok_inv _ _ _ _ _ _ Hload) as Hold.
      rewrite Forall_forall in Hold.
      assert ((n, nd) ∈ entries) as He'.
      { unfold entries. rewrite merge_sort_Permutation. by apply elem_of_map_to_list. }
      specialize (Hold _ He'). unfold loadsOk in *. cbn [fst snd] in *.
      destruct nd; [|done]. intros Hs. destruct (Hold Hs) as [ms' Hms'].
      exists ms'. rewrite <- Hms'. apply readMessages_ext.
      unfold lookupPath. cbn [fst snd]. rewrite Hdir, Hdir'. simpl.
      by rewrite lookup_insert_ne. }
  destruct (loadEntries_Ok _ _ _ _ Hctx Hok 0%nat) as [chats Hchats].
  exists chats. split; [done|].
  eapply loadEntries_filter; eauto.
  rewrite Hperm. apply NoDup_fst_map_to_list.
Qed.

(** ** Strings that are valid UTF-8 *)

Lemma runes_from_valid l :
  forall skip,
    forallb (fun rs => negb ((fst rs =? utf8.RuneError) && (snd rs =? 1)%nat))
            (runes_from skip l) = true ->
    concat (map (fun rs => utf8.EncodeRune (fst rs)) (runes_from skip l)) = drop skip l.
Proof.
  induction l as [|c l IH]; intros skip; [by destruct skip|].
  cbn [runes_from]. destruct skip as [|k]; [|apply IH].
  cbn [forallb map concat]. intros [Hv Hrest]%andb_true_iff.
  destruct (utf8.DecodeRune (c :: l)) as [r size] eqn:Hdec. cbn [fst snd] in *.
  apply negb_true_iff, rune_error_test in Hv.
  destruct (DecodeRune_valid _ _ _ _ Hdec Hv) as (Henc & Hpos & Hlen & _).
  rewrite Henc, (IH _ Hrest). destruct size as [|n]; [lia|].
  cbn [take Nat.pred drop app]. by rewrite take_drop.
Qed.

Lemma toValidUTF8_valid s : ValidString s = true -> toValidUTF8 s = s.
Proof.
  unfold ValidString, toValidUTF8, runes. intros H.
  rewrite (runes_from_valid _ 0%nat H). cbn [drop].
  apply string_of_list_ascii_of_string.
Qed.

Lemma lookupPath_statusDir fs archived name dir :
  statusDir fs archived = Some dir -> lookupPath fs (archived, name) = dir !! name.
Proof. intros H. unfold lookupPath. simpl. by rewrite H. Qed.

Lemma lineFits_length m data :
  lineFits m = true -> json_Marshal m = Some data ->
  N.of_nat (length data) < maxTokenSize.
Proof. unfold lineFits. intros H Hm. rewrite Hm in H. by apply N.ltb_lt. Qed.

(** The first record of a session, read back. *)
(** ** Reading a log that has grown *)

Lemma terminated_last data : last data = Some newline -> terminated data.
Proof. intros H. right. by apply last_Some. Qed.

Lemma terminated_app a b : terminated a -> terminated b -> terminated (a ++ b).
Proof.
  intros Ha [->|[l ->]]; [by rewrite app_nil_r|].
  right. exists (a ++ l). by rewrite app_assoc.
Qed.

Lemma decodeLines_app max a b :
  forall cur ms,
    decodeLines (bufio.scanLines max cur (a ++ [newline])) = Ok ms ->
    decodeLines (bufio.scanLines max cur ((a ++ [newline]) ++ b))
    = match decodeLines (bufio.scanLines max [] b) with
      | Ok ms' => Ok (ms ++ ms')
      | Err e => Err e
      end.
Proof.
  induction a as [|c a IH]; intros cur ms.
  - cbn [app bufio.scanLines]. unfold newline. cbn [Ascii.eqb Bool.eqb].
    destruct (bufio.lineToken max cur) as [l|]; cbn [decodeLines]; [|done].
    destruct (json_Unmarshal l zeroMessage) as [m|]; [|done].
    intros [= <-]. by destruct (decodeLines _).
  - cbn [app bufio.scanLines]. destruct (Ascii.eqb c "010"); [|apply IH].
    destruct (bufio.lineToken max cur) as [l|]; cbn [decodeLines]; [|done].
    destruct (json_Unmarshal l zeroMessage) as [m|]; [|done].
    destruct (decodeLines (bufio.scanLines max [] (a ++ [newline]))) as [ms0|] eqn:H0;
      [|done].
    intros [= <-]. rewrite (IH [] ms0 H0). by destruct (decodeLines _).
Qed.

(** Reading a terminated log followed by more bytes. *)
Lemma decodeLines_terminated old new ms :
  terminated old ->
  decodeLines (bufio.scanLines maxTokenSize [] old) = Ok ms ->
  decodeLines (bufio.scanLines maxTokenSize [] (old ++ new))
  = match decodeLines (bufio.scanLines maxTokenSize [] new) with
    | Ok ms' => Ok (ms ++ ms')
    | Err e => Err e
    end.
Proof.
  intros [->|[l ->]] Hold.
  - cbn in Hold. injection Hold as <-. cbn [app]. by destruct (decodeLines _).
  - by apply decodeLines_app.
Qed.

Lemma readMessages_Ok env fs p ms :
  readMessages env fs p = Ok ms ->
  fails env (OpOpen p) = false /\ fails env (OpRead p) = false
  /\ exists data, lookupPath fs p = Some (File data)
                  /\ decodeLines (bufio.scanLines maxTokenSize [] data) = Ok ms.
Proof.
  unfold readMessages. destruct (fails env (OpOpen p)); [done|].
  destruct (lookupPath fs p) as [[data|]|]; [|done..].
  destruct (fails env (OpRead p)); [done|]. eauto.
Qed.

Lemma readMessages_File env fs p data :
  fails env (OpOpen p) = false -> fails env (OpRead p) = false ->
  lookupPath fs p = Some (File data) ->
  readMessages env fs p = decodeLines (bufio.scanLines maxTokenSize [] data).
Proof. intros H1 H2 H3. unfold readMessages. by rewrite H1, H3, H2. Qed.

Lemma RecordMessage_fresh_read st env env' fs fs' S toolset direction payload :
  RecordMessage (Some st) env fs S toolset direction payload = (fs', None) ->
  lookupPath fs (sessionPath st S false) = None ->
  json.fitsAtDepth 1 (json.RawMessage_MarshalJSON payload) = true ->
  lineFits (recorded env S toolset direction payload) = true ->
  readsLog env' st S ->
  exists pl,
    json.appendCompact (json.RawMessage_MarshalJSON payload) = Some pl
    /\ readMessages env' fs' (sessionPath st S false)
       = Ok [loaded env S toolset direction pl].
Proof.
  intros Hrec Hfresh Hfit Hline [Hopen Hread].
  destruct (RecordMessage_ok _ _ _ _ _ _ _ _ Hrec)
    as (HS & data & dir & Hm & Hdir & Hnd & Hdir' & _).
  unfold sessionPath in *. fold (logName S) in *.
  rewrite (lookupPath_statusDir _ _ _ _ Hdir) in Hfresh.
  unfold contentOf in Hdir'. rewrite Hfresh in Hdir'. cbn [app] in Hdir'.
  destruct (decodeLines_marshalled _ _ Hm Hfit (lineFits_length _ _ Hline Hm))
    as (pl & Hpl & Hdec).
  exists pl. split; [done|].
  unfold readMessages. rewrite Hopen, Hread.
  rewrite (lookupPath_statusDir _ _ _ _ Hdir'), lookup_insert_eq. exact Hdec.
Qed.

(** A further record of a session whose log holds the line of [m0],
    read back. *)
Lemma RecordMessage_second_read st env env' fs fs' S toolset direction payload
    dir m0 data0 m0' :
  RecordMessage (Some st) env fs S toolset direction payload = (fs', None) ->
  statusDir fs false = Some dir ->
  dir !! logName S = Some (File (data0 ++ [newline])) ->
  json_Marshal m0 = Some data0 ->
  decodeLines (bufio.scanLines maxTokenSize [] (data0 ++ [newline])) = Ok [m0'] ->
  json.fitsAtDepth 1 (json.RawMessage_MarshalJSON payload) = true ->
  lineFits (recorded env S toolset direction payload) = true ->
  readsLog env' st S ->
  exists pl,
    json.appendCompact (json.RawMessage_MarshalJSON payload) = Some pl
    /\ readMessages env' fs' (sessionPath st S false)
       = Ok [m0'; loaded env S toolset direction pl].
Proof.
  intros Hrec Hdir Hold Hm0 Hdec0 Hfit Hline [Hopen Hread].
  destruct (RecordMessage_ok _ _ _ _ _ _ _ _ Hrec)
    as (HS & data & dir' & Hm & Hdir2 & Hnd & Hdir' & _).
  rewrite Hdir in Hdir2. injection Hdir2 as <-.
  unfold sessionPath in *. fold (logName S) in *.
  unfold contentOf in Hdir'. rewrite Hold in Hdir'.
  destruct (decodeLines_marshalled _ _ Hm Hfit (lineFits_length _ _ Hline Hm))
    as (pl & Hpl & Hdec).
  destruct (json_Marshal_line _ _ Hm) as [Hnl _].
  exists pl. split; [done|].
  unfold readMessages. rewrite Hopen, Hread.
  rewrite (lookupPath_statusDir _ _ _ _ Hdir'), lookup_insert_eq.
  rewrite <- app_assoc. cbn [app].
  rewrite (decodeLines_snoc _ _ Hnl). rewrite Hdec0. by rewrite Hdec.
Qed.

(** What a reader finds in the log after a [RecordMessage] that returned
    nil, whether the log was there before or not. *)
Lemma RecordMessage_read_back st env env' fs fs' S toolset direction payload ms :
  RecordMessage (Some st) env fs S toolset direction payload = (fs', None) ->
  logHolds env' fs (sessionPath st S false) ms ->
  readsLog env' st S ->
  json.fitsAtDepth 1 (json.RawMessage_MarshalJSON payload) = true ->
  lineFits (recorded env S toolset direction payload) = true ->
  exists pl,
    json.appendCompact (json.RawMessage_MarshalJSON payload) = Some pl
    /\ readMessages env' fs' (sessionPath st S false)
       = Ok (ms ++ [loaded env S toolset direction pl])
    /\ logHolds env' fs' (sessionPath st S false)
         (ms ++ [loaded env S toolset direction pl]).
Proof.
  intros Hrec Hholds Hreads Hfit Hline.
  destruct (RecordMessage_ok _ _ _ _ _ _ _ _ Hrec)
    as (_ & line & dir & Hm & Hdir & _ & Hdir' & _).
  assert (Hnew : lookupPath fs' (sessionPath st S false)
                 = Some (File (contentOf dir (logName S) ++ line ++ [newline]))).
  { unfold sessionPath. fold (logName S).
    by rewrite (lookupPath_statusDir _ _ _ _ Hdir'), lookup_insert_eq. }
  assert (Hterm : terminated (contentOf dir (logName S) ++ line ++ [newline])).
  { right. exists (contentOf dir (logName S) ++ line). by rewrite <- app_assoc. }
  assert (exists pl,
    json.appendCompact (json.RawMessage_MarshalJSON payload) = Some pl
    /\ readMessages env' fs' (sessionPath st S false)
       = Ok (ms ++ [loaded env S toolset direction pl]))
    as (pl & Hpl & Hread).
  { destruct Hholds as [[Hfresh ->]|[(old & Hold & Hterm0) Hread0]].
    - by apply (RecordMessage_fresh_read _ _ _ _ _ _ _ _ _ Hrec Hfresh Hfit Hline Hreads).
    - destruct (readMessages_Ok _ _ _ _ Hread0) as (Hop & Hrd & data & Hdata & Hdec).
      rewrite Hold in Hdata. injection Hdata as <-.
      destruct (decodeLines_marshalled _ _ Hm Hfit (lineFits_length _ _ Hline Hm))
        as (pl & Hpl & Hdec1).
      cbn [Payload SessionID Toolset Direction Timestamp] in Hpl, Hdec1.
      exists pl. split; [done|].
      assert (contentOf dir (logName S) = old) as Hc.
      { unfold contentOf. rewrite <- (lookupPath_statusDir fs false _ dir Hdir).
        unfold sessionPath, logName in *. by rewrite Hold. }
      rewrite Hc in Hnew.
      rewrite (readMessages_File _ _ _ _ Hop Hrd Hnew).
      rewrite (decodeLines_terminated _ _ _ Hterm0 Hdec). by rewrite Hdec1. }
  exists pl. split; [done|]. split; [done|].
  right. split; [|done]. eauto.
Qed.

Lemma logName_suffix S :
  strings.HasSuffix (logName S) ".jsonl" = true
  /\ strings.TrimSuffix (logName S) ".jsonl" = sanitizeSessionID S.
Proof.
  unfold logName. split; [apply HasSuffix_spec; eauto|apply TrimSuffix_app].
Qed.

(** C3, as amended. After a successful [RecordMessage] for a session
    without an active log, a load of the active corpus (that could be
    loaded before, with a payload within the nesting limit and a line
    within the buffer of the scanner) yields exactly one chat for the
    session, named by the sanitized identifier, and it holds exactly one
    message: the recorded one with its strings coerced to valid UTF-8 and
    its payload in the compacted form [json.Marshal] gives it. *)
Theorem RecordMessage_then_load
    st env env' fs fs' S toolset direction payload chats0 :
  RecordMessage (Some st) env fs S toolset direction payload = (fs', None) ->
  lookupPath fs (sessionPath st S false) = None ->
  json.fitsAtDepth 1 (json.RawMessage_MarshalJSON payload) = true ->
  lineFits (recorded env S toolset direction payload) = true ->
  readsLog env' st S ->
  listsActive env' ->
  loadChats st env' fs false = Ok chats0 ->
  exists pl chats,
    json.appendCompact (json.RawMessage_MarshalJSON payload) = Some pl
    /\ loadChats st env' fs' false = Ok chats
    /\ filter (fun c => chatSessionID c = sanitizeSessionID S) chats
       = [mkChat (sanitizeSessionID S) false [loaded env S toolset direction pl]].
Proof.
  intros Hrec Hfresh Hfit Hline Hreads [Hrd Hctx] Hload.
  destruct (RecordMessage_fresh_read _ _ _ _ _ _ _ _ _ Hrec Hfresh Hfit Hline Hreads)
    as (pl & Hpl & Hread).
  destruct (RecordMessage_ok _ _ _ _ _ _ _ _ Hrec)
    as (HS & data & dir & Hm & Hdir & Hnd & Hdir' & _).
  destruct (logName_suffix S) as [Hsuf Htrim].
  destruct (loadChats_after_write st env' fs fs' dir (logName S) _ _ chats0
              Hdir Hdir' Hctx Hrd Hload Hsuf Hread) as (chats & Hchats & Hfilter).
  exists pl, chats. rewrite Htrim in Hfilter. by repeat split.
Qed.

Lemma quietEnv_readsLog t st S : readsLog (quietEnv t) st S.
Proof. by split. Qed.

Lemma quietEnv_listsActive t : listsActive (quietEnv t).
Proof. by split. Qed.

(** What is read back after the payload [[1, 2]] has been recorded. *)
Lemma spaced_payload_read_back :
  readMessages exEnv
    (fst (RecordMessage (Some exStore) exEnv emptyFS "abc" EmptyString "request"
                        spacedPayload))
    (sessionPath exStore "abc" false)
  = Ok [mkMessage "abc" EmptyString "request" (now exEnv)
                  (Some (list_ascii_of_string "[1,2]"))].
Proof. vm_compute. reflexivity. Qed.

(** A nil payload is recorded as [null]. *)
Lemma nil_payload_read_back :
  readMessages exEnv
    (fst (RecordMessage (Some exStore) exEnv emptyFS "abc" EmptyString "request" None))
    (sessionPath exStore "abc" false)
  = Ok [mkMessage "abc" EmptyString "request" (now exEnv)
                  (Some (list_ascii_of_string "null"))].
Proof. vm_compute. reflexivity. Qed.

(** The payload [[1, 2]], recorded for the session abc on the empty
    store, is read back as [[1,2]]: the message loaded is not the one
    appended. *)
Lemma RecordMessage_round_trip_counterexample : ~ RecordMessage_round_trip_claim.
Proof.
  intros H.
  destruct (H exStore exEnv exEnv emptyFS
              (fst (RecordMessage (Some exStore) exEnv emptyFS "abc" EmptyString "request" spacedPayload))
              "abc"%string EmptyString "request"%string spacedPayload [])
    as (chats & Hload & Hfilter).
  - vm_compute. reflexivity.
  - vm_compute. reflexivity.
  - vm_compute. reflexivity.
  - vm_compute. reflexivity.
  - apply quietEnv_readsLog.
  - apply quietEnv_listsActive.
  - vm_compute. reflexivity.
  - vm_compute in Hload. injection Hload as <-.
    vm_compute in Hfilter. discriminate Hfilter.
Qed.

(** The amended round trip on the empty store, for the session abc and
    the payload [[1, 2]]. *)
Lemma RecordMessage_then_load_witness :
  exists pl chats,
    json.appendCompact (json.RawMessage_MarshalJSON spacedPayload) = Some pl
    /\ loadChats exStore exEnv
         (fst (RecordMessage (Some exStore) exEnv emptyFS "abc" EmptyString "request" spacedPayload))
         false = Ok chats
    /\ filter (fun c => chatSessionID c = sanitizeSessionID "abc") chats
       = [mkChat (sanitizeSessionID "abc") false
                 [loaded exEnv "abc" EmptyString "request" pl]].
Proof.
  apply (RecordMessage_then_load exStore exEnv exEnv emptyFS _ "abc" EmptyString
           "request" spacedPayload []).
  - vm_compute. reflexivity.
  - vm_compute. reflexivity.
  - vm_compute. reflexivity.
  - vm_compute. reflexivity.
  - apply quietEnv_readsLog.
  - apply quietEnv_listsActive.
  - vm_compute. reflexivity.
Defined.

(** The payload [hello] is refused and nothing is written. *)
Lemma plain_payload_refused :
  RecordMessage (Some exStore) exEnv emptyFS "abc" EmptyString "request" plainPayload
  = (emptyFS, Some ErrMarshalMessage).
Proof. vm_compute. reflexivity. Qed.

(** With the payload [hello], which is not JSON, [RecordMessage] returns
    the marshalling error. *)
Lemma RecordMessage_verbatim_counterexample : ~ RecordMessage_verbatim_claim.
Proof.
  intros H.
  destruct (H exStore (now exEnv) emptyFS "abc"%string EmptyString "request"%string
              (list_ascii_of_string "hello"))
    as (fs' & m & Hrec & _); [done|done|done|].
  vm_compute in Hrec. discriminate Hrec.
Qed.

(** C4, as amended. [RecordMessage] passes the payload through
    [json.Marshal] as a [json.RawMessage].  For a session identifier
    that is not empty, a payload that [json.Marshal] does not accept
    (not one valid JSON value within the nesting limit) makes the call
    fail with the marshalling error and leaves the store as it was.  A
    payload that is accepted is stored in its compacted form (no
    insignificant white space, the characters [<], [>], [&], U+2028 and
    U+2029 of its strings escaped): when the call returns nil, on a
    session whose active log was absent or was terminated and read as
    the messages [ms], with the payload within the nesting limit once it
    lies inside the message and the line within the buffer of the
    reading scanner, a later read of the log that meets no I/O error
    returns [ms] followed by the new record, whose payload is that
    compacted form. *)
Theorem RecordMessage_payload_compacted
    st env env' fs S toolset direction payload :
  S <> EmptyString ->
  (json.appendCompact (json.RawMessage_MarshalJSON payload) = None ->
   RecordMessage (Some st) env fs S toolset direction payload
   = (fs, Some ErrMarshalMessage))
  /\ (forall fs' ms,
      RecordMessage (Some st) env fs S toolset direction payload = (fs', None) ->
      logHolds env' fs (sessionPath st S false) ms ->
      json.fitsAtDepth 1 (json.RawMessage_MarshalJSON payload) = true ->
      lineFits (recorded env S toolset direction payload) = true ->
      readsLog env' st S ->
      exists pl m,
        json.appendCompact (json.RawMessage_MarshalJSON payload) = Some pl
        /\ readMessages env' fs' (sessionPath st S false) = Ok (ms ++ [m])
        /\ Payload m = Some pl).
Proof.
  intros HS. split.
  - intros Hbad. unfold RecordMessage.
    destruct (decide (S = EmptyString)) as [|_]; [done|].
    unfold json_Marshal. cbn [Payload Timestamp].
    destruct (time.MarshalJSON (now env) ≫= json.appendCompact) as [ts|];
      cbn [mbind option_bind]; [|done].
    by rewrite Hbad.
  - intros fs' ms Hrec Hholds Hfit Hline Hreads.
    destruct (RecordMessage_read_back _ _ _ _ _ _ _ _ _ _ Hrec Hholds Hreads Hfit Hline)
      as (pl & Hpl & Hread & _).
    by exists pl, (loaded env S toolset direction pl).
Qed.

(** The payload [hello] is refused; the payload [[1, 2]], recorded for
    the session abc after its two earlier messages, is read back behind
    them in its compacted form. *)
Lemma RecordMessage_payload_compacted_witness :
  RecordMessage (Some exStore) exEnv emptyFS "abc" EmptyString "request" plainPayload
  = (emptyFS, Some ErrMarshalMessage)
  /\ exists pl m,
      json.appendCompact (json.RawMessage_MarshalJSON spacedPayload) = Some pl
      /\ readMessages exEnv
           (fst (RecordMessage (Some exStore) exEnv exampleFS "abc" EmptyString
                               "notification" spacedPayload))
           (sessionPath exStore "abc" false)
         = Ok ([mkMessage "abc" "tools" "request" (now exEnv)
                          (Some (list_ascii_of_string "[1,2]"));
                mkMessage "abc" "tools" "response" (now exEnv2)
                          (Some (list_ascii_of_string "null"))] ++ [m])
      /\ Payload m = Some pl.
Proof.
  split.
  - apply (RecordMessage_payload_compacted exStore exEnv exEnv emptyFS "abc"
             EmptyString "request" plainPayload); [discriminate|].
    vm_compute. reflexivity.
  - apply (RecordMessage_payload_compacted exStore exEnv exEnv exampleFS "abc"
             EmptyString "notification" spacedPayload); [discriminate|..].
    + vm_compute. reflexivity.
    + right. split.
      * eexists. split; [vm_compute; reflexivity|].
        apply terminated_last. vm_compute. reflexivity.
      * vm_compute. reflexivity.
    + vm_compute. reflexivity.
    + vm_compute. reflexivity.
    + apply quietEnv_readsLog.
Defined.

(** The identifier 0xFF goes to the log [_.jsonl] and comes back as
    U+FFFD. *)
Lemma byteFF_read_back :
  loadChats exStore exEnv
    (fst (RecordMessage (Some exStore) exEnv emptyFS byteFF EmptyString "request"
                        spacedPayload)) false
  = Ok [mkChat "_" false
          [mkMessage (String "239" (String "191" (String "189" EmptyString)))
                     EmptyString "request" (now exEnv)
                     (Some (list_ascii_of_string "[1,2]"))]].
Proof. vm_compute. reflexivity. Qed.

(** The identifier made of the byte 0xFF is recorded under the token [_],
    and the message loaded holds the three bytes of U+FFFD instead. *)
Lemma raw_session_id_counterexample : ~ raw_session_id_claim.
Proof.
  intros H.
  destruct (H exStore exEnv exEnv emptyFS
              (fst (RecordMessage (Some exStore) exEnv emptyFS byteFF EmptyString
                                  "request" spacedPayload))
              byteFF EmptyString "request"%string spacedPayload [])
    as (chats & m & Hload & Hfilter & Hid).
  - vm_compute. reflexivity.
  - vm_compute. reflexivity.
  - vm_compute. reflexivity.
  - vm_compute. reflexivity.
  - apply quietEnv_readsLog.
  - apply quietEnv_listsActive.
  - vm_compute. reflexivity.
  - vm_compute in Hload. injection Hload as <-.
    vm_compute in Hfilter. injection Hfilter as <-.
    vm_compute in Hid. discriminate Hid.
Qed.

(** C10, as amended. A message recorded for the raw identifier [S1] goes
    to the log named by the sanitized token of [S1], so the chat a load
    returns for it carries the sanitized token, while its message carries
    [S1] with every byte that is not part of a UTF-8 encoding replaced by
    U+FFFD, which is [S1] itself when [S1] is valid UTF-8.  When a message
    for [S2], whose sanitized token is the same, is recorded next, the
    load returns one chat under that token holding both messages in the
    order they were recorded, behind the messages [ms] the log held
    before.  This is for calls that return nil, on an active log that was
    absent or was terminated and read as [ms], with each payload within
    the nesting limit once it lies inside its message and each line
    within the buffer of the reading scanner, and for loads that meet no
    I/O error or cancellation, of a corpus that could be loaded before
    the calls. *)
Theorem sanitized_chat_raw_messages
    st env1 env2 env' fs fs1 fs2 S1 S2 t1 t2 d1 d2 p1 p2 chats0 ms :
  RecordMessage (Some st) env1 fs S1 t1 d1 p1 = (fs1, None) ->
  RecordMessage (Some st) env2 fs1 S2 t2 d2 p2 = (fs2, None) ->
  sanitizeSessionID S1 = sanitizeSessionID S2 ->
  logHolds env' fs (sessionPath st S1 false) ms ->
  json.fitsAtDepth 1 (json.RawMessage_MarshalJSON p1) = true ->
  json.fitsAtDepth 1 (json.RawMessage_MarshalJSON p2) = true ->
  lineFits (recorded env1 S1 t1 d1 p1) = true ->
  lineFits (recorded env2 S2 t2 d2 p2) = true ->
  readsLog env' st S1 ->
  listsActive env' ->
  loadChats st env' fs false = Ok chats0 ->
  exists m1 m2 chats1 chats2,
    loadChats st env' fs1 false = Ok chats1
    /\ filter (fun c => chatSessionID c = sanitizeSessionID S1) chats1
       = [mkChat (sanitizeSessionID S1) false (ms ++ [m1])]
    /\ loadChats st env' fs2 false = Ok chats2
    /\ filter (fun c => chatSessionID c = sanitizeSessionID S1) chats2
       = [mkChat (sanitizeSessionID S1) false (ms ++ [m1; m2])]
    /\ SessionID m1 = toValidUTF8 S1
    /\ SessionID m2 = toValidUTF8 S2
    /\ (ValidString S1 = true -> SessionID m1 = S1)
    /\ (ValidString S2 = true -> SessionID m2 = S2).
Proof.
  intros Hrec1 Hrec2 Hsan Hholds Hfit1 Hfit2 Hline1 Hline2 Hreads Hlists Hload.
  assert (Hpath : sessionPath st S2 false = sessionPath st S1 false)
    by (unfold sessionPath; by rewrite Hsan).
  assert (Hname : logName S2 = logName S1) by (unfold logName; by rewrite Hsan).
  assert (Hreads2 : readsLog env' st S2) by (unfold readsLog; by rewrite Hpath).
  destruct (RecordMessage_read_back _ _ _ _ _ _ _ _ _ _ Hrec1 Hholds Hreads Hfit1 Hline1)
    as (pl1 & Hpl1 & Hread1 & Hholds1).
  rewrite <- Hpath in Hholds1.
  destruct (RecordMessage_read_back _ _ _ _ _ _ _ _ _ _ Hrec2 Hholds1 Hreads2 Hfit2 Hline2)
    as (pl2 & Hpl2 & Hread2 & _).
  rewrite Hpath in Hread2. rewrite <- app_assoc in Hread2. cbn [app] in Hread2.
  destruct (RecordMessage_ok _ _ _ _ _ _ _ _ Hrec1)
    as (_ & data1 & dir & Hm1 & Hdir & _ & Hdir1 & _).
  destruct (RecordMessage_ok _ _ _ _ _ _ _ _ Hrec2)
    as (_ & data2 & dir1 & Hm2 & Hdir1' & _ & Hdir2 & _).
  rewrite Hdir1 in Hdir1'. injection Hdir1' as <-.
  destruct (logName_suffix S1) as [Hsuf Htrim].
  destruct Hlists as [Hrd Hctx].
  destruct (loadChats_after_write st env' fs fs1 dir (logName S1) _ _ chats0
              Hdir Hdir1 Hctx Hrd Hload Hsuf Hread1) as (chats1 & Hchats1 & Hfilter1).
  rewrite Hname in Hdir2.
  destruct (loadChats_after_write st env' fs1 fs2 _ (logName S1) _ _ chats1
              Hdir1 Hdir2 Hctx Hrd Hchats1 Hsuf Hread2) as (chats2 & Hchats2 & Hfilter2).
  rewrite Htrim in Hfilter1, Hfilter2.
  exists (loaded env1 S1 t1 d1 pl1), (loaded env2 S2 t2 d2 pl2), chats1, chats2.
  repeat split; try done; cbn [loaded SessionID]; apply toValidUTF8_valid.
Qed.

(** ** Worked examples *)

(** The order in which [sort.Slice] leaves the fourteen chats of seven
    sessions that have a log in both statuses: the archived chat of a01
    comes before the active one. *)
Lemma sevenTwice_export random_Next :
  exists export,
    ExportAll (sort.Slice random_Next) (Some exStore) exEnv sevenTwiceFS "export.json"
    = Ok export
    /\ map (fun c => (chatSessionID c, Archived c)) (Chats export)
       = [("a01", true); ("a01", false); ("a02", false); ("a02", true);
          ("a03", false); ("a03", true); ("a04", false); ("a04", true);
          ("a05", false); ("a05", true); ("a06", false); ("a06", true);
          ("a07", false); ("a07", true)]%string.
Proof. eexists. split; vm_compute; reflexivity. Qed.

(** With seven sessions in both statuses [ExportAll] sorts fourteen
    chats, more than the twelve [sort.Slice] sorts by insertion: the
    first partition moves the archived chat of a01 in front of the active
    one, and there it stays, while a stable sort has the active chat
    first.  No pseudo-random number is drawn on the way, so the claim
    fails whatever the generator. *)
Lemma ExportAll_stable_sort_counterexample :
  ~ exists random_Next, ExportAll_stable_sort_claim random_Next.
Proof.
  intros [random_Next H].
  destruct (sevenTwice_export random_Next) as (export & Hexp & Horder).
  destruct (H exStore exEnv sevenTwiceFS "export.json"%string export Hexp)
    as (active & archived & Ha & Hb & _ & _ & Hchats).
  vm_compute in Ha, Hb. injection Ha as <-. injection Hb as <-.
  rewrite Hchats in Horder. vm_compute in Horder. discriminate Horder.
Qed.

(** The export of the store with the active session abc (two messages)
    and the archived session xyz (one message). *)
Lemma ExportAll_counts_and_sorts_witness :
  exists export,
    ExportAll (sort.Slice N.succ) (Some exStore) exEnv exampleFS "export.json"
    = Ok export
    /\ exists active archived,
        loadChats exStore exEnv exampleFS false = Ok active
        /\ loadChats exStore exEnv exampleFS true = Ok archived
        /\ ActiveChats export = length active
        /\ ArchivedChats export = length archived
        /\ Chats export ≡ₚ active ++ archived
        /\ Sorted (fun a b => lessSessionID b a = false) (Chats export).
Proof.
  eexists. split; [vm_compute; reflexivity|].
  apply (ExportAll_counts_and_sorts N.succ exStore exEnv exampleFS "export.json").
  vm_compute. reflexivity.
Defined.

(** Archiving [a1, a2] after [b1, b2]. *)
Lemma ArchiveSession_appends_after_archived_witness :
  lookupPath (fst (ArchiveSession (Some exStore) exEnv mergeFS "s"))
             (sessionPath exStore "s" true)
  = Some (File (logOf [list_ascii_of_string "b1"; list_ascii_of_string "b2";
                       list_ascii_of_string "a1"; list_ascii_of_string "a2"]))
  /\ lookupPath (fst (ArchiveSession (Some exStore) exEnv mergeFS "s"))
                (sessionPath exStore "s" false) = None.
Proof.
  apply (ArchiveSession_appends_after_archived exStore exEnv mergeFS "s").
  - discriminate.
  - vm_compute. reflexivity.
  - vm_compute. reflexivity.
  - vm_compute. reflexivity.
Defined.

(** When the write to the archived log fails, [ArchiveSession] returns an
    error and the active log is as before. *)
Lemma ArchiveSession_failure_keeps_active_log_witness :
  snd (ArchiveSession (Some exStore) archiveWriteFails mergeFS "s") ≠ None
  /\ lookupPath (fst (ArchiveSession (Some exStore) archiveWriteFails mergeFS "s"))
                (sessionPath exStore "s" false)
     = lookupPath mergeFS (sessionPath exStore "s" false).
Proof.
  destruct (ArchiveSession_failure_keeps_active_log exStore archiveWriteFails mergeFS
              "s" (fst (ArchiveSession (Some exStore) archiveWriteFails mergeFS "s"))
              (snd (ArchiveSession (Some exStore) archiveWriteFails mergeFS "s")))
    as (Hfail & Hkeep & _).
  - discriminate.
  - vm_compute. reflexivity.
  - assert (Herr : snd (ArchiveSession (Some exStore) archiveWriteFails mergeFS "s") ≠ None).
    { apply Hfail. exists (OpWrite (sessionPath exStore "s" true)). split.
      - vm_compute. do 4 right. left.
      - reflexivity. }
    split; [exact Herr|exact (Hkeep Herr)].
Defined.

(** [ArchiveSession] without an active log, and twice in a row. *)
Lemma ArchiveSession_idempotent_witness :
  (lookupPath emptyFS (sessionPath exStore "s" false) = None ->
   ArchiveSession (Some exStore) exEnv emptyFS "s" = (emptyFS, None))
  /\ (forall fs1,
        ArchiveSession (Some exStore) exEnv mergeFS "s" = (fs1, None) ->
        ArchiveSession (Some exStore) exEnv fs1 "s" = (fs1, None)).
Proof.
  split.
  - apply (ArchiveSession_idempotent exStore exEnv exEnv emptyFS "s"). reflexivity.
  - apply (ArchiveSession_idempotent exStore exEnv exEnv mergeFS "s"). reflexivity.
Defined.

(** The store of a root made of two spaces. *)
Lemma disabled_store_noop_witness :
  exists s,
    NewStore exEnv emptyFS "  " = (emptyFS, s, None)
    /\ (forall env' fs' S toolset direction payload,
          RecordMessage s env' fs' S toolset direction payload = (fs', None))
    /\ (forall env' fs' S, ArchiveSession s env' fs' S = (fs', None))
    /\ (forall env' fs' out, exists e, ExportAll mergeSortBy s env' fs' out = Err e).
Proof.
  apply (disabled_store_noop mergeSortBy exEnv emptyFS "  "). reflexivity.
Defined.

(** No archived directory: no chats; a log whose second line is cut
    short: an error. *)
Lemma loadChats_missing_dir_and_malformed_witness :
  loadChats exStore exEnv tornFS true = Ok []
  /\ exists e, loadChats exStore exEnv tornFS false = Err e.
Proof.
  split.
  - apply (loadChats_missing_dir_and_malformed exStore exEnv tornFS true);
      reflexivity.
  - eapply (loadChats_missing_dir_and_malformed exStore exEnv tornFS false)
      with (name := "s.jsonl"%string) (l := list_ascii_of_string "{").
    + reflexivity.
    + vm_compute. reflexivity.
    + vm_compute. reflexivity.
    + vm_compute. right. left.
    + vm_compute. reflexivity.
Defined.

(** The identifiers [a b] and [a/b] share the token [a_b]: their messages
    load as one chat. *)
Lemma sanitized_chat_raw_messages_witness :
  exists m1 m2 chats1 chats2,
    loadChats exStore exEnv
      (fst (RecordMessage (Some exStore) exEnv emptyFS "a b" EmptyString "request"
                          spacedPayload)) false = Ok chats1
    /\ filter (fun c => chatSessionID c = sanitizeSessionID "a b") chats1
       = [mkChat (sanitizeSessionID "a b") false [m1]]
    /\ loadChats exStore exEnv
         (fst (RecordMessage (Some exStore) exEnv2
                 (fst (RecordMessage (Some exStore) exEnv emptyFS "a b" EmptyString
                                     "request" spacedPayload))
                 "a/b" EmptyString "response" None)) false = Ok chats2
    /\ filter (fun c => chatSessionID c = sanitizeSessionID "a b") chats2
       = [mkChat (sanitizeSessionID "a b") false [m1; m2]]
    /\ SessionID m1 = toValidUTF8 "a b"
    /\ SessionID m2 = toValidUTF8 "a/b"
    /\ (ValidString "a b" = true -> SessionID m1 = "a b"%string)
    /\ (ValidString "a/b" = true -> SessionID m2 = "a/b"%string).
Proof.
  apply (sanitized_chat_raw_messages exStore exEnv exEnv2 exEnv emptyFS _ _
           "a b" "a/b" EmptyString EmptyString "request" "response"
           spacedPayload None [] []).
  - vm_compute. reflexivity.
  - vm_compute. reflexivity.
  - vm_compute. reflexivity.
  - left. split; vm_compute; reflexivity.
  - vm_compute. reflexivity.
  - vm_compute. reflexivity.
  - vm_compute. reflexivity.
  - vm_compute. reflexivity.
  - apply quietEnv_readsLog.
  - apply quietEnv_listsActive.
  - vm_compute. reflexivity.
Defined.

(* ===================================================================== *)
(** * Further properties of the store and of its callers *)
(* ===================================================================== *)

(** ** [sanitizeSessionID] *)

Ltac cmp_cases :=
  repeat (match goal with
          | |- context [?a <=? ?b] => destruct (N.leb_spec a b)
          | |- context [?a =? ?b] => destruct (N.eqb_spec a b)
          end; cbn [andb orb negb]).

Lemma byte_val_letters :
  byte_val "a" = 97 /\ byte_val "z" = 122 /\ byte_val "A" = 65 /\ byte_val "Z" = 90
  /\ byte_val "0" = 48 /\ byte_val "9" = 57
  /\ byte_val "-" = 45 /\ byte_val "_" = 95 /\ byte_val "." = 46.
Proof. by repeat split. Qed.

Lemma sanitizeRune_range r :
  let x := sanitizeRune r in
  97 <= x <= 122 \/ 65 <= x <= 90 \/ 48 <= x <= 57 \/ x = 45 \/ x = 95 \/ x = 46.
Proof.
  destruct byte_val_letters as (Ea & Ez & EA & EZ & E0 & E9 & Eh & Eu & Ep).
  unfold sanitizeRune. rewrite Ea, Ez, EA, EZ, E0, E9, Eh, Eu, Ep.
  cmp_cases; lia.
Qed.

Lemma isTokenByte_range x :
  97 <= x <= 122 \/ 65 <= x <= 90 \/ 48 <= x <= 57 \/ x = 45 \/ x = 95 \/ x = 46 ->
  isTokenByte (ascii_of_N x) = true.
Proof.
  intros H. destruct byte_val_letters as (Ea & Ez & EA & EZ & E0 & E9 & Eh & Eu & Ep).
  unfold isTokenByte. rewrite N_ascii_embedding by lia.
  rewrite Ea, Ez, EA, EZ, E0, E9, Eh, Eu, Ep. cbv zeta.
  cmp_cases; try reflexivity; lia.
Qed.

Lemma sanitizeRune_token r :
  sanitizeRune r < 0x80 /\ isTokenByte (ascii_of_N (sanitizeRune r)) = true.
Proof.
  pose proof (sanitizeRune_range r) as H. cbv zeta in H.
  split; [lia|by apply isTokenByte_range].
Qed.

Lemma sanitizeRune_fixed c :
  isTokenByte c = true -> byte_val c < 0x80 /\ sanitizeRune (byte_val c) = byte_val c.
Proof.
  destruct byte_val_letters as (Ea & Ez & EA & EZ & E0 & E9 & Eh & Eu & Ep).
  unfold sanitizeRune, isTokenByte. rewrite Ea, Ez, EA, EZ, E0, E9, Eh, Eu, Ep.
  cbv zeta. generalize (byte_val c). intros r.
  cmp_cases; intros Htok; try discriminate Htok; split; try reflexivity; lia.
Qed.

Lemma EncodeRune_small n : n < 0x80 -> utf8.EncodeRune n = [ascii_of_N n].
Proof.
  intros Hn. rewrite <- (EncodeRune_ascii (ascii_of_N n));
    rewrite N_ascii_embedding by lia; [done|lia].
Qed.

(** The bytes of a sanitized identifier, one per rune of the raw one. *)
Lemma sanitizeSessionID_bytes S :
  list_ascii_of_string (sanitizeSessionID S)
  = map (fun rs => ascii_of_N (sanitizeRune (fst rs))) (runes S).
Proof.
  unfold sanitizeSessionID, strings.Map. rewrite list_ascii_of_string_of_list_ascii.
  induction (runes S) as [|rs l IH]; [done|]. cbn [map concat]. rewrite IH.
  destruct (sanitizeRune_token (fst rs)) as [Hlt _].
  by rewrite (EncodeRune_small _ Hlt).
Qed.

(** The runes of a text of ASCII bytes are its bytes. *)
Lemma runes_from_ascii l :
  Forall (fun c => byte_val c < 0x80) l ->
  runes_from 0 l = map (fun c => (byte_val c, 1%nat)) l.
Proof.
  induction 1 as [|c l Hc Hl IH]; [done|].
  cbn [runes_from map]. unfold utf8.DecodeRune at 1 2.
  assert (Hf : utf8.first (byte_val c) = utf8.ASCII).
  { unfold utf8.first. destruct (N.ltb_spec (byte_val c) 128); [done|lia]. }
  rewrite Hf. cbn [snd Nat.pred]. by rewrite IH.
Qed.

(** X1. Every byte of a sanitized session identifier is an ASCII letter,
    a digit, a hyphen, an underscore or a period: in particular the name
    of a log holds no path separator. *)
Theorem sanitizeSessionID_token_bytes S :
  Forall (fun c => isTokenByte c = true) (list_ascii_of_string (sanitizeSessionID S)).
Proof.
  rewrite sanitizeSessionID_bytes. apply Forall_map, Forall_forall.
  intros rs _. apply sanitizeRune_token.
Qed.

(** X2. An identifier made of ASCII letters, digits, hyphens, underscores
    and periods only is its own sanitized token. *)
Theorem sanitizeSessionID_fixed S :
  Forall (fun c => isTokenByte c = true) (list_ascii_of_string S) ->
  sanitizeSessionID S = S.
Proof.
  intros H. rewrite <- (string_of_list_ascii_of_string (sanitizeSessionID S)).
  rewrite <- (string_of_list_ascii_of_string S) at 2. f_equal.
  rewrite sanitizeSessionID_bytes. unfold runes.
  rewrite runes_from_ascii.
  - rewrite map_map. cbn [fst]. rewrite <- (map_id (list_ascii_of_string S)) at 2.
    apply map_ext_Forall. eapply Forall_impl; [exact H|].
    intros c Hc. cbv beta. destruct (sanitizeRune_fixed c Hc) as [_ ->].
    apply ascii_N_embedding.
  - eapply Forall_impl; [exact H|]. intros c Hc. apply (sanitizeRune_fixed c Hc).
Qed.

Lemma sanitizeSessionID_fixed_witness : sanitizeSessionID "Sess-01_a.b" = "Sess-01_a.b"%string.
Proof.
  apply (sanitizeSessionID_fixed "Sess-01_a.b").
  repeat constructor.
Defined.

(** X3. Sanitizing is idempotent: the token of a token is the token. *)
Theorem sanitizeSessionID_idempotent S :
  sanitizeSessionID (sanitizeSessionID S) = sanitizeSessionID S.
Proof.
  rewrite <- (string_of_list_ascii_of_string (sanitizeSessionID (sanitizeSessionID S))).
  rewrite <- (string_of_list_ascii_of_string (sanitizeSessionID S)) at 2. f_equal.
  rewrite (sanitizeSessionID_bytes (sanitizeSessionID S)). unfold runes.
  pose proof (sanitizeSessionID_bytes S) as Hb.
  assert (Htok : Forall (fun c => isTokenByte c = true)
                        (list_ascii_of_string (sanitizeSessionID S))).
  { rewrite Hb. apply Forall_map, Forall_forall. intros rs _. apply sanitizeRune_token. }
  rewrite runes_from_ascii.
  - rewrite map_map. cbn [fst].
    rewrite <- (map_id (list_ascii_of_string (sanitizeSessionID S))) at 2.
    apply map_ext_Forall. eapply Forall_impl; [exact Htok|].
    intros c Hc. cbv beta. destruct (sanitizeRune_fixed c Hc) as [_ ->].
    apply ascii_N_embedding.
  - eapply Forall_impl; [exact Htok|]. intros c Hc. apply (sanitizeRune_fixed c Hc).
Qed.

Lemma runes_from_length l : forall skip, (length (runes_from skip l) <= length l)%nat.
Proof.
  induction l as [|c l IH]; intros skip; [done|].
  cbn [runes_from]. destruct skip as [|k]; cbn [length].
  - specialize (IH (Nat.pred (snd (utf8.DecodeRune (c :: l))))). lia.
  - specialize (IH k). lia.
Qed.

(** X4. The sanitized token has one byte per rune of the raw identifier
    (a byte that is not part of a UTF-8 encoding counting as one rune): it
    is never longer than the raw identifier, and it is empty only when
    the raw identifier is. *)
Theorem sanitizeSessionID_length S :
  String.length (sanitizeSessionID S) = length (runes S)
  /\ (String.length (sanitizeSessionID S) <= String.length S)%nat
  /\ (sanitizeSessionID S = EmptyString <-> S = EmptyString).
Proof.
  assert (Hlen : String.length (sanitizeSessionID S) = length (runes S)).
  { by rewrite string_length_list, sanitizeSessionID_bytes, length_map. }
  split; [done|]. split.
  - rewrite Hlen, (string_length_list S). apply runes_from_length.
  - split; [|by intros ->].
    intros He. rewrite He in Hlen. destruct S as [|c S]; [done|].
    unfold runes in Hlen. cbn in Hlen. discriminate Hlen.
Qed.

(** ** [NewStore] *)

Lemma os_MkdirAll_spec env fs a fs1 ok :
  os_MkdirAll env fs a = (fs1, ok) ->
  (forall p, lookupPath fs1 p = lookupPath fs p)
  /\ (forall b, is_Some (statusDir fs b) -> statusDir fs1 b = statusDir fs b)
  /\ (forall b, is_Some (statusDir fs b) -> is_Some (statusDir fs1 b))
  /\ (ok = true -> is_Some (statusDir fs1 a)).
Proof.
  unfold os_MkdirAll. destruct (fails env _); [intros [= <- <-]; by repeat split|].
  destruct (statusDir fs a) as [d|] eqn:Hd; intros [= <- <-].
  - repeat split; try done. all: intros _; by rewrite Hd.
  - assert (Hs : forall b, is_Some (statusDir fs b) ->
                           statusDir (setStatusDir fs a (Some ∅)) b = statusDir fs b).
    { intros b Hb. rewrite statusDir_setStatusDir. destruct (decide (a = b)) as [<-|]; [|done].
      rewrite Hd in Hb. by destruct Hb. }
    repeat split.
    + intros [b name]. unfold lookupPath. cbn [fst snd].
      rewrite statusDir_setStatusDir. destruct (decide (a = b)) as [<-|]; [|done].
      by rewrite Hd.
    + exact Hs.
    + intros b Hb. by rewrite Hs.
    + intros _. rewrite statusDir_setStatusDir. by destruct (decide (a = a)).
Qed.

(** X5. [NewStore] returns neither a store nor an error exactly when the
    root is blank, and never both; when it returns a store it is the
    store of the given root and both status directories exist; and
    whatever its outcome, it leaves every existing log as it was. *)
Theorem NewStore_outcome env fs root fs' s e :
  NewStore env fs root = (fs', s, e) ->
  ((s = None /\ e = None) <-> strings.TrimSpace_is_empty root = true)
  /\ (s <> None ->
      e = None /\ s = Some (mkStore root)
      /\ is_Some (statusDir fs' false) /\ is_Some (statusDir fs' true))
  /\ (forall p, lookupPath fs' p = lookupPath fs p).
Proof.
  unfold NewStore. destruct (strings.TrimSpace_is_empty root) eqn:Hblank.
  { intros [= <- <- <-]. by repeat split. }
  destruct (os_MkdirAll env fs false) as [fs1 ok1] eqn:H1.
  apply os_MkdirAll_spec in H1 as (Hl1 & _ & Hk1 & Ho1).
  destruct ok1.
  2:{ intros [= <- <- <-]. repeat split; try done. by intros [_ [=]]. }
  destruct (os_MkdirAll env fs1 true) as [fs2 ok2] eqn:H2.
  apply os_MkdirAll_spec in H2 as (Hl2 & _ & Hk2 & Ho2).
  destruct ok2; intros [= <- <- <-].
  - repeat split; try done; try (by intros [[=] _]); auto.
    intros p. by rewrite Hl2, Hl1.
  - repeat split; try done; try (by intros [_ [=]]).
    intros p. by rewrite Hl2, Hl1.
Qed.

Lemma NewStore_outcome_witness :
  exists fs' s e,
    NewStore exEnv (mkFS None None) "/data" = (fs', s, e)
    /\ ((s = None /\ e = None) <-> strings.TrimSpace_is_empty "/data" = true)
    /\ (s <> None ->
        e = None /\ s = Some (mkStore "/data")
        /\ is_Some (statusDir fs' false) /\ is_Some (statusDir fs' true))
    /\ (forall p, lookupPath fs' p = lookupPath (mkFS None None) p).
Proof.
  eexists _, _, _. split; [vm_compute; reflexivity|].
  apply (NewStore_outcome exEnv (mkFS None None) "/data").
  vm_compute. reflexivity.
Defined.

(** ** What [RecordMessage] touches *)

Lemma file_Write_append env fs p data fs1 ok old :
  file_Write env fs p data = (fs1, ok) ->
  lookupPath fs p = Some (File old) ->
  exists extra, lookupPath fs1 p = Some (File (old ++ extra))
                /\ (ok = true -> extra = data).
Proof.
  unfold file_Write, lookupPath. destruct (statusDir fs (fst p)) as [d|] eqn:Hd; [|done].
  cbn [mbind option_bind]. intros Hw Hold. rewrite Hold in Hw.
  destruct (fails env (OpWrite p)); injection Hw as <- <-;
    rewrite statusDir_setStatusDir; (destruct (decide (fst p = fst p)); [|done]);
    cbn [mbind option_bind]; rewrite lookup_insert_eq; eauto.
  eexists. split; [done|]. discriminate.
Qed.

Lemma sessionPath_token st S S' a :
  sessionPath st S' a = sessionPath st S a -> sanitizeSessionID S' = sanitizeSessionID S.
Proof.
  unfold sessionPath. intros [= H].
  apply (f_equal (fun s => strings.TrimSuffix s ".jsonl")) in H.
  by rewrite !TrimSuffix_app in H.
Qed.

(** Whatever its outcome, [RecordMessage] leaves the other paths alone. *)
Lemma RecordMessage_other st env fs S toolset direction payload fs' e :
  RecordMessage (Some st) env fs S toolset direction payload = (fs', e) ->
  forall q, q <> sessionPath st S false -> lookupPath fs' q = lookupPath fs q.
Proof.
  unfold RecordMessage.
  destruct (decide (S = EmptyString)); [by intros [= <- <-]|].
  destruct (json_Marshal _) as [data|]; [|by intros [= <- <-]].
  destruct (os_OpenAppend env fs _) as [fs1 ok1] eqn:Hopen.
  apply os_OpenAppend_spec in Hopen as (Ho & _ & _).
  destruct ok1; [|intros [= <- <-]; auto].
  destruct (file_Write env fs1 _ _) as [fs2 ok2] eqn:Hw.
  apply file_Write_spec in Hw as (Hw & _).
  intros Hres q Hne.
  assert (fs' = fs2) as -> by (destruct (_ <? _), ok2; by injection Hres).
  by rewrite Hw, Ho.
Qed.

(** X6. Whatever its outcome, [RecordMessage] touches nothing but the
    active log of its session: the archived status and the logs of the
    sessions with another sanitized token are as before. *)
Theorem RecordMessage_frame st env fs S toolset direction payload fs' e :
  RecordMessage (Some st) env fs S toolset direction payload = (fs', e) ->
  (forall q, q <> sessionPath st S false -> lookupPath fs' q = lookupPath fs q)
  /\ (forall S', lookupPath fs' (sessionPath st S' true)
                 = lookupPath fs (sessionPath st S' true))
  /\ (forall S' a, sanitizeSessionID S' <> sanitizeSessionID S ->
                   lookupPath fs' (sessionPath st S' a) = lookupPath fs (sessionPath st S' a)).
Proof.
  intros Hrec.
  pose proof (RecordMessage_other _ _ _ _ _ _ _ _ _ Hrec) as Hq.
  split; [exact Hq|]. split.
  - intros S'. apply Hq. unfold sessionPath. congruence.
  - intros S' a Hne. apply Hq. intros Heq. destruct a.
    + unfold sessionPath in Heq. congruence.
    + by apply sessionPath_token in Heq.
Qed.

Lemma RecordMessage_frame_witness :
  (forall q, q <> sessionPath exStore "abc" false ->
             lookupPath (fst (RecordMessage (Some exStore) exEnv mergeFS "abc" EmptyString
                                            "request" spacedPayload)) q
             = lookupPath mergeFS q)
  /\ (forall S', lookupPath (fst (RecordMessage (Some exStore) exEnv mergeFS "abc"
                                                EmptyString "request" spacedPayload))
                            (sessionPath exStore S' true)
                 = lookupPath mergeFS (sessionPath exStore S' true))
  /\ (forall S' a, sanitizeSessionID S' <> sanitizeSessionID "abc" ->
                   lookupPath (fst (RecordMessage (Some exStore) exEnv mergeFS "abc"
                                                  EmptyString "request" spacedPayload))
                              (sessionPath exStore S' a)
                   = lookupPath mergeFS (sessionPath exStore S' a)).
Proof.
  apply (RecordMessage_frame exStore exEnv mergeFS "abc" EmptyString "request"
           spacedPayload _ None).
  vm_compute. reflexivity.
Defined.

(** X7. [RecordMessage] only ever appends: whatever its outcome, what the
    active log of the session held before is a prefix of what it holds
    after; and a call that returns nil has added exactly one line, the
    JSON text of the message followed by a newline, with no newline
    inside it. *)
Theorem RecordMessage_appends_one_line st env fs S toolset direction payload fs' e old :
  RecordMessage (Some st) env fs S toolset direction payload = (fs', e) ->
  lookupPath fs (sessionPath st S false) = Some (File old) ->
  exists extra,
    lookupPath fs' (sessionPath st S false) = Some (File (old ++ extra))
    /\ (e = None ->
        exists line,
          json_Marshal (recorded env S toolset direction payload) = Some line
          /\ extra = line ++ [newline]
          /\ newline ∉ line).
Proof.
  unfold RecordMessage, recorded. intros Hrec Hold.
  destruct (decide (S = EmptyString)).
  { injection Hrec as <- <-. exists []. by rewrite app_nil_r. }
  destruct (json_Marshal _) as [data|] eqn:Hm.
  2:{ injection Hrec as <- <-. exists []. by rewrite app_nil_r. }
  destruct (os_OpenAppend env fs _) as [fs1 ok1] eqn:Hopen.
  apply os_OpenAppend_spec in Hopen as (_ & Hsame & Ho).
  destruct ok1.
  2:{ injection Hrec as <- <-. rewrite (Hsame eq_refl). exists []. by rewrite app_nil_r. }
  specialize (Ho eq_refl). rewrite Hold in Ho.
  destruct (file_Write env fs1 _ _) as [fs2 ok2] eqn:Hw.
  destruct (file_Write_append _ _ _ _ _ _ _ Hw Ho) as (extra & Hnew & Hextra).
  assert (fs' = fs2 /\ (e = None -> ok2 = true)) as [-> Hok].
  { destruct (_ <? _), ok2; injection Hrec as <- <-; by split. }
  exists extra. split; [done|]. intros He. exists data.
  rewrite (Hextra (Hok He)). repeat split.
  by destruct (json_Marshal_line _ _ Hm).
Qed.

Lemma RecordMessage_appends_one_line_witness :
  exists extra line,
    lookupPath (fst (RecordMessage (Some exStore) exEnv twiceFS "abc" EmptyString
                                   "request" spacedPayload))
               (sessionPath exStore "abc" false) = Some (File ([] ++ extra))
    /\ json_Marshal (recorded exEnv "abc" EmptyString "request" spacedPayload)
       = Some line
    /\ extra = line ++ [newline]
    /\ newline ∉ line.
Proof.
  destruct (RecordMessage_appends_one_line exStore exEnv twiceFS "abc" EmptyString
              "request" spacedPayload
              (fst (RecordMessage (Some exStore) exEnv twiceFS "abc" EmptyString
                                  "request" spacedPayload)) None [])
    as (extra & Hnew & Hline).
  - vm_compute. reflexivity.
  - vm_compute. reflexivity.
  - destruct (Hline eq_refl) as (line & Hm & Hextra & Hnl).
    exists extra, line. exact (conj Hnew (conj Hm (conj Hextra Hnl))).
Defined.

(** X8. [RecordMessage] does not create the active directory: when it is
    missing, the call for a non-empty identifier returns an error and
    writes nothing. *)
Theorem RecordMessage_missing_directory st env fs S toolset direction payload :
  statusDir fs false = None ->
  S <> EmptyString ->
  exists e, RecordMessage (Some st) env fs S toolset direction payload = (fs, Some e).
Proof.
  intros Hdir HS. unfold RecordMessage. destruct (decide (S = EmptyString)); [done|].
  destruct (json_Marshal _); [|eauto].
  unfold os_OpenAppend. destruct (fails env _); [eauto|].
  cbn [sessionPath fst]. rewrite Hdir. eauto.
Qed.

Lemma RecordMessage_missing_directory_witness :
  exists e, RecordMessage (Some exStore) exEnv (mkFS None None) "abc" EmptyString
                          "request" spacedPayload
            = (mkFS None None, Some e).
Proof.
  apply (RecordMessage_missing_directory exStore exEnv (mkFS None None) "abc"
           EmptyString "request" spacedPayload).
  - reflexivity.
  - discriminate.
Defined.

(** ** What [ArchiveSession] moves *)

(** A successful [ArchiveSession] of a session that has an active log. *)
Lemma ArchiveSession_success st env fs S new fs' :
  S <> EmptyString ->
  lookupPath fs (sessionPath st S false) = Some (File new) ->
  ArchiveSession (Some st) env fs S = (fs', None) ->
  lookupPath fs' (sessionPath st S true)
  = Some (File (contentAt fs (sessionPath st S true) ++ new))
  /\ lookupPath fs' (sessionPath st S false) = None.
Proof.
  intros HS Hsrc Harch. unfold contentAt.
  destruct (lookupPath fs (sessionPath st S true)) as [[old|]|] eqn:Hdst.
  - destruct (ArchiveSession_merge _ _ _ _ _ _ _ HS Hsrc Hdst Harch) as (H1 & H2 & _).
    by split.
  - (* the destination is a directory: the append cannot succeed *)
    exfalso. revert Harch. unfold ArchiveSession.
    destruct (decide (S = EmptyString)); [done|].
    unfold os_Stat. rewrite Hsrc, Hdst.
    destruct (fails env (OpStat (sessionPath st S false))); [done|].
    destruct (fails env (OpStat (sessionPath st S true))); [done|].
    unfold appendFile, os_ReadFile. rewrite Hsrc.
    destruct (fails env (OpReadFile _)); [done|].
    unfold os_OpenAppend. destruct (fails env (OpOpenAppend _)); [done|].
    unfold lookupPath in Hdst.
    destruct (statusDir fs (fst (sessionPath st S true))) as [d|]; [|done].
    cbn [mbind option_bind] in Hdst. by rewrite Hdst.
  - revert Harch. unfold ArchiveSession.
    destruct (decide (S = EmptyString)); [done|].
    unfold os_Stat. rewrite Hsrc, Hdst.
    destruct (fails env (OpStat (sessionPath st S false))); [done|].
    destruct (fails env (OpStat (sessionPath st S true))); [done|].
    destruct (os_Rename env fs _ _) as [fs1 ok] eqn:Hrn.
    apply os_Rename_spec in Hrn as (_ & _ & Hr); [|done].
    destruct ok; [|done]. intros [= <-]. destruct (Hr eq_refl) as [H1 H2].
    split; [|done]. by rewrite H2, Hsrc.
Qed.

(** Whatever its outcome, [ArchiveSession] leaves the other paths alone. *)
Lemma ArchiveSession_other st env fs S fs' e :
  ArchiveSession (Some st) env fs S = (fs', e) ->
  forall q, q <> sessionPath st S false -> q <> sessionPath st S true ->
            lookupPath fs' q = lookupPath fs q.
Proof.
  unfold ArchiveSession. destruct (decide (S = EmptyString)); [by intros [= <- <-]|].
  destruct (os_Stat env fs (sessionPath st S false)); try by intros [= <- <-].
  destruct (os_Stat env fs (sessionPath st S true)); try by intros [= <- <-].
  - destruct (appendFile env fs _ _) as [fs1 e1] eqn:Happ.
    pose proof (appendFile_other _ _ _ _ _ _ Happ) as Ha.
    destruct e1; [intros [= <- <-] q _ Hq; by apply Ha|].
    destruct (os_Remove env fs1 _) as [fs2 ok] eqn:Hrm.
    apply os_Remove_spec in Hrm as (Hr & _ & _).
    intros Hres q Hq1 Hq2.
    assert (fs' = fs2) as -> by (destruct ok; by injection Hres).
    by rewrite Hr, Ha.
  - destruct (os_Rename env fs _ _) as [fs1 ok] eqn:Hrn.
    apply os_Rename_spec in Hrn as (Hr & _ & _); [|done].
    intros Hres q Hq1 Hq2.
    assert (fs' = fs1) as -> by (destruct ok; by injection Hres).
    by apply Hr.
Qed.

(** X9. A successful [ArchiveSession] of a session with an active log
    loses no byte and adds none: the archived log then holds what it held
    before (nothing, when there was none) followed by the bytes of the
    active log, and the active log is gone. *)
Theorem ArchiveSession_moves_log st env fs S new fs' :
  S <> EmptyString ->
  lookupPath fs (sessionPath st S false) = Some (File new) ->
  ArchiveSession (Some st) env fs S = (fs', None) ->
  lookupPath fs' (sessionPath st S true)
  = Some (File (contentAt fs (sessionPath st S true) ++ new))
  /\ lookupPath fs' (sessionPath st S false) = None.
Proof. apply ArchiveSession_success. Qed.

Lemma ArchiveSession_moves_log_witness :
  lookupPath (fst (ArchiveSession (Some exStore) exEnv activeOnlyFS "s"))
             (sessionPath exStore "s" true)
  = Some (File (contentAt activeOnlyFS (sessionPath exStore "s" true)
                ++ logOf [list_ascii_of_string "{}"]))
  /\ lookupPath (fst (ArchiveSession (Some exStore) exEnv activeOnlyFS "s"))
                (sessionPath exStore "s" false) = None.
Proof.
  apply (ArchiveSession_moves_log exStore exEnv activeOnlyFS "s").
  - discriminate.
  - vm_compute. reflexivity.
  - vm_compute. reflexivity.
Defined.

(** X10. Whatever its outcome, [ArchiveSession] touches nothing but the two
    logs of its session: the logs of the sessions with another sanitized
    token are as before, in both statuses. *)
Theorem ArchiveSession_frame st env fs S fs' e :
  ArchiveSession (Some st) env fs S = (fs', e) ->
  (forall q, q <> sessionPath st S false -> q <> sessionPath st S true ->
             lookupPath fs' q = lookupPath fs q)
  /\ (forall S' a, sanitizeSessionID S' <> sanitizeSessionID S ->
                   lookupPath fs' (sessionPath st S' a) = lookupPath fs (sessionPath st S' a)).
Proof.
  intros Harch. pose proof (ArchiveSession_other _ _ _ _ _ _ Harch) as Hq.
  split; [exact Hq|]. intros S' a Hne.
  apply Hq; intros Heq; destruct a;
    try (unfold sessionPath in Heq; congruence);
    by apply sessionPath_token in Heq.
Qed.

Lemma ArchiveSession_frame_witness :
  (forall q, q <> sessionPath exStore "s" false -> q <> sessionPath exStore "s" true ->
             lookupPath (fst (ArchiveSession (Some exStore) archiveWriteFails mergeFS "s")) q
             = lookupPath mergeFS q)
  /\ (forall S' a, sanitizeSessionID S' <> sanitizeSessionID "s" ->
                   lookupPath (fst (ArchiveSession (Some exStore) archiveWriteFails mergeFS "s"))
                              (sessionPath exStore S' a)
                   = lookupPath mergeFS (sessionPath exStore S' a)).
Proof.
  apply (ArchiveSession_frame exStore archiveWriteFails mergeFS "s" _
           (snd (ArchiveSession (Some exStore) archiveWriteFails mergeFS "s"))).
  vm_compute. reflexivity.
Defined.

(** ** Terminated logs *)

Lemma RecordMessage_appends_one_line_aux st env fs S toolset direction payload fs' old :
  RecordMessage (Some st) env fs S toolset direction payload = (fs', None) ->
  lookupPath fs (sessionPath st S false) = Some (File old) ->
  exists line, lookupPath fs' (sessionPath st S false)
               = Some (File (old ++ line ++ [newline])).
Proof.
  intros Hrec Hold.
  destruct (RecordMessage_ok _ _ _ _ _ _ _ _ Hrec)
    as (_ & data0 & dir & _ & Hdir & _ & Hdir' & _).
  exists data0. unfold lookupPath, sessionPath in *. cbn [fst snd] in *.
  rewrite Hdir in Hold. rewrite Hdir'. cbn [mbind option_bind] in *.
  unfold logName. rewrite lookup_insert_eq. unfold contentOf, logName. by rewrite Hold.
Qed.


Lemma lookupPath_insert fs a d name n (p : path) :
  statusDir fs a = Some d ->
  lookupPath (setStatusDir fs a (Some (<[name := n]> d))) p
  = if decide (p = (a, name)) then Some n else lookupPath fs p.
Proof.
  intros Hd. destruct p as [b nm]. unfold lookupPath. cbn [fst snd].
  rewrite statusDir_setStatusDir. destruct (decide (a = b)) as [<-|Hab].
  - cbn [mbind option_bind]. rewrite Hd. cbn [mbind option_bind].
    destruct (decide (nm = name)) as [->|Hn].
    + rewrite lookup_insert_eq. by destruct (decide _).
    + rewrite lookup_insert_ne by done. destruct (decide _) as [[=]|]; done.
  - destruct (decide _) as [[=]|]; done.
Qed.

(** X11. Successful calls keep every log terminated: when every log of
    the store is empty or ends with a newline, it is still so after a
    [RecordMessage] and after an [ArchiveSession] that return nil. *)
Theorem success_keeps_logs_terminated st env fs :
  terminatedFS fs ->
  (forall S toolset direction payload fs',
      RecordMessage (Some st) env fs S toolset direction payload = (fs', None) ->
      terminatedFS fs')
  /\ (forall S fs', ArchiveSession (Some st) env fs S = (fs', None) -> terminatedFS fs').
Proof.
  intros Hfs. split.
  - intros S toolset direction payload fs' Hrec p data Hp.
    destruct (decide (p = sessionPath st S false)) as [->|Hne].
    + destruct (lookupPath fs (sessionPath st S false)) as [[old|]|] eqn:Hold.
      * destruct (RecordMessage_appends_one_line_aux _ _ _ _ _ _ _ _ _ Hrec Hold)
          as (line & Hnew).
        rewrite Hnew in Hp. injection Hp as <-.
        apply terminated_app; [by eapply Hfs|]. right. by exists line.
      * exfalso. destruct (RecordMessage_ok _ _ _ _ _ _ _ _ Hrec)
          as (_ & data0 & dir & _ & Hdir & Hnd & _).
        apply Hnd. rewrite <- Hold. unfold lookupPath, sessionPath, logName.
        cbn [fst snd]. by rewrite Hdir.
      * destruct (RecordMessage_ok _ _ _ _ _ _ _ _ Hrec)
          as (_ & data0 & dir & _ & Hdir & _ & Hdir' & _).
        unfold lookupPath, sessionPath in Hp, Hold. cbn [fst snd] in Hp, Hold.
        rewrite Hdir' in Hp. rewrite Hdir in Hold. cbn [mbind option_bind] in Hp, Hold.
        unfold logName in Hp. rewrite lookup_insert_eq in Hp. injection Hp as <-.
        unfold contentOf, logName. rewrite Hold. right. by exists data0.
    + rewrite (RecordMessage_other _ _ _ _ _ _ _ _ _ Hrec p Hne) in Hp. by eapply Hfs.
  - intros S fs' Harch p data Hp.
    destruct (decide (S = EmptyString)) as [->|HS].
    { unfold ArchiveSession in Harch. destruct (decide _); [|done].
      injection Harch as <-. by eapply Hfs. }
    destruct (lookupPath fs (sessionPath st S false)) as [[new|]|] eqn:Hsrc.
    + destruct (ArchiveSession_success _ _ _ _ _ _ HS Hsrc Harch) as [Hdst Hgone].
      destruct (decide (p = sessionPath st S true)) as [->|Hne1].
      { rewrite Hdst in Hp. injection Hp as <-. apply terminated_app; [|by eapply Hfs].
        unfold contentAt. destruct (lookupPath fs (sessionPath st S true)) as [[old|]|] eqn:Ho;
          [by eapply Hfs|by left|by left]. }
      destruct (decide (p = sessionPath st S false)) as [->|Hne2]; [congruence|].
      rewrite (ArchiveSession_other _ _ _ _ _ _ Harch p Hne2 Hne1) in Hp. by eapply Hfs.
    + (* the source is a directory *)
      destruct (decide (p = sessionPath st S false)) as [->|Hne2].
      { rewrite (ArchiveSession_ok_no_source _ _ _ _ _ HS Harch) in Hp. done. }
      destruct (decide (p = sessionPath st S true)) as [->|Hne1].
      2:{ rewrite (ArchiveSession_other _ _ _ _ _ _ Harch p Hne2 Hne1) in Hp. by eapply Hfs. }
      revert Harch Hp. unfold ArchiveSession. destruct (decide _); [done|].
      unfold os_Stat. rewrite Hsrc.
      destruct (fails env (OpStat (sessionPath st S false))); [done|].
      destruct (fails env (OpStat (sessionPath st S true))); [done|].
      destruct (lookupPath fs (sessionPath st S true)) as [ndst|] eqn:Hdst.
      * unfold appendFile, os_ReadFile. rewrite Hsrc.
        by destruct (fails env (OpReadFile _)).
      * destruct (os_Rename env fs _ _) as [fs1 ok] eqn:Hrn.
        apply os_Rename_spec in Hrn as (_ & _ & Hr); [|done].
        destruct ok; [|done]. intros [= <-]. destruct (Hr eq_refl) as [_ H2].
        rewrite H2, Hsrc. done.
    + assert (fs' = fs) as ->; [|by eapply Hfs].
      revert Harch. unfold ArchiveSession. destruct (decide _); [done|].
      unfold os_Stat. rewrite Hsrc. destruct (fails env _); [done|]. by intros [= <-].
Qed.

Lemma terminatedFS_empty : terminatedFS emptyFS.
Proof.
  intros [[] name] data; unfold lookupPath; cbn; by rewrite lookup_empty.
Qed.

Lemma success_keeps_logs_terminated_witness :
  terminatedFS (fst (RecordMessage (Some exStore) exEnv emptyFS "abc" EmptyString
                                   "request" spacedPayload)).
Proof.
  destruct (success_keeps_logs_terminated exStore exEnv emptyFS terminatedFS_empty)
    as [Hrec _].
  apply (Hrec "abc"%string EmptyString "request"%string spacedPayload).
  vm_compute. reflexivity.
Defined.

(** X12. Recording onto a log that could be read: when the active log of
    the session is terminated and reads as the messages [ms], then after
    a [RecordMessage] that returns nil (payload within the nesting limit,
    line within the scanner's buffer) it reads as [ms] followed by the
    new message, whatever the number of messages recorded before. *)
Theorem RecordMessage_appends_message
    st env env' fs fs' S toolset direction payload old ms :
  RecordMessage (Some st) env fs S toolset direction payload = (fs', None) ->
  lookupPath fs (sessionPath st S false) = Some (File old) ->
  terminated old ->
  readMessages env' fs (sessionPath st S false) = Ok ms ->
  json.fitsAtDepth 1 (json.RawMessage_MarshalJSON payload) = true ->
  lineFits (recorded env S toolset direction payload) = true ->
  exists pl,
    json.appendCompact (json.RawMessage_MarshalJSON payload) = Some pl
    /\ readMessages env' fs' (sessionPath st S false)
       = Ok (ms ++ [loaded env S toolset direction pl]).
Proof.
  intros Hrec Hold Hterm Hread Hfit Hline.
  destruct (readMessages_Ok _ _ _ _ Hread) as (Hop & Hrd & data & Hdata & Hdec).
  rewrite Hold in Hdata. injection Hdata as <-.
  destruct (RecordMessage_ok _ _ _ _ _ _ _ _ Hrec)
    as (_ & line & dir & Hm & Hdir & _ & Hdir' & _).
  destruct (decodeLines_marshalled _ _ Hm Hfit (lineFits_length _ _ Hline Hm))
    as (pl & Hpl & Hdec1).
  cbn [Payload SessionID Toolset Direction Timestamp] in Hpl, Hdec1.
  exists pl. split; [done|].
  assert (Hnew : lookupPath fs' (sessionPath st S false)
                 = Some (File (old ++ line ++ [newline]))).
  { unfold lookupPath, sessionPath in *. cbn [fst snd] in *.
    rewrite Hdir in Hold. rewrite Hdir'. cbn [mbind option_bind] in *.
    unfold logName. rewrite lookup_insert_eq. unfold contentOf, logName. by rewrite Hold. }
  rewrite (readMessages_File _ _ _ _ Hop Hrd Hnew).
  rewrite (decodeLines_terminated _ _ _ Hterm Hdec). by rewrite Hdec1.
Qed.

Lemma RecordMessage_appends_message_witness :
  exists pl,
    json.appendCompact (json.RawMessage_MarshalJSON spacedPayload) = Some pl
    /\ readMessages exEnv
         (fst (RecordMessage (Some exStore) exEnv exampleFS "abc" EmptyString
                             "notification" spacedPayload))
         (sessionPath exStore "abc" false)
       = Ok ([mkMessage "abc" "tools" "request" (now exEnv)
                        (Some (list_ascii_of_string "[1,2]"));
              mkMessage "abc" "tools" "response" (now exEnv2)
                        (Some (list_ascii_of_string "null"))]
             ++ [loaded exEnv "abc" EmptyString "notification" pl]).
Proof.
  eapply (RecordMessage_appends_message exStore exEnv exEnv exampleFS _ "abc"
            EmptyString "notification" spacedPayload).
  - vm_compute. reflexivity.
  - vm_compute. reflexivity.
  - apply terminated_last. vm_compute. reflexivity.
  - vm_compute. reflexivity.
  - vm_compute. reflexivity.
  - vm_compute. reflexivity.
Defined.

(** X13. Archiving onto an archive that could be read: when the archived
    log of the session is terminated and reads as [msB] and the active log
    reads as [msA], then after an [ArchiveSession] that returns nil the
    archived log reads as [msB] followed by [msA]. *)
Theorem ArchiveSession_then_read st env env' fs fs' S old msA msB :
  S <> EmptyString ->
  ArchiveSession (Some st) env fs S = (fs', None) ->
  lookupPath fs (sessionPath st S true) = Some (File old) ->
  terminated old ->
  readMessages env' fs (sessionPath st S true) = Ok msB ->
  readMessages env' fs (sessionPath st S false) = Ok msA ->
  readMessages env' fs' (sessionPath st S true) = Ok (msB ++ msA).
Proof.
  intros HS Harch Hold Hterm HreadB HreadA.
  destruct (readMessages_Ok _ _ _ _ HreadB) as (Hop & Hrd & data & Hdata & HdecB).
  rewrite Hold in Hdata. injection Hdata as <-.
  destruct (readMessages_Ok _ _ _ _ HreadA) as (_ & _ & new & Hnew & HdecA).
  destruct (ArchiveSession_merge _ _ _ _ _ _ _ HS Hnew Hold Harch) as (Hdst & _ & _).
  rewrite (readMessages_File _ _ _ _ Hop Hrd Hdst).
  rewrite (decodeLines_terminated _ _ _ Hterm HdecB). by rewrite HdecA.
Qed.

Lemma ArchiveSession_then_read_witness :
  readMessages exEnv
    (fst (ArchiveSession (Some exStore) exEnv
            (fst (RecordMessage (Some exStore) exEnv2 exampleFS "xyz" EmptyString
                                "response" None)) "xyz"))
    (sessionPath exStore "xyz" true)
  = Ok ([mkMessage "xyz" EmptyString "request" (now exEnv)
                   (Some (list_ascii_of_string "[1,2]"))]
        ++ [mkMessage "xyz" EmptyString "response" (now exEnv2)
                      (Some (list_ascii_of_string "null"))]).
Proof.
  eapply (ArchiveSession_then_read exStore exEnv exEnv
            (fst (RecordMessage (Some exStore) exEnv2 exampleFS "xyz" EmptyString
                                "response" None)) _ "xyz").
  - discriminate.
  - vm_compute. reflexivity.
  - vm_compute. reflexivity.
  - apply terminated_last. vm_compute. reflexivity.
  - vm_compute. reflexivity.
  - vm_compute. reflexivity.
Defined.

(** ** The chats [loadChats] returns *)

Lemma TrimSuffix_restore name suffix :
  strings.HasSuffix name suffix = true -> strings.TrimSuffix name suffix +:+ suffix = name.
Proof. intros [p ->]%HasSuffix_spec. by rewrite TrimSuffix_app. Qed.

Lemma loadEntries_sound env fs archived entries :
  NoDup (fst <$> entries) ->
  forall i chats,
    loadEntries env fs archived i entries = Ok chats ->
    NoDup (chatSessionID <$> chats)
    /\ forall c, c ∈ chats ->
         Archived c = archived
         /\ readMessages env fs (archived, chatSessionID c +:+ ".jsonl") = Ok (Messages c).
Proof.
  induction entries as [|[name n] entries IH]; intros Hnd i chats.
  { intros [= <-]. split; [constructor|]. intros c Hc. by apply elem_of_nil in Hc. }
  rewrite fmap_cons in Hnd. apply NoDup_cons in Hnd as [Hfresh Hnd]. cbn [fst] in Hfresh.
  cbn [loadEntries]. destruct (ctxErr env archived i); [done|].
  destruct n as [data|]; cbn [orb]; [|by apply IH].
  destruct (strings.HasSuffix name ".jsonl") eqn:Hs; cbn [negb]; [|by apply IH].
  destruct (readMessages env fs (archived, name)) as [ms|] eqn:Hread; [|done].
  destruct (loadEntries env fs archived (S i) entries) as [cs|] eqn:Hl; [|done].
  intros [= <-]. destruct (IH Hnd _ _ Hl) as [Hids Hall]. split.
  - rewrite fmap_cons. apply NoDup_cons. split; [|done]. cbn [chatSessionID].
    intros (c & Hid & Hc)%list_elem_of_fmap.
    destruct (loadEntries_ids _ _ _ _ _ _ _ Hl Hc) as (n0 & nd0 & Hn0 & Hs0 & Hc0).
    rewrite Hc0 in Hid. apply TrimSuffix_inj in Hid; [|done..]. subst n0.
    apply Hfresh. apply list_elem_of_fmap. by exists (name, nd0).
  - intros c [->|Hc]%elem_of_cons; [|by apply Hall].
    cbn [Archived chatSessionID Messages]. by rewrite TrimSuffix_restore.
Qed.

Lemma loadEntries_complete env fs archived entries name data :
  (name, File data) ∈ entries ->
  strings.HasSuffix name ".jsonl" = true ->
  forall i chats,
    loadEntries env fs archived i entries = Ok chats ->
    exists c, c ∈ chats /\ chatSessionID c = strings.TrimSuffix name ".jsonl".
Proof.
  intros Hin Hsuf. induction entries as [|[name' n'] entries IH]; intros i chats;
    [by apply elem_of_nil in Hin|].
  cbn [loadEntries]. destruct (ctxErr env archived i); [done|].
  apply elem_of_cons in Hin as [[= <- <-]|Hin].
  - cbn [orb]. rewrite Hsuf. cbn [negb].
    destruct (readMessages env fs (archived, name)) as [ms|]; [|done].
    destruct (loadEntries env fs archived (S i) entries) as [cs|]; [|done].
    intros [= <-]. eexists. split; [apply elem_of_cons; by left|done].
  - specialize (IH Hin).
    destruct (_ || _); [by apply IH|].
    destruct (readMessages env fs (archived, name')) as [ms|]; [|done].
    destruct (loadEntries env fs archived (S i) entries) as [cs|] eqn:Hl; [|done].
    intros [= <-]. destruct (IH _ _ Hl) as (c & Hc & Hid).
    exists c. split; [apply elem_of_cons; by right|done].
Qed.

(** The listing [loadChats] goes through when the directory exists. *)
Lemma loadChats_entries st env fs archived chats :
  loadChats st env fs archived = Ok chats ->
  (statusDir fs archived = None /\ chats = [])
  \/ exists d entries,
       statusDir fs archived = Some d
       /\ entries ≡ₚ map_to_list d
       /\ loadEntries env fs archived 0 entries = Ok chats.
Proof.
  unfold loadChats, os_ReadDir. destruct (fails env _); [done|].
  destruct (statusDir fs archived) as [d|]; [|intros [= <-]; by left].
  intros H. right. eexists d, _. split; [done|]. split; [|exact H].
  apply merge_sort_Permutation.
Qed.

Lemma loadChats_sound_aux st env fs archived chats :
  loadChats st env fs archived = Ok chats ->
  NoDup (chatSessionID <$> chats)
  /\ forall c, c ∈ chats ->
       Archived c = archived
       /\ readMessages env fs (archived, chatSessionID c +:+ ".jsonl") = Ok (Messages c).
Proof.
  intros [[_ ->]|(d & entries & Hd & Hperm & Hl)]%loadChats_entries.
  { split; [constructor|]. intros c Hc. by apply elem_of_nil in Hc. }
  eapply loadEntries_sound; [|exact Hl]. rewrite Hperm. apply NoDup_fst_map_to_list.
Qed.

(** X14. The chats of a successful [loadChats] have pairwise distinct
    session identifiers, each carries the status that was loaded, and
    each holds the messages that [readMessages] reads from the log named
    by its identifier followed by [.jsonl] in that status. *)
Theorem loadChats_sound st env fs archived chats :
  loadChats st env fs archived = Ok chats ->
  NoDup (chatSessionID <$> chats)
  /\ forall c, c ∈ chats ->
       Archived c = archived
       /\ readMessages env fs (archived, chatSessionID c +:+ ".jsonl") = Ok (Messages c).
Proof. apply loadChats_sound_aux. Qed.

Lemma loadChats_sound_witness :
  exists chats,
    loadChats exStore exEnv exampleFS true = Ok chats
    /\ NoDup (chatSessionID <$> chats)
    /\ forall c, c ∈ chats ->
         Archived c = true
         /\ readMessages exEnv exampleFS (true, chatSessionID c +:+ ".jsonl")
            = Ok (Messages c).
Proof.
  eexists. split; [vm_compute; reflexivity|].
  apply (loadChats_sound exStore exEnv exampleFS true). vm_compute. reflexivity.
Defined.

Lemma loadChats_complete_aux st env fs archived chats name data :
  loadChats st env fs archived = Ok chats ->
  lookupPath fs (archived, name) = Some (File data) ->
  strings.HasSuffix name ".jsonl" = true ->
  exists c, c ∈ chats /\ chatSessionID c = strings.TrimSuffix name ".jsonl".
Proof.
  intros [[Hd ->]|(d & entries & Hd & Hperm & Hl)]%loadChats_entries Hlook Hsuf;
    unfold lookupPath in Hlook; cbn [fst snd] in Hlook; rewrite Hd in Hlook; [done|].
  cbn [mbind option_bind] in Hlook.
  eapply loadEntries_complete; [|exact Hsuf|exact Hl].
  rewrite Hperm. by apply elem_of_map_to_list.
Qed.

(** X15. A successful [loadChats] misses no log: every file of the status
    directory whose name ends in [.jsonl] has a chat, named by the file
    name without that suffix. *)
Theorem loadChats_complete st env fs archived chats name data :
  loadChats st env fs archived = Ok chats ->
  lookupPath fs (archived, name) = Some (File data) ->
  strings.HasSuffix name ".jsonl" = true ->
  exists c, c ∈ chats /\ chatSessionID c = strings.TrimSuffix name ".jsonl".
Proof. apply loadChats_complete_aux. Qed.

Lemma loadChats_complete_witness :
  exists chats,
    loadChats exStore exEnv exampleFS true = Ok chats
    /\ exists c, c ∈ chats
                 /\ chatSessionID c = strings.TrimSuffix "xyz.jsonl" ".jsonl".
Proof.
  eexists. split; [vm_compute; reflexivity|].
  eapply (loadChats_complete exStore exEnv exampleFS true _ "xyz.jsonl").
  - vm_compute. reflexivity.
  - vm_compute. reflexivity.
  - vm_compute. reflexivity.
Defined.

(** ** The snapshot of [ExportAll] *)

Lemma filter_all {A} (P : A -> Prop) `{forall x, Decision (P x)} (l : list A) :
  (forall x, x ∈ l -> P x) -> filter P l = l.
Proof.
  induction l as [|x l IH]; intros Hall; [done|].
  rewrite filter_cons_True by (apply Hall, elem_of_cons; by left).
  f_equal. apply IH. intros y Hy. apply Hall, elem_of_cons. by right.
Qed.

(** X16. In the snapshot of a successful [ExportAll] the two counters
    agree with the flags of the chats: [activeChats] is the number of
    chats that are not archived, [archivedChats] the number of those that
    are, and together they are the length of [chats]. *)
Theorem ExportAll_counts_match_flags sort_Slice st env fs out export :
  sortsBySessionID sort_Slice ->
  ExportAll sort_Slice (Some st) env fs out = Ok export ->
  ActiveChats export = length (filter (fun c => Archived c = false) (Chats export))
  /\ ArchivedChats export = length (filter (fun c => Archived c = true) (Chats export))
  /\ length (Chats export) = (ActiveChats export + ArchivedChats export)%nat.
Proof.
  intros Hsort Hexp.
  destruct (ExportAll_Ok _ _ _ _ _ _ Hexp) as (active & archived & Ha & Hb & ->).
  cbn [ActiveChats ArchivedChats Chats].
  destruct (Hsort (active ++ archived)) as [Hperm _].
  destruct (loadChats_sound_aux _ _ _ _ _ Ha) as [_ Hfa].
  destruct (loadChats_sound_aux _ _ _ _ _ Hb) as [_ Hfb].
  rewrite !Hperm, !filter_app, !length_app.
  rewrite (filter_all (fun c => Archived c = false) active) by (intros c Hc; by apply Hfa).
  rewrite (filter_none (fun c => Archived c = false) archived).
  2:{ intros c Hc. destruct (Hfb c Hc) as [-> _]. done. }
  rewrite (filter_none (fun c => Archived c = true) active).
  2:{ intros c Hc. destruct (Hfa c Hc) as [-> _]. done. }
  rewrite (filter_all (fun c => Archived c = true) archived) by (intros c Hc; by apply Hfb).
  cbn [length]. repeat split; lia.
Qed.

Lemma ExportAll_counts_match_flags_witness :
  exists export,
    ExportAll mergeSortBy (Some exStore) exEnv exampleFS "export.json" = Ok export
    /\ ActiveChats export = length (filter (fun c => Archived c = false) (Chats export))
    /\ ArchivedChats export = length (filter (fun c => Archived c = true) (Chats export))
    /\ length (Chats export) = (ActiveChats export + ArchivedChats export)%nat.
Proof.
  eexists. split; [vm_compute; reflexivity|].
  apply (ExportAll_counts_match_flags mergeSortBy exStore exEnv exampleFS "export.json").
  - apply mergeSortBy_sorts.
  - vm_compute. reflexivity.
Defined.

(** X17. The snapshot of a successful [ExportAll] holds at most one chat
    per session identifier and status: a session appears at most twice,
    once as active and once as archived. *)
Theorem ExportAll_one_chat_per_status sort_Slice st env fs out export :
  sortsBySessionID sort_Slice ->
  ExportAll sort_Slice (Some st) env fs out = Ok export ->
  NoDup ((fun c => (chatSessionID c, Archived c)) <$> Chats export).
Proof.
  intros Hsort Hexp.
  destruct (ExportAll_Ok _ _ _ _ _ _ Hexp) as (active & archived & Ha & Hb & ->).
  cbn [Chats]. destruct (Hsort (active ++ archived)) as [Hperm _].
  rewrite Hperm, fmap_app.
  destruct (loadChats_sound_aux _ _ _ _ _ Ha) as [Hna Hfa].
  destruct (loadChats_sound_aux _ _ _ _ _ Hb) as [Hnb Hfb].
  assert (Hkeys : forall (l : list Chat),
             NoDup (chatSessionID <$> l) ->
             NoDup ((fun c => (chatSessionID c, Archived c)) <$> l)).
  { intros l Hl. eapply (NoDup_fmap_1 fst). by rewrite <- list_fmap_compose. }
  apply NoDup_app. split; [by apply Hkeys|]. split; [|by apply Hkeys].
  intros k (c1 & -> & Hc1)%list_elem_of_fmap (c2 & [= _ Hflag] & Hc2)%list_elem_of_fmap.
  destruct (Hfa c1 Hc1) as [H1 _]. destruct (Hfb c2 Hc2) as [H2 _]. congruence.
Qed.

Lemma ExportAll_one_chat_per_status_witness :
  exists export,
    ExportAll tieReversingSort (Some exStore) exEnv twiceFS "export.json" = Ok export
    /\ NoDup ((fun c => (chatSessionID c, Archived c)) <$> Chats export).
Proof.
  eexists. split; [vm_compute; reflexivity|].
  apply (ExportAll_one_chat_per_status tieReversingSort exStore exEnv twiceFS
           "export.json").
  - apply tieReversingSort_sorts.
  - vm_compute. reflexivity.
Defined.

Lemma loadChats_malformed st env fs archived d name data l :
  statusDir fs archived = Some d ->
  d !! name = Some (File data) ->
  strings.HasSuffix name ".jsonl" = true ->
  l ∈ rawLines [] data ->
  json_Unmarshal (bufio.dropCR l) zeroMessage = None ->
  exists e, loadChats st env fs archived = Err e.
Proof.
  intros Hd Hname Hsuf Hl Hbad. unfold loadChats, os_ReadDir. rewrite Hd.
  destruct (fails env _); [eauto|].
  eapply loadEntries_malformed; eauto.
  - rewrite merge_sort_Permutation. by apply elem_of_map_to_list.
  - unfold lookupPath. simpl. by rewrite Hd.
Qed.

(** X18. One malformed line is enough to block the export: when a line of
    a [.jsonl] file of either status fails to deserialize, [ExportAll]
    returns an error, whatever the other logs hold. *)
Theorem ExportAll_malformed_line sort_Slice st env fs out archived d name data l :
  statusDir fs archived = Some d ->
  d !! name = Some (File data) ->
  strings.HasSuffix name ".jsonl" = true ->
  l ∈ rawLines [] data ->
  json_Unmarshal (bufio.dropCR l) zeroMessage = None ->
  exists e, ExportAll sort_Slice (Some st) env fs out = Err e.
Proof.
  intros Hd Hname Hsuf Hl Hbad.
  destruct (loadChats_malformed st env fs archived d name data l Hd Hname Hsuf Hl Hbad)
    as [e He].
  unfold ExportAll. destruct (strings.TrimSpace_is_empty out); [eauto|].
  destruct archived.
  - destruct (loadChats st env fs false); [|eauto]. rewrite He. eauto.
  - rewrite He. eauto.
Qed.

Lemma ExportAll_malformed_line_witness :
  exists e, ExportAll mergeSortBy (Some exStore) exEnv tornFS "export.json" = Err e.
Proof.
  eapply (ExportAll_malformed_line mergeSortBy exStore exEnv tornFS "export.json" false)
    with (name := "s.jsonl"%string) (l := list_ascii_of_string "{").
  - reflexivity.
  - vm_compute. reflexivity.
  - vm_compute. reflexivity.
  - vm_compute. right. left.
  - vm_compute. reflexivity.
Defined.

(** ** Blank lines *)

Lemma rawLines_blank pre post :
  forall cur, [] ∈ rawLines cur (pre ++ newline :: newline :: post).
Proof.
  induction pre as [|c pre IH]; intros cur.
  - cbn [app rawLines]. unfold newline. cbn [Ascii.eqb Bool.eqb].
    apply elem_of_cons. right. apply elem_of_cons. by left.
  - cbn [app rawLines]. destruct (Ascii.eqb c "010"); [|apply IH].
    apply elem_of_cons. right. apply IH.
Qed.

(** X19. A blank line is a malformed record: a log that begins with a
    newline, or holds two newlines in a row, cannot be read. *)
Theorem readMessages_blank_line env fs p data pre post :
  lookupPath fs p = Some (File data) ->
  data = newline :: post \/ data = pre ++ newline :: newline :: post ->
  exists e, readMessages env fs p = Err e.
Proof.
  intros Hlook Hdata. unfold readMessages. rewrite Hlook.
  destruct (fails env (OpOpen p)); [eauto|].
  destruct (fails env (OpRead p)); [eauto|].
  apply (decodeLines_malformed maxTokenSize [] data []); [|reflexivity].
  destruct Hdata as [->| ->]; [|apply rawLines_blank].
  cbn [rawLines]. unfold newline. cbn [Ascii.eqb Bool.eqb]. apply elem_of_cons. by left.
Qed.

Lemma readMessages_blank_line_witness :
  exists e,
    readMessages exEnv
      (mkFS (Some {[ "s.jsonl"%string
                     := File (logOf [list_ascii_of_string "{}"; []; list_ascii_of_string "{}"]) ]})
            None)
      (false, "s.jsonl"%string) = Err e.
Proof.
  apply (readMessages_blank_line exEnv _ (false, "s.jsonl"%string)
           (logOf [list_ascii_of_string "{}"; []; list_ascii_of_string "{}"])
           (list_ascii_of_string "{}")
           (logOf [list_ascii_of_string "{}"])).
  - vm_compute. reflexivity.
  - right. reflexivity.
Defined.

(** ** [recordChatMessage] and [recordChatResponse] *)

Lemma RecordMessage_refused st env fs S toolset direction payload :
  S = EmptyString \/ json.appendCompact (json.RawMessage_MarshalJSON payload) = None ->
  fst (RecordMessage (Some st) env fs S toolset direction payload) = fs.
Proof.
  intros H. unfold RecordMessage. destruct (decide (S = EmptyString)); [done|].
  destruct H as [->|Hbad]; [done|].
  unfold json_Marshal. cbn [Payload Timestamp].
  destruct (time.MarshalJSON (now env) ≫= json.appendCompact);
    cbn [mbind option_bind]; [|done].
  by rewrite Hbad.
Qed.

(** X20. A chat message or response with an empty session identifier, or
    with a payload that is not one valid JSON value, is dropped: the
    store is left as it was (the error only reaches the debug log),
    whatever the toolset and whether or not chats are kept. *)
Theorem chat_record_dropped decodesWithoutId s env fs S toolset payload :
  S = EmptyString \/ json.appendCompact (json.RawMessage_MarshalJSON payload) = None ->
  fst (recordChatMessage decodesWithoutId s env fs S toolset payload) = fs
  /\ fst (recordChatResponse s env fs S toolset payload) = fs.
Proof.
  intros H. unfold recordChatMessage, recordChatResponse.
  destruct s as [[[st|]]|]; [|done..].
  split; by apply RecordMessage_refused.
Qed.

Lemma chat_record_dropped_witness :
  fst (recordChatMessage neverNotification (Some exServer) exEnv emptyFS "abc" "tools"
                         plainPayload) = emptyFS
  /\ fst (recordChatResponse (Some exServer) exEnv emptyFS "abc" "tools" plainPayload)
     = emptyFS.
Proof.
  apply (chat_record_dropped neverNotification (Some exServer) exEnv emptyFS "abc"
           "tools" plainPayload).
  right. vm_compute. reflexivity.
Defined.

(** X21. What the two callers record for a session without an active
    log: a message read back after [recordChatMessage] has the direction
    [notification] when the payload decodes as a base message without an
    id and [request] otherwise; one read back after [recordChatResponse]
    has the direction [response].  The payload is within the nesting
    limit and the line within the scanner's buffer. *)
Theorem chat_record_directions
    decodesWithoutId st env env' fs S toolset payload :
  lookupPath fs (sessionPath st S false) = None ->
  json.fitsAtDepth 1 (json.RawMessage_MarshalJSON payload) = true ->
  readsLog env' st S ->
  (forall fs',
      recordChatMessage decodesWithoutId (Some (mkServer (Some st))) env fs S toolset
                        payload = (fs', None) ->
      lineFits (recorded env S toolset
                  (if decodesWithoutId payload then DirectionNotification
                   else DirectionRequest) payload) = true ->
      exists m, readMessages env' fs' (sessionPath st S false) = Ok [m]
                /\ Direction m = if decodesWithoutId payload then DirectionNotification
                                 else DirectionRequest)
  /\ (forall fs',
        recordChatResponse (Some (mkServer (Some st))) env fs S toolset payload
        = (fs', None) ->
        lineFits (recorded env S toolset DirectionResponse payload) = true ->
        exists m, readMessages env' fs' (sessionPath st S false) = Ok [m]
                  /\ Direction m = DirectionResponse).
Proof.
  intros Hfresh Hfit Hreads. unfold recordChatMessage, recordChatResponse.
  cbn [chatStore]. split; intros fs' Hrec Hline.
  - destruct (RecordMessage_fresh_read _ _ _ _ _ _ _ _ _ Hrec Hfresh Hfit Hline Hreads)
      as (pl & _ & Hread).
    eexists. split; [exact Hread|]. cbn [loaded Direction].
    by destruct (decodesWithoutId payload).
  - destruct (RecordMessage_fresh_read _ _ _ _ _ _ _ _ _ Hrec Hfresh Hfit Hline Hreads)
      as (pl & _ & Hread).
    eexists. split; [exact Hread|]. done.
Qed.

Lemma chat_record_directions_witness :
  (exists m, readMessages exEnv
               (fst (recordChatMessage neverNotification (Some exServer) exEnv emptyFS
                                       "abc" "tools" spacedPayload))
               (sessionPath exStore "abc" false) = Ok [m]
             /\ Direction m = DirectionRequest)
  /\ (exists m, readMessages exEnv
                  (fst (recordChatResponse (Some exServer) exEnv emptyFS "abc" "tools"
                                           spacedPayload))
                  (sessionPath exStore "abc" false) = Ok [m]
                /\ Direction m = DirectionResponse).
Proof.
  destruct (chat_record_directions neverNotification exStore exEnv exEnv emptyFS "abc"
              "tools" spacedPayload) as [Hmsg Hresp].
  - vm_compute. reflexivity.
  - vm_compute. reflexivity.
  - apply quietEnv_readsLog.
  - split.
    + apply Hmsg; vm_compute; reflexivity.
    + apply Hresp; vm_compute; reflexivity.
Defined.

(** ** The JSON form of a message *)

(** X22. [json.Unmarshal] undoes [json.Marshal] on a message whose
    strings are valid UTF-8 and whose payload is already compact (and
    within the nesting limit): the message decoded from the line is the
    message that was encoded, an empty toolset included. *)
Theorem Message_json_round_trip m data pl :
  json_Marshal m = Some data ->
  Payload m = Some pl ->
  json.appendCompact pl = Some pl ->
  json.fitsAtDepth 1 pl = true ->
  ValidString (SessionID m) = true ->
  ValidString (Toolset m) = true ->
  ValidString (Direction m) = true ->
  json_Unmarshal data zeroMessage = Some m.
Proof.
  intros Hm Hpl Hcompact Hfit Hs Ht Hd.
  destruct (json_Unmarshal_Marshal m data Hm) as (pl' & Hpl' & Hdec).
  { by rewrite Hpl. }
  rewrite Hpl in Hpl'. cbn [json.RawMessage_MarshalJSON] in Hpl'.
  rewrite Hcompact in Hpl'. injection Hpl' as <-.
  rewrite Hdec, !toValidUTF8_valid by done. rewrite <- Hpl. by destruct m.
Qed.

Lemma Message_json_round_trip_witness :
  exists data,
    json_Marshal (mkMessage "a<b" EmptyString "request" (now exEnv)
                            (Some (list_ascii_of_string "[1,2]"))) = Some data
    /\ json_Unmarshal data zeroMessage
       = Some (mkMessage "a<b" EmptyString "request" (now exEnv)
                         (Some (list_ascii_of_string "[1,2]"))).
Proof.
  eexists. split; [vm_compute; reflexivity|].
  apply (Message_json_round_trip _ _ (list_ascii_of_string "[1,2]"));
    vm_compute; reflexivity.
Defined.

(** ** Failures of [RecordMessage] before the write *)

(** X23. A [RecordMessage] that fails before it writes changes nothing:
    unless the error is the one of the write or of the flush, the file
    system is as it was. *)
Theorem RecordMessage_early_failure st env fs S toolset direction payload fs' e :
  RecordMessage (Some st) env fs S toolset direction payload = (fs', Some e) ->
  e <> ErrWriteMessage -> e <> ErrFlushMessage ->
  fs' = fs.
Proof.
  unfold RecordMessage. destruct (decide (S = EmptyString)); [by intros [= <- _]|].
  destruct (json_Marshal _) as [data|]; [|by intros [= <- _]].
  destruct (os_OpenAppend env fs _) as [fs1 ok1] eqn:Hopen.
  apply os_OpenAppend_spec in Hopen as (_ & Hsame & _).
  destruct ok1; [|intros [= <- _] _ _; exact (Hsame eq_refl)].
  destruct (file_Write env fs1 _ _) as [fs2 ok2].
  destruct (_ <? _), ok2; intros [= <- <-]; done.
Qed.

Lemma RecordMessage_early_failure_witness :
  fst (RecordMessage (Some exStore) exEnv mergeFS "abc" EmptyString "request" plainPayload)
  = mergeFS.
Proof.
  apply (RecordMessage_early_failure exStore exEnv mergeFS "abc" EmptyString "request"
           plainPayload _ ErrMarshalMessage).
  - vm_compute. reflexivity.
  - discriminate.
  - discriminate.
Defined.

(** ** A load after [ArchiveSession] *)

Lemma filter_NoDup_key {A B} `{EqDecision B} (f : A -> B) (l : list A) (c : A) :
  NoDup (f <$> l) -> c ∈ l -> filter (fun x => f x = f c) l = [c].
Proof.
  induction l as [|x l IH]; intros Hnd Hc; [by apply elem_of_nil in Hc|].
  rewrite fmap_cons in Hnd. apply NoDup_cons in Hnd as [Hx Hnd].
  apply elem_of_cons in Hc as [->|Hc].
  - rewrite filter_cons_True by done. f_equal. apply filter_none.
    intros y Hy Hfy. apply Hx. rewrite <- Hfy. apply list_elem_of_fmap. by exists y.
  - rewrite filter_cons_False; [by apply IH|].
    intros Hfx. apply Hx. rewrite Hfx. apply list_elem_of_fmap. by exists c.
Qed.

(** X24. After a successful [ArchiveSession] of a session that had an
    active log, the session is seen as archived only: a load of the
    active status holds no chat for its token, and a load of the archived
    status holds exactly one, with the messages of the archived log. *)
Theorem ArchiveSession_then_load st env env' fs fs' S new chatsA chatsB :
  S <> EmptyString ->
  lookupPath fs (sessionPath st S false) = Some (File new) ->
  ArchiveSession (Some st) env fs S = (fs', None) ->
  loadChats st env' fs' false = Ok chatsA ->
  loadChats st env' fs' true = Ok chatsB ->
  filter (fun c => chatSessionID c = sanitizeSessionID S) chatsA = []
  /\ exists ms,
      readMessages env' fs' (sessionPath st S true) = Ok ms
      /\ filter (fun c => chatSessionID c = sanitizeSessionID S) chatsB
         = [mkChat (sanitizeSessionID S) true ms].
Proof.
  intros HS Hsrc Harch HA HB.
  destruct (ArchiveSession_success _ _ _ _ _ _ HS Hsrc Harch) as [Hdst Hgone].
  destruct (loadChats_sound_aux _ _ _ _ _ HA) as [_ HfA].
  destruct (loadChats_sound_aux _ _ _ _ _ HB) as [HnB HfB].
  split.
  - apply filter_none. intros c Hc Hid. destruct (HfA c Hc) as [_ Hread].
    rewrite Hid in Hread. apply readMessages_Ok in Hread as (_ & _ & data & Hdata & _).
    unfold sessionPath in Hgone. congruence.
  - destruct (logName_suffix S) as [Hsuf Htrim].
    destruct (loadChats_complete_aux st env' fs' true chatsB (logName S) _ HB Hdst Hsuf)
      as (c & Hc & Hid).
    rewrite Htrim in Hid. destruct (HfB c Hc) as [Hflag Hread].
    exists (Messages c). rewrite Hid in Hread. split; [exact Hread|].
    rewrite <- Hid. rewrite (filter_NoDup_key chatSessionID chatsB c HnB Hc).
    destruct c. cbn in *. by subst.
Qed.

Lemma ArchiveSession_then_load_witness :
  exists chatsA chatsB,
    loadChats exStore exEnv (fst (ArchiveSession (Some exStore) exEnv exampleFS "abc"))
              false = Ok chatsA
    /\ loadChats exStore exEnv (fst (ArchiveSession (Some exStore) exEnv exampleFS "abc"))
                 true = Ok chatsB
    /\ filter (fun c => chatSessionID c = sanitizeSessionID "abc") chatsA = []
    /\ exists ms,
        readMessages exEnv (fst (ArchiveSession (Some exStore) exEnv exampleFS "abc"))
                     (sessionPath exStore "abc" true) = Ok ms
        /\ filter (fun c => chatSessionID c = sanitizeSessionID "abc") chatsB
           = [mkChat (sanitizeSessionID "abc") true ms].
Proof.
  eexists _, _. split; [vm_compute; reflexivity|]. split; [vm_compute; reflexivity|].
  eapply (ArchiveSession_then_load exStore exEnv exEnv exampleFS _ "abc").
  - discriminate.
  - vm_compute. reflexivity.
  - vm_compute. reflexivity.
  - vm_compute. reflexivity.
  - vm_compute. reflexivity.
Defined.

(** ** [ArchiveSession] without an archived directory *)

(** X26. [ArchiveSession] does not create the archived directory: when it
    is missing and the session has an active log, the call returns an
    error and changes nothing. *)
Theorem ArchiveSession_missing_directory st env fs S n :
  statusDir fs true = None ->
  S <> EmptyString ->
  lookupPath fs (sessionPath st S false) = Some n ->
  exists e, ArchiveSession (Some st) env fs S = (fs, Some e).
Proof.
  intros Hdir HS Hsrc. unfold ArchiveSession. destruct (decide (S = EmptyString)); [done|].
  unfold os_Stat. rewrite Hsrc.
  destruct (fails env (OpStat (sessionPath st S false))); [eauto|].
  destruct (fails env (OpStat (sessionPath st S true))); [eauto|].
  assert (Hdst : lookupPath fs (sessionPath st S true) = None).
  { unfold lookupPath, sessionPath. cbn [fst snd]. by rewrite Hdir. }
  rewrite Hdst. unfold os_Rename.
  destruct (fails env (OpRename _ _)); [eauto|].
  rewrite Hsrc. cbn [sessionPath fst]. rewrite Hdir. eauto.
Qed.

Lemma ArchiveSession_missing_directory_witness :
  exists e, ArchiveSession (Some exStore) exEnv tornFS "s" = (tornFS, Some e).
Proof.
  eapply (ArchiveSession_missing_directory exStore exEnv tornFS "s").
  - reflexivity.
  - discriminate.
  - vm_compute. reflexivity.
Defined.

(** ** When [RecordMessage] succeeds *)

(** [RecordMessage] returns nil when nothing stands in its way. *)
Lemma RecordMessage_succeeds_aux st env fs S toolset direction payload dir :
  S <> EmptyString ->
  is_Some (json_Marshal (recorded env S toolset direction payload)) ->
  statusDir fs false = Some dir ->
  dir !! logName S <> Some Dir ->
  fails env (OpOpenAppend (sessionPath st S false)) = false ->
  fails env (OpWrite (sessionPath st S false)) = false ->
  snd (RecordMessage (Some st) env fs S toolset direction payload) = None.
Proof.
  intros HS [data Hm] Hdir Hnd Hopen Hwrite. unfold RecordMessage.
  destruct (decide (S = EmptyString)); [done|].
  unfold recorded in Hm. rewrite Hm.
  unfold os_OpenAppend. rewrite Hopen. cbn [sessionPath fst snd]. rewrite Hdir.
  fold (logName S).
  assert (Hw : forall fs1 line,
             (exists old, lookupPath fs1 (false, logName S) = Some (File old)) ->
             snd (file_Write env fs1 (false, logName S) line) = true).
  { intros fs1 line [old Hold]. unfold file_Write. unfold lookupPath in Hold.
    cbn [fst snd] in *. destruct (statusDir fs1 false) as [d|]; [|done].
    cbn [mbind option_bind] in Hold. rewrite Hold.
    unfold sessionPath in Hwrite. fold (logName S) in Hwrite. by rewrite Hwrite. }
  destruct (dir !! logName S) as [[old|]|] eqn:Hl; [|done|].
  - assert (Hok : exists old0, lookupPath fs (false, logName S) = Some (File old0)).
    { exists old. unfold lookupPath. cbn [fst snd]. by rewrite Hdir. }
    destruct (_ <? _);
      match goal with
      | |- snd (match file_Write env fs ?p ?l with _ => _ end) = None =>
        assert (Hs : snd (file_Write env fs p l) = true) by (by apply Hw);
        destruct (file_Write env fs p l) as [fs2 ok]; simpl in Hs; by subst ok
      end.
  - assert (Hok : exists old0,
               lookupPath (setStatusDir fs false (Some (<[logName S := File []]> dir)))
                          (false, logName S) = Some (File old0)).
    { exists []. rewrite lookupPath_setStatusDir_same by done. cbn [snd].
      by rewrite lookup_insert_eq. }
    destruct (_ <? _);
      match goal with
      | |- snd (match file_Write env ?f ?p ?l with _ => _ end) = None =>
        assert (Hs : snd (file_Write env f p l) = true) by (by apply Hw);
        destruct (file_Write env f p l) as [fs2 ok]; simpl in Hs; by subst ok
      end.
Qed.

(** X27. [RecordMessage] returns nil when nothing stands in its way: the
    session identifier is not empty, the message can be marshalled (a
    payload that is valid JSON, a timestamp JSON can hold), the active
    directory exists, the name of the log is not taken by a directory,
    and neither opening the log nor writing to it meets an I/O error. *)
Theorem RecordMessage_succeeds st env fs S toolset direction payload dir :
  S <> EmptyString ->
  is_Some (json_Marshal (recorded env S toolset direction payload)) ->
  statusDir fs false = Some dir ->
  dir !! logName S <> Some Dir ->
  fails env (OpOpenAppend (sessionPath st S false)) = false ->
  fails env (OpWrite (sessionPath st S false)) = false ->
  snd (RecordMessage (Some st) env fs S toolset direction payload) = None.
Proof. apply RecordMessage_succeeds_aux. Qed.

Lemma RecordMessage_succeeds_witness :
  snd (RecordMessage (Some exStore) exEnv emptyFS "abc" "tools" "request" spacedPayload)
  = None.
Proof.
  apply (RecordMessage_succeeds exStore exEnv emptyFS "abc" "tools" "request"
           spacedPayload ∅).
  - discriminate.
  - vm_compute. eauto.
  - reflexivity.
  - rewrite lookup_empty. discriminate.
  - reflexivity.
  - reflexivity.
Defined.
